(** * A shallow embedding of the nettrace parser (vscode-nettrace)

    The development follows the TypeScript sources:
    - [BufferReader] and [NetTraceParser] of the parser module,
    - [buildFlameGraphData] of the custom editor provider.

    JavaScript values are modelled as follows.
    - A [Buffer] is a [list byte]; an index outside the buffer yields
      [undefined], modelled by [None].
    - A [number] that holds an integer, and a [bigint], are both [Z]; the
      32-bit wrap-around of the bitwise operators is written out with
      [ToInt32] and [ToUint32].
    - A [string] is the list of its UTF-16 code units.
    - A [Map] is an association list in insertion order, which is the
      iteration order of a JavaScript [Map].
    - A thrown [Error] is a value of [JSError]; a method that may throw
      returns a [Res] together with the state it leaves behind, because the
      callers keep using the reader after they have caught an exception.
    Calls to [console.log] under [this.debug] have no effect on the parse
    result and are left out. *)

From Stdlib Require Import ZArith List Bool String Ascii Lia Sorted.
From Stdlib Require DecimalString HexadecimalString.
From Equations Require Import Equations.
From Stdlib.Strings Require Import Byte.
Import ListNotations.
Open Scope Z_scope.

Set Implicit Arguments.

(** ** JavaScript strings and 32-bit integers *)

Definition jsstring := list Z.

Definition lit (s : string) : jsstring :=
  map (fun a => Z.of_N (N_of_ascii a)) (list_ascii_of_string s).

Definition jsstring_eqb (a b : jsstring) : bool :=
  if list_eq_dec Z.eq_dec a b then true else false.

Fixpoint startsWith (s prefix : jsstring) : bool :=
  match prefix, s with
  | [], _ => true
  | p :: prefix', c :: s' => (c =? p) && startsWith s' prefix'
  | _ :: _, [] => false
  end.

Definition ToInt32 (z : Z) : Z := (z + 2 ^ 31) mod 2 ^ 32 - 2 ^ 31.
Definition ToUint32 (z : Z) : Z := z mod 2 ^ 32.

(** ** Exceptions *)

Inductive JSError : Type :=
| EndOfBuffer (offset : Z)              (* End of buffer at offset ${offset} *)
| EndOfBufferNeed (offset count : Z)    (* ..., need ${count} bytes *)
| EndOfBufferVarint                     (* End of buffer reading varint *)
| EndOfBufferVarint64                   (* End of buffer reading varint64 *)
| EndOfBufferVarUInt64                  (* End of buffer reading varuint64 *)
| EndOfBufferString (length : Z)        (* End of buffer reading string of length ... *)
| RangeError (offset : Z)               (* thrown by Buffer.readXxxLE at a negative offset *)
| CallStackExceeded                     (* RangeError: Maximum call stack size exceeded *)
| FileTooSmall                          (* File too small to be a valid .nettrace file *)
| MissingMagic                          (* Invalid file: missing Nettrace magic header *)
| InvalidSerializationHeader (header : jsstring).

Inductive Res (A : Type) : Type :=
| Ok (a : A)
| Throw (e : JSError).
Arguments Ok {A} a.
Arguments Throw {A} e.

(** ** A state monad whose exceptions keep the state *)

Definition M (S A : Type) : Type := S -> Res A * S.

Definition ret {S A} (a : A) : M S A := fun s => (Ok a, s).

Definition bind {S A B} (m : M S A) (k : A -> M S B) : M S B :=
  fun s => match m s with
           | (Ok a, s') => k a s'
           | (Throw e, s') => (Throw e, s')
           end.

Definition throw {S A} (e : JSError) : M S A := fun s => (Throw e, s).

Definition try_catch {S A} (m : M S A) (h : JSError -> M S A) : M S A :=
  fun s => match m s with
           | (Ok a, s') => (Ok a, s')
           | (Throw e, s') => h e s'
           end.

Definition gets {S A} (f : S -> A) : M S A := fun s => (Ok (f s), s).
Definition modify {S} (f : S -> S) : M S unit := fun s => (Ok tt, f s).

(** [zoom] runs a computation on a component of the state. *)
Definition zoom {S T A} (get : S -> T) (set : T -> S -> S) (m : M T A) : M S A :=
  fun s => let (r, t') := m (get s) in (r, set t' s).

(** [with_local l m] runs [m] with a fresh local object [l], which is
    dropped afterwards. *)
Definition with_local {L S A} (l : L) (m : M (L * S) A) : M S A :=
  fun s => let (r, ls) := m (l, s) in (r, snd ls).

Definition onLocal {L S A} (m : M L A) : M (L * S) A :=
  zoom fst (fun l ls => (l, snd ls)) m.
Definition onOuter {L S A} (m : M S A) : M (L * S) A :=
  zoom snd (fun s ls => (fst ls, s)) m.

Declare Scope monad_scope.
Delimit Scope monad_scope with monad.
Notation "x <- m ;; k" := (bind m (fun x => k))
  (at level 61, m at next level, right associativity) : monad_scope.
Notation "m ;;; k" := (bind m (fun _ => k))
  (at level 61, right associativity) : monad_scope.
Open Scope monad_scope.

Definition when {S} (b : bool) (m : M S unit) : M S unit :=
  if b then m else ret tt.

(** ** BufferReader *)

Record BufferReader : Type := mkReader {
  buffer : list byte;
  _offset : Z
}.

Definition byteZ (b : byte) : Z := Z.of_N (Byte.to_N b).

Definition buflen (buf : list byte) : Z := Z.of_nat (List.length buf).

(** [buf[i]]: [undefined] outside the buffer. *)
Definition byteAt (buf : list byte) (i : Z) : option Z :=
  if (i <? 0) then None
  else option_map byteZ (nth_error buf (Z.to_nat i)).

(** [Buffer.prototype.slice(start, end)]: negative indices count from the
    end, and both are clamped to the buffer. *)
Definition relIndex (len i : Z) : Z :=
  if i <? 0 then Z.max (len + i) 0 else Z.min i len.

Definition slice (buf : list byte) (s e : Z) : list byte :=
  let s' := relIndex (buflen buf) s in
  let e' := relIndex (buflen buf) e in
  firstn (Z.to_nat (e' - s')) (skipn (Z.to_nat s') buf).

(** Little-endian value of a run of bytes. *)
Fixpoint leValue (bs : list byte) : Z :=
  match bs with
  | [] => 0
  | b :: bs' => byteZ b + 256 * leValue bs'
  end.

Definition toSigned (bits : Z) (v : Z) : Z :=
  if v <? 2 ^ (bits - 1) then v else v - 2 ^ bits.

(** [buffer.readUIntLE]-style accessors of Node: they throw a RangeError
    when the offset is negative or the value does not fit. *)
Definition bufReadU (buf : list byte) (off width : Z) : Res Z :=
  if (off <? 0) || (buflen buf <? off + width) then Throw (RangeError off)
  else Ok (leValue (firstn (Z.to_nat width) (skipn (Z.to_nat off) buf))).

Definition bufReadS (buf : list byte) (off width : Z) : Res Z :=
  match bufReadU buf off width with
  | Ok v => Ok (toSigned (8 * width) v)
  | Throw e => Throw e
  end.

(** [buf.toString('ascii', start, end)]: the high bit of every byte is
    cleared. *)
Definition toStringAscii (buf : list byte) (s e : Z) : jsstring :=
  let len := buflen buf in
  let s' := if s <=? 0 then 0 else s in
  if len <=? s' then []
  else
    let e' := if len <? e then len else e in
    if e' <=? s' then []
    else map (fun b => Z.land (byteZ b) 127)
             (firstn (Z.to_nat (e' - s')) (skipn (Z.to_nat s') buf)).

Module BufferReader.

Definition R := M BufferReader.

Definition offset (r : BufferReader) : Z := _offset r.
Definition set_offset (v : Z) (r : BufferReader) : BufferReader :=
  mkReader (buffer r) v.

Definition remaining (r : BufferReader) : Z := buflen (buffer r) - _offset r.

Definition getBuffer (r : BufferReader) : list byte := buffer r.

Definition hasBytes (r : BufferReader) (count : Z) : bool :=
  _offset r + count <=? buflen (buffer r).

Definition readByte : R (option Z) :=
  fun r =>
    if negb (hasBytes r 1) then (Throw (EndOfBuffer (_offset r)), r)
    else (Ok (byteAt (buffer r) (_offset r)), set_offset (_offset r + 1) r).

Definition peekByte : R (option Z) :=
  fun r =>
    if negb (hasBytes r 1) then (Throw (EndOfBuffer (_offset r)), r)
    else (Ok (byteAt (buffer r) (_offset r)), r).

(** The common shape of the fixed-width readers. *)
Definition readFixed (width : Z) (get : list byte -> Z -> Z -> Res Z) : R Z :=
  fun r =>
    if negb (hasBytes r width) then (Throw (EndOfBuffer (_offset r)), r)
    else match get (buffer r) (_offset r) width with
         | Ok v => (Ok v, set_offset (_offset r + width) r)
         | Throw e => (Throw e, r)
         end.

Definition readInt16LE : R Z := readFixed 2 bufReadS.
Definition readUInt16LE : R Z := readFixed 2 bufReadU.
Definition readInt32LE : R Z := readFixed 4 bufReadS.
Definition readUInt32LE : R Z := readFixed 4 bufReadU.
Definition readInt64LE : R Z := readFixed 8 bufReadS.
Definition readUInt64LE : R Z := readFixed 8 bufReadU.

Definition readBytes (count : Z) : R (list byte) :=
  fun r =>
    if negb (hasBytes r count)
    then (Throw (EndOfBufferNeed (_offset r) count), r)
    else (Ok (slice (buffer r) (_offset r) (_offset r + count)),
          set_offset (_offset r + count) r).

(** [b & mask] for a byte that may be [undefined] ([undefined & m] is 0). *)
Definition band (b : option Z) (mask : Z) : Z :=
  match b with
  | Some v => Z.land v mask
  | None => 0
  end.

(** The do-while loop of [readVarUInt]; [shift < 35] stops it after five
    rounds at the latest, which is the fuel given below. *)
Fixpoint readVarUInt_loop (fuel : nat) (result shift : Z) : R Z :=
  match fuel with
  | O => ret (ToUint32 result)
  | S fuel' =>
      fun r =>
        if negb (hasBytes r 1) then (Throw EndOfBufferVarint, r)
        else
          (b <- readByte ;;
           let result' :=
             ToInt32 (Z.lor result (ToInt32 (Z.shiftl (band b 127) shift))) in
           let shift' := shift + 7 in
           if negb (band b 128 =? 0) && (shift' <? 35)
           then readVarUInt_loop fuel' result' shift'
           else ret (ToUint32 result')) r
  end.

Definition readVarUInt : R Z := readVarUInt_loop 5 0 0.

(** [readVarInt64] and [readVarUInt64] run the same loop on bigints, up
    to [shift < 70], that is ten rounds; they differ in the message of
    the exception only. *)
Fixpoint readVar64_loop (e : JSError) (fuel : nat) (result shift : Z) : R Z :=
  match fuel with
  | O => ret result
  | S fuel' =>
      fun r =>
        if negb (hasBytes r 1) then (Throw e, r)
        else
          (b <- readByte ;;
           let result' := Z.lor result (Z.shiftl (band b 127) shift) in
           let shift' := shift + 7 in
           if negb (band b 128 =? 0) && (shift' <? 70)
           then readVar64_loop e fuel' result' shift'
           else ret result') r
  end.

Definition readVarInt64 : R Z := readVar64_loop EndOfBufferVarint64 10 0 0.
Definition readVarUInt64 : R Z := readVar64_loop EndOfBufferVarUInt64 10 0 0.

(** The while loop of [readNullTerminatedUTF16]; every round moves the
    offset by two, so the length of the buffer bounds the rounds. *)
Fixpoint readNullTerminatedUTF16_loop (fuel : nat) (chars : list Z) : R jsstring :=
  match fuel with
  | O => ret chars
  | S fuel' =>
      fun r =>
        if hasBytes r 2 then
          (code <- readUInt16LE ;;
           if code =? 0 then ret chars
           else readNullTerminatedUTF16_loop fuel' (chars ++ [code])) r
        else (Ok chars, r)
  end.

(** The number of arguments that a call takes. The language sets no
    bound, and an engine throws a [RangeError] where the arguments of a
    call no longer fit its stack, which depends on the engine and on the
    size of its stack. The model fixes a bound of 65535 arguments or more
    and keeps its value hidden: its definition ends in [Qed], so that
    only the lower bound is known of it. *)
Definition argumentsLimit_sig : {n : Z | 65535 <= n}.
Proof. exists 65535. apply Z.le_refl. Qed.

Definition argumentsLimit : Z := proj1_sig argumentsLimit_sig.

(** The first test decides for the calls of up to 65535 arguments without
    a look at the hidden bound; by the lower bound of [argumentsLimit] the
    two tests together are [n <= argumentsLimit]. *)
Definition fitsArguments (n : Z) : bool :=
  if n <=? 65535 then true else n <=? argumentsLimit.

(** [String.fromCharCode(...chars)]: the code units are the arguments of
    the call. *)
Definition fromCharCodes (chars : list Z) : R jsstring :=
  if fitsArguments (Z.of_nat (List.length chars)) then ret chars
  else throw CallStackExceeded.

Definition readNullTerminatedUTF16 : R jsstring :=
  chars <- (fun r => readNullTerminatedUTF16_loop (S (List.length (buffer r))) [] r) ;;
  fromCharCodes chars.

Definition readAsciiString (length : Z) : R jsstring :=
  fun r =>
    if negb (hasBytes r length) then (Throw (EndOfBufferString length), r)
    else (Ok (toStringAscii (buffer r) (_offset r) (_offset r + length)),
          set_offset (_offset r + length) r).

Definition skip (count : Z) : R unit :=
  fun r =>
    if 0 <? count
    then (Ok tt, set_offset (Z.min (_offset r + count) (buflen (buffer r))) r)
    else (Ok tt, r).

(** [offset % boundary] is NaN for a zero boundary, and [skip(NaN)] does
    nothing. *)
Definition align (boundary : Z) : R unit :=
  fun r =>
    if boundary =? 0 then (Ok tt, r)
    else
      let mod_ := Z.rem (_offset r) boundary in
      if negb (mod_ =? 0) then skip (boundary - mod_) r else (Ok tt, r).

Definition subReader (length : Z) : R BufferReader :=
  subBuf <- readBytes length ;;
  ret (mkReader subBuf 0).

End BufferReader.

(** ** JavaScript [Map] and [Set], in insertion order *)

Class EqDec (K : Type) : Type := eq_dec : forall a b : K, {a = b} + {a <> b}.
#[export] Instance Z_EqDec : EqDec Z := Z.eq_dec.
#[export] Instance jsstring_EqDec : EqDec jsstring := list_eq_dec Z.eq_dec.

Module JSMap.
Section Defs.
Context {K V : Type} {dec : EqDec K}.

Definition t : Type := list (K * V).

Definition empty : t := [].

Fixpoint get (k : K) (m : t) : option V :=
      match m with
      | [] => None
      | (k', v) :: m' => if eq_dec k k' then Some v else get k m'
      end.

    (** [set] on a key that is present keeps the position of the entry. *)
Fixpoint set (k : K) (v : V) (m : t) : t :=
      match m with
      | [] => [(k, v)]
      | (k', v') :: m' =>
          if eq_dec k k' then (k, v) :: m' else (k', v') :: set k v m'
      end.

Definition has (k : K) (m : t) : bool :=
      match get k m with Some _ => true | None => false end.

Definition keys (m : t) : list K := map fst m.
Definition values (m : t) : list V := map snd m.
Definition size (m : t) : Z := Z.of_nat (List.length m).
End Defs.
Arguments t : clear implicits.
End JSMap.

Module JSSet.
Section Defs.
Context {K : Type} {dec : EqDec K}.

Definition t : Type := list K.
Definition empty : t := [].

Definition has (k : K) (s : t) : bool :=
      if in_dec eq_dec k s then true else false.

Definition add (k : K) (s : t) : t :=
      if has k s then s else s ++ [k].

    (** [new Set([...a, ...b])] *)
Definition ofList (l : list K) : t := fold_left (fun s k => add k s) l empty.
End Defs.
Arguments t : clear implicits.
End JSSet.

(** ** The data model of the parser *)

(** The arguments handed to [Date.UTC]. *)
Record DateUTC : Type := mkDateUTC {
  year : Z; monthIndex : Z; day : Z;
  hour : Z; minute : Z; second : Z; millisecond : Z
}.

Module TraceInfo.
Record t : Type := mk {
    syncTimeUTC : DateUTC;
    syncTimeTicks : Z;
    tickFrequency : Z;
    pointerSize : Z;
    processId : Z;
    numberOfProcessors : Z;
    cpuSamplingRate : Z
  }.
End TraceInfo.

Module FieldMetadata.
Record t : Type := mk { name : jsstring; typeCode : Z }.
End FieldMetadata.

Module EventMetadata.
Record t : Type := mk {
    metadataId : Z;
    providerName : jsstring;
    eventId : Z;
    eventName : jsstring;
    keywords : Z;
    version : Z;
    level : Z;
    opcode : Z;
    fields : list FieldMetadata.t
  }.
End EventMetadata.

Module AllocationEvent.
Record t : Type := mk {
    typeName : jsstring;
    size : Z;
    timestamp : Z;
    stackTrace : option (list jsstring)
  }.
End AllocationEvent.

Module AllocationInfo.
Record t : Type := mk {
    typeName : jsstring;
    count : Z;
    totalSize : Z;
    allocations : list AllocationEvent.t
  }.
End AllocationInfo.

Module StackInfo.
Record t : Type := mk { stackId : Z; addresses : list Z }.
End StackInfo.

Module MethodInfo.
Record t : Type := mk {
    methodId : Z;
    moduleId : Z;
    methodStartAddress : Z;
    methodSize : Z;
    methodToken : Z;
    methodFlags : Z;
    methodNamespace : jsstring;
    methodName : jsstring;
    methodSignature : jsstring
  }.
End MethodInfo.

Module MethodProfile.
Record t : Type := mk {
    methodName : jsstring;
    inclusiveCount : Z;
    exclusiveCount : Z;
    inclusiveTimeMs : Z;
    exclusiveTimeMs : Z
  }.
End MethodProfile.

(** The [{ count, size }] objects of the allocation tables. *)
Module CountSize.
Record t : Type := mk { count : Z; size : Z }.
End CountSize.

Module AllocationSample.
Record t : Type := mk {
    count : Z;
    size : Z;
    types : JSMap.t jsstring CountSize.t
  }.
End AllocationSample.

Module TypeInfo.
Record t : Type := mk {
    typeIndex : Z;
    version : Z;
    minReaderVersion : Z;
    typeName : jsstring
  }.
End TypeInfo.

(** The strings pushed on the error lists. *)
Inductive ErrorEntry : Type :=
| ParseError (e : JSError)                          (* Parse error: ${errMsg} *)
| UnknownTypeIndex (typeIndex : Z)                  (* Unknown type index: ${typeIndex} *)
| ErrorParsing (typeName : jsstring) (e : JSError)  (* Error parsing ${typeName}: ${errMsg} *)
| ErrorProcessing (typeName : jsstring) (e : JSError). (* Error processing ${typeName}: ${errMsg} *)

Module ResultDebugInfo.
Record t : Type := mk {
    totalEvents : Z;
    allocationEvents : Z;
    providers : list jsstring;
    eventCounts : JSMap.t jsstring Z;
    samplingIntervalMs : Z
  }.
End ResultDebugInfo.

Module ParseResult.
Record t : Type := mk {
    traceInfo : option TraceInfo.t;
    metadata : JSMap.t Z EventMetadata.t;
    allocations : JSMap.t jsstring AllocationInfo.t;
    stacks : JSMap.t Z StackInfo.t;
    methods : JSMap.t Z MethodInfo.t;
    methodsByAddress : JSMap.t Z MethodInfo.t;
    methodProfiles : JSMap.t jsstring MethodProfile.t;
    allocationSamples : JSMap.t Z AllocationSample.t;
    typeStackDistribution : JSMap.t jsstring (JSMap.t Z CountSize.t);
    errors : list ErrorEntry;
    debugInfo : ResultDebugInfo.t
  }.

  (** The object literal at the start of [parse]. The [events] array is
      never written and is left out. *)
Definition initial : t :=
    mk None JSMap.empty JSMap.empty JSMap.empty JSMap.empty JSMap.empty
       JSMap.empty JSMap.empty JSMap.empty []
       (ResultDebugInfo.mk 0 0 [] JSMap.empty 1).

Definition set_traceInfo v (r : t) : t :=
    mk v (metadata r) (allocations r) (stacks r) (methods r) (methodsByAddress r)
       (methodProfiles r) (allocationSamples r) (typeStackDistribution r)
       (errors r) (debugInfo r).
Definition set_metadata v (r : t) : t :=
    mk (traceInfo r) v (allocations r) (stacks r) (methods r) (methodsByAddress r)
       (methodProfiles r) (allocationSamples r) (typeStackDistribution r)
       (errors r) (debugInfo r).
Definition set_allocations v (r : t) : t :=
    mk (traceInfo r) (metadata r) v (stacks r) (methods r) (methodsByAddress r)
       (methodProfiles r) (allocationSamples r) (typeStackDistribution r)
       (errors r) (debugInfo r).
Definition set_stacks v (r : t) : t :=
    mk (traceInfo r) (metadata r) (allocations r) v (methods r) (methodsByAddress r)
       (methodProfiles r) (allocationSamples r) (typeStackDistribution r)
       (errors r) (debugInfo r).
Definition set_methods v (r : t) : t :=
    mk (traceInfo r) (metadata r) (allocations r) (stacks r) v (methodsByAddress r)
       (methodProfiles r) (allocationSamples r) (typeStackDistribution r)
       (errors r) (debugInfo r).
Definition set_methodsByAddress v (r : t) : t :=
    mk (traceInfo r) (metadata r) (allocations r) (stacks r) (methods r) v
       (methodProfiles r) (allocationSamples r) (typeStackDistribution r)
       (errors r) (debugInfo r).
Definition set_methodProfiles v (r : t) : t :=
    mk (traceInfo r) (metadata r) (allocations r) (stacks r) (methods r)
       (methodsByAddress r) v (allocationSamples r) (typeStackDistribution r)
       (errors r) (debugInfo r).
Definition set_allocationSamples v (r : t) : t :=
    mk (traceInfo r) (metadata r) (allocations r) (stacks r) (methods r)
       (methodsByAddress r) (methodProfiles r) v (typeStackDistribution r)
       (errors r) (debugInfo r).
Definition set_typeStackDistribution v (r : t) : t :=
    mk (traceInfo r) (metadata r) (allocations r) (stacks r) (methods r)
       (methodsByAddress r) (methodProfiles r) (allocationSamples r) v
       (errors r) (debugInfo r).
Definition set_errors v (r : t) : t :=
    mk (traceInfo r) (metadata r) (allocations r) (stacks r) (methods r)
       (methodsByAddress r) (methodProfiles r) (allocationSamples r)
       (typeStackDistribution r) v (debugInfo r).
Definition set_debugInfo v (r : t) : t :=
    mk (traceInfo r) (metadata r) (allocations r) (stacks r) (methods r)
       (methodsByAddress r) (methodProfiles r) (allocationSamples r)
       (typeStackDistribution r) (errors r) v.
End ParseResult.

(** The private [debugInfo] counters of the parser. *)
Module DebugInfo.
Record t : Type := mk {
    totalEvents : Z;
    allocationEvents : Z;
    providers : JSSet.t jsstring;
    metadataBlocks : Z;
    eventBlocks : Z;
    eventCountsByMetadataId : JSMap.t Z Z
  }.

Definition initial : t := mk 0 0 JSSet.empty 0 0 JSMap.empty.

Definition set_totalEvents v (d : t) : t :=
    mk v (allocationEvents d) (providers d) (metadataBlocks d) (eventBlocks d)
       (eventCountsByMetadataId d).
Definition set_allocationEvents v (d : t) : t :=
    mk (totalEvents d) v (providers d) (metadataBlocks d) (eventBlocks d)
       (eventCountsByMetadataId d).
Definition set_providers v (d : t) : t :=
    mk (totalEvents d) (allocationEvents d) v (metadataBlocks d) (eventBlocks d)
       (eventCountsByMetadataId d).
Definition set_metadataBlocks v (d : t) : t :=
    mk (totalEvents d) (allocationEvents d) (providers d) v (eventBlocks d)
       (eventCountsByMetadataId d).
Definition set_eventBlocks v (d : t) : t :=
    mk (totalEvents d) (allocationEvents d) (providers d) (metadataBlocks d) v
       (eventCountsByMetadataId d).
Definition set_eventCountsByMetadataId v (d : t) : t :=
    mk (totalEvents d) (allocationEvents d) (providers d) (metadataBlocks d)
       (eventBlocks d) v.
End DebugInfo.

(** The private fields of [NetTraceParser]. The fields [buffer] (never
    written; it is the buffer of [reader]), [fileVersion] and [debug] are
    left out. *)
Module Parser.
Record t : Type := mk {
    reader : BufferReader;
    metadata : JSMap.t Z EventMetadata.t;
    stacks : JSMap.t Z StackInfo.t;
    pointerSize : Z;
    processId : Z;
    errors : list ErrorEntry;
    typeRegistry : JSMap.t Z TypeInfo.t;
    nextTypeIndex : Z;
    debugInfo : DebugInfo.t;
    cpuSamples : JSMap.t Z Z
  }.

Definition initial (buf : list byte) : t :=
    mk (mkReader buf 0) JSMap.empty JSMap.empty 8 0 [] JSMap.empty 0
       DebugInfo.initial JSMap.empty.

Definition set_reader v (p : t) : t :=
    mk v (metadata p) (stacks p) (pointerSize p) (processId p) (errors p)
       (typeRegistry p) (nextTypeIndex p) (debugInfo p) (cpuSamples p).
Definition set_metadata v (p : t) : t :=
    mk (reader p) v (stacks p) (pointerSize p) (processId p) (errors p)
       (typeRegistry p) (nextTypeIndex p) (debugInfo p) (cpuSamples p).
Definition set_stacks v (p : t) : t :=
    mk (reader p) (metadata p) v (pointerSize p) (processId p) (errors p)
       (typeRegistry p) (nextTypeIndex p) (debugInfo p) (cpuSamples p).
Definition set_pointerSize v (p : t) : t :=
    mk (reader p) (metadata p) (stacks p) v (processId p) (errors p)
       (typeRegistry p) (nextTypeIndex p) (debugInfo p) (cpuSamples p).
Definition set_processId v (p : t) : t :=
    mk (reader p) (metadata p) (stacks p) (pointerSize p) v (errors p)
       (typeRegistry p) (nextTypeIndex p) (debugInfo p) (cpuSamples p).
Definition set_errors v (p : t) : t :=
    mk (reader p) (metadata p) (stacks p) (pointerSize p) (processId p) v
       (typeRegistry p) (nextTypeIndex p) (debugInfo p) (cpuSamples p).
Definition set_typeRegistry v (p : t) : t :=
    mk (reader p) (metadata p) (stacks p) (pointerSize p) (processId p) (errors p)
       v (nextTypeIndex p) (debugInfo p) (cpuSamples p).
Definition set_nextTypeIndex v (p : t) : t :=
    mk (reader p) (metadata p) (stacks p) (pointerSize p) (processId p) (errors p)
       (typeRegistry p) v (debugInfo p) (cpuSamples p).
Definition set_debugInfo v (p : t) : t :=
    mk (reader p) (metadata p) (stacks p) (pointerSize p) (processId p) (errors p)
       (typeRegistry p) (nextTypeIndex p) v (cpuSamples p).
Definition set_cpuSamples v (p : t) : t :=
    mk (reader p) (metadata p) (stacks p) (pointerSize p) (processId p) (errors p)
       (typeRegistry p) (nextTypeIndex p) (debugInfo p) v.
End Parser.

(** What a method of the parser can see and change: the parser itself and
    the [result] object handed down from [parse]. *)
Record World : Type := mkWorld {
  this : Parser.t;
  result : ParseResult.t
}.

Definition updThis (f : Parser.t -> Parser.t) (w : World) : World :=
  mkWorld (f (this w)) (result w).
Definition updResult (f : ParseResult.t -> ParseResult.t) (w : World) : World :=
  mkWorld (this w) (f (result w)).

(** ** NetTraceParser *)


(** [n.toString(16)] of a bigint, and the template [`0x${addr.toString(16)}`]. *)
Definition bigintToString16 (z : Z) : jsstring :=
  if z <? 0
  then lit "-" ++ lit (HexadecimalString.NilZero.string_of_uint (N.to_hex_uint (Z.to_N (- z))))
  else lit (HexadecimalString.NilZero.string_of_uint (N.to_hex_uint (Z.to_N z))).

Definition hexAddr (addr : Z) : jsstring := lit "0x" ++ bigintToString16 addr.

(** FastSerialization tags (the [SerializationTag] enum). *)
Module SerializationTag.
Definition NullReference : Z := 1.
Definition BeginObject : Z := 4.
Definition BeginPrivateObject : Z := 5.
Definition EndObject : Z := 6.
Definition Blob : Z := 14.
End SerializationTag.

Definition DOTNET_RUNTIME_PROVIDER : jsstring := lit "Microsoft-Windows-DotNETRuntime".
Definition DOTNET_RUNTIME_RUNDOWN_PROVIDER : jsstring :=
  lit "Microsoft-Windows-DotNETRuntimeRundown".
Definition SAMPLE_PROFILER_PROVIDER : jsstring := lit "Microsoft-DotNETCore-SampleProfiler".
Definition GC_ALLOCATION_TICK_EVENT_ID : Z := 10.
Definition METHOD_LOAD_VERBOSE_EVENT_ID : Z := 143.
Definition METHOD_JITTING_STARTED_EVENT_ID : Z := 145.
Definition METHOD_DC_END_VERBOSE_EVENT_ID : Z := 144.

(** [tag === t] for a byte that may be [undefined]. *)
Definition tagIs (b : option Z) (t : Z) : bool :=
  match b with
  | Some v => v =? t
  | None => false
  end.

Definition W := M World.
(** Methods that work on a local reader next to the parser. *)
Definition LW := M (BufferReader * World).

(** [this.reader.op(...)] *)
Definition onReader {A} (m : BufferReader.R A) : W A :=
  zoom (fun w => Parser.reader (this w))
       (fun r w => updThis (Parser.set_reader r) w) m.

(** [this.errors.push(e)] *)
Definition pushError (e : ErrorEntry) : W unit :=
  modify (updThis (fun p => Parser.set_errors (Parser.errors p ++ [e]) p)).

Definition stackTraceOf (stacks : JSMap.t Z StackInfo.t) (stackId : Z)
  : option (list jsstring) :=
  match JSMap.get stackId stacks with
  | Some stack => Some (map hexAddr (StackInfo.addresses stack))
  | None => None
  end.

(** The update of [result.allocationSamples] in [addAllocation]. *)
Definition addAllocationSample (typeName : jsstring) (size stackId : Z)
    (samples : JSMap.t Z AllocationSample.t) : JSMap.t Z AllocationSample.t :=
  match JSMap.get stackId samples with
  | Some existing =>
      let types :=
        match JSMap.get typeName (AllocationSample.types existing) with
        | Some typeInfo =>
            JSMap.set typeName
              (CountSize.mk (CountSize.count typeInfo + 1) (CountSize.size typeInfo + size))
              (AllocationSample.types existing)
        | None =>
            JSMap.set typeName (CountSize.mk 1 size) (AllocationSample.types existing)
        end in
      JSMap.set stackId
        (AllocationSample.mk (AllocationSample.count existing + 1)
                             (AllocationSample.size existing + size) types)
        samples
  | None =>
      JSMap.set stackId
        (AllocationSample.mk 1 size (JSMap.set typeName (CountSize.mk 1 size) JSMap.empty))
        samples
  end.

(** The update of [result.typeStackDistribution] in [addAllocation]. *)
Definition addTypeStack (typeName : jsstring) (size stackId : Z)
    (dist : JSMap.t jsstring (JSMap.t Z CountSize.t))
  : JSMap.t jsstring (JSMap.t Z CountSize.t) :=
  let typeStacks :=
    match JSMap.get typeName dist with
    | Some m => m
    | None => JSMap.empty
    end in
  let typeStacks' :=
    match JSMap.get stackId typeStacks with
    | Some stackData =>
        JSMap.set stackId
          (CountSize.mk (CountSize.count stackData + 1) (CountSize.size stackData + size))
          typeStacks
    | None => JSMap.set stackId (CountSize.mk 1 size) typeStacks
    end in
  JSMap.set typeName typeStacks' dist.

(** [addAllocation]: the entry of the type is fetched or created, its
    counters are bumped, the per-stack tables are updated when
    [stackId > 0], and the event is pushed on the entry's list. The entry
    is one object that the map refers to, so every change to it shows in
    the map; [JSMap.set] on its key writes it back in place. *)
Definition addAllocation (typeName : jsstring) (size timestamp stackId : Z)
    (w : World) : World :=
  let res := result w in
  let allocInfo :=
    match JSMap.get typeName (ParseResult.allocations res) with
    | Some a => a
    | None => AllocationInfo.mk typeName 0 0 []
    end in
  let res1 :=
    if 0 <? stackId
    then ParseResult.set_typeStackDistribution
           (addTypeStack typeName size stackId (ParseResult.typeStackDistribution res))
           (ParseResult.set_allocationSamples
              (addAllocationSample typeName size stackId (ParseResult.allocationSamples res))
              res)
    else res in
  let stackTrace := stackTraceOf (Parser.stacks (this w)) stackId in
  let allocInfo' :=
    AllocationInfo.mk (AllocationInfo.typeName allocInfo)
                      (AllocationInfo.count allocInfo + 1)
                      (AllocationInfo.totalSize allocInfo + size)
                      (AllocationInfo.allocations allocInfo
                         ++ [AllocationEvent.mk typeName size timestamp stackTrace]) in
  mkWorld (this w)
          (ParseResult.set_allocations
             (JSMap.set typeName allocInfo' (ParseResult.allocations res1)) res1).

Definition parseAllocationEvent (payload : list byte) (timestamp stackId : Z) : W unit :=
  fun w =>
    if buflen payload <? 10 then (Ok tt, w)
    else
      with_local (mkReader payload 0)
        (try_catch
           (allocationAmount <- onLocal BufferReader.readUInt32LE ;;
            allocationKind <- onLocal BufferReader.readUInt32LE ;;
            onLocal BufferReader.readUInt16LE ;;;
            remaining1 <- gets (fun s => BufferReader.remaining (fst s)) ;;
            allocSize <- (if 8 <=? remaining1
                          then onLocal BufferReader.readUInt64LE
                          else ret allocationAmount) ;;
            remaining2 <- gets (fun s => BufferReader.remaining (fst s)) ;;
            pointerSize <- gets (fun s => Parser.pointerSize (this (snd s))) ;;
            when (pointerSize <=? remaining2) (onLocal (BufferReader.skip pointerSize)) ;;;
            typeName0 <- onLocal BufferReader.readNullTerminatedUTF16 ;;
            let typeName := match typeName0 with
                            | [] => lit "<unknown>"
                            | _ => typeName0
                            end in
            onOuter (modify (addAllocation typeName allocSize timestamp stackId)))
           (fun _ => ret tt)) w.

(** *** Stack blocks *)

(** [Math.floor(stackSize / pointerSize)] for a positive [stackSize]: the
    quotient is [Infinity] ([None]) when the pointer size is zero. *)
Definition numAddrsOf (stackSize pointerSize : Z) : option Z :=
  if pointerSize =? 0 then None else Some (stackSize / pointerSize).

Definition belowBound (j : Z) (bound : option Z) : bool :=
  match bound with
  | Some n => j <? n
  | None => true
  end.

(** The inner [for] loop of [parseStackBlock]. Every round reads four or
    eight bytes or throws, so the length of the buffer bounds the rounds. *)
Fixpoint readAddresses_loop (fuel : nat) (pointerSize : Z) (numAddrs : option Z)
    (j : Z) (addresses : list Z) : BufferReader.R (list Z) :=
  match fuel with
  | O => ret addresses
  | S fuel' =>
      fun r =>
        if belowBound j numAddrs && BufferReader.hasBytes r pointerSize
        then
          (a <- (if pointerSize =? 8 then BufferReader.readUInt64LE
                 else BufferReader.readUInt32LE) ;;
           readAddresses_loop fuel' pointerSize numAddrs (j + 1) (addresses ++ [a])) r
        else (Ok addresses, r)
  end.

(** One round of the outer loop, up to the addresses of the entry. *)
Inductive StackEntry : Type :=
| EntryBreak
| EntryRead (stackSize : Z) (addresses : list Z).

Definition parseStackEntry (pointerSize : Z) : BufferReader.R StackEntry :=
  stackSize <- BufferReader.readUInt32LE ;;
  fun r =>
    if (stackSize =? 0) || negb (BufferReader.hasBytes r stackSize)
    then (Ok EntryBreak, r)
    else
      (addresses <- readAddresses_loop (S (List.length (buffer r))) pointerSize
                      (numAddrsOf stackSize pointerSize) 0 [] ;;
       ret (EntryRead stackSize addresses)) r.

Definition setStack (currentId : Z) (addresses : list Z) (w : World) : World :=
  updThis (fun p => Parser.set_stacks
                      (JSMap.set currentId (StackInfo.mk currentId addresses)
                                 (Parser.stacks p)) p) w.

Fixpoint parseStackBlock_loop (fuel : nat) (count i currentId : Z) : LW unit :=
  match fuel with
  | O => ret tt
  | S fuel' =>
      fun s =>
        if (i <? count) && (4 <=? BufferReader.remaining (fst s))
        then
          (e <- onLocal (parseStackEntry (Parser.pointerSize (this (snd s)))) ;;
           match e with
           | EntryBreak => ret tt
           | EntryRead _ addresses =>
               onOuter (modify (setStack currentId addresses)) ;;;
               parseStackBlock_loop fuel' count (i + 1) (currentId + 1)
           end) s
        else (Ok tt, s)
  end.

Definition parseStackBlock (data : list byte) : W unit :=
  with_local (mkReader data 0)
    (try_catch
       (firstId <- onLocal BufferReader.readUInt32LE ;;
        count <- onLocal BufferReader.readUInt32LE ;;
        parseStackBlock_loop (S (List.length data)) count 0 firstId)
       (fun _ => ret tt)).

(** *** Known events *)

Definition getOr0 {K} {dec : EqDec K} (k : K) (m : JSMap.t K Z) : Z :=
  match JSMap.get k m with
  | Some v => v
  | None => 0
  end.

Definition processCpuSample (stackId timestamp : Z) : W unit :=
  when (0 <? stackId)
    (modify (updThis (fun p =>
       Parser.set_cpuSamples
         (JSMap.set stackId (getOr0 stackId (Parser.cpuSamples p) + 1)
                    (Parser.cpuSamples p)) p))).

Definition parseMethodLoadVerboseEvent (payload : list byte) : W unit :=
  with_local (mkReader payload 0)
    (try_catch
       (methodId <- onLocal BufferReader.readUInt64LE ;;
        moduleId <- onLocal BufferReader.readUInt64LE ;;
        methodStartAddress <- onLocal BufferReader.readUInt64LE ;;
        methodSize <- onLocal BufferReader.readUInt32LE ;;
        methodToken <- onLocal BufferReader.readUInt32LE ;;
        methodFlags <- onLocal BufferReader.readUInt32LE ;;
        methodNamespace <- onLocal BufferReader.readNullTerminatedUTF16 ;;
        methodName <- onLocal BufferReader.readNullTerminatedUTF16 ;;
        methodSignature <- onLocal BufferReader.readNullTerminatedUTF16 ;;
        let methodInfo :=
          MethodInfo.mk methodId moduleId methodStartAddress methodSize methodToken
                        methodFlags methodNamespace methodName methodSignature in
        onOuter (modify (updResult (fun res =>
          ParseResult.set_methodsByAddress
            (JSMap.set methodStartAddress methodInfo (ParseResult.methodsByAddress res))
            (ParseResult.set_methods
               (JSMap.set methodId methodInfo (ParseResult.methods res)) res)))))
       (fun _ => ret tt)).

Definition parseMethodJittingStartedEvent (payload : list byte) : W unit :=
  with_local (mkReader payload 0)
    (try_catch
       (methodId <- onLocal BufferReader.readUInt64LE ;;
        moduleId <- onLocal BufferReader.readUInt64LE ;;
        methodToken <- onLocal BufferReader.readUInt32LE ;;
        onLocal BufferReader.readUInt32LE ;;;
        methodNamespace <- onLocal BufferReader.readNullTerminatedUTF16 ;;
        methodName <- onLocal BufferReader.readNullTerminatedUTF16 ;;
        methodSignature <- onLocal BufferReader.readNullTerminatedUTF16 ;;
        onOuter (modify (updResult (fun res =>
          if JSMap.has methodId (ParseResult.methods res) then res
          else
            ParseResult.set_methods
              (JSMap.set methodId
                 (MethodInfo.mk methodId moduleId 0 0 methodToken 0
                                methodNamespace methodName methodSignature)
                 (ParseResult.methods res)) res))))
       (fun _ => ret tt)).

Definition processEvent (metadataId threadId timestamp stackId : Z)
    (payload : list byte) : W unit :=
  modify (updThis (fun p =>
    let d := Parser.debugInfo p in
    Parser.set_debugInfo
      (DebugInfo.set_eventCountsByMetadataId
         (JSMap.set metadataId
            (getOr0 metadataId (DebugInfo.eventCountsByMetadataId d) + 1)
            (DebugInfo.eventCountsByMetadataId d))
         (DebugInfo.set_totalEvents (DebugInfo.totalEvents d + 1) d)) p)) ;;;
  meta <- gets (fun w => JSMap.get metadataId (Parser.metadata (this w))) ;;
  match meta with
  | None => ret tt
  | Some meta =>
      (if jsstring_eqb (EventMetadata.providerName meta) DOTNET_RUNTIME_PROVIDER then
         if EventMetadata.eventId meta =? GC_ALLOCATION_TICK_EVENT_ID then
           modify (updThis (fun p =>
             let d := Parser.debugInfo p in
             Parser.set_debugInfo
               (DebugInfo.set_allocationEvents (DebugInfo.allocationEvents d + 1) d) p)) ;;;
           parseAllocationEvent payload timestamp stackId
         else if EventMetadata.eventId meta =? METHOD_LOAD_VERBOSE_EVENT_ID then
           parseMethodLoadVerboseEvent payload
         else if EventMetadata.eventId meta =? METHOD_JITTING_STARTED_EVENT_ID then
           parseMethodJittingStartedEvent payload
         else ret tt
       else ret tt) ;;;
      (if jsstring_eqb (EventMetadata.providerName meta) DOTNET_RUNTIME_RUNDOWN_PROVIDER then
         if EventMetadata.eventId meta =? METHOD_DC_END_VERBOSE_EVENT_ID then
           parseMethodLoadVerboseEvent payload
         else ret tt
       else ret tt) ;;;
      (if jsstring_eqb (EventMetadata.providerName meta) SAMPLE_PROFILER_PROVIDER then
         processCpuSample stackId timestamp
       else ret tt)
  end.

(** *** Event headers *)

(** The header state carried from one event of a block to the next: the
    [headerState] object of [parseMetadataBlock] and the seven [prev...]
    variables of [parseEvents]. *)
Module EventHeader.
Record t : Type := mk {
  metadataId : Z;
  sequenceNumber : Z;
  captureThreadId : Z;
  threadId : Z;
  stackId : Z;
  timestamp : Z;
  payloadSize : Z
}.
Definition zero : t := mk 0 0 0 0 0 0 0.
End EventHeader.

(** [if (flags & mask)] *)
Definition flagSet (flags : option Z) (mask : Z) : bool :=
  negb (BufferReader.band flags mask =? 0).

(** The compressed branch of [parseEvents], from the flags byte to the
    payload size. The sequence number and the capture thread are read and
    dropped, so their [prev...] variables keep their first value. *)
Definition readCompressedEventHeader (prev : EventHeader.t)
  : BufferReader.R EventHeader.t :=
  eventFlags <- BufferReader.readByte ;;
  metadataId <- (if flagSet eventFlags 1 then BufferReader.readVarUInt
                 else ret (EventHeader.metadataId prev)) ;;
  (if flagSet eventFlags 2
   then BufferReader.readVarUInt ;;;
        BufferReader.readVarInt64 ;;;
        BufferReader.readVarUInt ;;;
        ret tt
   else ret tt) ;;;
  threadId <- (if flagSet eventFlags 4 then BufferReader.readVarInt64
               else ret (EventHeader.threadId prev)) ;;
  stackId <- (if flagSet eventFlags 8 then BufferReader.readVarUInt
              else ret (EventHeader.stackId prev)) ;;
  timestampDelta <- BufferReader.readVarUInt64 ;;
  let timestamp := EventHeader.timestamp prev + timestampDelta in
  when (flagSet eventFlags 16) (BufferReader.skip 16) ;;;
  when (flagSet eventFlags 32) (BufferReader.skip 16) ;;;
  payloadSize <- (if flagSet eventFlags 128 then BufferReader.readVarUInt
                  else ret (EventHeader.payloadSize prev)) ;;
  ret (EventHeader.mk metadataId (EventHeader.sequenceNumber prev)
                      (EventHeader.captureThreadId prev)
                      threadId stackId timestamp payloadSize).

(** [if (payloadSize > 0 && reader.hasBytes(payloadSize)) { payload =
    reader.readBytes(payloadSize); this.processEvent(...) }] *)
Definition dispatchPayload (metadataId threadId timestamp stackId payloadSize : Z)
  : LW unit :=
  fun s =>
    if (0 <? payloadSize) && BufferReader.hasBytes (fst s) payloadSize
    then
      (payload <- onLocal (BufferReader.readBytes payloadSize) ;;
       onOuter (processEvent metadataId threadId timestamp stackId payload)) s
    else (Ok tt, s).

(** One compressed event: its header, its payload, and the header as the
    state for the next event. *)
Definition compressedEvent (prev : EventHeader.t) : LW EventHeader.t :=
  h <- onLocal (readCompressedEventHeader prev) ;;
  dispatchPayload (EventHeader.metadataId h) (EventHeader.threadId h)
                  (EventHeader.timestamp h) (EventHeader.stackId h)
                  (EventHeader.payloadSize h) ;;;
  ret h.

(** One uncompressed event; [false] stands for [break]. *)
Definition uncompressedEvent : LW bool :=
  fun s =>
    if negb (BufferReader.hasBytes (fst s) 4) then (Ok false, s)
    else
      (eventSize <- onLocal BufferReader.readUInt32LE ;;
       fun s1 =>
         if (eventSize =? 0) || negb (BufferReader.hasBytes (fst s1) eventSize)
         then (Ok false, s1)
         else
           (let startOffset := BufferReader.offset (fst s1) in
            metadataIdWithFlags <- onLocal BufferReader.readUInt32LE ;;
            let metadataId := Z.land metadataIdWithFlags 2147483647 in
            onLocal BufferReader.readUInt32LE ;;;
            threadId <- onLocal BufferReader.readUInt64LE ;;
            onLocal BufferReader.readUInt64LE ;;;
            onLocal BufferReader.readUInt32LE ;;;
            stackId <- onLocal BufferReader.readUInt32LE ;;
            timestamp <- onLocal BufferReader.readUInt64LE ;;
            onLocal (BufferReader.skip 32) ;;;
            payloadSize <- onLocal BufferReader.readUInt32LE ;;
            dispatchPayload metadataId threadId timestamp stackId payloadSize ;;;
            consumed <- gets (fun s2 => BufferReader.offset (fst s2) - startOffset) ;;
            let padding := Z.rem (4 - Z.rem consumed 4) 4 in
            when (0 <? padding) (onLocal (BufferReader.skip padding)) ;;;
            ret true) s1) s.

(** One round of the loop of [parseEvents]: the [try] block with its
    [catch]. [None] stands for [break]; otherwise the round gives the
    header state for the next round. *)
Definition parseEvents_round (compressed : bool) (prev : EventHeader.t)
  : LW (option EventHeader.t) :=
  try_catch
    (if compressed
     then (h <- compressedEvent prev ;; ret (Some h))
     else (continue <- uncompressedEvent ;;
           ret (if continue then Some prev else None)))
    (fun _ => ret None).

(** The loop of [parseEvents]. Every round reads at least one byte or
    leaves the loop, so the length of the buffer bounds the rounds. *)
Fixpoint parseEvents_loop (fuel : nat) (compressed : bool) (prev : EventHeader.t)
  : LW unit :=
  match fuel with
  | O => ret tt
  | S fuel' =>
      fun s =>
        if 0 <? BufferReader.remaining (fst s)
        then
          (next <- parseEvents_round compressed prev ;;
           match next with
           | Some h => parseEvents_loop fuel' compressed h
           | None => ret tt
           end) s
        else (Ok tt, s)
  end.

Definition parseEvents (compressed : bool) : LW unit :=
  fun s => parseEvents_loop (S (List.length (buffer (fst s)))) compressed
                            EventHeader.zero s.

Definition parseEventBlock (data : list byte) : W unit :=
  with_local (mkReader data 0)
    (headerSize <- onLocal BufferReader.readInt16LE ;;
     flags <- onLocal BufferReader.readInt16LE ;;
     onLocal BufferReader.readInt64LE ;;;
     onLocal BufferReader.readInt64LE ;;;
     when (20 <? headerSize) (onLocal (BufferReader.skip (headerSize - 20))) ;;;
     let compressed := negb (Z.land flags 1 =? 0) in
     parseEvents compressed).

(** *** Metadata blocks *)

(** One round of the [for] loop over the fields of a schema: the type
    code, the element type code of an array, and the name. *)
Definition readField : BufferReader.R FieldMetadata.t :=
  typeCode <- BufferReader.readInt32LE ;;
  (fun r =>
     if (typeCode =? 19) && (4 <=? BufferReader.remaining r)
     then (BufferReader.readInt32LE ;;; ret tt) r
     else (Ok tt, r)) ;;;
  fieldName <- BufferReader.readNullTerminatedUTF16 ;;
  ret (FieldMetadata.mk fieldName typeCode).

(** The [for] loop over the fields of a schema. Every round reads four
    bytes or throws, so the length of the buffer bounds the rounds. *)
Fixpoint readFields_loop (fuel : nat) (fieldCount i : Z)
    (fields : list FieldMetadata.t) : BufferReader.R (list FieldMetadata.t) :=
  match fuel with
  | O => ret fields
  | S fuel' =>
      fun r =>
        if (i <? fieldCount) && (4 <? BufferReader.remaining r)
        then
          (field <- readField ;;
           readFields_loop fuel' fieldCount (i + 1) (fields ++ [field])) r
        else (Ok fields, r)
  end.

Definition addProvider (providerName : jsstring) (w : World) : World :=
  updThis (fun p =>
    let d := Parser.debugInfo p in
    Parser.set_debugInfo
      (DebugInfo.set_providers (JSSet.add providerName (DebugInfo.providers d)) d) p) w.

Definition setMetadata (metadataId : Z) (metadata : EventMetadata.t) (w : World)
  : World :=
  updThis (fun p =>
    Parser.set_metadata (JSMap.set metadataId metadata (Parser.metadata p)) p) w.

Definition parseMetadataPayload (reader : BufferReader) : W unit :=
  with_local reader
    (try_catch
       (payloadMetadataId <- onLocal BufferReader.readInt32LE ;;
        providerName <- onLocal BufferReader.readNullTerminatedUTF16 ;;
        eventId <- onLocal BufferReader.readInt32LE ;;
        eventName <- onLocal BufferReader.readNullTerminatedUTF16 ;;
        keywords <- onLocal BufferReader.readInt64LE ;;
        version <- onLocal BufferReader.readInt32LE ;;
        level <- onLocal BufferReader.readInt32LE ;;
        onOuter (modify (addProvider providerName)) ;;;
        fields <- onLocal (fun r =>
          if 4 <=? BufferReader.remaining r
          then (fieldCount <- BufferReader.readInt32LE ;;
                fun r1 => readFields_loop (S (List.length (buffer r1)))
                                          fieldCount 0 [] r1) r
          else (Ok [], r)) ;;
        let metadata :=
          EventMetadata.mk payloadMetadataId providerName eventId eventName
                           keywords version level 0 fields in
        onOuter (modify (setMetadata payloadMetadataId metadata)))
       (fun _ => ret tt)).

(** [if (state.payloadSize > 0 && reader.hasBytes(state.payloadSize)) {
    payloadReader = reader.subReader(...); this.parseMetadataPayload(...) }] *)
Definition dispatchMetadataPayload (payloadSize : Z) : LW unit :=
  fun s =>
    if (0 <? payloadSize) && BufferReader.hasBytes (fst s) payloadSize
    then
      (payloadReader <- onLocal (BufferReader.subReader payloadSize) ;;
       onOuter (parseMetadataPayload payloadReader)) s
    else (Ok tt, s).

(** The header fields of a compressed metadata event, written into the
    header state. *)
Definition readCompressedMetadataHeader (state : EventHeader.t)
  : BufferReader.R EventHeader.t :=
  flags <- BufferReader.readByte ;;
  metadataId <- (if flagSet flags 1 then BufferReader.readVarUInt
                 else ret (EventHeader.metadataId state)) ;;
  seqCap <- (if flagSet flags 2
             then seqDelta <- BufferReader.readVarUInt ;;
                  captureThreadId <- BufferReader.readVarInt64 ;;
                  BufferReader.readVarUInt ;;;
                  ret (EventHeader.sequenceNumber state + (seqDelta + 1), captureThreadId)
             else ret (if negb (metadataId =? 0)
                       then EventHeader.sequenceNumber state + 1
                       else EventHeader.sequenceNumber state,
                       EventHeader.captureThreadId state)) ;;
  threadId <- (if flagSet flags 4 then BufferReader.readVarInt64
               else ret (EventHeader.threadId state)) ;;
  stackId <- (if flagSet flags 8 then BufferReader.readVarUInt
              else ret (EventHeader.stackId state)) ;;
  timestampDelta <- BufferReader.readVarUInt64 ;;
  when (flagSet flags 16) (BufferReader.skip 16) ;;;
  when (flagSet flags 32) (BufferReader.skip 16) ;;;
  payloadSize <- (if flagSet flags 128 then BufferReader.readVarUInt
                  else ret (EventHeader.payloadSize state)) ;;
  ret (EventHeader.mk metadataId (fst seqCap) (snd seqCap) threadId stackId
                      (EventHeader.timestamp state + timestampDelta) payloadSize).

Definition readUncompressedMetadataHeader (state : EventHeader.t)
  : BufferReader.R EventHeader.t :=
  BufferReader.readInt32LE ;;;
  metadataIdRaw <- BufferReader.readInt32LE ;;
  sequenceNumber <- BufferReader.readInt32LE ;;
  threadId <- BufferReader.readInt64LE ;;
  captureThreadId <- BufferReader.readInt64LE ;;
  BufferReader.readInt32LE ;;;
  stackId <- BufferReader.readInt32LE ;;
  timestamp <- BufferReader.readInt64LE ;;
  BufferReader.skip 16 ;;;
  BufferReader.skip 16 ;;;
  payloadSize <- BufferReader.readInt32LE ;;
  ret (EventHeader.mk (Z.land metadataIdRaw 2147483647) sequenceNumber captureThreadId
                      threadId stackId timestamp payloadSize).

(** [parseMetadataEvent] writes the header state in place; here it returns
    the state it leaves. When it throws, the loop of [parseMetadataBlock]
    stops and the state object is never read again. *)
Definition parseMetadataEvent (compressed : bool) (state : EventHeader.t)
  : LW EventHeader.t :=
  state' <- onLocal (if compressed then readCompressedMetadataHeader state
                     else readUncompressedMetadataHeader state) ;;
  dispatchMetadataPayload (EventHeader.payloadSize state') ;;;
  ret state'.

(** One round of the loop of [parseMetadataBlock]: the [try] block with
    its [catch], which is a [break]. *)
Definition parseMetadataBlock_round (compressed : bool) (headerState : EventHeader.t)
  : LW (option EventHeader.t) :=
  try_catch
    (st <- parseMetadataEvent compressed headerState ;; ret (Some st))
    (fun _ => ret None).

(** The loop of [parseMetadataBlock]; every round reads at least one byte
    or leaves the loop. *)
Fixpoint parseMetadataBlock_loop (fuel : nat) (compressed : bool)
    (headerState : EventHeader.t) : LW unit :=
  match fuel with
  | O => ret tt
  | S fuel' =>
      fun s =>
        if 0 <? BufferReader.remaining (fst s)
        then
          (next <- parseMetadataBlock_round compressed headerState ;;
           match next with
           | Some st => parseMetadataBlock_loop fuel' compressed st
           | None => ret tt
           end) s
        else (Ok tt, s)
  end.

Definition parseMetadataBlock (data : list byte) : W unit :=
  with_local (mkReader data 0)
    (headerSize <- onLocal BufferReader.readInt16LE ;;
     flags <- onLocal BufferReader.readInt16LE ;;
     when (4 <? headerSize) (onLocal (BufferReader.skip (headerSize - 4))) ;;;
     let compressed := negb (Z.land flags 1 =? 0) in
     parseMetadataBlock_loop (S (List.length data)) compressed EventHeader.zero).

(** *** The Trace object *)

Definition parseTraceBlob (data : list byte) : W TraceInfo.t :=
  with_local (mkReader data 0)
    (year <- onLocal BufferReader.readInt16LE ;;
     month <- onLocal BufferReader.readInt16LE ;;
     onLocal BufferReader.readInt16LE ;;;
     day <- onLocal BufferReader.readInt16LE ;;
     hour <- onLocal BufferReader.readInt16LE ;;
     minute <- onLocal BufferReader.readInt16LE ;;
     second <- onLocal BufferReader.readInt16LE ;;
     millisecond <- onLocal BufferReader.readInt16LE ;;
     let syncTimeUTC := mkDateUTC year (month - 1) day hour minute second millisecond in
     syncTimeTicks <- onLocal BufferReader.readInt64LE ;;
     tickFrequency <- onLocal BufferReader.readInt64LE ;;
     pointerSize <- onLocal BufferReader.readInt32LE ;;
     onOuter (modify (updThis (Parser.set_pointerSize pointerSize))) ;;;
     processId <- onLocal BufferReader.readInt32LE ;;
     onOuter (modify (updThis (Parser.set_processId processId))) ;;;
     numberOfProcessors <- onLocal BufferReader.readInt32LE ;;
     cpuSamplingRate <- onLocal BufferReader.readInt32LE ;;
     ret (TraceInfo.mk syncTimeUTC syncTimeTicks tickFrequency pointerSize processId
                       numberOfProcessors cpuSamplingRate)).

(** *** The container driver *)

(** The loop of [skipToNextObject]; every round reads one byte. *)
Fixpoint skipToNextObject_loop (fuel : nat) : BufferReader.R unit :=
  match fuel with
  | O => ret tt
  | S fuel' =>
      fun r =>
        if 0 <? BufferReader.remaining r
        then
          (byte <- BufferReader.peekByte ;;
           if tagIs byte SerializationTag.EndObject
           then BufferReader.readByte ;;; ret tt
           else if tagIs byte SerializationTag.BeginPrivateObject
           then ret tt
           else BufferReader.readByte ;;; skipToNextObject_loop fuel') r
        else (Ok tt, r)
  end.

Definition skipToNextObject : W unit :=
  onReader (fun r => skipToNextObject_loop (Z.to_nat (BufferReader.remaining r)) r).

(** The [Blob] case of [skipToEndObject]: [if (this.reader.remaining >= 4)
    { const size = this.reader.readInt32LE(); if (size > 0 && size <
    this.reader.remaining) { this.reader.skip(size); } }] *)
Definition skipBlob : BufferReader.R unit :=
  fun r1 =>
    if 4 <=? BufferReader.remaining r1
    then (size <- BufferReader.readInt32LE ;;
          fun r2 =>
            if (0 <? size) && (size <? BufferReader.remaining r2)
            then BufferReader.skip size r2
            else (Ok tt, r2)) r1
    else (Ok tt, r1).

(** The loop of [skipToEndObject]; every round reads at least one byte. *)
Fixpoint skipToEndObject_loop (fuel : nat) (depth : Z) : BufferReader.R unit :=
  match fuel with
  | O => ret tt
  | S fuel' =>
      fun r =>
        if (0 <? BufferReader.remaining r) && (0 <? depth)
        then
          (tag <- BufferReader.readByte ;;
           if tagIs tag SerializationTag.EndObject
           then skipToEndObject_loop fuel' (depth - 1)
           else if tagIs tag SerializationTag.BeginPrivateObject
                   || tagIs tag SerializationTag.BeginObject
           then skipToEndObject_loop fuel' (depth + 1)
           else if tagIs tag SerializationTag.Blob
           then skipBlob ;;; skipToEndObject_loop fuel' depth
           else skipToEndObject_loop fuel' depth) r
        else (Ok tt, r)
  end.

Definition skipToEndObject : W unit :=
  onReader (fun r => skipToEndObject_loop (Z.to_nat (BufferReader.remaining r)) 1 r).

Definition setTraceInfo (info : TraceInfo.t) : W unit :=
  modify (updResult (ParseResult.set_traceInfo (Some info))).

(** The [switch] of [processBlock]. *)
Definition decodeBlock (typeName : jsstring) (data : list byte) : W unit :=
  if jsstring_eqb typeName (lit "Trace") then
    info <- parseTraceBlob data ;; setTraceInfo info
  else if jsstring_eqb typeName (lit "MetadataBlock") then
    modify (updThis (fun p =>
      let d := Parser.debugInfo p in
      Parser.set_debugInfo
        (DebugInfo.set_metadataBlocks (DebugInfo.metadataBlocks d + 1) d) p)) ;;;
    parseMetadataBlock data
  else if jsstring_eqb typeName (lit "EventBlock") then
    modify (updThis (fun p =>
      let d := Parser.debugInfo p in
      Parser.set_debugInfo
        (DebugInfo.set_eventBlocks (DebugInfo.eventBlocks d + 1) d) p)) ;;;
    parseEventBlock data
  else if jsstring_eqb typeName (lit "StackBlock") then
    parseStackBlock data
  else ret tt.

Definition processBlock (typeInfo : TypeInfo.t) (data : list byte) : W unit :=
  let typeName := TypeInfo.typeName typeInfo in
  try_catch (decodeBlock typeName data)
            (fun err => pushError (ErrorProcessing typeName err)).

Definition isBlockType (typeName : jsstring) : bool :=
  jsstring_eqb typeName (lit "MetadataBlock")
  || jsstring_eqb typeName (lit "EventBlock")
  || jsstring_eqb typeName (lit "StackBlock")
  || jsstring_eqb typeName (lit "SPBlock").

Definition readerOf (w : World) : BufferReader := Parser.reader (this w).

Definition parseObjectPayload (typeInfo : TypeInfo.t) : W unit :=
  let typeName := TypeInfo.typeName typeInfo in
  fun w0 =>
    let startOffset := BufferReader.offset (readerOf w0) in
    try_catch
      (if jsstring_eqb typeName (lit "Trace") then
         (fun w =>
            if BufferReader.hasBytes (readerOf w) 48
            then (data <- onReader (BufferReader.readBytes 48) ;;
                  info <- parseTraceBlob data ;;
                  setTraceInfo info) w
            else (Ok tt, w)) ;;;
         skipToNextObject
       else if isBlockType typeName then
         fun w =>
           if negb (BufferReader.hasBytes (readerOf w) 4) then (Ok tt, w)
           else
             (blockSize <- onReader BufferReader.readInt32LE ;;
              if (blockSize <=? 0) || (100000000 <? blockSize)
              then
                onReader (modify (BufferReader.set_offset startOffset)) ;;;
                skipToNextObject
              else
                currentPos <- gets (fun w1 => BufferReader.offset (readerOf w1)) ;;
                let alignPad := Z.land (4 - Z.land currentPos 3) 3 in
                onReader (BufferReader.skip alignPad) ;;;
                fun w2 =>
                  if negb (BufferReader.hasBytes (readerOf w2) blockSize)
                  then skipToNextObject w2
                  else
                    (blockData <- onReader (BufferReader.readBytes blockSize) ;;
                     processBlock typeInfo blockData ;;;
                     skipToNextObject) w2) w
       else skipToNextObject)
      (fun err =>
         pushError (ErrorParsing typeName err) ;;;
         skipToNextObject) w0.

(** [typeInfo = { typeIndex: this.nextTypeIndex++, ... };
    this.typeRegistry.set(typeInfo.typeIndex, typeInfo)] after the four
    reads of a type definition. *)
Definition readTypeDefinition : W TypeInfo.t :=
  version <- onReader BufferReader.readInt32LE ;;
  minReaderVersion <- onReader BufferReader.readInt32LE ;;
  typeNameLength <- onReader BufferReader.readInt32LE ;;
  typeName <- onReader (BufferReader.readAsciiString typeNameLength) ;;
  typeIndex <- gets (fun w => Parser.nextTypeIndex (this w)) ;;
  let typeInfo := TypeInfo.mk typeIndex version minReaderVersion typeName in
  modify (updThis (fun p =>
    Parser.set_typeRegistry (JSMap.set typeIndex typeInfo (Parser.typeRegistry p))
      (Parser.set_nextTypeIndex (typeIndex + 1) p))) ;;;
  ret typeInfo.

Definition parseBeginPrivateObject : W unit :=
  nextByte <- onReader BufferReader.peekByte ;;
  if tagIs nextByte SerializationTag.BeginPrivateObject then
    onReader BufferReader.readByte ;;;
    typeRefByte <- onReader BufferReader.peekByte ;;
    found <- (if tagIs typeRefByte SerializationTag.NullReference then
                onReader BufferReader.readByte ;;;
                typeInfo <- readTypeDefinition ;;
                ret (Some typeInfo)
              else
                typeIndex <- onReader BufferReader.readVarUInt ;;
                registry <- gets (fun w => Parser.typeRegistry (this w)) ;;
                match JSMap.get typeIndex registry with
                | Some typeInfo => ret (Some typeInfo)
                | None =>
                    pushError (UnknownTypeIndex typeIndex) ;;;
                    skipToEndObject ;;;
                    ret None
                end) ;;
    match found with
    | None => ret tt
    | Some typeInfo =>
        (fun w =>
           if BufferReader.hasBytes (readerOf w) 1
           then (b <- onReader BufferReader.peekByte ;;
                 if tagIs b SerializationTag.EndObject
                 then onReader BufferReader.readByte ;;; ret tt
                 else ret tt) w
           else (Ok tt, w)) ;;;
        parseObjectPayload typeInfo
    end
  else if tagIs nextByte SerializationTag.NullReference then
    onReader BufferReader.readByte ;;;
    typeInfo <- readTypeDefinition ;;
    parseObjectPayload typeInfo
  else
    typeIndex <- onReader BufferReader.readVarUInt ;;
    registry <- gets (fun w => Parser.typeRegistry (this w)) ;;
    match JSMap.get typeIndex registry with
    | Some typeInfo => parseObjectPayload typeInfo
    | None => pushError (UnknownTypeIndex typeIndex)
    end.

(** A [while] loop with an iteration cap. [round s] runs the test and the
    body once and tells whether the loop is over (the test failed or the
    body hit [break]); [whileP round p s] runs at most [p] rounds. *)
Section WhileP.
Context {S : Type} (round : S -> S * bool).

Fixpoint whileP (p : positive) (s : S) : S * bool :=
  match p with
  | xH => round s
  | xO q =>
      let (s1, over) := whileP q s in
      if over then (s1, true) else whileP q s1
  | xI q =>
      let (s0, over0) := round s in
      if over0 then (s0, true)
      else
        let (s1, over) := whileP q s0 in
        if over then (s1, true) else whileP q s1
  end.
End WhileP.

(** The [try] block of [parseObjectStream] with its [catch]; [true] stands
    for [break]. *)
Definition parseObjectStream_body : W bool :=
  try_catch
    (tag <- onReader BufferReader.readByte ;;
     (if tagIs tag SerializationTag.NullReference then ret tt
      else if tagIs tag SerializationTag.EndObject then ret tt
      else if tagIs tag SerializationTag.BeginPrivateObject then parseBeginPrivateObject
      else if tagIs tag SerializationTag.Blob then
        fun w =>
          if BufferReader.hasBytes (readerOf w) 4
          then (size <- onReader BufferReader.readInt32LE ;;
                fun w1 =>
                  if (0 <? size) && (size <=? BufferReader.remaining (readerOf w1))
                  then onReader (BufferReader.skip size) w1
                  else (Ok tt, w1)) w
          else (Ok tt, w)
      else ret tt) ;;;
     ret false)
    (fun _ => gets (fun w => BufferReader.remaining (readerOf w) <? 10)).

Definition parseObjectStream_round (w : World) : World * bool :=
  if 0 <? BufferReader.remaining (readerOf w)
  then match parseObjectStream_body w with
       | (Ok stop, w') => (w', stop)
       | (Throw _, w') => (w', true)
       end
  else (w, true).

Definition maxObjects : positive := 10000000.

Definition parseObjectStream (w : World) : World :=
  fst (whileP parseObjectStream_round maxObjects w).

(** *** Method profiles *)

Module MethodAddress.
Record t : Type := mk {
  address : Z;
  endAddress : Z;
  method : MethodInfo.t
}.
End MethodAddress.

(** [Array.prototype.sort] is stable; with the comparator of the source it
    orders the entries by start address and keeps entries with the same
    start address in their order. *)
Fixpoint insertByAddress (x : MethodAddress.t) (l : list MethodAddress.t)
  : list MethodAddress.t :=
  match l with
  | [] => [x]
  | y :: l' =>
      if MethodAddress.address x <? MethodAddress.address y
      then x :: y :: l'
      else y :: insertByAddress x l'
  end.

Definition sortByAddress (l : list MethodAddress.t) : list MethodAddress.t :=
  fold_left (fun acc x => insertByAddress x acc) l [].

Definition buildMethodAddresses (methods : JSMap.t Z MethodInfo.t)
  : list MethodAddress.t :=
  sortByAddress
    (map (fun m => MethodAddress.mk (MethodInfo.methodStartAddress m)
                     (MethodInfo.methodStartAddress m + MethodInfo.methodSize m) m)
         (filter (fun m => 0 <? MethodInfo.methodStartAddress m)
                 (JSMap.values methods))).

(** The binary search of [findMethodByAddress]; [lo] and [hi] are the
    variables [left] and [right] of the source. *)
Equations? bsearch (entries : list MethodAddress.t) (addr lo hi : Z)
  : option MethodAddress.t by wf (Z.to_nat (hi - lo + 1)) lt :=
  bsearch entries addr lo hi with Z_le_gt_dec lo hi := {
    | right _ => None
    | left _ with nth_error entries (Z.to_nat ((lo + hi) / 2)) := {
        | None => None
        | Some entry with (MethodAddress.address entry <=? addr)
                          && (addr <? MethodAddress.endAddress entry) := {
            | true => Some entry
            | false with addr <? MethodAddress.address entry := {
                | true => bsearch entries addr lo ((lo + hi) / 2 - 1)
                | false => bsearch entries addr ((lo + hi) / 2 + 1) hi } } } }.
Proof.
  all: assert (lo <= (lo + hi) / 2 <= hi)
    by (split; [apply Z.div_le_lower_bound | apply Z.div_le_upper_bound]; lia);
    lia.
Qed.

Definition findMethodByAddress (methodAddresses : list MethodAddress.t) (addr : Z)
  : option MethodInfo.t :=
  option_map MethodAddress.method
    (bsearch methodAddresses addr 0 (Z.of_nat (List.length methodAddresses) - 1)).

Definition getMethodFullName (method : MethodInfo.t) : jsstring :=
  match MethodInfo.methodNamespace method with
  | _ :: _ => MethodInfo.methodNamespace method ++ lit "." ++ MethodInfo.methodName method
  | [] =>
      match MethodInfo.methodName method with
      | _ :: _ => MethodInfo.methodName method
      | [] => lit "Method_0x" ++ bigintToString16 (MethodInfo.methodStartAddress method)
      end
  end.

(** The name under which a frame is credited: the full name of its method,
    or [`<unknown> 0x${addr.toString(16)}`]. *)
Definition profileFrameName (methodAddresses : list MethodAddress.t) (addr : Z)
  : jsstring :=
  match findMethodByAddress methodAddresses addr with
  | Some method => getMethodFullName method
  | None => lit "<unknown> " ++ hexAddr addr
  end.

(** The three collections that the loops of [computeMethodProfiles]
    update: [seenMethods], [inclusiveCounts] and [exclusiveCounts]. *)
Module Counts.
Record t : Type := mk {
  seenMethods : JSSet.t jsstring;
  inclusiveCounts : JSMap.t jsstring Z;
  exclusiveCounts : JSMap.t jsstring Z
}.
End Counts.

(** The body of the loop over the addresses of one stack; both branches of
    the source ([method] found or not) do the same with the name. *)
Definition creditFrame (sampleCount i : Z) (name : jsstring) (c : Counts.t)
  : Counts.t :=
  let exclusive :=
    if i =? 0
    then JSMap.set name (getOr0 name (Counts.exclusiveCounts c) + sampleCount)
                   (Counts.exclusiveCounts c)
    else Counts.exclusiveCounts c in
  if JSSet.has name (Counts.seenMethods c)
  then Counts.mk (Counts.seenMethods c) (Counts.inclusiveCounts c) exclusive
  else Counts.mk (JSSet.add name (Counts.seenMethods c))
                 (JSMap.set name (getOr0 name (Counts.inclusiveCounts c) + sampleCount)
                            (Counts.inclusiveCounts c))
                 exclusive.

Fixpoint creditStack (methodAddresses : list MethodAddress.t) (sampleCount i : Z)
    (addresses : list Z) (c : Counts.t) : Counts.t :=
  match addresses with
  | [] => c
  | addr :: rest =>
      creditStack methodAddresses sampleCount (i + 1) rest
        (creditFrame sampleCount i (profileFrameName methodAddresses addr) c)
  end.

(** One round of the loop over [this.cpuSamples]; [totalSamples] is only
    logged and is left out. *)
Definition creditSample (methodAddresses : list MethodAddress.t)
    (stacks : JSMap.t Z StackInfo.t)
    (counts : JSMap.t jsstring Z * JSMap.t jsstring Z) (sample : Z * Z)
  : JSMap.t jsstring Z * JSMap.t jsstring Z :=
  let (stackId, sampleCount) := sample in
  match JSMap.get stackId stacks with
  | None => counts
  | Some stack =>
      match StackInfo.addresses stack with
      | [] => counts
      | _ :: _ =>
          let c := creditStack methodAddresses sampleCount 0 (StackInfo.addresses stack)
                     (Counts.mk JSSet.empty (fst counts) (snd counts)) in
          (Counts.inclusiveCounts c, Counts.exclusiveCounts c)
      end
  end.

Definition samplingIntervalMs : Z := 1.

Definition setProfile (inclusiveCounts exclusiveCounts : JSMap.t jsstring Z)
    (profiles : JSMap.t jsstring MethodProfile.t) (methodName : jsstring)
  : JSMap.t jsstring MethodProfile.t :=
  let inclusiveCount := getOr0 methodName inclusiveCounts in
  let exclusiveCount := getOr0 methodName exclusiveCounts in
  JSMap.set methodName
    (MethodProfile.mk methodName inclusiveCount exclusiveCount
                      (inclusiveCount * samplingIntervalMs)
                      (exclusiveCount * samplingIntervalMs))
    profiles.

Definition computeMethodProfiles (w : World) : World :=
  let methodAddresses := buildMethodAddresses (ParseResult.methods (result w)) in
  let counts :=
    fold_left (creditSample methodAddresses (Parser.stacks (this w)))
              (Parser.cpuSamples (this w)) (JSMap.empty, JSMap.empty) in
  let allMethods := JSSet.ofList (JSMap.keys (fst counts) ++ JSMap.keys (snd counts)) in
  updResult (fun res =>
    ParseResult.set_methodProfiles
      (fold_left (setProfile (fst counts) (snd counts)) allMethods
                 (ParseResult.methodProfiles res)) res) w.

(** *** parse *)

Definition numberToString (z : Z) : jsstring :=
  lit (DecimalString.NilZero.string_of_int (Z.to_int z)).

(** The roll-up of the event counters by [`${providerName}:${eventId}`]. *)
Definition buildEventCounts (metadata : JSMap.t Z EventMetadata.t)
    (eventCountsByMetadataId : JSMap.t Z Z) : JSMap.t jsstring Z :=
  fold_left
    (fun eventCounts entry =>
       match JSMap.get (fst entry) metadata with
       | Some meta =>
           let key := EventMetadata.providerName meta ++ lit ":"
                      ++ numberToString (EventMetadata.eventId meta) in
           JSMap.set key (getOr0 key eventCounts + snd entry) eventCounts
       | None => eventCounts
       end)
    eventCountsByMetadataId JSMap.empty.

(** [buffer.toString('utf8', 0, 8) !== 'Nettrace']: the decoded string is
    that word exactly when the first eight bytes are its ASCII codes. *)
Definition magicOk (buf : list byte) : bool :=
  jsstring_eqb (map byteZ (firstn 8 buf)) (lit "Nettrace").

(** The statements of [parse] that follow [this.parseObjectStream(result)].
    From [result.errors = this.errors] on, the two error lists are one
    array; nothing is pushed on either after that. *)
Definition afterObjectStream (w1 : World) : World :=
  let w2 := updResult (fun res =>
              ParseResult.set_errors (Parser.errors (this w1))
                (ParseResult.set_stacks (Parser.stacks (this w1))
                   (ParseResult.set_metadata (Parser.metadata (this w1)) res))) w1 in
  let w3 := computeMethodProfiles w2 in
  let d := Parser.debugInfo (this w3) in
  updResult (ParseResult.set_debugInfo
    (ResultDebugInfo.mk (DebugInfo.totalEvents d) (DebugInfo.allocationEvents d)
       (DebugInfo.providers d)
       (buildEventCounts (Parser.metadata (this w3)) (DebugInfo.eventCountsByMetadataId d))
       1)) w3.

(** The statements of [parse] after the header has been accepted. *)
Definition finishParse (w : World) : World :=
  afterObjectStream (parseObjectStream w).

(** The [try] block of [parse]. *)
Definition parse_try (buf : list byte) : W unit :=
  if buflen buf <? 32 then throw FileTooSmall
  else if negb (magicOk buf) then throw MissingMagic
  else
    onReader (modify (BufferReader.set_offset 8)) ;;;
    headerLength <- onReader BufferReader.readInt32LE ;;
    headerString <- onReader (BufferReader.readAsciiString headerLength) ;;
    if negb (startsWith headerString (lit "!FastSerialization.1"))
    then throw (InvalidSerializationHeader headerString)
    else modify finishParse.

(** [result.errors.push(`Parse error: ${errMsg}`)] *)
Definition pushResultError (e : ErrorEntry) : W unit :=
  modify (updResult (fun res =>
    ParseResult.set_errors (ParseResult.errors res ++ [e]) res)).

Definition parse (buf : list byte) : ParseResult.t :=
  result (snd (try_catch (parse_try buf)
                         (fun err => pushResultError (ParseError err))
                         (mkWorld (Parser.initial buf) ParseResult.initial))).

(** ** The flame graph of the editor provider ([buildFlameGraphData])

    The function builds a tree of [FlameNode]s from the stacks and then
    flattens it into an array with positions, which are floating-point
    quotients; the embedding stops at the tree. *)

#[local] Set Warnings "-register-all".
Inductive FlameNode : Type := mkFlameNode {
  name : jsstring;
  samples : Z;
  size : Z;
  types : JSMap.t jsstring CountSize.t;
  children : list (jsstring * FlameNode)
}.

Inductive FlameMode : Type := cpu | allocation.

(** The entries of [sampleData]; [types] is absent in the CPU mode. *)
Module SampleData.
Record t : Type := mk {
  count : Z;
  size : Z;
  types : option (JSMap.t jsstring CountSize.t)
}.
End SampleData.

(** [getMethodName]: the same sorted array and binary search as in
    [computeMethodProfiles], with the full name stored in the entry. *)
Definition getMethodName (methodAddresses : list MethodAddress.t) (addr : Z)
  : jsstring :=
  match bsearch methodAddresses addr 0 (Z.of_nat (List.length methodAddresses) - 1) with
  | Some entry => getMethodFullName (MethodAddress.method entry)
  | None => hexAddr addr
  end.

Definition buildSampleData (res : ParseResult.t) (mode : FlameMode)
  : JSMap.t Z SampleData.t :=
  match mode with
  | cpu =>
      fold_left
        (fun sampleData stack =>
           match StackInfo.addresses stack with
           | _ :: _ => JSMap.set (StackInfo.stackId stack) (SampleData.mk 1 0 None) sampleData
           | [] => sampleData
           end)
        (JSMap.values (ParseResult.stacks res)) JSMap.empty
  | allocation =>
      fold_left
        (fun sampleData entry =>
           JSMap.set (fst entry)
             (SampleData.mk (AllocationSample.count (snd entry))
                            (AllocationSample.size (snd entry))
                            (Some (AllocationSample.types (snd entry))))
             sampleData)
        (ParseResult.allocationSamples res) JSMap.empty
  end.

(** The merge of [data.types] into the [types] of a node. *)
Definition mergeTypes (dataTypes : option (JSMap.t jsstring CountSize.t))
    (nodeTypes : JSMap.t jsstring CountSize.t) : JSMap.t jsstring CountSize.t :=
  match dataTypes with
  | None => nodeTypes
  | Some dt =>
      fold_left
        (fun acc entry =>
           match JSMap.get (fst entry) acc with
           | Some existing =>
               JSMap.set (fst entry)
                 (CountSize.mk (CountSize.count existing + CountSize.count (snd entry))
                               (CountSize.size existing + CountSize.size (snd entry)))
                 acc
           | None =>
               JSMap.set (fst entry)
                 (CountSize.mk (CountSize.count (snd entry)) (CountSize.size (snd entry)))
                 acc
           end)
        dt nodeTypes
  end.

(** [node.samples += data.count; node.size += data.size;] and the merge of
    the types. *)
Definition addSample (data : SampleData.t) (node : FlameNode) : FlameNode :=
  mkFlameNode (name node) (samples node + SampleData.count data)
              (size node + SampleData.size data)
              (mergeTypes (SampleData.types data) (types node))
              (children node).

Definition newFlameNode (nm : jsstring) : FlameNode :=
  mkFlameNode nm 0 0 JSMap.empty [].

(** The walk down the tree for one stack: the child of the current node
    for the next name is fetched or created, receives the sample, and
    becomes the current node. The nodes are objects that their parents
    refer to, so the walk shows in the tree. *)
Fixpoint insertPath (names : list jsstring) (data : SampleData.t)
    (current : FlameNode) : FlameNode :=
  match names with
  | [] => current
  | nm :: rest =>
      let child :=
        match JSMap.get nm (children current) with
        | Some c => c
        | None => newFlameNode nm
        end in
      mkFlameNode (name current) (samples current) (size current) (types current)
        (JSMap.set nm (insertPath rest data (addSample data child)) (children current))
  end.

(** One round of the loop over [sampleData]. *)
Definition addStackSample (methodAddresses : list MethodAddress.t)
    (stacks : JSMap.t Z StackInfo.t) (root : FlameNode) (entry : Z * SampleData.t)
  : FlameNode :=
  match JSMap.get (fst entry) stacks with
  | None => root
  | Some stack =>
      match StackInfo.addresses stack with
      | [] => root
      | _ :: _ =>
          insertPath
            (map (getMethodName methodAddresses) (rev (StackInfo.addresses stack)))
            (snd entry) (addSample (snd entry) root)
      end
  end.

(** The tree of [buildFlameGraphData]; [None] where the function returns
    the empty array before it builds a tree. *)
Definition buildFlameTree (res : ParseResult.t) (mode : FlameMode) : option FlameNode :=
  if JSMap.size (ParseResult.stacks res) =? 0 then None
  else if match mode with
          | cpu => JSMap.size (ParseResult.methodProfiles res) =? 0
          | allocation => JSMap.size (ParseResult.allocationSamples res) =? 0
          end
  then None
  else
    let methodAddresses := buildMethodAddresses (ParseResult.methods res) in
    Some (fold_left (addStackSample methodAddresses (ParseResult.stacks res))
                    (buildSampleData res mode)
                    (newFlameNode (lit "root"))).

(** ** Helpers of the editor provider and of its web view *)

(** [text.replace(/c/g, by)] for a pattern of one character and a
    replacement without [$]: every occurrence of the character gives way
    to the replacement. *)
Definition replaceAll (c : Z) (replacement text : jsstring) : jsstring :=
  flat_map (fun x => if x =? c then replacement else [x]) text.

(** [escapeHtml]: the five [replace] calls, in the order of the source. *)
Definition escapeHtml (text : jsstring) : jsstring :=
  replaceAll 39 (lit "&#039;")
    (replaceAll 34 (lit "&quot;")
       (replaceAll 62 (lit "&gt;")
          (replaceAll 60 (lit "&lt;")
             (replaceAll 38 (lit "&amp;") text)))).

(** [hashCode] of the web view: [hash = ((hash << 5) - hash) +
    str.charCodeAt(i); hash |= 0] for every code unit. The shift works on
    32 bits; the difference and the sum are small enough to be exact. *)
Definition hashCode (str : jsstring) : Z :=
  fold_left (fun hash c => ToInt32 (ToInt32 (Z.shiftl hash 5) - hash + c)) str 0.

(** ** Predicates of the specification *)

(** The serialization header of the file is read and begins with the
    banner. *)
Definition bannerAccepted (buf : list byte) : Prop :=
  exists headerLength r1 headerString r2,
    BufferReader.readInt32LE (mkReader buf 8) = (Ok headerLength, r1)
    /\ BufferReader.readAsciiString headerLength r1 = (Ok headerString, r2)
    /\ startsWith headerString (lit "!FastSerialization.1") = true.

(** The ASCII codes of [Nettrace]. *)
Definition magicBytes : list byte := [x4e; x65; x74; x74; x72; x61; x63; x65].

(** All tables of a result are empty. *)
Definition tablesEmpty (res : ParseResult.t) : Prop :=
  ParseResult.traceInfo res = None
  /\ ParseResult.metadata res = []
  /\ ParseResult.allocations res = []
  /\ ParseResult.stacks res = []
  /\ ParseResult.methods res = []
  /\ ParseResult.methodProfiles res = []
  /\ ParseResult.allocationSamples res = [].

(** Every schema of a table is stored under its own metadata id. *)
Definition metadataKeyed (table : JSMap.t Z EventMetadata.t) : Prop :=
  forall k m, JSMap.get k table = Some m -> EventMetadata.metadataId m = k.

(** The sum of the sizes of a list of allocation events. *)
Definition sumSizes (events : list AllocationEvent.t) : Z :=
  fold_right (fun e acc => AllocationEvent.size e + acc) 0 events.

(** The aggregate [info] of the type [A] agrees with the events recorded
    in it: it counts them, its total is the sum of their sizes, and each
    of them is an allocation of [A]. *)
Definition aggregateConsistent (A : jsstring) (info : AllocationInfo.t) : Prop :=
  AllocationInfo.count info = Z.of_nat (List.length (AllocationInfo.allocations info))
  /\ AllocationInfo.totalSize info = sumSizes (AllocationInfo.allocations info)
  /\ Forall (fun e => AllocationEvent.typeName e = A) (AllocationInfo.allocations info).

Definition allocationsConsistent (table : JSMap.t jsstring AllocationInfo.t) : Prop :=
  forall A info, JSMap.get A table = Some info -> aggregateConsistent A info.

(** No stack has a negative number of CPU samples. *)
Definition samplesNonneg (cpuSamples : JSMap.t Z Z) : Prop :=
  forall stackId sampleCount, In (stackId, sampleCount) cpuSamples -> 0 <= sampleCount.

(** Every method has at most as many exclusive as inclusive samples. *)
Definition countsOrdered (inclusiveCounts exclusiveCounts : JSMap.t jsstring Z) : Prop :=
  forall name, getOr0 name exclusiveCounts <= getOr0 name inclusiveCounts.

Definition profilesOrdered (profiles : JSMap.t jsstring MethodProfile.t) : Prop :=
  forall name p,
    JSMap.get name profiles = Some p ->
    MethodProfile.exclusiveCount p <= MethodProfile.inclusiveCount p.

(** The sum of the weights of the children of a flame-graph node. *)
Definition childrenSamples (cs : list (jsstring * FlameNode)) : Z :=
  fold_right (fun kc acc => samples (snd kc) + acc) 0 cs.

(** [subnode n root]: the node [n] is [root] or lies below it. *)
Inductive subnode : FlameNode -> FlameNode -> Prop :=
| subnode_self n : subnode n n
| subnode_child n k c m : In (k, c) (children n) -> subnode m c -> subnode m n.

(** The weight that an entry of [sampleData] brings to the tree: its
    count when its stack id has a stack with an address, and nothing when
    the loop skips it. *)
Definition countedWeight (stacks : JSMap.t Z StackInfo.t) (entry : Z * SampleData.t)
  : Z :=
  match JSMap.get (fst entry) stacks with
  | Some stack =>
      match StackInfo.addresses stack with
      | [] => 0
      | _ :: _ => SampleData.count (snd entry)
      end
  | None => 0
  end.

Definition sumCountedWeights (stacks : JSMap.t Z StackInfo.t)
    (sampleData : JSMap.t Z SampleData.t) : Z :=
  fold_right (fun entry acc => countedWeight stacks entry + acc) 0 sampleData.

(** The sum of the weights of all entries of [sampleData]. *)
Definition sumInputWeights (sampleData : JSMap.t Z SampleData.t) : Z :=
  fold_right (fun entry acc => SampleData.count (snd entry) + acc) 0 sampleData.

(** No stack has a negative number of allocations. *)
Definition allocationCountsNonneg (samples : JSMap.t Z AllocationSample.t) : Prop :=
  forall stackId s, In (stackId, s) samples -> 0 <= AllocationSample.count s.

(** A reader whose offset lies inside its buffer, as the offset of a
    reader made for a block or a payload does. *)
Definition inBounds (r : BufferReader) : Prop :=
  0 <= _offset r <= buflen (buffer r).

(** [forwardFrom r0 r]: the reader [r] is the reader [r0] moved forward
    inside its buffer. *)
Definition forwardFrom (r0 r : BufferReader) : Prop :=
  buffer r = buffer r0 /\ _offset r0 <= _offset r <= buflen (buffer r).

(** [preserves I m]: the computation [m] keeps the property [I] of the
    state, whether it returns or throws. *)
Definition preserves {S A} (I : S -> Prop) (m : M S A) : Prop :=
  forall s, I s -> I (snd (m s)).

(** An invariant of the parser, seen from a method that also holds a
    local object, and an invariant of that local object. *)
Definition outer {L S} (I : S -> Prop) : L * S -> Prop := fun s => I (snd s).
Definition inner {L S} (I : L -> Prop) : L * S -> Prop := fun s => I (fst s).

(** ** Notions for the properties of the byte cursor *)

(** [bytesAt buf off bs]: the buffer holds the bytes [bs] from the offset
    [off] on. *)
Fixpoint bytesAt (buf : list byte) (off : Z) (bs : list Z) : Prop :=
  match bs with
  | [] => True
  | b :: bs' => byteAt buf off = Some b /\ bytesAt buf (off + 1) bs'
  end.

(** The number that a run of varint bytes stands for: seven bits a byte,
    the low bits first. *)
Fixpoint base128 (bs : list Z) : Z :=
  match bs with
  | [] => 0
  | b :: bs' => Z.land b 127 + 128 * base128 bs'
  end.

(** A run of varint bytes as a reader with a cap of [cap] bytes takes it:
    every byte but the last has its high bit set, and the last one has it
    clear unless it is the byte number [cap]. *)
Fixpoint varintRun (cap : nat) (bs : list Z) : Prop :=
  match cap, bs with
  | S cap', [b] => Z.land b 128 = 0 \/ cap' = O
  | S cap', b :: bs' => Z.land b 128 <> 0 /\ varintRun cap' bs'
  | _, _ => False
  end.

(** [keepsCursor op]: on a reader whose offset lies inside its buffer, the
    method [op] leaves the buffer alone and the offset inside the buffer
    and not before the place where it was, whether it returns or throws. *)
Definition keepsCursor {A} (op : BufferReader.R A) : Prop :=
  forall r, inBounds r -> forwardFrom r (snd (op r)).

(** ** Notions for the properties of the parser *)

(** The result of a parse that has stopped at the header: the result
    object as [parse] makes it, with the one error. *)
Definition rejectedWith (e : JSError) : ParseResult.t :=
  ParseResult.set_errors [ParseError e] ParseResult.initial.

(** The address lies in the code of the method. *)
Definition methodCovers (m : MethodInfo.t) (addr : Z) : Prop :=
  MethodInfo.methodStartAddress m <= addr
  < MethodInfo.methodStartAddress m + MethodInfo.methodSize m.

(** The methods of the table that have a start address ([computeMethodProfiles]
    leaves the others out) have code, and no two of them overlap. *)
Definition methodsDisjoint (methods : JSMap.t Z MethodInfo.t) : Prop :=
  forall m1 m2,
    In m1 (JSMap.values methods) -> In m2 (JSMap.values methods) ->
    0 < MethodInfo.methodStartAddress m1 -> 0 < MethodInfo.methodStartAddress m2 ->
    0 < MethodInfo.methodSize m1
    /\ (m1 = m2
        \/ MethodInfo.methodStartAddress m1 + MethodInfo.methodSize m1
           <= MethodInfo.methodStartAddress m2
        \/ MethodInfo.methodStartAddress m2 + MethodInfo.methodSize m2
           <= MethodInfo.methodStartAddress m1).

(** The elementary updates of the parser that the methods write in line:
    the counters of [processEvent] and [processBlock], and the two ways in
    which a method enters the method table. *)
Definition countEvent (metadataId : Z) (w : World) : World :=
  updThis (fun p =>
    let d := Parser.debugInfo p in
    Parser.set_debugInfo
      (DebugInfo.set_eventCountsByMetadataId
         (JSMap.set metadataId
            (getOr0 metadataId (DebugInfo.eventCountsByMetadataId d) + 1)
            (DebugInfo.eventCountsByMetadataId d))
         (DebugInfo.set_totalEvents (DebugInfo.totalEvents d + 1) d)) p) w.

Definition countAllocationEvent (w : World) : World :=
  updThis (fun p =>
    let d := Parser.debugInfo p in
    Parser.set_debugInfo
      (DebugInfo.set_allocationEvents (DebugInfo.allocationEvents d + 1) d) p) w.

Definition countMetadataBlock (w : World) : World :=
  updThis (fun p =>
    let d := Parser.debugInfo p in
    Parser.set_debugInfo
      (DebugInfo.set_metadataBlocks (DebugInfo.metadataBlocks d + 1) d) p) w.

Definition countEventBlock (w : World) : World :=
  updThis (fun p =>
    let d := Parser.debugInfo p in
    Parser.set_debugInfo
      (DebugInfo.set_eventBlocks (DebugInfo.eventBlocks d + 1) d) p) w.

(** [result.methods.set(methodId, methodInfo);
    result.methodsByAddress.set(methodStartAddress, methodInfo)] *)
Definition loadMethod (methodInfo : MethodInfo.t) (w : World) : World :=
  updResult (fun res =>
    ParseResult.set_methodsByAddress
      (JSMap.set (MethodInfo.methodStartAddress methodInfo) methodInfo
                 (ParseResult.methodsByAddress res))
      (ParseResult.set_methods
         (JSMap.set (MethodInfo.methodId methodInfo) methodInfo
                    (ParseResult.methods res)) res)) w.

(** [result.methods.set(methodId, methodInfo)] for a method that is not in
    the table, as [parseMethodJittingStartedEvent] does it. *)
Definition jitMethod (methodInfo : MethodInfo.t) (w : World) : World :=
  updResult (fun res =>
    ParseResult.set_methods
      (JSMap.set (MethodInfo.methodId methodInfo) methodInfo
                 (ParseResult.methods res)) res) w.

(** Every entry of the table is stored under the key that it carries. *)
Definition keyedBy {K V} {dec : EqDec K} (key : V -> K) (table : JSMap.t K V) : Prop :=
  forall k v, JSMap.get k table = Some v -> key v = k.

(** The sum of a quantity over the entries of a table. *)
Definition sumOver {K V} (f : V -> Z) (table : JSMap.t K V) : Z :=
  fold_right (fun kv acc => f (snd kv) + acc) 0 table.

(** [result.typeStackDistribution.get(typeName)?.get(stackId)] and
    [result.allocationSamples.get(stackId)?.types.get(typeName)] *)
Definition lookupTypeStack (dist : JSMap.t jsstring (JSMap.t Z CountSize.t))
    (typeName : jsstring) (stackId : Z) : option CountSize.t :=
  match JSMap.get typeName dist with
  | Some typeStacks => JSMap.get stackId typeStacks
  | None => None
  end.

Definition lookupStackType (samples : JSMap.t Z AllocationSample.t)
    (stackId : Z) (typeName : jsstring) : option CountSize.t :=
  match JSMap.get stackId samples with
  | Some sample => JSMap.get typeName (AllocationSample.types sample)
  | None => None
  end.

(** The counters of the parser agree: [totalEvents] is the sum of the
    counts by metadata id, and every count is at least one. *)
Definition eventsCounted (w : World) : Prop :=
  let d := Parser.debugInfo (this w) in
  DebugInfo.totalEvents d = sumOver (fun c => c) (DebugInfo.eventCountsByMetadataId d)
  /\ forall k c, In (k, c) (DebugInfo.eventCountsByMetadataId d) -> 1 <= c.

(** The two tables of allocations by stack and by type hold the same
    numbers: the entry of a type under a stack in one is the entry of the
    stack under the type in the other. *)
Definition transposed (res : ParseResult.t) : Prop :=
  forall typeName stackId,
    lookupTypeStack (ParseResult.typeStackDistribution res) typeName stackId
    = lookupStackType (ParseResult.allocationSamples res) stackId typeName.

(** The count and the size of every allocation sample are the sums of the
    counts and of the sizes of its types. *)
Definition sampleTotals (samples : JSMap.t Z AllocationSample.t) : Prop :=
  forall stackId sample,
    JSMap.get stackId samples = Some sample ->
    AllocationSample.count sample
    = sumOver CountSize.count (AllocationSample.types sample)
    /\ AllocationSample.size sample
       = sumOver CountSize.size (AllocationSample.types sample).

(** A byte that [skipToNextObject] passes over: neither an [EndObject] nor
    a [BeginPrivateObject] tag. *)
Definition passedOver (b : option Z) : Prop :=
  tagIs b SerializationTag.EndObject = false
  /\ tagIs b SerializationTag.BeginPrivateObject = false.

(** [onlyStacks w w']: the world [w'] is the world [w] with another stack
    table. *)
Definition onlyStacks (w w' : World) : Prop :=
  exists stacks, w' = updThis (Parser.set_stacks stacks) w.


(** ** Notions for the helpers of the editor provider *)

(** What [escapeHtml] makes of one character. *)
Definition escapeChar (c : Z) : jsstring :=
  if c =? 38 then lit "&amp;"
  else if c =? 60 then lit "&lt;"
  else if c =? 62 then lit "&gt;"
  else if c =? 34 then lit "&quot;"
  else if c =? 39 then lit "&#039;"
  else [c].

(** The characters that end or begin markup: the angle brackets and the
    two quotes. *)
Definition markupChar (c : Z) : Prop := c = 60 \/ c = 62 \/ c = 34 \/ c = 39.

(** The polynomial in 31 whose coefficients are the code units of the
    string, the first one highest. *)
Definition polynomial31 (str : jsstring) : Z :=
  fold_left (fun p c => 31 * p + c) str 0.

(** ** Notions for the method profiles *)

(** Every stack with CPU samples has at least one. *)
Definition samplesPositive (cpuSamples : JSMap.t Z Z) : Prop :=
  forall stackId sampleCount, In (stackId, sampleCount) cpuSamples -> 1 <= sampleCount.

(** The two tables of counts while [computeMethodProfiles] fills them: the
    counts are at least one, and a name with an exclusive count has an
    inclusive count. *)
Definition countsSound (inclusiveCounts exclusiveCounts : JSMap.t jsstring Z) : Prop :=
  (forall name v, In (name, v) inclusiveCounts -> 1 <= v)
  /\ (forall name v, In (name, v) exclusiveCounts -> 1 <= v)
  /\ (forall name, JSMap.has name exclusiveCounts = true ->
                   JSMap.has name inclusiveCounts = true).

(** A profile with at least one inclusive sample, no negative exclusive
    count, and the times that the sampling interval of one millisecond
    gives. *)
Definition profileSound (p : MethodProfile.t) : Prop :=
  1 <= MethodProfile.inclusiveCount p
  /\ 0 <= MethodProfile.exclusiveCount p
  /\ MethodProfile.inclusiveTimeMs p = MethodProfile.inclusiveCount p
  /\ MethodProfile.exclusiveTimeMs p = MethodProfile.exclusiveCount p.

(** ** Notions for the flame graph *)

(** The stacks that have at least one address, in the order of the table. *)
Definition hasFrames (stack : StackInfo.t) : bool :=
  match StackInfo.addresses stack with [] => false | _ :: _ => true end.

Definition stacksWithFrames (stacks : JSMap.t Z StackInfo.t) : list StackInfo.t :=
  filter hasFrames (JSMap.values stacks).

(** No key stands twice in the table. *)
Definition distinctKeys {K V} (table : JSMap.t K V) : Prop :=
  NoDup (JSMap.keys table).

(** A tree whose nodes hold their children under distinct keys, each child
    under its own name. *)
Inductive keyedTree : FlameNode -> Prop :=
| keyedTree_node n :
    distinctKeys (children n) ->
    (forall k c, In (k, c) (children n) -> name c = k /\ keyedTree c) ->
    keyedTree n.

(** The entry of [sampleData] that the CPU variant makes for a stack. *)
Definition cpuEntry (stack : StackInfo.t) : Z * SampleData.t :=
  (StackInfo.stackId stack, SampleData.mk 1 0 None).

(** ** Notions for the exclusive counts *)

(** The samples of the stacks that [computeMethodProfiles] walks: those
    whose stack id has a stack with at least one address. *)
Definition creditedSamples (stacks : JSMap.t Z StackInfo.t) (cpuSamples : JSMap.t Z Z)
  : Z :=
  fold_right
    (fun sample acc =>
       match JSMap.get (fst sample) stacks with
       | Some stack => if hasFrames stack then snd sample + acc else acc
       | None => acc
       end) 0 cpuSamples.

(** The entry of the profile table that [setProfile] makes for a name. *)
Definition profileOf (inclusiveCounts exclusiveCounts : JSMap.t jsstring Z)
    (methodName : jsstring) : jsstring * MethodProfile.t :=
  (methodName,
   MethodProfile.mk methodName (getOr0 methodName inclusiveCounts)
     (getOr0 methodName exclusiveCounts)
     (getOr0 methodName inclusiveCounts * samplingIntervalMs)
     (getOr0 methodName exclusiveCounts * samplingIntervalMs)).

(** The sum of the counts that a table holds for the names of a list. *)
Definition sumAt (counts : JSMap.t jsstring Z) (names : list jsstring) : Z :=
  fold_right (fun n acc => getOr0 n counts + acc) 0 names.

(** ** Notions for the trace block *)

(** The signed little-endian number of [width] bytes at an offset. *)
Definition signedAt (data : list byte) (off width : Z) : Z :=
  toSigned (8 * width) (leValue (firstn (Z.to_nat width) (skipn (Z.to_nat off) data))).

(** The trace information that a block of 48 bytes spells out. *)
Definition traceInfoAt (data : list byte) : TraceInfo.t :=
  TraceInfo.mk
    (mkDateUTC (signedAt data 0 2) (signedAt data 2 2 - 1) (signedAt data 6 2)
               (signedAt data 8 2) (signedAt data 10 2) (signedAt data 12 2)
               (signedAt data 14 2))
    (signedAt data 16 8) (signedAt data 24 8) (signedAt data 32 4) (signedAt data 36 4)
    (signedAt data 40 4) (signedAt data 44 4).

(** ** Notions for the allocations by stack *)

(** The allocation tables by stack hold positive stack ids, type names
    that are not empty and counts of at least one. *)
Definition sampledOnStacks (res : ParseResult.t) : Prop :=
  (forall stackId sample,
     JSMap.get stackId (ParseResult.allocationSamples res) = Some sample ->
     0 < stackId /\ 1 <= AllocationSample.count sample)
  /\ (forall stackId typeName data,
        lookupStackType (ParseResult.allocationSamples res) stackId typeName = Some data ->
        0 < stackId /\ typeName <> [] /\ 1 <= CountSize.count data)
  /\ (forall typeName stackId data,
        lookupTypeStack (ParseResult.typeStackDistribution res) typeName stackId
        = Some data ->
        0 < stackId /\ typeName <> [] /\ 1 <= CountSize.count data).

(** ** Auxiliary notions of the proofs *)

(** The entry that both tables hold for a type under a stack after one
    more allocation of that type on that stack. *)
Definition bumped (size : Z) (old : option CountSize.t) : CountSize.t :=
  match old with
  | Some data => CountSize.mk (CountSize.count data + 1) (CountSize.size data + size)
  | None => CountSize.mk 1 size
  end.

(** The tables of the parser and of the result during the walk over the
    objects of the file. *)
Definition tablesKeyed (w : World) : Prop :=
  keyedBy StackInfo.stackId (Parser.stacks (this w))
  /\ keyedBy MethodInfo.methodId (ParseResult.methods (result w))
  /\ keyedBy MethodInfo.methodStartAddress (ParseResult.methodsByAddress (result w))
  /\ keyedBy AllocationInfo.typeName (ParseResult.allocations (result w))
  /\ (forall k info, JSMap.get k (ParseResult.allocations (result w)) = Some info ->
        k <> [])
  /\ ParseResult.methodProfiles (result w) = [].


(** The order of the sorted array of methods. *)
Definition leAddress (a b : MethodAddress.t) : Prop :=
  MethodAddress.address a <= MethodAddress.address b.

(** In a sorted array of intervals that do not overlap, an interval before
    another one ends before the other one begins. *)
Definition separated (entries : list MethodAddress.t) : Prop :=
  (forall e, In e entries -> MethodAddress.address e <= MethodAddress.endAddress e)
  /\ forall i j ei ej, (i < j)%nat ->
       nth_error entries i = Some ei -> nth_error entries j = Some ej ->
       ei = ej \/ MethodAddress.endAddress ei <= MethodAddress.address ej.


(** The set of providers of the parser lists every provider of a schema,
    once. *)
Definition providersListed (w : World) : Prop :=
  NoDup (DebugInfo.providers (Parser.debugInfo (this w)))
  /\ forall metadataId meta,
       JSMap.get metadataId (Parser.metadata (this w)) = Some meta ->
       In (EventMetadata.providerName meta)
          (DebugInfo.providers (Parser.debugInfo (this w))).

(** ** Notions for the dispatch of an event *)

(** A computation that never throws. *)
Definition neverThrows {S} (m : M S unit) : Prop :=
  forall s, fst (m s) = Ok tt.

(** What the handlers of the events leave as it was: the counts of the
    events, in total and by metadata id, the schemas, the stacks, the
    reader and the error list of the parser. *)
Definition handlersKeep (w0 w : World) : Prop :=
  DebugInfo.totalEvents (Parser.debugInfo (this w))
  = DebugInfo.totalEvents (Parser.debugInfo (this w0))
  /\ DebugInfo.eventCountsByMetadataId (Parser.debugInfo (this w))
     = DebugInfo.eventCountsByMetadataId (Parser.debugInfo (this w0))
  /\ Parser.metadata (this w) = Parser.metadata (this w0)
  /\ Parser.stacks (this w) = Parser.stacks (this w0)
  /\ Parser.reader (this w) = Parser.reader (this w0)
  /\ Parser.errors (this w) = Parser.errors (this w0).

(** ** Notions for the end of the buffer *)



(** ** Notions for the stack block *)

(** The addresses of an entry: [n] little-endian numbers of [pointerSize]
    bytes each, from the offset [off] of the block on. *)
Fixpoint addressesAt (pointerSize : Z) (data : list byte) (off : Z) (n : nat)
  : list Z :=
  match n with
  | O => []
  | S n' =>
      leValue (firstn (Z.to_nat pointerSize) (skipn (Z.to_nat off) data))
      :: addressesAt pointerSize data (off + pointerSize) n'
  end.

(** [entryRun pointerSize data off count entries]: the entries, each with
    the stack size it declares and its addresses, that a block holds from
    the offset [off] on when [count] entries are still due. An entry
    starts with its stack size in four bytes; it counts when the size is
    not zero and the block has that many bytes left, and then it has
    [stackSize / pointerSize] addresses, rounded down, and the next entry
    starts behind them. The run ends where no entry is due, where fewer
    than four bytes are left, or at an entry that does not count. *)
Fixpoint entryRun (pointerSize : Z) (data : list byte) (off count : Z)
    (entries : list (Z * list Z)) : Prop :=
  match entries with
  | [] =>
      count <= 0 \/ buflen data - off < 4
      \/ exists stackSize,
           bufReadU data off 4 = Ok stackSize
           /\ (stackSize = 0 \/ buflen data < off + 4 + stackSize)
  | (stackSize, addresses) :: rest =>
      0 < count /\ bufReadU data off 4 = Ok stackSize
      /\ stackSize <> 0 /\ off + 4 + stackSize <= buflen data
      /\ addresses
         = addressesAt pointerSize data (off + 4) (Z.to_nat (stackSize / pointerSize))
      /\ entryRun pointerSize data (off + 4 + stackSize / pointerSize * pointerSize)
                  (count - 1) rest
  end.

(** The stack table after the entries have been stored under the ids from
    [currentId] on, one after the other. *)
Fixpoint storeEntries (currentId : Z) (entries : list (Z * list Z))
    (stacks : JSMap.t Z StackInfo.t) : JSMap.t Z StackInfo.t :=
  match entries with
  | [] => stacks
  | (_, addresses) :: rest =>
      storeEntries (currentId + 1) rest
        (JSMap.set currentId (StackInfo.mk currentId addresses) stacks)
  end.

(** ** Notions for the compressed events *)




(** ** Traces for the examples *)

(** A trace with a Trace object (pointer size 8), a metadata block with the
    schemas 7 (runtime, event 10), 8 (runtime, event 143) and 9 (sample
    profiler), whose pseudo-event headers carry the ids 1, 2 and 3, a stack
    block with the stack 1 = [0x1000; 0x2000], and a compressed event block
    with a method load of NS.Foo at 0x1000 (size 0x100), an allocation tick
    of 128 bytes of MyType on stack 1, and a CPU sample on stack 1. *)
Definition methodResolutionTrace : list byte :=
  [x4e; x65; x74; x74; x72; x61; x63; x65; x14; x00; x00; x00; x21; x46; x61; x73;
   x74; x53; x65; x72; x69; x61; x6c; x69; x7a; x61; x74; x69; x6f; x6e; x2e; x31;
   x05; x05; x01; x04; x00; x00; x00; x04; x00; x00; x00; x05; x00; x00; x00; x54;
   x72; x61; x63; x65; x06; xe9; x07; x0b; x00; x06; x00; x1d; x00; x10; x00; x1a;
   x00; x08; x00; x00; x00; x40; xe2; x01; x00; x00; x00; x00; x00; x80; x96; x98;
   x00; x00; x00; x00; x00; x08; x00; x00; x00; x2a; x00; x00; x00; x08; x00; x00;
   x00; x01; x00; x00; x00; x06; x05; x05; x01; x04; x00; x00; x00; x04; x00; x00;
   x00; x0d; x00; x00; x00; x4d; x65; x74; x61; x64; x61; x74; x61; x42; x6c; x6f;
   x63; x6b; x06; x8d; x01; x00; x00; x00; x04; x00; x01; x00; x81; x01; x00; x7e;
   x07; x00; x00; x00; x4d; x00; x69; x00; x63; x00; x72; x00; x6f; x00; x73; x00;
   x6f; x00; x66; x00; x74; x00; x2d; x00; x57; x00; x69; x00; x6e; x00; x64; x00;
   x6f; x00; x77; x00; x73; x00; x2d; x00; x44; x00; x6f; x00; x74; x00; x4e; x00;
   x45; x00; x54; x00; x52; x00; x75; x00; x6e; x00; x74; x00; x69; x00; x6d; x00;
   x65; x00; x00; x00; x0a; x00; x00; x00; x47; x00; x43; x00; x41; x00; x6c; x00;
   x6c; x00; x6f; x00; x63; x00; x61; x00; x74; x00; x69; x00; x6f; x00; x6e; x00;
   x54; x00; x69; x00; x63; x00; x6b; x00; x00; x00; x00; x00; x00; x00; x00; x00;
   x00; x00; x01; x00; x00; x00; x04; x00; x00; x00; x00; x00; x00; x00; x81; x02;
   x00; x80; x01; x08; x00; x00; x00; x4d; x00; x69; x00; x63; x00; x72; x00; x6f;
   x00; x73; x00; x6f; x00; x66; x00; x74; x00; x2d; x00; x57; x00; x69; x00; x6e;
   x00; x64; x00; x6f; x00; x77; x00; x73; x00; x2d; x00; x44; x00; x6f; x00; x74;
   x00; x4e; x00; x45; x00; x54; x00; x52; x00; x75; x00; x6e; x00; x74; x00; x69;
   x00; x6d; x00; x65; x00; x00; x00; x8f; x00; x00; x00; x4d; x00; x65; x00; x74;
   x00; x68; x00; x6f; x00; x64; x00; x4c; x00; x6f; x00; x61; x00; x64; x00; x56;
   x00; x65; x00; x72; x00; x62; x00; x6f; x00; x73; x00; x65; x00; x00; x00; x00;
   x00; x00; x00; x00; x00; x00; x00; x01; x00; x00; x00; x04; x00; x00; x00; x00;
   x00; x00; x00; x81; x03; x00; x7e; x09; x00; x00; x00; x4d; x00; x69; x00; x63;
   x00; x72; x00; x6f; x00; x73; x00; x6f; x00; x66; x00; x74; x00; x2d; x00; x44;
   x00; x6f; x00; x74; x00; x4e; x00; x45; x00; x54; x00; x43; x00; x6f; x00; x72;
   x00; x65; x00; x2d; x00; x53; x00; x61; x00; x6d; x00; x70; x00; x6c; x00; x65;
   x00; x50; x00; x72; x00; x6f; x00; x66; x00; x69; x00; x6c; x00; x65; x00; x72;
   x00; x00; x00; x00; x00; x00; x00; x54; x00; x68; x00; x72; x00; x65; x00; x61;
   x00; x64; x00; x53; x00; x61; x00; x6d; x00; x70; x00; x6c; x00; x65; x00; x00;
   x00; x00; x00; x00; x00; x00; x00; x00; x00; x01; x00; x00; x00; x04; x00; x00;
   x00; x00; x00; x00; x00; x06; x05; x05; x01; x04; x00; x00; x00; x04; x00; x00;
   x00; x0a; x00; x00; x00; x53; x74; x61; x63; x6b; x42; x6c; x6f; x63; x6b; x06;
   x1c; x00; x00; x00; x01; x00; x00; x00; x01; x00; x00; x00; x10; x00; x00; x00;
   x00; x10; x00; x00; x00; x00; x00; x00; x00; x20; x00; x00; x00; x00; x00; x00;
   x06; x05; x05; x01; x04; x00; x00; x00; x04; x00; x00; x00; x0a; x00; x00; x00;
   x45; x76; x65; x6e; x74; x42; x6c; x6f; x63; x6b; x06; x81; x00; x00; x00; x00;
   x14; x00; x01; x00; x00; x00; x00; x00; x00; x00; x00; x00; x00; x00; x00; x00;
   x00; x00; x00; x00; x8d; x08; x03; x00; x05; x34; x01; x00; x00; x00; x00; x00;
   x00; x00; x01; x00; x00; x00; x00; x00; x00; x00; x00; x10; x00; x00; x00; x00;
   x00; x00; x00; x01; x00; x00; x01; x00; x00; x06; x00; x00; x00; x00; x4e; x00;
   x53; x00; x00; x00; x46; x00; x6f; x00; x6f; x00; x00; x00; x00; x00; x89; x07;
   x01; x05; x28; x40; x00; x00; x00; x00; x00; x00; x00; x00; x00; x80; x00; x00;
   x00; x00; x00; x00; x00; x34; x12; x00; x00; x00; x00; x00; x00; x4d; x00; x79;
   x00; x54; x00; x79; x00; x70; x00; x65; x00; x00; x00; x81; x09; x01; x02; x01;
   x02; x06].

(** A trace with the stack 1 = [0x1000] and one allocation tick of MyType
    on the stack id 5, for which the trace has no stack. *)
Definition missingStackTrace : list byte :=
  [x4e; x65; x74; x74; x72; x61; x63; x65; x14; x00; x00; x00; x21; x46; x61; x73;
   x74; x53; x65; x72; x69; x61; x6c; x69; x7a; x61; x74; x69; x6f; x6e; x2e; x31;
   x05; x05; x01; x04; x00; x00; x00; x04; x00; x00; x00; x05; x00; x00; x00; x54;
   x72; x61; x63; x65; x06; xe9; x07; x0b; x00; x06; x00; x1d; x00; x10; x00; x1a;
   x00; x08; x00; x00; x00; x40; xe2; x01; x00; x00; x00; x00; x00; x80; x96; x98;
   x00; x00; x00; x00; x00; x08; x00; x00; x00; x2a; x00; x00; x00; x08; x00; x00;
   x00; x01; x00; x00; x00; x06; x05; x05; x01; x04; x00; x00; x00; x04; x00; x00;
   x00; x0d; x00; x00; x00; x4d; x65; x74; x61; x64; x61; x74; x61; x42; x6c; x6f;
   x63; x6b; x06; x86; x00; x00; x00; x00; x04; x00; x01; x00; x81; x07; x00; x7e;
   x07; x00; x00; x00; x4d; x00; x69; x00; x63; x00; x72; x00; x6f; x00; x73; x00;
   x6f; x00; x66; x00; x74; x00; x2d; x00; x57; x00; x69; x00; x6e; x00; x64; x00;
   x6f; x00; x77; x00; x73; x00; x2d; x00; x44; x00; x6f; x00; x74; x00; x4e; x00;
   x45; x00; x54; x00; x52; x00; x75; x00; x6e; x00; x74; x00; x69; x00; x6d; x00;
   x65; x00; x00; x00; x0a; x00; x00; x00; x47; x00; x43; x00; x41; x00; x6c; x00;
   x6c; x00; x6f; x00; x63; x00; x61; x00; x74; x00; x69; x00; x6f; x00; x6e; x00;
   x54; x00; x69; x00; x63; x00; x6b; x00; x00; x00; x00; x00; x00; x00; x00; x00;
   x00; x00; x01; x00; x00; x00; x04; x00; x00; x00; x00; x00; x00; x00; x06; x05;
   x05; x01; x04; x00; x00; x00; x04; x00; x00; x00; x0a; x00; x00; x00; x53; x74;
   x61; x63; x6b; x42; x6c; x6f; x63; x6b; x06; x14; x00; x00; x00; x00; x00; x00;
   x01; x00; x00; x00; x01; x00; x00; x00; x08; x00; x00; x00; x00; x10; x00; x00;
   x00; x00; x00; x00; x06; x05; x05; x01; x04; x00; x00; x00; x04; x00; x00; x00;
   x0a; x00; x00; x00; x45; x76; x65; x6e; x74; x42; x6c; x6f; x63; x6b; x06; x41;
   x00; x00; x00; x00; x14; x00; x01; x00; x00; x00; x00; x00; x00; x00; x00; x00;
   x00; x00; x00; x00; x00; x00; x00; x00; x89; x07; x05; x05; x28; x40; x00; x00;
   x00; x00; x00; x00; x00; x00; x00; x80; x00; x00; x00; x00; x00; x00; x00; x34;
   x12; x00; x00; x00; x00; x00; x00; x4d; x00; x79; x00; x54; x00; x79; x00; x70;
   x00; x65; x00; x00; x00; x06].

(** A trace whose metadata block holds one pseudo-event with a payload of
    two bytes, too short for the int32 metadata id of a schema, followed by
    an event block with one event. *)
Definition truncatedSchemaTrace : list byte :=
  [x4e; x65; x74; x74; x72; x61; x63; x65; x14; x00; x00; x00; x21; x46; x61; x73;
   x74; x53; x65; x72; x69; x61; x6c; x69; x7a; x61; x74; x69; x6f; x6e; x2e; x31;
   x05; x05; x01; x04; x00; x00; x00; x04; x00; x00; x00; x05; x00; x00; x00; x54;
   x72; x61; x63; x65; x06; xe9; x07; x0b; x00; x06; x00; x1d; x00; x10; x00; x1a;
   x00; x08; x00; x00; x00; x40; xe2; x01; x00; x00; x00; x00; x00; x80; x96; x98;
   x00; x00; x00; x00; x00; x08; x00; x00; x00; x2a; x00; x00; x00; x08; x00; x00;
   x00; x01; x00; x00; x00; x06; x05; x05; x01; x04; x00; x00; x00; x04; x00; x00;
   x00; x0d; x00; x00; x00; x4d; x65; x74; x61; x64; x61; x74; x61; x42; x6c; x6f;
   x63; x6b; x06; x0a; x00; x00; x00; x00; x04; x00; x01; x00; x81; x07; x00; x02;
   x07; x00; x06; x05; x05; x01; x04; x00; x00; x00; x04; x00; x00; x00; x0a; x00;
   x00; x00; x45; x76; x65; x6e; x74; x42; x6c; x6f; x63; x6b; x06; x1c; x00; x00;
   x00; x00; x00; x00; x14; x00; x01; x00; x00; x00; x00; x00; x00; x00; x00; x00;
   x00; x00; x00; x00; x00; x00; x00; x00; x89; x07; x01; x05; x03; x01; x02; x03;
   x06].



(** A file of 32 bytes that starts with [NETTRACE] in capitals, and a file
    whose banner is [!SlowSerialization.1]. *)
Definition badMagicFile : list byte :=
  [x4e; x45; x54; x54; x52; x41; x43; x45;  x14; x00; x00; x00;
   x21; x46; x61; x73; x74; x53; x65; x72; x69; x61; x6c; x69; x7a; x61; x74;
   x69; x6f; x6e; x2e; x31].

Definition badBannerFile : list byte :=
  [x4e; x65; x74; x74; x72; x61; x63; x65;  x14; x00; x00; x00;
   x21; x53; x6c; x6f; x77; x53; x65; x72; x69; x61; x6c; x69; x7a; x61; x74;
   x69; x6f; x6e; x2e; x31].

(** The CPU flame graph of the method-resolution trace: the root, the
    frame 0x2000 below it and NS.Foo below that, each with weight one. *)
Definition resolvedFlameTree : FlameNode :=
  Eval vm_compute in
    match buildFlameTree (parse methodResolutionTrace) cpu with
    | Some root => root
    | None => newFlameNode []
    end.

(** A method table with the methods [A.f] at [0x1000, 0x1100) and [A.g]
    at [0x2000, 0x2040), the second one loaded first. *)
Definition twoMethods : JSMap.t Z MethodInfo.t :=
  [(2, MethodInfo.mk 2 1 8192 64 0 0 (lit "A") (lit "g") []);
   (1, MethodInfo.mk 1 1 4096 256 0 0 (lit "A") (lit "f") [])].

(** The payload of a method-jitting-started event for the method id 1 of
    the module 9, with an empty namespace, name and signature. *)
Definition jittingStartedPayload : list byte :=
  [x01; x00; x00; x00; x00; x00; x00; x00;  x09; x00; x00; x00; x00; x00; x00; x00;
   x00; x00; x00; x06;  x10; x00; x00; x00;  x00; x00;  x00; x00;  x00; x00].


(** A parser after the walk over the objects: the stack 1 has two frames
    and three samples, the stack 2 has no frame and five samples, and the
    stack id 7 has four samples and no stack. *)
Definition sampledWorld : World :=
  {| this :=
       Parser.set_cpuSamples [(1, 3); (2, 5); (7, 4)]
         (Parser.set_stacks [(1, StackInfo.mk 1 [4100; 8200]); (2, StackInfo.mk 2 [])]
            (Parser.initial []));
     result := ParseResult.set_methods twoMethods ParseResult.initial |}.

(** A trace block: 3 November 2026 12:30:45.500, tick 1000 at a frequency
    of 10000000, pointers of 8 bytes, process 4660, 4 processors, sampling
    rate 1. *)
Definition traceBlock : list byte :=
  [xea; x07;  x0b; x00;  x02; x00;  x03; x00;  x0c; x00;  x1e; x00;  x2d; x00;  xf4; x01;
   xe8; x03; x00; x00; x00; x00; x00; x00;
   x80; x96; x98; x00; x00; x00; x00; x00;
   x08; x00; x00; x00;  x34; x12; x00; x00;  x04; x00; x00; x00;  x01; x00; x00; x00].

(** A parser in front of an object nested in the one to skip: a
    [BeginPrivateObject], two [EndObject] and one more byte. *)
Definition nestedObjectWorld : World :=
  {| this := Parser.initial [x05; x06; x06; x2a]; result := ParseResult.initial |}.

(** A stack block with one entry for the stack 1, which declares 16 bytes
    and holds the addresses [0x1000] and [0x2000]. *)
Definition oneStackBlock : list byte :=
  [x01; x00; x00; x00;  x01; x00; x00; x00;  x10; x00; x00; x00;
   x00; x10; x00; x00; x00; x00; x00; x00;  x00; x20; x00; x00; x00; x00; x00; x00].

(** * Properties *)

Import BufferReader.
Unset Implicit Arguments.

(** ** The byte cursor *)

Ltac case_if :=
  match goal with
  | |- context [if ?c then _ else _] => let E := fresh "E" in destruct c eqn:E
  end.


Lemma readByte_ok r :
  hasBytes r 1 = true ->
  readByte r = (Ok (byteAt (buffer r) (_offset r)), set_offset (_offset r + 1) r).
Proof. intros H. unfold readByte. rewrite H. reflexivity. Qed.

Lemma hasBytes_set_offset r v n :
  hasBytes (set_offset v r) n = (v + n <=? buflen (buffer r)).
Proof. reflexivity. Qed.



Lemma bufReadU_ok buf off width :
  0 <= off -> off + width <= buflen buf ->
  exists v, bufReadU buf off width = Ok v.
Proof.
  intros H1 H2. unfold bufReadU.
  destruct (off <? 0) eqn:E1; [apply Z.ltb_lt in E1; lia|].
  destruct (buflen buf <? off + width) eqn:E2; [apply Z.ltb_lt in E2; lia|].
  simpl. eauto.
Qed.

Lemma readUInt16LE_ok r :
  0 <= offset r -> hasBytes r 2 = true ->
  exists v, readUInt16LE r = (Ok v, set_offset (_offset r + 2) r)
            /\ bufReadU (buffer r) (_offset r) 2 = Ok v.
Proof.
  intros H0 Hb. unfold readUInt16LE, readFixed. rewrite Hb. simpl.
  unfold hasBytes in Hb. apply Z.leb_le in Hb.
  destruct (bufReadU_ok (buffer r) (_offset r) 2 H0 Hb) as [v Hv].
  rewrite Hv. eauto.
Qed.


(** ** The stack block decoder *)

Lemma leValue_nonneg bs : 0 <= leValue bs.
Proof.
  induction bs as [|b bs IH]; cbn [leValue]; [lia|].
  unfold byteZ. lia.
Qed.

Lemma readFixedU_ok width r :
  0 <= offset r -> hasBytes r width = true ->
  exists v, readFixed width bufReadU r = (Ok v, set_offset (_offset r + width) r)
            /\ 0 <= v.
Proof.
  intros H0 Hb. unfold readFixed. rewrite Hb. cbn [negb].
  unfold hasBytes in Hb. apply Z.leb_le in Hb.
  unfold bufReadU.
  destruct (_offset r <? 0) eqn:E1; [apply Z.ltb_lt in E1; unfold offset in *; lia|].
  destruct (buflen (buffer r) <? _offset r + width) eqn:E2; [apply Z.ltb_lt in E2; lia|].
  cbn [orb]. eexists. split; [reflexivity | apply leValue_nonneg].
Qed.

Lemma readFixedU_inv width r v r' :
  readFixed width bufReadU r = (Ok v, r') ->
  r' = set_offset (_offset r + width) r /\ 0 <= v /\ hasBytes r width = true.
Proof.
  unfold readFixed, bufReadU. intros H.
  destruct (hasBytes r width); cbn [negb] in H; [|discriminate].
  destruct (_ || _); [discriminate|].
  inversion H; subst. auto using leValue_nonneg.
Qed.

(** With a pointer size of 4 or 8 and enough bytes for the addresses that
    are still due, the inner loop reads all of them. *)
Lemma readAddresses_loop_count fuel : forall ps n j acc r res r',
  ps = 4 \/ ps = 8 ->
  0 <= offset r -> j <= n ->
  (n - j) * ps <= remaining r ->
  n - j < Z.of_nat fuel ->
  readAddresses_loop fuel ps (Some n) j acc r = (res, r') ->
  exists addrs, res = Ok addrs
                /\ Z.of_nat (List.length addrs) = Z.of_nat (List.length acc) + (n - j).
Proof.
  induction fuel as [|fuel IH]; intros ps n j acc r res r' Hps H0 Hj Hrem Hfuel H.
  - simpl in Hfuel. lia.
  - cbn [readAddresses_loop belowBound] in H.
    destruct (j <? n) eqn:Ej.
    + apply Z.ltb_lt in Ej.
      assert (Hb : hasBytes r ps = true).
      { unfold hasBytes, remaining in *. apply Z.leb_le. nia. }
      rewrite Hb in H. cbn [andb] in H. unfold bind in H.
      assert (Hread : exists v,
        (if ps =? 8 then readUInt64LE else readUInt32LE) r
        = (Ok v, set_offset (_offset r + ps) r)).
      { destruct Hps as [-> | ->]; cbn [Z.eqb Pos.eqb].
        - destruct (readFixedU_ok 4 r H0 Hb) as (v & Hv & _). eauto.
        - destruct (readFixedU_ok 8 r H0 Hb) as (v & Hv & _). eauto. }
      destruct Hread as (v & Hv).
      match type of H with
      | context [let (_, _) := ?t in _] => change t with
          ((if ps =? 8 then readUInt64LE else readUInt32LE) r) in H
      end.
      rewrite Hv in H.
      apply IH in H; auto.
      * destruct H as (addrs & -> & Hlen). exists addrs. split; [reflexivity|].
        rewrite Hlen, length_app. cbn [List.length]. lia.
      * unfold offset, set_offset in *. cbn [_offset]. lia.
      * lia.
      * unfold remaining, set_offset in *. cbn [buffer _offset]. lia.
      * lia.
    + apply Z.ltb_ge in Ej. cbn [andb] in H. inversion H; subst.
      exists acc. split; [reflexivity | lia].
Qed.

(** ** Inversion of the monadic code *)

Lemma bind_ok_inv {S A B} (m : M S A) (k : A -> M S B) s b s' :
  bind m k s = (Ok b, s') ->
  exists a s1, m s = (Ok a, s1) /\ k a s1 = (Ok b, s').
Proof.
  unfold bind. destruct (m s) as [[a|e] s1]; [eauto | discriminate].
Qed.

Lemma ret_ok_inv {S A} (a b : A) (s s' : S) :
  ret a s = (Ok b, s') -> b = a /\ s' = s.
Proof. unfold ret. intros H. inversion H. auto. Qed.

Lemma onLocal_ok_inv {L S A} (m : M L A) (s s' : L * S) a :
  onLocal m s = (Ok a, s') ->
  m (fst s) = (Ok a, fst s') /\ snd s' = snd s.
Proof.
  unfold onLocal, zoom. destruct (m (fst s)) as [res l']. intros H.
  inversion H; subst. auto.
Qed.

(** ** Invariants of the parser state

    [preserves I m] says that the computation [m] keeps the property [I]
    of the state, whether it returns or throws. The lemmas below follow
    the structure of the monadic code, so that the preservation of an
    invariant by a method of the parser is proved by walking down its
    definition. *)

Lemma preserves_ret {S A} (I : S -> Prop) (a : A) : preserves I (ret a).
Proof. intros s H. exact H. Qed.

Lemma preserves_throw {S A} (I : S -> Prop) e : preserves I (@throw S A e).
Proof. intros s H. exact H. Qed.

Lemma preserves_gets {S A} (I : S -> Prop) (f : S -> A) : preserves I (gets f).
Proof. intros s H. exact H. Qed.

Lemma preserves_bind {S A B} (I : S -> Prop) (m : M S A) (k : A -> M S B) :
  preserves I m -> (forall a, preserves I (k a)) -> preserves I (bind m k).
Proof.
  intros Hm Hk s H. unfold bind. specialize (Hm s H).
  destruct (m s) as [[a|e] s1]; cbn [snd] in *; [apply Hk; exact Hm | exact Hm].
Qed.

Lemma preserves_try_catch {S A} (I : S -> Prop) (m : M S A) h :
  preserves I m -> (forall e, preserves I (h e)) -> preserves I (try_catch m h).
Proof.
  intros Hm Hh s H. unfold try_catch. specialize (Hm s H).
  destruct (m s) as [[a|e] s1]; cbn [snd] in *; [exact Hm | apply Hh; exact Hm].
Qed.

Lemma preserves_modify {S} (I : S -> Prop) (f : S -> S) :
  (forall s, I s -> I (f s)) -> preserves I (modify f).
Proof. intros Hf s H. apply Hf. exact H. Qed.

Lemma preserves_when {S} (I : S -> Prop) b (m : M S unit) :
  preserves I m -> preserves I (when b m).
Proof. intros Hm. destruct b; [exact Hm | apply preserves_ret]. Qed.

Lemma preserves_onLocal {L S A} (I : S -> Prop) (m : M L A) :
  preserves (outer I) (@onLocal L S A m).
Proof.
  intros s H. unfold onLocal, zoom. destruct (m (fst s)). exact H.
Qed.

Lemma preserves_onOuter {L S A} (I : S -> Prop) (m : M S A) :
  preserves I m -> preserves (outer I) (@onOuter L S A m).
Proof.
  intros Hm s H. unfold onOuter, zoom. specialize (Hm (snd s) H).
  destruct (m (snd s)). exact Hm.
Qed.

Lemma preserves_with_local {L S A} (I : S -> Prop) (l : L) (m : M (L * S) A) :
  preserves (outer I) m -> preserves I (with_local l m).
Proof.
  intros Hm s H. unfold with_local. specialize (Hm (l, s) H).
  destruct (m (l, s)). exact Hm.
Qed.

(** A step of a proof of [preserves]: one constructor of the monadic code. *)
Ltac preserves_step :=
  match goal with
  | |- preserves _ (bind _ _) => apply preserves_bind; [| intro]
  | |- preserves _ (ret _) => apply preserves_ret
  | |- preserves _ (throw _) => apply preserves_throw
  | |- preserves _ (gets _) => apply preserves_gets
  | |- preserves _ (try_catch _ _) => apply preserves_try_catch; [| intro]
  | |- preserves _ (when _ _) => apply preserves_when
  | |- preserves _ (onLocal _) => apply preserves_onLocal
  | |- preserves _ (onOuter _) => apply preserves_onOuter
  | |- preserves _ (with_local _ _) => apply preserves_with_local
  | |- preserves _ (if ?c then _ else _) => destruct c
  | |- preserves _ (match ?x with _ => _ end) => destruct x
  | |- preserves ?J (fun s => if _ then _ else _) =>
      let s := fresh "s" in
      let H := fresh "H" in
      intros s H; cbv beta;
      match goal with
      | |- context [if ?c then _ else _] => destruct c
      end;
      first [ exact H
            | match goal with
              | |- _ (snd (?m s)) => refine ((_ : preserves J m) s H)
              end ]
  end.

Ltac preserves_tac := repeat (preserves_step; auto).

(** [Set.prototype.add] *)
Lemma JSSet_add_NoDup {K} {dec : EqDec K} (k : K) (s : JSSet.t K) :
  NoDup s -> NoDup (JSSet.add k s).
Proof.
  intros H. unfold JSSet.add, JSSet.has.
  destruct (in_dec eq_dec k s) as [Hin | Hnot]; [exact H|].
  apply NoDup_app; [exact H | repeat constructor; intros [] |].
  intros x Hx [<- | []]. contradiction.
Qed.

Lemma JSSet_add_In {K} {dec : EqDec K} (k x : K) (s : JSSet.t K) :
  In x s \/ x = k -> In x (JSSet.add k s).
Proof.
  unfold JSSet.add, JSSet.has.
  destruct (in_dec eq_dec k s) as [Hin | Hnot]; intros [H | ->];
    try assumption; apply in_or_app; [left | right; left]; auto.
Qed.


Section ParserInvariant.

(** An invariant [I] of the parser and its result that every elementary
    update of the block decoders and of the container driver keeps. *)
Variable I : World -> Prop.

Hypothesis I_countEvent : forall w metadataId,
  I w -> I (countEvent metadataId w).
Hypothesis I_countAllocationEvent : forall w,
  I w -> I (countAllocationEvent w).
Hypothesis I_addProvider : forall w providerName,
  I w -> I (addProvider providerName w).
Hypothesis I_countMetadataBlock : forall w,
  I w -> I (countMetadataBlock w).
Hypothesis I_countEventBlock : forall w,
  I w -> I (countEventBlock w).
Hypothesis I_pointerSize : forall w v,
  I w -> I (updThis (Parser.set_pointerSize v) w).
Hypothesis I_processId : forall w v,
  I w -> I (updThis (Parser.set_processId v) w).
Hypothesis I_loadMethod : forall w methodInfo,
  I w -> I (loadMethod methodInfo w).
Hypothesis I_jitMethod : forall w methodInfo,
  JSMap.has (MethodInfo.methodId methodInfo) (ParseResult.methods (result w)) = false ->
  MethodInfo.methodStartAddress methodInfo = 0 ->
  I w -> I (jitMethod methodInfo w).
Hypothesis I_cpuSample : forall w stackId,
  0 < stackId -> I w ->
  I (updThis (fun p =>
       Parser.set_cpuSamples
         (JSMap.set stackId (getOr0 stackId (Parser.cpuSamples p) + 1)
                    (Parser.cpuSamples p)) p) w).
Hypothesis I_addAllocation : forall w typeName size timestamp stackId,
  typeName <> [] ->
  I w -> I (addAllocation typeName size timestamp stackId w).
Hypothesis I_setStack : forall w currentId addresses,
  I w -> I (setStack currentId addresses w).
Hypothesis I_setMetadata : forall w metadata,
  In (EventMetadata.providerName metadata)
     (DebugInfo.providers (Parser.debugInfo (this w))) ->
  I w -> I (setMetadata (EventMetadata.metadataId metadata) metadata w).

Lemma parseAllocationEvent_preserves payload timestamp stackId :
  preserves I (parseAllocationEvent payload timestamp stackId).
Proof.
  unfold parseAllocationEvent. preserves_tac.
  apply preserves_modify. intros w Hw. apply I_addAllocation; [|exact Hw].
  match goal with
  | |- match ?typeName0 with _ => _ end <> [] => destruct typeName0; discriminate
  end.
Qed.

Lemma parseStackBlock_loop_preserves fuel : forall count i currentId,
  preserves (outer I) (parseStackBlock_loop fuel count i currentId).
Proof.
  induction fuel as [|fuel IH]; intros count i currentId;
    cbn [parseStackBlock_loop]; preserves_tac.
  apply preserves_modify. auto.
Qed.

Lemma parseStackBlock_preserves data : preserves I (parseStackBlock data).
Proof.
  unfold parseStackBlock. preserves_tac. apply parseStackBlock_loop_preserves.
Qed.

Lemma processCpuSample_preserves stackId timestamp :
  preserves I (processCpuSample stackId timestamp).
Proof.
  unfold processCpuSample, when. destruct (0 <? stackId) eqn:E.
  - apply preserves_modify. intros w H. apply I_cpuSample; [lia | exact H].
  - apply preserves_ret.
Qed.

Lemma parseMethodLoadVerboseEvent_preserves payload :
  preserves I (parseMethodLoadVerboseEvent payload).
Proof.
  unfold parseMethodLoadVerboseEvent. preserves_tac.
  apply preserves_modify. intros w Hw.
  match goal with
  | |- context [JSMap.set _ ?info (ParseResult.methods _)] =>
      exact (I_loadMethod w info Hw)
  end.
Qed.

Lemma parseMethodJittingStartedEvent_preserves payload :
  preserves I (parseMethodJittingStartedEvent payload).
Proof.
  unfold parseMethodJittingStartedEvent. preserves_tac.
  apply preserves_modify. intros w Hw. unfold updResult.
  destruct (JSMap.has _ _) eqn:Ehas.
  - destruct w; exact Hw.
  - match goal with
    | |- context [JSMap.set _ ?info (ParseResult.methods _)] =>
        exact (I_jitMethod w info Ehas eq_refl Hw)
    end.
Qed.

Lemma processEvent_preserves metadataId threadId timestamp stackId payload :
  preserves I (processEvent metadataId threadId timestamp stackId payload).
Proof.
  unfold processEvent. preserves_tac;
    try (apply preserves_modify; intros w Hw;
         first [ exact (I_countEvent w metadataId Hw)
               | exact (I_countAllocationEvent w Hw) ]);
    auto using parseAllocationEvent_preserves, parseMethodLoadVerboseEvent_preserves,
      parseMethodJittingStartedEvent_preserves, processCpuSample_preserves.
Qed.

Lemma dispatchPayload_preserves metadataId threadId timestamp stackId payloadSize :
  preserves (outer I)
    (dispatchPayload metadataId threadId timestamp stackId payloadSize).
Proof.
  unfold dispatchPayload. preserves_tac. apply processEvent_preserves.
Qed.

Lemma parseEvents_loop_preserves fuel : forall compressed prev,
  preserves (outer I) (parseEvents_loop fuel compressed prev).
Proof.
  induction fuel as [|fuel IH]; intros compressed prev;
    cbn [parseEvents_loop]; unfold parseEvents_round; preserves_tac.
  - unfold compressedEvent. preserves_tac. apply dispatchPayload_preserves.
  - unfold uncompressedEvent. preserves_tac. apply dispatchPayload_preserves.
Qed.

Lemma parseEventBlock_preserves data : preserves I (parseEventBlock data).
Proof.
  unfold parseEventBlock, parseEvents. preserves_tac.
  intros s H. apply parseEvents_loop_preserves. exact H.
Qed.

(** The schema is stored after its provider has been added to the set of
    providers; in between, only the local reader moves. *)
Lemma parseMetadataPayload_preserves reader :
  preserves I (parseMetadataPayload reader).
Proof.
  intros w Hw.
  assert (Hstore : forall providerName metadata,
            EventMetadata.providerName metadata = providerName ->
            I (setMetadata (EventMetadata.metadataId metadata) metadata
                 (addProvider providerName w))).
  { intros providerName metadata Hp. apply I_setMetadata.
    - rewrite Hp. apply JSSet_add_In. right. reflexivity.
    - apply I_addProvider. exact Hw. }
  unfold parseMetadataPayload, with_local, try_catch, bind, onLocal, onOuter,
    zoom, modify, ret. cbn [fst snd].
  repeat match goal with
         | |- context [let (_, _) := ?op ?r in _] =>
             destruct (op r) as [[?|?] ?]; cbn [fst snd];
             [|first [exact Hw | apply I_addProvider; exact Hw]]
         end.
  match goal with
  | |- context [if ?c then _ else _] => destruct c
  end.
  - unfold bind.
    repeat match goal with
           | |- context [let (_, _) := ?op ?r in _] =>
               destruct (op r) as [[?|?] ?]; cbn [fst snd];
               [|first [exact Hw | apply I_addProvider; exact Hw]]
           end.
    match goal with
    | |- I (setMetadata _ ?m (addProvider ?p _)) =>
        let X := fresh "X" in
        pose proof (Hstore p m eq_refl) as X;
        cbn [EventMetadata.metadataId] in X; exact X
    end.
  - cbn [fst snd].
    match goal with
    | |- I (setMetadata _ ?m (addProvider ?p _)) =>
        let X := fresh "X" in
        pose proof (Hstore p m eq_refl) as X;
        cbn [EventMetadata.metadataId] in X; exact X
    end.
Qed.

Lemma parseMetadataBlock_loop_preserves fuel : forall compressed headerState,
  preserves (outer I) (parseMetadataBlock_loop fuel compressed headerState).
Proof.
  induction fuel as [|fuel IH]; intros compressed headerState;
    cbn [parseMetadataBlock_loop]; unfold parseMetadataBlock_round; preserves_tac.
  unfold parseMetadataEvent, dispatchMetadataPayload. preserves_tac.
  apply parseMetadataPayload_preserves.
Qed.

Lemma parseMetadataBlock_preserves data : preserves I (parseMetadataBlock data).
Proof.
  unfold parseMetadataBlock. preserves_tac.
  apply parseMetadataBlock_loop_preserves.
Qed.

Lemma parseTraceBlob_preserves data : preserves I (parseTraceBlob data).
Proof.
  unfold parseTraceBlob. preserves_tac; apply preserves_modify; auto.
Qed.

(** The elementary updates of the container driver. *)
Hypothesis I_reader : forall w r,
  I w -> I (updThis (Parser.set_reader r) w).
Hypothesis I_pushError : forall w e,
  I w -> I (updThis (fun p => Parser.set_errors (Parser.errors p ++ [e]) p) w).
Hypothesis I_typeRegistry : forall w registry typeIndex,
  I w ->
  I (updThis (fun p => Parser.set_typeRegistry registry
                         (Parser.set_nextTypeIndex typeIndex p)) w).
Hypothesis I_traceInfo : forall w info,
  I w -> I (updResult (ParseResult.set_traceInfo info) w).

Lemma onReader_preserves {A} (m : BufferReader.R A) : preserves I (onReader m).
Proof.
  intros w H. unfold onReader, zoom.
  destruct (m (Parser.reader (this w))) as [res r']. apply I_reader. exact H.
Qed.

Lemma pushError_preserves e : preserves I (pushError e).
Proof. apply preserves_modify. intros w H. apply I_pushError. exact H. Qed.

Lemma skipToNextObject_preserves : preserves I skipToNextObject.
Proof. apply onReader_preserves. Qed.

Lemma skipToEndObject_preserves : preserves I skipToEndObject.
Proof. apply onReader_preserves. Qed.

Lemma setTraceInfo_preserves info : preserves I (setTraceInfo info).
Proof. apply preserves_modify. intros w H. apply I_traceInfo. exact H. Qed.

#[local] Hint Resolve onReader_preserves pushError_preserves skipToNextObject_preserves
  skipToEndObject_preserves setTraceInfo_preserves parseTraceBlob_preserves
  parseMetadataBlock_preserves parseEventBlock_preserves parseStackBlock_preserves
  : core.

Lemma decodeBlock_preserves typeName data : preserves I (decodeBlock typeName data).
Proof.
  unfold decodeBlock. preserves_tac;
    apply preserves_modify; intros w Hw;
    first [ exact (I_countMetadataBlock w Hw) | exact (I_countEventBlock w Hw) ].
Qed.

Lemma processBlock_preserves typeInfo data : preserves I (processBlock typeInfo data).
Proof.
  unfold processBlock. preserves_tac. apply decodeBlock_preserves.
Qed.

Lemma parseObjectPayload_preserves typeInfo :
  preserves I (parseObjectPayload typeInfo).
Proof.
  unfold parseObjectPayload. intros w0 H0. cbv zeta.
  refine ((_ : preserves I _) w0 H0).
  preserves_tac. apply processBlock_preserves.
Qed.

Lemma readTypeDefinition_preserves : preserves I readTypeDefinition.
Proof.
  unfold readTypeDefinition. preserves_tac.
  apply preserves_modify. intros w H. apply I_typeRegistry. exact H.
Qed.

Lemma parseBeginPrivateObject_preserves : preserves I parseBeginPrivateObject.
Proof.
  unfold parseBeginPrivateObject.
  preserves_tac;
    auto using readTypeDefinition_preserves, parseObjectPayload_preserves.
Qed.

Lemma parseObjectStream_body_preserves : preserves I parseObjectStream_body.
Proof.
  unfold parseObjectStream_body.
  preserves_tac; auto using parseBeginPrivateObject_preserves.
Qed.

Lemma parseObjectStream_round_preserves w :
  I w -> I (fst (parseObjectStream_round w)).
Proof.
  intros H. unfold parseObjectStream_round.
  destruct (0 <? _); [|exact H].
  pose proof (parseObjectStream_body_preserves w H) as Hb.
  destruct (parseObjectStream_body w) as [[stop|e] w']; exact Hb.
Qed.

Lemma whileP_preserves {S} (J : S -> Prop) (round : S -> S * bool) :
  (forall s, J s -> J (fst (round s))) ->
  forall p s, J s -> J (fst (whileP round p s)).
Proof.
  intros Hround. induction p as [q IH | q IH |]; intros s H; cbn [whileP].
  - specialize (Hround s H). destruct (round s) as [s0 over0]. cbn [fst] in Hround.
    destruct over0; [exact Hround|].
    pose proof (IH s0 Hround) as IH1. destruct (whileP round q s0) as [s1 over].
    cbn [fst] in IH1. destruct over; [exact IH1 | apply IH; exact IH1].
  - pose proof (IH s H) as IH1. destruct (whileP round q s) as [s1 over].
    cbn [fst] in IH1. destruct over; [exact IH1 | apply IH; exact IH1].
  - apply Hround. exact H.
Qed.

Lemma parseObjectStream_preserves w : I w -> I (parseObjectStream w).
Proof.
  apply whileP_preserves. exact parseObjectStream_round_preserves.
Qed.

End ParserInvariant.

(** ** Facts about maps *)

Lemma JSMap_get_set {K V} {dec : EqDec K} (k k' : K) (v : V) (m : JSMap.t K V) :
  JSMap.get k (JSMap.set k' v m) = if eq_dec k k' then Some v else JSMap.get k m.
Proof.
  induction m as [|[k0 v0] m IH]; cbn [JSMap.set JSMap.get].
  - reflexivity.
  - destruct (eq_dec k' k0) as [->|Hne]; cbn [JSMap.get].
    + destruct (eq_dec k k0); reflexivity.
    + destruct (eq_dec k k0) as [->|Hne'].
      * destruct (eq_dec k0 k'); [congruence | reflexivity].
      * exact IH.
Qed.

Lemma JSMap_get_set_same {K V} {dec : EqDec K} (k : K) (v : V) (m : JSMap.t K V) :
  JSMap.get k (JSMap.set k v m) = Some v.
Proof. rewrite JSMap_get_set. destruct (eq_dec k k); congruence. Qed.

Lemma JSMap_get_set_other {K V} {dec : EqDec K} (k k' : K) (v : V) (m : JSMap.t K V) :
  k <> k' -> JSMap.get k (JSMap.set k' v m) = JSMap.get k m.
Proof. intros H. rewrite JSMap_get_set. destruct (eq_dec k k'); congruence. Qed.

(** ** The shape of [parse] *)

Lemma byteZ_inj a b : byteZ a = byteZ b -> a = b.
Proof.
  unfold byteZ. intros H. apply N2Z.inj in H.
  pose proof (Byte.of_to_N a) as Ha. pose proof (Byte.of_to_N b) as Hb.
  rewrite H in Ha. congruence.
Qed.

Lemma map_byteZ_inj l1 : forall l2, map byteZ l1 = map byteZ l2 -> l1 = l2.
Proof.
  induction l1 as [|a l1 IH]; intros [|b l2] H; cbn [map] in H;
    try discriminate; [reflexivity|].
  inversion H. f_equal; [apply byteZ_inj; assumption | apply IH; assumption].
Qed.

Lemma magicOk_iff buf : magicOk buf = true <-> firstn 8 buf = magicBytes.
Proof.
  unfold magicOk, jsstring_eqb. destruct (list_eq_dec _ _ _) as [E|E].
  - split; [intros _ | reflexivity].
    apply map_byteZ_inj. rewrite E. reflexivity.
  - split; [discriminate|]. intros H. exfalso. apply E. rewrite H. reflexivity.
Qed.

(** [parse] either stops at the header with the initial result and one
    error, or has accepted the magic and the banner and runs the
    statements after the header on the initial parser, whose reader has
    moved past the header. *)
Lemma parse_cases buf :
  (exists e,
     parse buf = ParseResult.set_errors [ParseError e] ParseResult.initial)
  \/ (magicOk buf = true /\ bannerAccepted buf
      /\ exists r,
        parse buf
        = result (finishParse (mkWorld (Parser.set_reader r (Parser.initial buf))
                                       ParseResult.initial))).
Proof.
  unfold parse, try_catch, parse_try.
  destruct (buflen buf <? 32); [left; eexists; reflexivity|].
  destruct (magicOk buf) eqn:Emagic; cbn [negb]; [|left; eexists; reflexivity].
  unfold bind, onReader, zoom, modify. cbn [fst snd this updThis Parser.reader
    Parser.set_reader Parser.initial]. unfold bannerAccepted.
  change (set_offset 8 (mkReader buf 0)) with (mkReader buf 8).
  destruct (readInt32LE (mkReader buf 8)) as [[headerLength|e] r1] eqn:E1;
    [|left; eexists; reflexivity].
  cbn [fst snd this updThis Parser.reader Parser.set_reader].
  destruct (readAsciiString headerLength r1) as [[headerString|e] r2] eqn:E2;
    [|left; eexists; reflexivity].
  cbn [fst snd this updThis Parser.reader Parser.set_reader].
  destruct (startsWith headerString _) eqn:Ebanner; cbn [negb].
  - right. split; [reflexivity|]. split.
    + exists headerLength, r1, headerString, r2. auto.
    + exists r2. reflexivity.
  - left. eexists. reflexivity.
Qed.

(** ** Fatal header errors *)

(** C2: when the first eight bytes are not the magic, or the serialization
    header is not read as a string that begins with the banner, [parse]
    returns a result with all tables empty and exactly one error. *)
Theorem C2_fatal_header (buf : list byte) :
  firstn 8 buf <> magicBytes \/ ~ bannerAccepted buf ->
  tablesEmpty (parse buf)
  /\ List.length (ParseResult.errors (parse buf)) = 1%nat.
Proof.
  intros H. destruct (parse_cases buf) as [[e He] | (Hmagic & Hbanner & _)].
  - rewrite He. unfold tablesEmpty. cbn. repeat split; reflexivity.
  - exfalso. destruct H as [H | H]; [|exact (H Hbanner)].
    apply H. apply magicOk_iff. exact Hmagic.
Qed.

Lemma C2_fatal_header_witness :
  (tablesEmpty (parse badMagicFile)
   /\ List.length (ParseResult.errors (parse badMagicFile)) = 1%nat)
  /\ (tablesEmpty (parse badBannerFile)
      /\ List.length (ParseResult.errors (parse badBannerFile)) = 1%nat).
Proof.
  split.
  - apply C2_fatal_header. left. discriminate.
  - apply C2_fatal_header. right.
    intros (headerLength & r1 & headerString & r2 & H1 & H2 & H3).
    vm_compute in H1. inversion H1; subst.
    vm_compute in H2. inversion H2; subst.
    vm_compute in H3. discriminate.
Defined.

(** ** The schema table *)

Lemma metadataKeyed_set table m :
  metadataKeyed table ->
  metadataKeyed (JSMap.set (EventMetadata.metadataId m) m table).
Proof.
  intros H k m' Hget. rewrite JSMap_get_set in Hget.
  destruct (eq_dec k (EventMetadata.metadataId m)) as [->|Hne].
  - inversion Hget. reflexivity.
  - apply H. exact Hget.
Qed.

(** Case analysis on the next read of a local reader in unfolded monadic
    code. *)
Ltac next_read :=
  match goal with
  | |- context [let (_, _) := ?op ?r in _] =>
      let v := fresh "v" in
      let e := fresh "e" in
      let r' := fresh "r" in
      let E := fresh "E" in
      destruct (op r) as [[v|e] r'] eqn:E; cbn [fst snd]
  end.

(** [parseMetadataPayload] leaves the schema table as it was, or stores
    one schema under the int32 at the start of the payload, which is also
    the [metadataId] of the stored schema. *)
Lemma parseMetadataPayload_metadata reader w :
  let w' := snd (parseMetadataPayload reader w) in
  Parser.metadata (this w') = Parser.metadata (this w)
  \/ exists payloadMetadataId r1 metadata,
       readInt32LE reader = (Ok payloadMetadataId, r1)
       /\ EventMetadata.metadataId metadata = payloadMetadataId
       /\ Parser.metadata (this w')
          = JSMap.set payloadMetadataId metadata (Parser.metadata (this w)).
Proof.
  unfold parseMetadataPayload, with_local, try_catch, bind, onLocal, onOuter,
    zoom, modify, ret. cbn [fst snd].
  destruct (readInt32LE reader) as [[payloadMetadataId|e] r1] eqn:Eid;
    cbn [fst snd]; [|left; reflexivity].
  repeat (next_read; [|left; reflexivity]).
  match goal with
  | |- context [if ?c then _ else _] => destruct c
  end.
  - unfold bind. next_read; [|left; reflexivity].
    next_read; [|left; reflexivity].
    right. eexists _, _, _. split; [reflexivity|]. split; [|reflexivity]. reflexivity.
  - right. eexists _, _, _. split; [reflexivity|]. split; [|reflexivity]. reflexivity.
Qed.

(** The schema table is keyed by the metadata ids throughout the parse. *)
Lemma parseObjectStream_metadataKeyed w :
  metadataKeyed (Parser.metadata (this w)) ->
  metadataKeyed (Parser.metadata (this (parseObjectStream w))).
Proof.
  apply (parseObjectStream_preserves
           (fun w => metadataKeyed (Parser.metadata (this w))));
    try (intros; assumption).
  intros w0 m _ H. apply metadataKeyed_set. exact H.
Qed.

Lemma afterObjectStream_metadata w1 :
  ParseResult.metadata (result (afterObjectStream w1)) = Parser.metadata (this w1).
Proof. reflexivity. Qed.

(** C3: every schema of the schema table of a parse is stored under the
    metadata id it carries, and that id is the int32 read at the start of
    its payload: [parseMetadataPayload] is not given the header of the
    pseudo-event, and what it stores it stores under the id of the
    payload. *)
Theorem C3_metadata_key_is_payload_id :
  (forall buf, metadataKeyed (ParseResult.metadata (parse buf)))
  /\ (forall reader w,
        let w' := snd (parseMetadataPayload reader w) in
        Parser.metadata (this w') = Parser.metadata (this w)
        \/ exists payloadMetadataId r1 metadata,
             readInt32LE reader = (Ok payloadMetadataId, r1)
             /\ EventMetadata.metadataId metadata = payloadMetadataId
             /\ Parser.metadata (this w')
                = JSMap.set payloadMetadataId metadata (Parser.metadata (this w))).
Proof.
  split; [|exact parseMetadataPayload_metadata].
  intros buf. destruct (parse_cases buf) as [[e He] | (_ & _ & r & Hr)].
  - rewrite He. intros k m H. discriminate.
  - rewrite Hr. unfold finishParse. rewrite afterObjectStream_metadata.
    apply parseObjectStream_metadataKeyed.
    intros k m H. discriminate.
Qed.

(** The three schemas of the method-resolution trace, whose pseudo-event
    headers carry the ids 1, 2 and 3, are stored under the ids 7, 8 and 9
    of their payloads. *)
Example metadata_keys_of_methodResolutionTrace :
  JSMap.keys (ParseResult.metadata (parse methodResolutionTrace)) = [7; 8; 9].
Proof. vm_compute. reflexivity. Qed.

(** ** The allocation aggregator *)

Lemma sumSizes_app l e :
  sumSizes (l ++ [e]) = sumSizes l + AllocationEvent.size e.
Proof.
  unfold sumSizes. induction l as [|x l IH]; cbn [app fold_right]; lia.
Qed.

Lemma addAllocation_allocations typeName size timestamp stackId w :
  ParseResult.allocations (result (addAllocation typeName size timestamp stackId w))
  = JSMap.set typeName
      (let allocInfo :=
         match JSMap.get typeName (ParseResult.allocations (result w)) with
         | Some a => a
         | None => AllocationInfo.mk typeName 0 0 []
         end in
       AllocationInfo.mk (AllocationInfo.typeName allocInfo)
         (AllocationInfo.count allocInfo + 1)
         (AllocationInfo.totalSize allocInfo + size)
         (AllocationInfo.allocations allocInfo
            ++ [AllocationEvent.mk typeName size timestamp
                  (stackTraceOf (Parser.stacks (this w)) stackId)]))
      (ParseResult.allocations (result w)).
Proof. unfold addAllocation. destruct (0 <? stackId); reflexivity. Qed.

(** Every allocation recorded by the aggregator keeps the aggregates in
    agreement with their events. *)
Lemma addAllocation_consistent typeName size timestamp stackId w :
  allocationsConsistent (ParseResult.allocations (result w)) ->
  allocationsConsistent
    (ParseResult.allocations (result (addAllocation typeName size timestamp stackId w))).
Proof.
  intros H A info. rewrite addAllocation_allocations, JSMap_get_set.
  destruct (eq_dec A typeName) as [->|Hne]; [|apply H].
  intros Hget. inversion Hget; subst info; clear Hget.
  assert (Hold : aggregateConsistent typeName
            match JSMap.get typeName (ParseResult.allocations (result w)) with
            | Some a => a
            | None => AllocationInfo.mk typeName 0 0 []
            end).
  { destruct (JSMap.get typeName _) as [a|] eqn:E.
    - apply H. exact E.
    - repeat split. constructor. }
  destruct Hold as (Hc & Hs & Hn).
  unfold aggregateConsistent. cbv zeta.
  cbn [AllocationInfo.count AllocationInfo.totalSize AllocationInfo.allocations].
  rewrite length_app, sumSizes_app, Hc, Hs. cbn [List.length AllocationEvent.size].
  repeat split; try lia.
  apply Forall_app. split; [exact Hn|]. constructor; [reflexivity | constructor].
Qed.

Lemma parseObjectStream_allocationsConsistent w :
  allocationsConsistent (ParseResult.allocations (result w)) ->
  allocationsConsistent (ParseResult.allocations (result (parseObjectStream w))).
Proof.
  apply (parseObjectStream_preserves
           (fun w => allocationsConsistent (ParseResult.allocations (result w))));
    try (intros; assumption).
  intros w0 typeName size timestamp stackId _ H.
  apply addAllocation_consistent. exact H.
Qed.

Lemma afterObjectStream_allocations w1 :
  ParseResult.allocations (result (afterObjectStream w1))
  = ParseResult.allocations (result w1).
Proof. reflexivity. Qed.

(** C5: in the allocation table of a parse the entry of every type counts
    the allocation events recorded under the type and totals their sizes;
    [addAllocation] keeps that relation. *)
Theorem C5_allocation_totals :
  (forall buf A info,
     JSMap.get A (ParseResult.allocations (parse buf)) = Some info ->
     AllocationInfo.totalSize info = sumSizes (AllocationInfo.allocations info)
     /\ AllocationInfo.count info
        = Z.of_nat (List.length (AllocationInfo.allocations info))
     /\ Forall (fun e => AllocationEvent.typeName e = A)
               (AllocationInfo.allocations info))
  /\ (forall typeName size timestamp stackId w,
        allocationsConsistent (ParseResult.allocations (result w)) ->
        allocationsConsistent
          (ParseResult.allocations
             (result (addAllocation typeName size timestamp stackId w)))).
Proof.
  split.
  - intros buf A info Hget.
    assert (Hc : allocationsConsistent (ParseResult.allocations (parse buf))).
    { destruct (parse_cases buf) as [[e He] | (_ & _ & r & Hr)].
      - rewrite He. intros k m H. discriminate.
      - rewrite Hr. unfold finishParse. rewrite afterObjectStream_allocations.
        apply parseObjectStream_allocationsConsistent.
        intros k m H. discriminate. }
    destruct (Hc A info Hget) as (H1 & H2 & H3). auto.
  - intros. apply addAllocation_consistent. assumption.
Qed.

(** ** Inclusive and exclusive counts *)

Lemma getOr0_set {K} {dec : EqDec K} (k k' : K) v (m : JSMap.t K Z) :
  getOr0 k (JSMap.set k' v m) = if eq_dec k k' then v else getOr0 k m.
Proof.
  unfold getOr0. rewrite JSMap_get_set. destruct (eq_dec k k'); reflexivity.
Qed.

Lemma JSMap_In_set {K V} {dec : EqDec K} (k k' : K) (v v' : V) (m : JSMap.t K V) :
  In (k, v) (JSMap.set k' v' m) -> In (k, v) m \/ (k = k' /\ v = v').
Proof.
  induction m as [|[k0 v0] m IH]; cbn [JSMap.set].
  - intros [H|[]]. inversion H. auto.
  - destruct (eq_dec k' k0) as [->|Hne].
    + intros [H|H]; [inversion H; auto | left; right; exact H].
    + intros [H|H]; [left; left; exact H|].
      destruct (IH H) as [H'|H']; [left; right; exact H' | right; exact H'].
Qed.

(** One frame: the first frame of a stack, met with nothing seen yet, is
    credited on both sides; a later frame is credited on the inclusive side
    at most. *)
Lemma creditFrame_ordered sampleCount i name c :
  0 <= sampleCount ->
  (i = 0 -> Counts.seenMethods c = []) ->
  countsOrdered (Counts.inclusiveCounts c) (Counts.exclusiveCounts c) ->
  countsOrdered (Counts.inclusiveCounts (creditFrame sampleCount i name c))
                (Counts.exclusiveCounts (creditFrame sampleCount i name c)).
Proof.
  intros Hc Hseen Hord n. unfold creditFrame.
  destruct (i =? 0) eqn:Ei.
  - apply Z.eqb_eq in Ei. rewrite (Hseen Ei).
    change (JSSet.has name []) with false.
    cbn [Counts.inclusiveCounts Counts.exclusiveCounts].
    rewrite !getOr0_set. specialize (Hord n) as Hn. specialize (Hord name).
    destruct (eq_dec n name) as [->|]; lia.
  - destruct (JSSet.has name (Counts.seenMethods c));
      cbn [Counts.inclusiveCounts Counts.exclusiveCounts]; [apply Hord|].
    rewrite getOr0_set. specialize (Hord n) as Hn. specialize (Hord name).
    destruct (eq_dec n name) as [->|]; lia.
Qed.

Lemma creditStack_ordered methodAddresses sampleCount addresses : forall i c,
  0 <= sampleCount -> 0 <= i ->
  (i = 0 -> Counts.seenMethods c = []) ->
  countsOrdered (Counts.inclusiveCounts c) (Counts.exclusiveCounts c) ->
  let c' := creditStack methodAddresses sampleCount i addresses c in
  countsOrdered (Counts.inclusiveCounts c') (Counts.exclusiveCounts c').
Proof.
  induction addresses as [|addr rest IH]; intros i c Hc Hi Hseen Hord;
    cbn [creditStack]; [exact Hord|].
  apply IH; [exact Hc | lia | intros; lia |].
  apply creditFrame_ordered; assumption.
Qed.

Lemma creditSample_ordered methodAddresses stacks counts stackId sampleCount :
  0 <= sampleCount ->
  countsOrdered (fst counts) (snd counts) ->
  let counts' := creditSample methodAddresses stacks counts (stackId, sampleCount) in
  countsOrdered (fst counts') (snd counts').
Proof.
  intros Hc Hord. unfold creditSample.
  destruct (JSMap.get stackId stacks) as [stack|]; [|exact Hord].
  destruct (StackInfo.addresses stack) as [|a rest] eqn:Ea; [exact Hord|].
  cbn [fst snd].
  apply (creditStack_ordered methodAddresses sampleCount (a :: rest) 0
           (Counts.mk JSSet.empty (fst counts) (snd counts)));
    [exact Hc | lia | reflexivity | exact Hord].
Qed.

Lemma creditSamples_ordered methodAddresses stacks cpuSamples : forall counts,
  samplesNonneg cpuSamples ->
  countsOrdered (fst counts) (snd counts) ->
  let counts' := fold_left (creditSample methodAddresses stacks) cpuSamples counts in
  countsOrdered (fst counts') (snd counts').
Proof.
  induction cpuSamples as [|[stackId sampleCount] rest IH]; intros counts Hnn Hord;
    cbn [fold_left]; [exact Hord|].
  apply IH.
  - intros k c Hin. apply (Hnn k c). right. exact Hin.
  - apply creditSample_ordered; [|exact Hord].
    apply (Hnn stackId sampleCount). left. reflexivity.
Qed.

Lemma setProfiles_ordered inclusiveCounts exclusiveCounts names : forall profiles,
  countsOrdered inclusiveCounts exclusiveCounts ->
  profilesOrdered profiles ->
  profilesOrdered (fold_left (setProfile inclusiveCounts exclusiveCounts) names profiles).
Proof.
  induction names as [|n names IH]; intros profiles Hord Hp; cbn [fold_left];
    [exact Hp|].
  apply IH; [exact Hord|]. intros name p. unfold setProfile.
  rewrite JSMap_get_set. destruct (eq_dec name n) as [->|Hne]; [|apply Hp].
  intros H. inversion H. cbn [MethodProfile.exclusiveCount MethodProfile.inclusiveCount].
  apply Hord.
Qed.

(** [computeMethodProfiles] keeps the profile table ordered when no stack
    has a negative sample count. *)
Lemma computeMethodProfiles_ordered w :
  samplesNonneg (Parser.cpuSamples (this w)) ->
  profilesOrdered (ParseResult.methodProfiles (result w)) ->
  profilesOrdered (ParseResult.methodProfiles (result (computeMethodProfiles w))).
Proof.
  intros Hnn Hp. unfold computeMethodProfiles. cbv zeta.
  cbn [result updResult ParseResult.methodProfiles ParseResult.set_methodProfiles].
  apply setProfiles_ordered; [|exact Hp].
  apply creditSamples_ordered; [exact Hnn|]. intros n. reflexivity.
Qed.

(** The sample counts start at one and grow by one. *)
Lemma parseObjectStream_profiles_inv w :
  samplesNonneg (Parser.cpuSamples (this w))
  /\ profilesOrdered (ParseResult.methodProfiles (result w)) ->
  samplesNonneg (Parser.cpuSamples (this (parseObjectStream w)))
  /\ profilesOrdered (ParseResult.methodProfiles (result (parseObjectStream w))).
Proof.
  apply (parseObjectStream_preserves
           (fun w => samplesNonneg (Parser.cpuSamples (this w))
                     /\ profilesOrdered (ParseResult.methodProfiles (result w))));
    try (intros; assumption).
  2: { intros w0 typeName size0 timestamp stackId _ H. unfold addAllocation.
       destruct (0 <? stackId); exact H. }
  intros w0 stackId Hpos [Hnn Hp]. split; [|exact Hp].
  intros k c Hin. cbn [this updThis Parser.cpuSamples Parser.set_cpuSamples] in Hin.
  apply JSMap_In_set in Hin. destruct Hin as [Hin | [_ ->]].
  - apply (Hnn k c Hin).
  - assert (0 <= getOr0 stackId (Parser.cpuSamples (this w0))); [|lia].
    unfold getOr0. destruct (JSMap.get stackId _) eqn:E; [|lia].
    clear - Hnn E. revert E. generalize (Parser.cpuSamples (this w0)) Hnn.
    intros m Hm. induction m as [|[k0 v0] m IH]; cbn [JSMap.get]; [discriminate|].
    destruct (eq_dec stackId k0).
    + intros E. inversion E; subst. apply (Hm k0 z). left. reflexivity.
    + apply IH. intros k c Hin. apply (Hm k c). right. exact Hin.
Qed.

Lemma afterObjectStream_methodProfiles w1 :
  ParseResult.methodProfiles (result (afterObjectStream w1))
  = ParseResult.methodProfiles
      (result (computeMethodProfiles
         (updResult (fun res =>
            ParseResult.set_errors (Parser.errors (this w1))
              (ParseResult.set_stacks (Parser.stacks (this w1))
                 (ParseResult.set_metadata (Parser.metadata (this w1)) res))) w1))).
Proof. reflexivity. Qed.

(** C10: every method of the profile table of a parse has at most as many
    exclusive as inclusive samples; [computeMethodProfiles] gives the
    exclusive credit of a stack to the name of its first frame only, which
    gets the inclusive credit of the stack as well. *)
Theorem C10_exclusive_le_inclusive :
  (forall buf name p,
     JSMap.get name (ParseResult.methodProfiles (parse buf)) = Some p ->
     MethodProfile.exclusiveCount p <= MethodProfile.inclusiveCount p)
  /\ (forall w,
        samplesNonneg (Parser.cpuSamples (this w)) ->
        profilesOrdered (ParseResult.methodProfiles (result w)) ->
        profilesOrdered (ParseResult.methodProfiles (result (computeMethodProfiles w)))).
Proof.
  split; [|exact computeMethodProfiles_ordered].
  intros buf. change (profilesOrdered (ParseResult.methodProfiles (parse buf))).
  destruct (parse_cases buf) as [[e He] | (_ & _ & r & Hr)].
  - rewrite He. intros k m H. discriminate.
  - rewrite Hr. clear Hr. unfold finishParse.
    rewrite afterObjectStream_methodProfiles.
    match goal with
    | |- context [parseObjectStream ?w0] =>
        pose proof (parseObjectStream_profiles_inv w0) as Hinv;
        generalize dependent (parseObjectStream w0)
    end.
    intros w1 Hinv. destruct Hinv as [Hnn Hp].
    { split; [intros k c [] | intros k m H; discriminate]. }
    apply computeMethodProfiles_ordered; [exact Hnn | exact Hp].
Qed.

(** ** Address resolution *)

(** What the binary search returns is an entry of the array whose interval
    holds the address. *)
Lemma bsearch_found entries addr lo hi entry :
  bsearch entries addr lo hi = Some entry ->
  In entry entries
  /\ MethodAddress.address entry <= addr < MethodAddress.endAddress entry.
Proof.
  funelim (bsearch entries addr lo hi); try discriminate; intros Hs.
  - inversion Hs; subst. split.
    + eapply nth_error_In; eassumption.
    + match goal with
      | H : (_ <=? _) && (_ <? _) = true |- _ =>
          apply andb_true_iff in H; destruct H as [H1 H2];
          apply Z.leb_le in H1; apply Z.ltb_lt in H2; lia
      end.
  - match goal with IH : forall e, bsearch _ _ _ _ = Some e -> _ |- _ => apply IH end.
    exact Hs.
  - match goal with IH : forall e, bsearch _ _ _ _ = Some e -> _ |- _ => apply IH end.
    exact Hs.
Qed.

Lemma In_insertByAddress x e l :
  In e (insertByAddress x l) -> e = x \/ In e l.
Proof.
  induction l as [|y l IH]; cbn [insertByAddress].
  - intros [H|[]]; auto.
  - destruct (_ <? _).
    + intros [H|H]; auto.
    + intros [H|H]; [right; left; exact H|].
      destruct (IH H); [left | right; right]; assumption.
Qed.

Lemma In_sortByAddress e l : In e (sortByAddress l) -> In e l.
Proof.
  unfold sortByAddress.
  assert (Hgen : forall acc, In e (fold_left (fun acc x => insertByAddress x acc) l acc)
                             -> In e acc \/ In e l).
  { induction l as [|x l IH]; intros acc H; cbn [fold_left] in H; [left; exact H|].
    destruct (IH _ H) as [H'|H']; [|right; right; exact H'].
    destruct (In_insertByAddress _ _ _ H') as [->|H'']; [right; left; reflexivity|].
    left. exact H''. }
  intros H. destruct (Hgen [] H) as [[]|H']. exact H'.
Qed.

(** The entries of the sorted array are the intervals
    [[methodStartAddress, methodStartAddress + methodSize)] of the methods
    of the table. *)
Lemma In_buildMethodAddresses entry methods :
  In entry (buildMethodAddresses methods) ->
  In (MethodAddress.method entry) (JSMap.values methods)
  /\ MethodAddress.address entry
     = MethodInfo.methodStartAddress (MethodAddress.method entry)
  /\ MethodAddress.endAddress entry
     = MethodInfo.methodStartAddress (MethodAddress.method entry)
       + MethodInfo.methodSize (MethodAddress.method entry).
Proof.
  unfold buildMethodAddresses. intros H. apply In_sortByAddress in H.
  apply in_map_iff in H. destruct H as (m & <- & Hin).
  apply filter_In in Hin. destruct Hin as [Hin _].
  cbn [MethodAddress.method MethodAddress.address MethodAddress.endAddress]. auto.
Qed.

(** An address outside every method interval is not found by the search. *)
Lemma bsearch_unresolved methods addr :
  (forall m, In m (JSMap.values methods) ->
             ~ (MethodInfo.methodStartAddress m <= addr
                < MethodInfo.methodStartAddress m + MethodInfo.methodSize m)) ->
  bsearch (buildMethodAddresses methods) addr 0
          (Z.of_nat (List.length (buildMethodAddresses methods)) - 1) = None.
Proof.
  intros H.
  destruct (bsearch _ _ _ _) as [entry|] eqn:E; [|reflexivity].
  exfalso. apply bsearch_found in E. destruct E as [Hin Hrange].
  apply In_buildMethodAddresses in Hin. destruct Hin as (Hm & Ha & He).
  apply (H _ Hm). lia.
Qed.

(** C7, counterexample: the trace has the stack [0x1000; 0x2000] with a CPU
    sample and the method NS.Foo at [0x1000, 0x1100). The post-pass of the
    parser, [computeMethodProfiles], resolves the second frame to
    ["<unknown> 0x2000"], not to the literal ["0x2000"], and the profile
    table has an entry for the former and none for the latter. *)
Lemma C7_counterexample :
  let res := parse methodResolutionTrace in
  profileFrameName (buildMethodAddresses (ParseResult.methods res)) 8192
    = lit "<unknown> 0x2000"
  /\ JSMap.has (lit "<unknown> 0x2000") (ParseResult.methodProfiles res) = true
  /\ JSMap.get (lit "0x2000") (ParseResult.methodProfiles res) = None.
Proof. vm_compute. repeat split; reflexivity. Qed.

(** C7, amended: a stack address that lies in no method interval
    [[methodStartAddress, methodStartAddress + methodSize)] resolves to its
    hexadecimal form: to the literal ["0x..."] in the flame graph
    ([getMethodName]), and to that string after the prefix ["<unknown> "]
    in the method profiles ([computeMethodProfiles]). The address 0x2000
    reads ["0x2000"]. *)
Theorem C7_unresolved_address (methods : JSMap.t Z MethodInfo.t) (addr : Z) :
  (forall m, In m (JSMap.values methods) ->
             ~ (MethodInfo.methodStartAddress m <= addr
                < MethodInfo.methodStartAddress m + MethodInfo.methodSize m)) ->
  getMethodName (buildMethodAddresses methods) addr = hexAddr addr
  /\ profileFrameName (buildMethodAddresses methods) addr
     = lit "<unknown> " ++ hexAddr addr
  /\ hexAddr 8192 = lit "0x2000".
Proof.
  intros H. pose proof (bsearch_unresolved methods addr H) as Hb.
  unfold getMethodName, profileFrameName, findMethodByAddress.
  rewrite Hb. repeat split; reflexivity.
Qed.

(** The amended C7 on the trace of the counterexample: the second frame of
    its stack lies outside the interval of NS.Foo, the only method. *)
Lemma C7_unresolved_address_witness :
  let methods := ParseResult.methods (parse methodResolutionTrace) in
  getMethodName (buildMethodAddresses methods) 8192 = lit "0x2000"
  /\ profileFrameName (buildMethodAddresses methods) 8192 = lit "<unknown> 0x2000".
Proof.
  intros methods.
  destruct (C7_unresolved_address methods 8192) as (H1 & H2 & H3).
  - intros m Hin. vm_compute in Hin. destruct Hin as [<- | []].
    vm_compute. intros [_ Hlt]. discriminate.
  - rewrite H1, H2, H3. split; reflexivity.
Defined.

(** ** The flame graph *)

Lemma JSMap_get_In {K V} {dec : EqDec K} (k : K) (v : V) (m : JSMap.t K V) :
  JSMap.get k m = Some v -> In (k, v) m.
Proof.
  induction m as [|[k0 v0] m IH]; cbn [JSMap.get]; [discriminate|].
  destruct (eq_dec k k0) as [->|].
  - intros H. inversion H. left. reflexivity.
  - intros H. right. apply IH. exact H.
Qed.

Lemma childrenSamples_set nm child cs :
  childrenSamples (JSMap.set nm child cs)
  = childrenSamples cs
    - match JSMap.get nm cs with Some c => samples c | None => 0 end
    + samples child.
Proof.
  unfold childrenSamples.
  induction cs as [|[k c] cs IH]; cbn [JSMap.set JSMap.get fold_right snd]; [lia|].
  destruct (eq_dec nm k); cbn [fold_right snd]; lia.
Qed.

(** The walk of one stack keeps the weight of the node it starts from and
    leaves every node at or below it with children that weigh no more than
    the node, provided the node had room for the sample. *)
Lemma insertPath_weights names data : forall current,
  0 <= SampleData.count data ->
  (forall k c, In (k, c) (children current) ->
               forall n, subnode n c -> childrenSamples (children n) <= samples n) ->
  childrenSamples (children current) + SampleData.count data <= samples current ->
  samples (insertPath names data current) = samples current
  /\ (forall n, subnode n (insertPath names data current) ->
                childrenSamples (children n) <= samples n).
Proof.
  induction names as [|nm rest IH]; intros current Hc Hbelow Hroom;
    cbn [insertPath].
  - split; [reflexivity|]. intros n Hn. inversion Hn; subst; [lia|].
    eapply Hbelow; eassumption.
  - cbv zeta. set (child := match JSMap.get nm (children current) with
                            | Some c => c
                            | None => newFlameNode nm
                            end).
    assert (Hchild : forall n, subnode n child ->
                               childrenSamples (children n) <= samples n).
    { unfold child. destruct (JSMap.get nm (children current)) as [c|] eqn:E.
      - apply (Hbelow nm c). apply JSMap_get_In. exact E.
      - intros n Hn. inversion Hn; subst; [cbn; lia|].
        match goal with H : In _ (children (newFlameNode _)) |- _ => destruct H end. }
    destruct (IH (addSample data child) Hc) as [Hs Hall].
    { cbn [addSample children]. intros k c Hin n Hn. apply Hchild.
      eapply subnode_child; [exact Hin | exact Hn]. }
    { cbn [addSample children samples].
      specialize (Hchild child (subnode_self child)). lia. }
    split; [reflexivity|]. intros n Hn. inversion Hn; subst.
    + cbn [children samples]. rewrite childrenSamples_set, Hs.
      cbn [addSample samples]. unfold child.
      destruct (JSMap.get nm (children current)); cbn [newFlameNode samples]; lia.
    + match goal with H : In _ (children (mkFlameNode _ _ _ _ _)) |- _ =>
        cbn [children] in H; apply JSMap_In_set in H;
        destruct H as [H | [-> ->]]
      end.
      * eapply Hbelow; eassumption.
      * apply Hall. assumption.
Qed.

Lemma addStackSample_weights methodAddresses stacks root entry :
  0 <= SampleData.count (snd entry) ->
  (forall n, subnode n root -> childrenSamples (children n) <= samples n) ->
  let root' := addStackSample methodAddresses stacks root entry in
  samples root' = samples root + countedWeight stacks entry
  /\ (forall n, subnode n root' -> childrenSamples (children n) <= samples n).
Proof.
  intros Hc Hok. unfold addStackSample, countedWeight.
  destruct (JSMap.get (fst entry) stacks) as [stack|]; [|split; [lia | exact Hok]].
  destruct (StackInfo.addresses stack) as [|a rest]; [split; [lia | exact Hok]|].
  destruct (insertPath_weights
              (map (getMethodName methodAddresses) (rev (a :: rest)))
              (snd entry) (addSample (snd entry) root) Hc) as [Hs Hall].
  - cbn [addSample children]. intros k c Hin n Hn. apply Hok.
    eapply subnode_child; eassumption.
  - cbn [addSample children samples].
    specialize (Hok root (subnode_self root)). lia.
  - split; [|exact Hall]. rewrite Hs. reflexivity.
Qed.

Lemma addStackSamples_weights methodAddresses stacks sampleData : forall root,
  (forall k d, In (k, d) sampleData -> 0 <= SampleData.count d) ->
  (forall n, subnode n root -> childrenSamples (children n) <= samples n) ->
  let root' := fold_left (addStackSample methodAddresses stacks) sampleData root in
  samples root' = samples root + sumCountedWeights stacks sampleData
  /\ (forall n, subnode n root' -> childrenSamples (children n) <= samples n).
Proof.
  induction sampleData as [|[k d] rest IH]; intros root Hnn Hok;
    cbn [fold_left sumCountedWeights fold_right].
  - split; [lia | exact Hok].
  - destruct (addStackSample_weights methodAddresses stacks root (k, d)) as [Hs Hall].
    + apply (Hnn k d). left. reflexivity.
    + exact Hok.
    + destruct (IH (addStackSample methodAddresses stacks root (k, d))) as [Hs' Hall'].
      * intros k' d' Hin. apply (Hnn k' d'). right. exact Hin.
      * exact Hall.
      * split; [|exact Hall']. rewrite Hs', Hs. unfold sumCountedWeights. lia.
Qed.

(** The weights of [sampleData] are not negative when the allocation
    counts are not. *)
Lemma buildSampleData_nonneg res mode :
  allocationCountsNonneg (ParseResult.allocationSamples res) ->
  forall k d, In (k, d) (buildSampleData res mode) -> 0 <= SampleData.count d.
Proof.
  intros Hnn. unfold buildSampleData. destruct mode.
  - generalize (JSMap.values (ParseResult.stacks res)).
    assert (Hgen : forall (l : list StackInfo.t) (acc : JSMap.t Z SampleData.t),
      (forall k d, In (k, d) acc -> 0 <= SampleData.count d) ->
      forall k d,
        In (k, d) (fold_left
          (fun sampleData stack =>
             match StackInfo.addresses stack with
             | _ :: _ => JSMap.set (StackInfo.stackId stack) (SampleData.mk 1 0 None)
                                   sampleData
             | [] => sampleData
             end) l acc) ->
        0 <= SampleData.count d).
    { induction l as [|stack l IH]; intros acc Hacc; cbn [fold_left]; [exact Hacc|].
      apply IH. destruct (StackInfo.addresses stack); [exact Hacc|].
      intros k d Hin. apply JSMap_In_set in Hin. destruct Hin as [Hin | [_ ->]].
      - apply (Hacc k d Hin).
      - cbn. lia. }
    intros l. apply Hgen. intros k d [].
  - revert Hnn. generalize (ParseResult.allocationSamples res).
    assert (Hgen : forall (l : JSMap.t Z AllocationSample.t) (acc : JSMap.t Z SampleData.t),
      allocationCountsNonneg l ->
      (forall k d, In (k, d) acc -> 0 <= SampleData.count d) ->
      forall k d,
        In (k, d) (fold_left
          (fun sampleData entry =>
             JSMap.set (fst entry)
               (SampleData.mk (AllocationSample.count (snd entry))
                              (AllocationSample.size (snd entry))
                              (Some (AllocationSample.types (snd entry))))
               sampleData) l acc) ->
        0 <= SampleData.count d).
    { induction l as [|[k0 s0] l IH]; intros acc Hl Hacc; cbn [fold_left]; [exact Hacc|].
      apply IH.
      - intros k s Hin. apply (Hl k s). right. exact Hin.
      - intros k d Hin. apply JSMap_In_set in Hin. destruct Hin as [Hin | [_ ->]].
        + apply (Hacc k d Hin).
        + cbn [SampleData.count snd]. apply (Hl k0 s0). left. reflexivity. }
    intros l Hl. apply Hgen; [exact Hl | intros k d []].
Qed.

(** The tree of [buildFlameGraphData] on a result whose allocation counts
    are not negative. *)
Lemma buildFlameTree_weights res mode root :
  allocationCountsNonneg (ParseResult.allocationSamples res) ->
  buildFlameTree res mode = Some root ->
  (forall n, subnode n root -> childrenSamples (children n) <= samples n)
  /\ samples root
     = sumCountedWeights (ParseResult.stacks res) (buildSampleData res mode).
Proof.
  intros Hnn. unfold buildFlameTree.
  destruct (JSMap.size (ParseResult.stacks res) =? 0); [discriminate|].
  destruct (match mode with cpu => _ | allocation => _ end); [discriminate|].
  intros H. inversion H; subst; clear H.
  destruct (addStackSamples_weights
              (buildMethodAddresses (ParseResult.methods res))
              (ParseResult.stacks res) (buildSampleData res mode)
              (newFlameNode (lit "root"))) as [Hs Hall].
  - apply buildSampleData_nonneg. exact Hnn.
  - intros n Hn. inversion Hn; subst; [cbn; lia|].
    match goal with H : In _ (children (newFlameNode _)) |- _ => destruct H end.
  - split; [exact Hall|]. rewrite Hs. cbn [newFlameNode samples]. lia.
Qed.

Lemma addAllocationSample_nonneg typeName size stackId samples :
  allocationCountsNonneg samples ->
  allocationCountsNonneg (addAllocationSample typeName size stackId samples).
Proof.
  intros H k s Hin. unfold addAllocationSample in Hin.
  destruct (JSMap.get stackId samples) as [existing|] eqn:E;
    apply JSMap_In_set in Hin; destruct Hin as [Hin | [_ ->]];
    try (apply (H k s Hin)).
  - cbn [AllocationSample.count]. apply JSMap_get_In in E.
    specialize (H _ _ E). lia.
  - cbn. lia.
Qed.

Lemma addAllocation_allocationSamples typeName size timestamp stackId w :
  ParseResult.allocationSamples (result (addAllocation typeName size timestamp stackId w))
  = if 0 <? stackId
    then addAllocationSample typeName size stackId
           (ParseResult.allocationSamples (result w))
    else ParseResult.allocationSamples (result w).
Proof. unfold addAllocation. destruct (0 <? stackId); reflexivity. Qed.

Lemma parseObjectStream_allocationCountsNonneg w :
  allocationCountsNonneg (ParseResult.allocationSamples (result w)) ->
  allocationCountsNonneg (ParseResult.allocationSamples (result (parseObjectStream w))).
Proof.
  apply (parseObjectStream_preserves
           (fun w => allocationCountsNonneg (ParseResult.allocationSamples (result w))));
    try (intros; assumption).
  intros w0 typeName size0 timestamp stackId _ H.
  rewrite addAllocation_allocationSamples.
  destruct (0 <? stackId); [apply addAllocationSample_nonneg|]; exact H.
Qed.

Lemma afterObjectStream_allocationSamples w1 :
  ParseResult.allocationSamples (result (afterObjectStream w1))
  = ParseResult.allocationSamples (result w1).
Proof. reflexivity. Qed.

Lemma parse_allocationCountsNonneg buf :
  allocationCountsNonneg (ParseResult.allocationSamples (parse buf)).
Proof.
  destruct (parse_cases buf) as [[e He] | (_ & _ & r & Hr)].
  - rewrite He. intros k s [].
  - rewrite Hr. unfold finishParse. rewrite afterObjectStream_allocationSamples.
    apply parseObjectStream_allocationCountsNonneg. intros k s [].
Qed.

(** C4, counterexample: the trace has an allocation on the stack id 5 and
    no stack 5. The allocation flame graph is built, its input weights sum
    up to one, and its root weighs nothing. *)
Lemma C4_counterexample :
  let res := parse missingStackTrace in
  exists root,
    buildFlameTree res allocation = Some root
    /\ sumInputWeights (buildSampleData res allocation) = 1
    /\ samples root = 0.
Proof. eexists. vm_compute. repeat split; reflexivity. Qed.

(** C4, amended: in the tree that the flame-graph builder makes from the
    result of a parse, in the CPU and in the allocation variant, the
    children of every node weigh together no more than the node, and the
    root weighs as much as the entries of the sample data whose stack id
    has a stack with at least one address; the other entries are skipped
    and add nothing. *)
Theorem C4_flame_weights (buf : list byte) (mode : FlameMode) (root : FlameNode) :
  buildFlameTree (parse buf) mode = Some root ->
  (forall n, subnode n root -> childrenSamples (children n) <= samples n)
  /\ samples root
     = sumCountedWeights (ParseResult.stacks (parse buf))
                         (buildSampleData (parse buf) mode).
Proof.
  apply buildFlameTree_weights. apply parse_allocationCountsNonneg.
Qed.

Lemma C4_flame_weights_witness :
  (forall n, subnode n resolvedFlameTree -> childrenSamples (children n) <= samples n)
  /\ samples resolvedFlameTree = 1
  /\ map fst (children resolvedFlameTree) = [lit "0x2000"].
Proof.
  destruct (C4_flame_weights methodResolutionTrace cpu resolvedFlameTree) as [H1 H2].
  - vm_compute. reflexivity.
  - split; [exact H1|]. split; reflexivity.
Defined.

(** ** The error list *)

(** A method whose body is one [try] with an empty [catch] never throws. *)
Lemma silent_catch_ok {L S} (l : L) (m : M (L * S) unit) (s : S) :
  fst (with_local l (try_catch m (fun _ => ret tt)) s) = Ok tt.
Proof.
  unfold with_local, try_catch, ret.
  destruct (m (l, s)) as [[[]|e] s']; reflexivity.
Qed.

Lemma addAllocation_this typeName size timestamp stackId w :
  this (addAllocation typeName size timestamp stackId w) = this w.
Proof. reflexivity. Qed.

(** No block decoder writes the error list. *)
Lemma decodeBlock_errors typeName data w :
  Parser.errors (this (snd (decodeBlock typeName data w))) = Parser.errors (this w).
Proof.
  apply (decodeBlock_preserves
           (fun w' => Parser.errors (this w') = Parser.errors (this w)));
    try (intros; assumption); reflexivity.
Qed.

Lemma parseMetadataPayload_errors reader w :
  Parser.errors (this (snd (parseMetadataPayload reader w))) = Parser.errors (this w).
Proof.
  apply (parseMetadataPayload_preserves
           (fun w' => Parser.errors (this w') = Parser.errors (this w)));
    try (intros; assumption); reflexivity.
Qed.

Lemma parseAllocationEvent_errors payload timestamp stackId w :
  Parser.errors (this (snd (parseAllocationEvent payload timestamp stackId w)))
  = Parser.errors (this w).
Proof.
  apply (parseAllocationEvent_preserves
           (fun w' => Parser.errors (this w') = Parser.errors (this w)));
    try (intros; assumption); reflexivity.
Qed.

Lemma parseStackBlock_errors data w :
  Parser.errors (this (snd (parseStackBlock data w))) = Parser.errors (this w).
Proof.
  apply (parseStackBlock_preserves
           (fun w' => Parser.errors (this w') = Parser.errors (this w)));
    try (intros; assumption); reflexivity.
Qed.

(** C9, counterexample: the metadata block of the trace holds a schema
    descriptor of two bytes. [parseMetadataPayload] fails on it and the
    schema is skipped, yet the error list of the parse stays empty. *)
Lemma C9_counterexample :
  fst (readInt32LE (mkReader [x07; x00] 0)) = Throw (EndOfBuffer 0)
  /\ ParseResult.metadata (parse truncatedSchemaTrace) = []
  /\ ParseResult.errors (parse truncatedSchemaTrace) = [].
Proof. vm_compute. repeat split; reflexivity. Qed.

(** C9, amended: an exception that leaves a block decoder is recorded:
    [processBlock] appends one entry, [Error processing <type>: <message>],
    to the error list, and nothing when the decoder returns. The decoders
    themselves never write the error list: an error inside a schema
    descriptor, an allocation payload or a stack block is caught on the
    spot, the method returns without an exception, and the error list is
    as it was. *)
Theorem C9_recorded_errors :
  (forall typeInfo data w,
     Parser.errors (this (snd (processBlock typeInfo data w)))
     = Parser.errors (this w)
       ++ match fst (decodeBlock (TypeInfo.typeName typeInfo) data w) with
          | Ok _ => []
          | Throw e => [ErrorProcessing (TypeInfo.typeName typeInfo) e]
          end)
  /\ (forall reader w,
        fst (parseMetadataPayload reader w) = Ok tt
        /\ Parser.errors (this (snd (parseMetadataPayload reader w)))
           = Parser.errors (this w))
  /\ (forall payload timestamp stackId w,
        fst (parseAllocationEvent payload timestamp stackId w) = Ok tt
        /\ Parser.errors (this (snd (parseAllocationEvent payload timestamp stackId w)))
           = Parser.errors (this w))
  /\ (forall data w,
        fst (parseStackBlock data w) = Ok tt
        /\ Parser.errors (this (snd (parseStackBlock data w)))
           = Parser.errors (this w)).
Proof.
  repeat apply conj.
  - intros typeInfo data w. unfold processBlock, try_catch. cbv zeta.
    pose proof (decodeBlock_errors (TypeInfo.typeName typeInfo) data w) as He.
    destruct (decodeBlock (TypeInfo.typeName typeInfo) data w) as [[u|e] w'];
      cbn [fst snd] in *.
    + rewrite He, app_nil_r. reflexivity.
    + unfold pushError, modify. cbn [snd this updThis Parser.errors Parser.set_errors].
      rewrite He. reflexivity.
  - intros reader w. split; [apply silent_catch_ok | apply parseMetadataPayload_errors].
  - intros payload timestamp stackId w.
    split; [|apply parseAllocationEvent_errors].
    unfold parseAllocationEvent. destruct (buflen payload <? 10); [reflexivity|].
    apply silent_catch_ok.
  - intros data w. split; [apply silent_catch_ok | apply parseStackBlock_errors].
Qed.

(** The amended C9 on a metadata block of two bytes, too short for its
    header: the exception of the decoder is recorded. *)
Lemma C9_recorded_errors_witness :
  Parser.errors
    (this (snd (processBlock (TypeInfo.mk 0 4 4 (lit "MetadataBlock")) [x04; x00]
                             (mkWorld (Parser.initial []) ParseResult.initial))))
  = [ErrorProcessing (lit "MetadataBlock") (EndOfBuffer 2)].
Proof.
  rewrite (proj1 C9_recorded_errors). reflexivity.
Defined.

(** ** The stack records of a block *)

(** C6, counterexample: with the default pointer size 8, a block whose
    only entry declares 12 bytes yields a stack record with one address;
    eight is not twelve. *)
Lemma C6_counterexample :
  let data := [x01; x00; x00; x00;  x01; x00; x00; x00;  x0c; x00; x00; x00;
               x00; x10; x00; x00; x00; x00; x00; x00;  x00; x20; x00; x00] in
  let w := snd (parseStackBlock data (mkWorld (Parser.initial []) ParseResult.initial)) in
  Parser.pointerSize (this w) = 8
  /\ fst (parseStackEntry 8 (mkReader data 8)) = Ok (EntryRead 12 [4096])
  /\ JSMap.get 1 (Parser.stacks (this w)) = Some (StackInfo.mk 1 [4096])
  /\ Z.of_nat (List.length [4096]) * 8 <> 12.
Proof. repeat split; try reflexivity. discriminate. Qed.

Lemma readFixedU_value width r :
  0 <= offset r -> hasBytes r width = true ->
  readFixed width bufReadU r
  = (Ok (leValue (firstn (Z.to_nat width) (skipn (Z.to_nat (_offset r)) (buffer r)))),
     set_offset (_offset r + width) r)
  /\ bufReadU (buffer r) (_offset r) width
     = Ok (leValue (firstn (Z.to_nat width) (skipn (Z.to_nat (_offset r)) (buffer r)))).
Proof.
  intros H0 Hb. unfold readFixed. rewrite Hb. cbn [negb].
  unfold hasBytes in Hb. apply Z.leb_le in Hb.
  unfold bufReadU.
  destruct (_offset r <? 0) eqn:E1; [apply Z.ltb_lt in E1; unfold offset in *; lia|].
  destruct (buflen (buffer r) <? _offset r + width) eqn:E2; [apply Z.ltb_lt in E2; lia|].
  cbn [orb]. split; reflexivity.
Qed.

(** With a pointer size of 4 or 8 and the bytes of [k] addresses left, the
    inner loop reads exactly these [k] addresses. *)
Lemma readAddresses_loop_exact ps (k : nat) : forall fuel j acc r,
  ps = 4 \/ ps = 8 ->
  0 <= offset r ->
  Z.of_nat k * ps <= remaining r ->
  (k < fuel)%nat ->
  readAddresses_loop fuel ps (Some (j + Z.of_nat k)) j acc r
  = (Ok (acc ++ addressesAt ps (buffer r) (offset r) k),
     set_offset (offset r + Z.of_nat k * ps) r).
Proof.
  induction k as [|k IH]; intros fuel j acc r Hps H0 Hrem Hfuel;
    (destruct fuel as [|fuel]; [lia|]); cbn [readAddresses_loop belowBound addressesAt].
  - replace (j <? j + Z.of_nat 0) with false by (symmetry; apply Z.ltb_ge; lia).
    cbn [andb]. rewrite app_nil_r. f_equal.
    destruct r as [buf o]. unfold set_offset, offset. cbn [buffer _offset]. f_equal. lia.
  - replace (j <? j + Z.of_nat (S k)) with true by (symmetry; apply Z.ltb_lt; lia).
    assert (Hb : hasBytes r ps = true).
    { unfold hasBytes, remaining in *. apply Z.leb_le. destruct Hps; subst ps; lia. }
    rewrite Hb. cbn [andb]. unfold bind.
    assert (Hread :
      (if ps =? 8 then readUInt64LE else readUInt32LE) r
      = (Ok (leValue (firstn (Z.to_nat ps) (skipn (Z.to_nat (_offset r)) (buffer r)))),
         set_offset (_offset r + ps) r)).
    { destruct Hps as [-> | ->]; cbn [Z.eqb Pos.eqb].
      - apply (readFixedU_value 4 r H0 Hb).
      - apply (readFixedU_value 8 r H0 Hb). }
    match goal with
    | |- context [let (_, _) := ?t in _] =>
        change t with ((if ps =? 8 then readUInt64LE else readUInt32LE) r)
    end.
    rewrite Hread.
    replace (j + Z.of_nat (S k)) with (j + 1 + Z.of_nat k) by lia.
    rewrite IH; unfold offset, remaining, set_offset in *; cbn [buffer _offset] in *;
      [| exact Hps | lia | destruct Hps; subst ps; lia | lia].
    rewrite <- app_assoc. cbn [app]. f_equal. f_equal.
    destruct Hps; subst ps; lia.
Qed.

(** One entry of a block that counts, as [parseStackEntry] reads it. *)
Lemma parseStackEntry_value ps r :
  ps = 4 \/ ps = 8 -> inBounds r -> 4 <= remaining r ->
  exists stackSize,
    bufReadU (buffer r) (offset r) 4 = Ok stackSize /\ 0 <= stackSize
    /\ ((stackSize = 0 \/ buflen (buffer r) < offset r + 4 + stackSize)
        /\ parseStackEntry ps r = (Ok EntryBreak, set_offset (offset r + 4) r)
        \/ (stackSize <> 0 /\ offset r + 4 + stackSize <= buflen (buffer r))
           /\ parseStackEntry ps r
              = (Ok (EntryRead stackSize
                       (addressesAt ps (buffer r) (offset r + 4)
                                    (Z.to_nat (stackSize / ps)))),
                 set_offset (offset r + 4 + stackSize / ps * ps) r)).
Proof.
  intros Hps [H0 H1] Hrem. unfold offset, remaining in *.
  assert (Hb : hasBytes r 4 = true) by (apply Z.leb_le; lia).
  destruct (readFixedU_value 4 r H0 Hb) as [Hread Hval].
  exists (leValue (firstn (Z.to_nat 4) (skipn (Z.to_nat (_offset r)) (buffer r)))).
  set (stackSize := leValue _) in *.
  assert (Hnn : 0 <= stackSize) by apply leValue_nonneg.
  split; [exact Hval|]. split; [exact Hnn|].
  unfold parseStackEntry, bind, readUInt32LE. rewrite Hread.
  unfold hasBytes, set_offset. cbn [buffer _offset].
  destruct (stackSize =? 0) eqn:Ez.
  - apply Z.eqb_eq in Ez. left. cbn [orb]. split; [left; exact Ez | reflexivity].
  - apply Z.eqb_neq in Ez. cbn [orb].
    destruct (_offset r + 4 + stackSize <=? buflen (buffer r)) eqn:Eh; cbn [negb].
    + apply Z.leb_le in Eh. right. split; [split; [exact Ez | exact Eh]|].
      assert (Hp : 0 < ps) by (destruct Hps; lia).
      assert (Hq : 0 <= stackSize / ps <= stackSize).
      { split; [apply Z.div_pos; lia|].
        apply Z.div_le_upper_bound; [lia|]. nia. }
      pose proof (Z.mul_div_le stackSize ps Hp) as Hmd.
      unfold numAddrsOf.
      replace (ps =? 0) with false by (symmetry; apply Z.eqb_neq; lia).
      pose proof (readAddresses_loop_exact ps (Z.to_nat (stackSize / ps))
                    (S (List.length (buffer r))) 0 []
                    (mkReader (buffer r) (_offset r + 4)) Hps) as Hloop.
      unfold offset, remaining in Hloop. cbn [buffer _offset] in Hloop.
      rewrite Z2Nat.id in Hloop by lia. cbn [Z.add app] in Hloop.
      rewrite Hloop; [| lia | lia | unfold buflen in *; lia].
      unfold ret, set_offset. cbn [buffer _offset].
      first [reflexivity | f_equal; f_equal; lia].
    + apply Z.leb_gt in Eh. left. split; [right; lia | reflexivity].
Qed.

(** The loop of [parseStackBlock] stores the entries of the run that
    starts at its reader, under the ids from [currentId] on. *)
Lemma parseStackBlock_loop_entries fuel : forall count i currentId r w,
  Parser.pointerSize (this w) = 4 \/ Parser.pointerSize (this w) = 8 ->
  inBounds r -> remaining r < Z.of_nat fuel ->
  exists entries,
    entryRun (Parser.pointerSize (this w)) (buffer r) (offset r) (count - i) entries
    /\ fst (parseStackBlock_loop fuel count i currentId (r, w)) = Ok tt
    /\ Parser.stacks (this (snd (snd (parseStackBlock_loop fuel count i currentId (r, w)))))
       = storeEntries currentId entries (Parser.stacks (this w)).
Proof.
  induction fuel as [|fuel IH]; intros count i currentId r w Hps Hb Hfuel.
  - unfold inBounds, remaining in *. simpl in Hfuel. lia.
  - cbn [parseStackBlock_loop fst snd].
    destruct (i <? count) eqn:Ei; cbn [andb];
      [|exists []; apply Z.ltb_ge in Ei; cbn [entryRun storeEntries];
        repeat split; left; lia].
    apply Z.ltb_lt in Ei.
    destruct (4 <=? remaining r) eqn:E4;
      [|exists []; apply Z.leb_gt in E4; cbn [entryRun storeEntries];
        repeat split; right; left; unfold remaining, offset in *; lia].
    apply Z.leb_le in E4.
    destruct (parseStackEntry_value _ r Hps Hb E4)
      as (stackSize & Hval & Hnn & [[Hbreak Hentry] | [[Hnz Hhas] Hentry]]);
      unfold bind, onLocal, zoom; cbn [fst snd]; rewrite Hentry; cbn [fst snd].
    + exists []. cbn [entryRun storeEntries]. repeat split.
      right. right. exists stackSize. split; [exact Hval | exact Hbreak].
    + unfold onOuter, zoom, modify. cbn [fst snd].
      set (addresses := addressesAt _ _ _ _).
      set (r2 := set_offset _ r).
      assert (Hp : 0 < Parser.pointerSize (this w)) by (destruct Hps; lia).
      assert (Hq : 0 <= stackSize / Parser.pointerSize (this w)).
      { apply Z.div_pos; lia. }
      pose proof (Z.mul_div_le stackSize _ Hp) as Hmd.
      assert (Hmul : stackSize / Parser.pointerSize (this w)
                     * Parser.pointerSize (this w) <= stackSize) by lia.
      destruct (IH count (i + 1) (currentId + 1) r2 (setStack currentId addresses w))
        as (entries & Hrun & Hok & Hst).
      * exact Hps.
      * unfold inBounds, r2, set_offset, offset in *. cbn [buffer _offset]. lia.
      * unfold inBounds, remaining, r2, set_offset, offset in *.
        cbn [buffer _offset]. lia.
      * exists ((stackSize, addresses) :: entries).
        cbn [entryRun storeEntries].
        replace (count - i - 1) with (count - (i + 1)) by lia.
        repeat split; try assumption; lia.
Qed.

Lemma addressesAt_length ps data off n :
  List.length (addressesAt ps data off n) = n.
Proof.
  revert off. induction n as [|n IH]; intros off; cbn [addressesAt List.length];
    [reflexivity|]. rewrite IH. reflexivity.
Qed.

(** Every entry of a run has as many addresses as its stack size holds
    pointers, rounded down. *)
Lemma entryRun_lengths ps data entries : forall off count,
  0 < ps ->
  entryRun ps data off count entries ->
  Forall (fun entry =>
            Z.of_nat (List.length (snd entry)) = fst entry / ps
            /\ Z.of_nat (List.length (snd entry)) * ps = fst entry - fst entry mod ps
            /\ (fst entry mod ps = 0 ->
                Z.of_nat (List.length (snd entry)) * ps = fst entry))
         entries.
Proof.
  induction entries as [|[stackSize addresses] entries IH]; intros off count Hp H;
    [constructor|].
  cbn [entryRun] in H. destruct H as (_ & Hval & _ & _ & -> & Hrest).
  constructor; [|apply (IH _ _ Hp Hrest)].
  cbn [fst snd]. rewrite addressesAt_length.
  assert (Hnn : 0 <= stackSize).
  { unfold bufReadU in Hval. destruct (_ || _); [discriminate|].
    inversion Hval. apply leValue_nonneg. }
  rewrite Z2Nat.id by (apply Z.div_pos; lia).
  pose proof (Z.div_mod stackSize ps ltac:(lia)) as Hdm.
  split; [reflexivity|]. split; [|intros Hm]; lia.
Qed.

(** A record of the table after the entries have been stored was in the
    table before, or it is the record of one of the entries. *)
Lemma storeEntries_get entries : forall currentId stacks k stack,
  JSMap.get k (storeEntries currentId entries stacks) = Some stack ->
  JSMap.get k stacks = Some stack
  \/ exists (i : nat) stackSize,
       nth_error entries i = Some (stackSize, StackInfo.addresses stack)
       /\ k = currentId + Z.of_nat i
       /\ StackInfo.stackId stack = k.
Proof.
  induction entries as [|[stackSize addresses] entries IH]; intros currentId stacks k stack H;
    cbn [storeEntries] in H; [left; exact H|].
  apply IH in H. destruct H as [H | (i & size & Hnth & -> & Hid)].
  - rewrite JSMap_get_set in H.
    destruct (eq_dec k currentId) as [->|Hne]; [|left; exact H].
    inversion H; subst. right. exists O, stackSize.
    cbn [nth_error StackInfo.addresses StackInfo.stackId]. repeat split; lia.
  - right. exists (S i), size. cbn [nth_error]. repeat split; [exact Hnth | lia | lia].
Qed.

(** C6, amended: with a pointer size of 4 or 8, [parseStackBlock] stores
    the entries of the block, in their order, under the ids from the first
    id of the block on: the stack table afterwards is the table before with
    one record for each entry of the run that the block holds behind its
    header. Each of these records has [stackSize / pointerSize] addresses,
    rounded down, for the stack size that its entry declares; so the
    addresses times the pointer size make up the declared size less its
    remainder by the pointer size, which is the declared size exactly when
    that is a multiple of the pointer size. Every stack record of the
    table afterwards was in the table before or is the record of such an
    entry, stored under the id that it carries. *)
Theorem C6_stack_entry_addresses (data : list byte) (w : World)
    (firstId count : Z) (r1 r2 : BufferReader) :
  let pointerSize := Parser.pointerSize (this w) in
  let stacks' := Parser.stacks (this (snd (parseStackBlock data w))) in
  pointerSize = 4 \/ pointerSize = 8 ->
  readUInt32LE (mkReader data 0) = (Ok firstId, r1) ->
  readUInt32LE r1 = (Ok count, r2) ->
  exists entries,
    entryRun pointerSize data 8 count entries
    /\ stacks' = storeEntries firstId entries (Parser.stacks (this w))
    /\ Forall (fun entry =>
                 Z.of_nat (List.length (snd entry)) = fst entry / pointerSize
                 /\ Z.of_nat (List.length (snd entry)) * pointerSize
                    = fst entry - fst entry mod pointerSize
                 /\ (fst entry mod pointerSize = 0 ->
                     Z.of_nat (List.length (snd entry)) * pointerSize = fst entry))
              entries
    /\ forall k stack,
         JSMap.get k stacks' = Some stack ->
         JSMap.get k (Parser.stacks (this w)) = Some stack
         \/ exists (i : nat) stackSize,
              nth_error entries i = Some (stackSize, StackInfo.addresses stack)
              /\ k = firstId + Z.of_nat i
              /\ StackInfo.stackId stack = k
              /\ Z.of_nat (List.length (StackInfo.addresses stack))
                 = stackSize / pointerSize.
Proof.
  intros pointerSize stacks' Hps H1 H2. subst stacks'.
  pose proof (readFixedU_inv _ _ _ _ H1) as (Hr1 & _ & Hb1).
  pose proof (readFixedU_inv _ _ _ _ H2) as (Hr2 & _ & Hb2).
  assert (Hr2' : r2 = mkReader data 8).
  { rewrite Hr2, Hr1. reflexivity. }
  assert (Hlen : 8 <= buflen data).
  { rewrite Hr1 in Hb2. unfold hasBytes, set_offset in Hb2. cbn [buffer _offset] in Hb2.
    apply Z.leb_le in Hb2. lia. }
  destruct (parseStackBlock_loop_entries (S (List.length data)) count 0 firstId
              r2 w Hps) as (entries & Hrun & Hok & Hst).
  { rewrite Hr2'. unfold inBounds. cbn [buffer _offset]. lia. }
  { rewrite Hr2'. unfold remaining, buflen. cbn [buffer _offset]. lia. }
  rewrite Hr2' in Hrun. cbn [buffer offset _offset] in Hrun. rewrite Z.sub_0_r in Hrun.
  assert (Hstacks : Parser.stacks (this (snd (parseStackBlock data w)))
                    = storeEntries firstId entries (Parser.stacks (this w))).
  { rewrite <- Hst. unfold parseStackBlock, with_local, try_catch.
    unfold bind at 1. unfold onLocal at 1, zoom. cbn [fst snd]. rewrite H1.
    unfold bind at 1. unfold onLocal at 1, zoom. cbn [fst snd]. rewrite H2.
    destruct (parseStackBlock_loop (S (List.length data)) count 0 firstId (r2, w))
      as [[[]|e] s']; [reflexivity | cbn [fst] in Hok; discriminate]. }
  assert (Hp : 0 < pointerSize) by (destruct Hps; lia).
  pose proof (entryRun_lengths _ _ _ _ _ Hp Hrun) as Hlens.
  exists entries. split; [exact Hrun|]. split; [exact Hstacks|]. split; [exact Hlens|].
  intros k stack Hget. rewrite Hstacks in Hget.
  apply storeEntries_get in Hget.
  destruct Hget as [Hget | (i & stackSize & Hnth & Hk & Hid)]; [left; exact Hget|].
  right. exists i, stackSize. repeat split; try assumption.
  rewrite Forall_forall in Hlens.
  apply (Hlens (stackSize, StackInfo.addresses stack)).
  apply (nth_error_In _ _ Hnth).
Qed.

(** The amended C6 on a block with one entry of 16 bytes for the stack 1,
    with pointers of 8 bytes: the record of the stack 1 has two
    addresses. *)
Lemma C6_stack_entry_addresses_witness :
  let w := mkWorld (Parser.initial []) ParseResult.initial in
  exists entries,
    entryRun 8 oneStackBlock 8 1 entries
    /\ Parser.stacks (this (snd (parseStackBlock oneStackBlock w)))
       = storeEntries 1 entries []
    /\ Forall (fun entry =>
                 Z.of_nat (List.length (snd entry)) = fst entry / 8
                 /\ Z.of_nat (List.length (snd entry)) * 8
                    = fst entry - fst entry mod 8
                 /\ (fst entry mod 8 = 0 ->
                     Z.of_nat (List.length (snd entry)) * 8 = fst entry))
              entries
    /\ forall k stack,
         JSMap.get k (Parser.stacks (this (snd (parseStackBlock oneStackBlock w))))
         = Some stack ->
         JSMap.get k [] = Some stack
         \/ exists (i : nat) stackSize,
              nth_error entries i = Some (stackSize, StackInfo.addresses stack)
              /\ k = 1 + Z.of_nat i
              /\ StackInfo.stackId stack = k
              /\ Z.of_nat (List.length (StackInfo.addresses stack)) = stackSize / 8.
Proof.
  intros w.
  apply (C6_stack_entry_addresses oneStackBlock w 1 1
           (mkReader oneStackBlock 4) (mkReader oneStackBlock 8)).
  - right. reflexivity.
  - reflexivity.
  - reflexivity.
Defined.

(** ** The fuel of the loops

    The loops of the source that are bounded by the bytes left in a buffer
    are defined by recursion on a fuel. The lemmas of this part show that
    the fuel they are started with is never used up: the readers only move
    forward, every round that goes on has read at least one byte, and more
    fuel changes nothing. *)

Lemma forwardFrom_refl r : inBounds r -> forwardFrom r r.
Proof. unfold inBounds, forwardFrom. intros H. repeat split; lia. Qed.

Lemma forwardFrom_set_offset r0 r n :
  forwardFrom r0 r -> 0 <= n -> _offset r + n <= buflen (buffer r) ->
  forwardFrom r0 (set_offset (_offset r + n) r).
Proof.
  unfold forwardFrom, set_offset. cbn [buffer _offset].
  intros (Hb & Ho) Hn Hle. repeat split; auto; lia.
Qed.

Lemma readByte_forward r0 : preserves (forwardFrom r0) readByte.
Proof.
  intros r H. unfold readByte. destruct (hasBytes r 1) eqn:E; cbn [negb snd]; [|exact H].
  apply forwardFrom_set_offset; [exact H | lia |].
  unfold hasBytes in E. apply Z.leb_le in E. exact E.
Qed.

Lemma peekByte_forward r0 : preserves (forwardFrom r0) peekByte.
Proof.
  intros r H. unfold peekByte. destruct (hasBytes r 1); exact H.
Qed.

Lemma readFixed_forward r0 width get :
  0 <= width -> preserves (forwardFrom r0) (readFixed width get).
Proof.
  intros Hw r H. unfold readFixed.
  destruct (hasBytes r width) eqn:E; cbn [negb snd]; [|exact H].
  destruct (get _ _ _); cbn [snd]; [|exact H].
  apply forwardFrom_set_offset; [exact H | exact Hw |].
  unfold hasBytes in E. apply Z.leb_le in E. exact E.
Qed.

Lemma readBytes_forward r0 count :
  0 <= count -> preserves (forwardFrom r0) (readBytes count).
Proof.
  intros Hc r H. unfold readBytes.
  destruct (hasBytes r count) eqn:E; cbn [negb snd]; [|exact H].
  apply forwardFrom_set_offset; [exact H | exact Hc |].
  unfold hasBytes in E. apply Z.leb_le in E. exact E.
Qed.

Lemma skip_forward r0 count : preserves (forwardFrom r0) (skip count).
Proof.
  intros r H. unfold skip. destruct (0 <? count) eqn:E; cbn [snd]; [|exact H].
  apply Z.ltb_lt in E. destruct H as (Hb & Ho).
  unfold forwardFrom, set_offset. cbn [buffer _offset]. repeat split; auto; lia.
Qed.

Lemma readFixed_forward_2 r0 get : preserves (forwardFrom r0) (readFixed 2 get).
Proof. apply readFixed_forward. lia. Qed.
Lemma readFixed_forward_4 r0 get : preserves (forwardFrom r0) (readFixed 4 get).
Proof. apply readFixed_forward. lia. Qed.
Lemma readFixed_forward_8 r0 get : preserves (forwardFrom r0) (readFixed 8 get).
Proof. apply readFixed_forward. lia. Qed.

Create HintDb forward.
(** The hints are keyed on the name of the reader's method, so that no
    method is unfolded to see whether a lemma applies. *)
#[local] Hint Extern 1 (preserves _ readByte) => apply readByte_forward : forward.
#[local] Hint Extern 1 (preserves _ peekByte) => apply peekByte_forward : forward.
#[local] Hint Extern 1 (preserves _ (skip _)) => apply skip_forward : forward.
#[local] Hint Extern 1 (preserves _ (readFixed 2 _)) =>
  apply readFixed_forward_2 : forward.
#[local] Hint Extern 1 (preserves _ (readFixed 4 _)) =>
  apply readFixed_forward_4 : forward.
#[local] Hint Extern 1 (preserves _ (readFixed 8 _)) =>
  apply readFixed_forward_8 : forward.

(** The steps of [preserves_step], and the two for an invariant of the
    local object. *)
Lemma preserves_onLocal_inner {L S A} (I : L -> Prop) (m : M L A) :
  preserves I m -> preserves (inner I) (@onLocal L S A m).
Proof.
  intros Hm s H. unfold onLocal, zoom. specialize (Hm (fst s) H).
  destruct (m (fst s)). exact Hm.
Qed.

Lemma preserves_onOuter_inner {L S A} (I : L -> Prop) (m : M S A) :
  preserves (inner I) (@onOuter L S A m).
Proof.
  intros s H. unfold onOuter, zoom. destruct (m (snd s)). exact H.
Qed.

Ltac forward_step :=
  first [ apply preserves_onLocal_inner
        | apply preserves_onOuter_inner
        | preserves_step ].

Ltac forward_tac :=
  repeat (forward_step;
          auto with forward;
          try (unfold readInt16LE, readUInt16LE, readInt32LE, readUInt32LE,
                 readInt64LE, readUInt64LE; auto with forward)).

Lemma readVarUInt_loop_forward r0 fuel : forall result shift,
  preserves (forwardFrom r0) (readVarUInt_loop fuel result shift).
Proof.
  induction fuel as [|fuel IH]; intros result shift; cbn [readVarUInt_loop];
    forward_tac.
Qed.

Lemma readVar64_loop_forward r0 e fuel : forall result shift,
  preserves (forwardFrom r0) (readVar64_loop e fuel result shift).
Proof.
  induction fuel as [|fuel IH]; intros result shift; cbn [readVar64_loop];
    forward_tac.
Qed.

Lemma readNullTerminatedUTF16_loop_forward r0 fuel : forall chars,
  preserves (forwardFrom r0) (readNullTerminatedUTF16_loop fuel chars).
Proof.
  induction fuel as [|fuel IH]; intros chars; cbn [readNullTerminatedUTF16_loop];
    forward_tac.
Qed.

Lemma readVarUInt_forward r0 : preserves (forwardFrom r0) readVarUInt.
Proof. apply readVarUInt_loop_forward. Qed.
Lemma readVarInt64_forward r0 : preserves (forwardFrom r0) readVarInt64.
Proof. apply readVar64_loop_forward. Qed.
Lemma readVarUInt64_forward r0 : preserves (forwardFrom r0) readVarUInt64.
Proof. apply readVar64_loop_forward. Qed.
Lemma fromCharCodes_forward r0 chars : preserves (forwardFrom r0) (fromCharCodes chars).
Proof.
  intros r H. unfold fromCharCodes. destruct (fitsArguments _); exact H.
Qed.

Lemma readNullTerminatedUTF16_forward r0 :
  preserves (forwardFrom r0) readNullTerminatedUTF16.
Proof.
  unfold readNullTerminatedUTF16. apply preserves_bind.
  - intros r H. apply readNullTerminatedUTF16_loop_forward. exact H.
  - intros chars. apply fromCharCodes_forward.
Qed.

#[local] Hint Extern 1 (preserves _ readVarUInt) =>
  apply readVarUInt_forward : forward.
#[local] Hint Extern 1 (preserves _ readVarInt64) =>
  apply readVarInt64_forward : forward.
#[local] Hint Extern 1 (preserves _ readVarUInt64) =>
  apply readVarUInt64_forward : forward.
#[local] Hint Extern 1 (preserves _ readNullTerminatedUTF16) =>
  apply readNullTerminatedUTF16_forward : forward.

(** *** The varint loops *)

Lemma readVarUInt_loop_fuel fuel : forall extra result shift r,
  (1 <= fuel)%nat -> 35 - shift <= 7 * Z.of_nat fuel ->
  readVarUInt_loop (fuel + extra) result shift r = readVarUInt_loop fuel result shift r.
Proof.
  induction fuel as [|fuel IH]; intros extra result shift r Hf Hs; [lia|].
  cbn [Nat.add readVarUInt_loop].
  destruct (negb (hasBytes r 1)); [reflexivity|].
  unfold bind. destruct (readByte r) as [[b|e] r1]; [|reflexivity].
  destruct (negb (band b 128 =? 0) && (shift + 7 <? 35)) eqn:E; [|reflexivity].
  apply andb_true_iff in E. destruct E as [_ E]. apply Z.ltb_lt in E.
  apply IH; lia.
Qed.

Lemma readVar64_loop_fuel e fuel : forall extra result shift r,
  (1 <= fuel)%nat -> 70 - shift <= 7 * Z.of_nat fuel ->
  readVar64_loop e (fuel + extra) result shift r = readVar64_loop e fuel result shift r.
Proof.
  induction fuel as [|fuel IH]; intros extra result shift r Hf Hs; [lia|].
  cbn [Nat.add readVar64_loop].
  destruct (negb (hasBytes r 1)); [reflexivity|].
  unfold bind. destruct (readByte r) as [[b|e'] r1]; [|reflexivity].
  destruct (negb (band b 128 =? 0) && (shift + 7 <? 70)) eqn:E; [|reflexivity].
  apply andb_true_iff in E. destruct E as [_ E]. apply Z.ltb_lt in E.
  apply IH; lia.
Qed.

(** The five rounds of [readVarUInt] and the ten of the 64-bit readers are
    all the rounds there can be. *)
Lemma readVarUInt_fuel extra r :
  readVarUInt_loop (5 + extra) 0 0 r = readVarUInt r.
Proof. apply readVarUInt_loop_fuel; lia. Qed.

Lemma readVarUInt64_fuel extra r :
  readVar64_loop EndOfBufferVarUInt64 (10 + extra) 0 0 r = readVarUInt64 r.
Proof. apply readVar64_loop_fuel; lia. Qed.

Lemma readVarInt64_fuel extra r :
  readVar64_loop EndOfBufferVarint64 (10 + extra) 0 0 r = readVarInt64 r.
Proof. apply readVar64_loop_fuel; lia. Qed.

(** *** Loops over a local reader *)

Lemma readFixed_ok_offset width get r v r' :
  readFixed width get r = (Ok v, r') ->
  r' = set_offset (_offset r + width) r /\ _offset r + width <= buflen (buffer r).
Proof.
  unfold readFixed. destruct (hasBytes r width) eqn:E; cbn [negb]; [|discriminate].
  destruct (get _ _ _); [|discriminate]. intros H. inversion H.
  unfold hasBytes in E. apply Z.leb_le in E. auto.
Qed.

Lemma readNullTerminatedUTF16_loop_fuel fuel : forall extra chars r,
  0 <= _offset r -> remaining r < Z.of_nat fuel ->
  readNullTerminatedUTF16_loop (fuel + extra) chars r
  = readNullTerminatedUTF16_loop fuel chars r.
Proof.
  induction fuel as [|fuel IH]; intros extra chars r H0 Hrem.
  - unfold remaining in Hrem. cbn [Nat.add readNullTerminatedUTF16_loop].
    destruct extra; cbn [readNullTerminatedUTF16_loop]; [reflexivity|].
    replace (hasBytes r 2) with false; [reflexivity|].
    symmetry. apply Z.leb_gt. simpl in Hrem. lia.
  - cbn [Nat.add readNullTerminatedUTF16_loop].
    destruct (hasBytes r 2); [|reflexivity].
    unfold bind. destruct (readUInt16LE r) as [[code|e] r1] eqn:E; [|reflexivity].
    destruct (code =? 0); [reflexivity|].
    apply readFixed_ok_offset in E. destruct E as [-> Hle].
    apply IH; unfold remaining, set_offset in *; cbn [buffer _offset]; lia.
Qed.

(** [readNullTerminatedUTF16] with any more fuel than it takes reads the
    same string. *)
Lemma readNullTerminatedUTF16_fuel extra r :
  0 <= _offset r ->
  (chars <- readNullTerminatedUTF16_loop (S (List.length (buffer r)) + extra) [] ;;
   fromCharCodes chars) r
  = readNullTerminatedUTF16 r.
Proof.
  intros H0. unfold readNullTerminatedUTF16, bind.
  rewrite readNullTerminatedUTF16_loop_fuel; [reflexivity | exact H0|].
  unfold remaining, buflen. lia.
Qed.

Lemma readAddresses_loop_fuel fuel : forall extra pointerSize numAddrs j addresses r,
  inBounds r -> remaining r < Z.of_nat fuel ->
  readAddresses_loop (fuel + extra) pointerSize numAddrs j addresses r
  = readAddresses_loop fuel pointerSize numAddrs j addresses r.
Proof.
  induction fuel as [|fuel IH]; intros extra ps n j addresses r H0 Hrem.
  - unfold inBounds, remaining in *. simpl in Hrem. lia.
  - cbn [Nat.add readAddresses_loop].
    destruct (belowBound j n && hasBytes r ps); [|reflexivity].
    unfold bind.
    destruct (ps =? 8).
    + destruct (readUInt64LE r) as [[a|e] r1] eqn:E; [|reflexivity].
      apply readFixed_ok_offset in E. destruct E as [-> Hle].
      apply IH; unfold inBounds, remaining, set_offset in *; cbn [buffer _offset]; lia.
    + destruct (readUInt32LE r) as [[a|e] r1] eqn:E; [|reflexivity].
      apply readFixed_ok_offset in E. destruct E as [-> Hle].
    apply IH; unfold inBounds, remaining, set_offset in *; cbn [buffer _offset]; lia.
Qed.

Lemma preserves_result {S A} (I : S -> Prop) (m : M S A) s res s' :
  preserves I m -> I s -> m s = (res, s') -> I s'.
Proof. intros Hm Hs E. specialize (Hm s Hs). rewrite E in Hm. exact Hm. Qed.

(** A reader that has moved forward from a reader in bounds has fewer
    bytes left, by as many bytes as it has moved. *)
Lemma forwardFrom_remaining r0 r k :
  inBounds r0 -> forwardFrom (set_offset (_offset r0 + k) r0) r -> 0 <= k ->
  inBounds r /\ buffer r = buffer r0 /\ remaining r <= remaining r0 - k.
Proof.
  unfold inBounds, forwardFrom, remaining, set_offset. cbn [buffer _offset].
  intros H0 (Hb & Ho) Hk. rewrite Hb in *. repeat split; lia.
Qed.

Lemma forwardFrom_start r k :
  inBounds r -> 0 <= k -> _offset r + k <= buflen (buffer r) ->
  forwardFrom (set_offset (_offset r + k) r) (set_offset (_offset r + k) r).
Proof.
  unfold inBounds, forwardFrom, set_offset. cbn [buffer _offset]. intros.
  repeat split; auto; lia.
Qed.

Lemma readByte_ok_offset r b r' :
  readByte r = (Ok b, r') ->
  r' = set_offset (_offset r + 1) r /\ _offset r + 1 <= buflen (buffer r).
Proof.
  unfold readByte. destruct (hasBytes r 1) eqn:E; cbn [negb]; [|discriminate].
  intros H. inversion H. unfold hasBytes in E. apply Z.leb_le in E. auto.
Qed.

(** A field that is read takes at least four bytes. *)
Lemma readField_progress r field r' :
  inBounds r -> readField r = (Ok field, r') ->
  inBounds r' /\ buffer r' = buffer r /\ remaining r' <= remaining r - 4.
Proof.
  intros H0 H. unfold readField in H.
  apply bind_ok_inv in H. destruct H as (typeCode & r1 & E1 & H).
  apply readFixed_ok_offset in E1. destruct E1 as [-> Hle].
  apply (forwardFrom_remaining r r' 4 H0); [|lia].
  refine (preserves_result _ _ _ _ _ _ (forwardFrom_start r 4 H0 _ Hle) H); [|lia].
  forward_tac.
Qed.

Lemma readFields_loop_fuel fuel : forall extra fieldCount i fields r,
  inBounds r -> remaining r < Z.of_nat fuel ->
  readFields_loop (fuel + extra) fieldCount i fields r
  = readFields_loop fuel fieldCount i fields r.
Proof.
  induction fuel as [|fuel IH]; intros extra fieldCount i fields r H0 Hrem.
  - unfold inBounds, remaining in *. simpl in Hrem. lia.
  - cbn [Nat.add readFields_loop].
    destruct ((i <? fieldCount) && (4 <? remaining r)); [|reflexivity].
    unfold bind. destruct (readField r) as [[field|e] r1] eqn:E; [|reflexivity].
    destruct (readField_progress _ _ _ H0 E) as (Hb & _ & Hr).
    apply IH; [exact Hb | lia].
Qed.

Lemma readAddresses_loop_forward r0 fuel : forall pointerSize numAddrs j addresses,
  preserves (forwardFrom r0) (readAddresses_loop fuel pointerSize numAddrs j addresses).
Proof.
  induction fuel as [|fuel IH]; intros ps n j addresses;
    cbn [readAddresses_loop]; forward_tac.
Qed.

(** An entry of a stack block that is read takes at least four bytes. *)
Lemma parseStackEntry_progress pointerSize r e r' :
  inBounds r -> parseStackEntry pointerSize r = (Ok e, r') ->
  inBounds r' /\ buffer r' = buffer r /\ remaining r' <= remaining r - 4.
Proof.
  intros H0 H. unfold parseStackEntry in H.
  apply bind_ok_inv in H. destruct H as (stackSize & r1 & E1 & H).
  apply readFixed_ok_offset in E1. destruct E1 as [-> Hle].
  apply (forwardFrom_remaining r r' 4 H0); [|lia].
  assert (Hstart := forwardFrom_start r 4 H0 ltac:(lia) Hle).
  destruct ((stackSize =? 0) || _).
  - inversion H; subst. exact Hstart.
  - apply bind_ok_inv in H. destruct H as (addresses & r2 & E2 & H).
    apply ret_ok_inv in H. destruct H as [_ ->].
    exact (preserves_result _ _ _ _ _ (readAddresses_loop_forward _ _ _ _ _ _)
             Hstart E2).
Qed.

Lemma onLocal_inv {L S A} (m : M L A) (s s' : L * S) res :
  onLocal m s = (res, s') -> m (fst s) = (res, fst s') /\ snd s' = snd s.
Proof.
  unfold onLocal, zoom. destruct (m (fst s)) as [res0 l']. intros H.
  inversion H; subst. auto.
Qed.

Lemma onOuter_inv {L S A} (m : M S A) (s s' : L * S) res :
  onOuter m s = (res, s') -> fst s' = fst s.
Proof.
  unfold onOuter, zoom. destruct (m (snd s)) as [res0 w']. intros H.
  inversion H; subst. reflexivity.
Qed.

Lemma parseStackBlock_loop_fuel fuel : forall extra count i currentId s,
  inBounds (fst s) -> remaining (fst s) < Z.of_nat fuel ->
  parseStackBlock_loop (fuel + extra) count i currentId s
  = parseStackBlock_loop fuel count i currentId s.
Proof.
  induction fuel as [|fuel IH]; intros extra count i currentId s H0 Hrem.
  - unfold inBounds, remaining in *. simpl in Hrem. lia.
  - cbn [Nat.add parseStackBlock_loop].
    destruct ((i <? count) && (4 <=? remaining (fst s))); [|reflexivity].
    unfold bind.
    destruct (onLocal (parseStackEntry _) s) as [[e|err] s1] eqn:E; [|reflexivity].
    destruct e as [|stackSize addresses]; [reflexivity|].
    destruct (onOuter (modify (setStack currentId addresses)) s1)
      as [[u|err] s2] eqn:E2; [|reflexivity].
    apply onLocal_inv in E. destruct E as [E _].
    apply parseStackEntry_progress in E; [|exact H0]. destruct E as (Hb & _ & Hr).
    apply onOuter_inv in E2. apply IH; rewrite E2; [exact Hb | lia].
Qed.

Lemma dispatchPayload_forward r0 metadataId threadId timestamp stackId payloadSize :
  preserves (inner (forwardFrom r0))
    (dispatchPayload metadataId threadId timestamp stackId payloadSize).
Proof.
  intros s H. unfold dispatchPayload.
  destruct ((0 <? payloadSize) && _) eqn:E; [|exact H].
  apply andb_true_iff in E. destruct E as [E _]. apply Z.ltb_lt in E.
  refine ((_ : preserves (inner (forwardFrom r0)) _) s H).
  forward_tac. apply readBytes_forward. lia.
Qed.

Lemma dispatchMetadataPayload_forward r0 payloadSize :
  preserves (inner (forwardFrom r0)) (dispatchMetadataPayload payloadSize).
Proof.
  intros s H. unfold dispatchMetadataPayload.
  destruct ((0 <? payloadSize) && _) eqn:E; [|exact H].
  apply andb_true_iff in E. destruct E as [E _]. apply Z.ltb_lt in E.
  refine ((_ : preserves (inner (forwardFrom r0)) _) s H).
  unfold subReader. forward_tac. apply readBytes_forward. lia.
Qed.

#[local] Hint Extern 1 (preserves _ (dispatchPayload _ _ _ _ _)) =>
  apply dispatchPayload_forward : forward.
#[local] Hint Extern 1 (preserves _ (dispatchMetadataPayload _)) =>
  apply dispatchMetadataPayload_forward : forward.

(** A compressed event that is decoded takes at least its flags byte. *)
Lemma compressedEvent_progress prev s h s' :
  inBounds (fst s) -> compressedEvent prev s = (Ok h, s') ->
  inBounds (fst s') /\ buffer (fst s') = buffer (fst s)
  /\ remaining (fst s') <= remaining (fst s) - 1.
Proof.
  intros H0 H. unfold compressedEvent in H.
  apply bind_ok_inv in H. destruct H as (h0 & s1 & E1 & H).
  apply onLocal_inv in E1. destruct E1 as [E1 _].
  unfold readCompressedEventHeader in E1.
  apply bind_ok_inv in E1. destruct E1 as (flags & r1 & Ef & E1).
  apply readByte_ok_offset in Ef. destruct Ef as [-> Hle].
  apply (forwardFrom_remaining (fst s) (fst s') 1 H0); [|lia].
  assert (Hstart := forwardFrom_start (fst s) 1 H0 ltac:(lia) Hle).
  assert (H1 : forwardFrom (set_offset (_offset (fst s) + 1) (fst s)) (fst s1)).
  { refine (preserves_result _ _ _ _ _ _ Hstart E1). forward_tac. }
  refine (preserves_result (inner (forwardFrom _)) _ _ _ _ _ H1 H). forward_tac.
Qed.

(** An uncompressed event after which the loop goes on takes at least
    the four bytes of its size. *)
Lemma uncompressedEvent_progress s s' :
  inBounds (fst s) -> uncompressedEvent s = (Ok true, s') ->
  inBounds (fst s') /\ buffer (fst s') = buffer (fst s)
  /\ remaining (fst s') <= remaining (fst s) - 1.
Proof.
  intros H0 H. unfold uncompressedEvent in H.
  destruct (negb (hasBytes (fst s) 4)); [discriminate|].
  apply bind_ok_inv in H. destruct H as (eventSize & s1 & E1 & H).
  apply onLocal_inv in E1. destruct E1 as [E1 _].
  apply readFixed_ok_offset in E1. destruct E1 as [E1 Hle].
  cbv beta in H. destruct ((eventSize =? 0) || _); [discriminate|].
  assert (Hstart : inner (forwardFrom (set_offset (_offset (fst s) + 4) (fst s))) s1).
  { unfold inner. rewrite E1. apply forwardFrom_start; [exact H0 | lia | exact Hle]. }
  cbv zeta in H.
  assert (H1 : forwardFrom (set_offset (_offset (fst s) + 4) (fst s)) (fst s')).
  { refine (preserves_result (inner (forwardFrom _)) _ _ _ _ _ Hstart H). forward_tac. }
  destruct (forwardFrom_remaining (fst s) (fst s') 4 H0 H1) as (Hb & Hbuf & Hr); [lia|].
  repeat split; try apply Hb; auto; lia.
Qed.

Lemma parseEvents_round_progress compressed prev s h s' :
  inBounds (fst s) -> parseEvents_round compressed prev s = (Ok (Some h), s') ->
  inBounds (fst s') /\ buffer (fst s') = buffer (fst s)
  /\ remaining (fst s') <= remaining (fst s) - 1.
Proof.
  intros H0 H. unfold parseEvents_round, try_catch in H. destruct compressed.
  - unfold bind in H.
    destruct (compressedEvent prev s) as [[h0|e] s1] eqn:E; [|discriminate].
    inversion H; subst. eapply compressedEvent_progress; eassumption.
  - unfold bind in H.
    destruct (uncompressedEvent s) as [[[|]|e] s1] eqn:E; try discriminate.
    inversion H; subst. apply uncompressedEvent_progress; assumption.
Qed.

Lemma parseEvents_loop_fuel fuel : forall extra compressed prev s,
  inBounds (fst s) -> remaining (fst s) < Z.of_nat fuel ->
  parseEvents_loop (fuel + extra) compressed prev s
  = parseEvents_loop fuel compressed prev s.
Proof.
  induction fuel as [|fuel IH]; intros extra compressed prev s H0 Hrem.
  - unfold inBounds, remaining in *. simpl in Hrem. lia.
  - cbn [Nat.add parseEvents_loop].
    destruct (0 <? remaining (fst s)); [|reflexivity].
    unfold bind.
    destruct (parseEvents_round compressed prev s) as [[[h|]|e] s1] eqn:E;
      try reflexivity.
    apply parseEvents_round_progress in E; [|exact H0].
    destruct E as (Hb & _ & Hr). apply IH; [exact Hb | lia].
Qed.

(** [parseEvents] with any more fuel than it takes decodes the same
    events. *)
Lemma parseEvents_fuel extra compressed s :
  inBounds (fst s) ->
  parseEvents_loop (S (List.length (buffer (fst s))) + extra) compressed
                   EventHeader.zero s
  = parseEvents compressed s.
Proof.
  intros H0. unfold parseEvents. apply parseEvents_loop_fuel; [exact H0|].
  unfold inBounds, remaining, buflen in *. lia.
Qed.

(** A metadata pseudo-event that is decoded takes at least one byte. *)
Lemma parseMetadataEvent_progress compressed state s st s' :
  inBounds (fst s) -> parseMetadataEvent compressed state s = (Ok st, s') ->
  inBounds (fst s') /\ buffer (fst s') = buffer (fst s)
  /\ remaining (fst s') <= remaining (fst s) - 1.
Proof.
  intros H0 H. unfold parseMetadataEvent in H.
  apply bind_ok_inv in H. destruct H as (st0 & s1 & E1 & H).
  apply onLocal_inv in E1. destruct E1 as [E1 _].
  assert (Hk : exists k, 1 <= k /\ _offset (fst s) + k <= buflen (buffer (fst s))
                         /\ forwardFrom (set_offset (_offset (fst s) + k) (fst s)) (fst s1)).
  { destruct compressed.
    - unfold readCompressedMetadataHeader in E1.
      apply bind_ok_inv in E1. destruct E1 as (flags & r1 & Ef & E1).
      apply readByte_ok_offset in Ef. destruct Ef as [-> Hle].
      exists 1. split; [lia|]. split; [exact Hle|].
      refine (preserves_result _ _ _ _ _ _
                (forwardFrom_start (fst s) 1 H0 ltac:(lia) Hle) E1).
      forward_tac.
    - unfold readUncompressedMetadataHeader in E1.
      apply bind_ok_inv in E1. destruct E1 as (eventSize & r1 & Ef & E1).
      apply readFixed_ok_offset in Ef. destruct Ef as [-> Hle].
      exists 4. split; [lia|]. split; [exact Hle|].
      refine (preserves_result _ _ _ _ _ _
                (forwardFrom_start (fst s) 4 H0 ltac:(lia) Hle) E1).
      forward_tac. }
  destruct Hk as (k & Hk & Hle & H1).
  assert (H2 : forwardFrom (set_offset (_offset (fst s) + k) (fst s)) (fst s')).
  { refine (preserves_result (inner (forwardFrom _)) _ _ _ _ _ H1 H). forward_tac. }
  destruct (forwardFrom_remaining (fst s) (fst s') k H0 H2) as (Hb & Hbuf & Hr); [lia|].
  repeat split; try apply Hb; auto; lia.
Qed.

Lemma parseMetadataBlock_loop_fuel fuel : forall extra compressed headerState s,
  inBounds (fst s) -> remaining (fst s) < Z.of_nat fuel ->
  parseMetadataBlock_loop (fuel + extra) compressed headerState s
  = parseMetadataBlock_loop fuel compressed headerState s.
Proof.
  induction fuel as [|fuel IH]; intros extra compressed headerState s H0 Hrem.
  - unfold inBounds, remaining in *. simpl in Hrem. lia.
  - cbn [Nat.add parseMetadataBlock_loop].
    destruct (0 <? remaining (fst s)); [|reflexivity].
    unfold bind.
    destruct (parseMetadataBlock_round compressed headerState s)
      as [[[st|]|e] s1] eqn:E; try reflexivity.
    unfold parseMetadataBlock_round, try_catch, bind in E.
    destruct (parseMetadataEvent compressed headerState s) as [[st0|e] s2] eqn:E2;
      [|discriminate].
    inversion E; subst.
    apply parseMetadataEvent_progress in E2; [|exact H0].
    destruct E2 as (Hb & _ & Hr). apply IH; [exact Hb | lia].
Qed.

(** *** The two skipping loops of the container driver

    They run on the reader of the file, whose offset may be anything;
    every round reads one byte. *)
Lemma skipToNextObject_loop_fuel fuel : forall extra r,
  remaining r <= Z.of_nat fuel ->
  skipToNextObject_loop (fuel + extra) r = skipToNextObject_loop fuel r.
Proof.
  induction fuel as [|fuel IH]; intros extra r Hrem.
  - cbn [Nat.add]. destruct extra; [reflexivity|]. cbn [skipToNextObject_loop].
    replace (0 <? remaining r) with false; [reflexivity|].
    symmetry. apply Z.ltb_ge. simpl in Hrem. lia.
  - cbn [Nat.add skipToNextObject_loop].
    destruct (0 <? remaining r); [|reflexivity].
    unfold bind. destruct (peekByte r) as [[byte|e] r0] eqn:Ep; [|reflexivity].
    assert (r0 = r) as ->.
    { unfold peekByte in Ep. destruct (negb _); inversion Ep; reflexivity. }
    destruct (tagIs byte SerializationTag.EndObject); [reflexivity|].
    destruct (tagIs byte SerializationTag.BeginPrivateObject); [reflexivity|].
    destruct (readByte r) as [[b|e] r1] eqn:Er; [|reflexivity].
    apply readByte_ok_offset in Er. destruct Er as [-> _].
    apply IH. unfold remaining, set_offset in *. cbn [buffer _offset].
    rewrite Nat2Z.inj_succ in Hrem. lia.
Qed.

Lemma skipBlob_forward r0 : preserves (forwardFrom r0) skipBlob.
Proof.
  intros r H. unfold skipBlob. destruct (4 <=? remaining r); [|exact H].
  refine ((_ : preserves (forwardFrom r0) _) r H).
  unfold readInt32LE. forward_tac.
Qed.

Lemma skipToEndObject_loop_fuel fuel : forall extra depth r,
  remaining r <= Z.of_nat fuel ->
  skipToEndObject_loop (fuel + extra) depth r = skipToEndObject_loop fuel depth r.
Proof.
  induction fuel as [|fuel IH]; intros extra depth r Hrem.
  - cbn [Nat.add]. destruct extra; [reflexivity|]. cbn [skipToEndObject_loop].
    replace (0 <? remaining r) with false; [reflexivity|].
    symmetry. apply Z.ltb_ge. simpl in Hrem. lia.
  - cbn [Nat.add skipToEndObject_loop].
    destruct ((0 <? remaining r) && (0 <? depth)); [|reflexivity].
    unfold bind at 1 3.
    destruct (readByte r) as [[tag|e] r1] eqn:Er; [|reflexivity].
    apply readByte_ok_offset in Er. destruct Er as [-> Hle].
    assert (Hrem1 : remaining (set_offset (_offset r + 1) r) <= Z.of_nat fuel).
    { unfold remaining, set_offset in *. cbn [buffer _offset].
      rewrite Nat2Z.inj_succ in Hrem. lia. }
    destruct (tagIs tag SerializationTag.EndObject); [apply IH; exact Hrem1|].
    destruct (tagIs tag SerializationTag.BeginPrivateObject || _);
      [apply IH; exact Hrem1|].
    destruct (tagIs tag SerializationTag.Blob); [|apply IH; exact Hrem1].
    unfold bind.
    destruct (skipBlob (set_offset (_offset r + 1) r)) as [[u|e] r2] eqn:Eb;
      [|reflexivity].
    apply IH.
    assert (H2 : forwardFrom (set_offset (_offset r + 1) r) r2).
    { refine (preserves_result _ _ _ _ _ (skipBlob_forward _) _ Eb).
      unfold forwardFrom, set_offset. cbn [buffer _offset]. repeat split; auto; lia. }
    destruct H2 as (Hb & Ho).
    unfold remaining, set_offset in *. cbn [buffer _offset] in *. rewrite Hb. lia.
Qed.

(** *** The fuel the methods give their loops

    A block decoder runs its loop on the reader of the block with one unit
    of fuel more than the block has bytes, the two skipping loops run with
    as many units as bytes remain; no more fuel changes what they do. *)
Lemma in_bounds_fuel r :
  inBounds r -> remaining r < Z.of_nat (S (List.length (buffer r))).
Proof. unfold inBounds, remaining, buflen. lia. Qed.

Lemma parseStackBlock_fuel extra count i currentId s :
  inBounds (fst s) ->
  parseStackBlock_loop (S (List.length (buffer (fst s))) + extra) count i currentId s
  = parseStackBlock_loop (S (List.length (buffer (fst s)))) count i currentId s.
Proof.
  intros H0. apply parseStackBlock_loop_fuel; [exact H0 | apply in_bounds_fuel, H0].
Qed.

Lemma parseMetadataBlock_fuel extra compressed headerState s :
  inBounds (fst s) ->
  parseMetadataBlock_loop (S (List.length (buffer (fst s))) + extra) compressed
                          headerState s
  = parseMetadataBlock_loop (S (List.length (buffer (fst s)))) compressed
                            headerState s.
Proof.
  intros H0. apply parseMetadataBlock_loop_fuel; [exact H0 | apply in_bounds_fuel, H0].
Qed.

Lemma skipToNextObject_fuel extra r :
  skipToNextObject_loop (Z.to_nat (remaining r) + extra) r
  = skipToNextObject_loop (Z.to_nat (remaining r)) r.
Proof. apply skipToNextObject_loop_fuel. lia. Qed.

Lemma skipToEndObject_fuel extra depth r :
  skipToEndObject_loop (Z.to_nat (remaining r) + extra) depth r
  = skipToEndObject_loop (Z.to_nat (remaining r)) depth r.
Proof. apply skipToEndObject_loop_fuel. lia. Qed.

(** ** Handlers that never throw *)

Lemma neverThrows_ret {S} : neverThrows (@ret S unit tt).
Proof. intros s. reflexivity. Qed.

Lemma neverThrows_modify {S} (f : S -> S) : neverThrows (modify f).
Proof. intros s. reflexivity. Qed.

Lemma neverThrows_bind {S} (m : M S unit) (k : unit -> M S unit) :
  neverThrows m -> neverThrows (k tt) -> neverThrows (bind m k).
Proof.
  intros Hm Hk s. unfold bind. specialize (Hm s).
  destruct (m s) as [[[]|e] s1]; cbn [fst] in Hm; [apply Hk | discriminate].
Qed.

Lemma neverThrows_gets {S A} (f : S -> A) (k : A -> M S unit) :
  (forall a, neverThrows (k a)) -> neverThrows (bind (gets f) k).
Proof. intros Hk s. unfold bind, gets. apply Hk. Qed.

Lemma neverThrows_silent_catch {L} (l : L) (m : M (L * World) unit) :
  neverThrows (with_local l (try_catch m (fun _ => ret tt))).
Proof. intros s. apply silent_catch_ok. Qed.

Lemma parseAllocationEvent_neverThrows payload timestamp stackId :
  neverThrows (parseAllocationEvent payload timestamp stackId).
Proof.
  unfold parseAllocationEvent. destruct (buflen payload <? 10).
  - apply neverThrows_ret.
  - apply neverThrows_silent_catch.
Qed.

Lemma processCpuSample_neverThrows stackId timestamp :
  neverThrows (processCpuSample stackId timestamp).
Proof.
  unfold processCpuSample, when.
  destruct (0 <? stackId); [apply neverThrows_modify | apply neverThrows_ret].
Qed.

Lemma processEvent_neverThrows metadataId threadId timestamp stackId payload :
  neverThrows (processEvent metadataId threadId timestamp stackId payload).
Proof.
  unfold processEvent.
  apply neverThrows_bind; [apply neverThrows_modify|].
  apply neverThrows_gets. intros [meta|]; [|apply neverThrows_ret].
  repeat apply neverThrows_bind;
    repeat match goal with
           | |- neverThrows (if ?c then _ else _) => destruct c
           end;
    first [ apply neverThrows_ret
          | apply neverThrows_modify
          | apply parseAllocationEvent_neverThrows
          | apply processCpuSample_neverThrows
          | apply neverThrows_silent_catch
          | apply neverThrows_bind;
            [apply neverThrows_modify | apply parseAllocationEvent_neverThrows] ].
Qed.

(** ** More on the byte cursor: what the readers return *)

Lemma byteZ_range b : 0 <= byteZ b < 256.
Proof.
  unfold byteZ. pose proof (Byte.to_N_bounded b) as H. lia.
Qed.

(** Inside the buffer a byte is there. *)
Lemma byteAt_in_bounds buf i :
  0 <= i < buflen buf -> exists b, byteAt buf i = Some b /\ 0 <= b < 256.
Proof.
  intros H. unfold byteAt, buflen in *.
  destruct (i <? 0) eqn:E; [apply Z.ltb_lt in E; lia|].
  destruct (nth_error buf (Z.to_nat i)) as [b|] eqn:En.
  - exists (byteZ b). split; [reflexivity | apply byteZ_range].
  - apply nth_error_None in En. lia.
Qed.

Lemma readByte_in_bounds r :
  0 <= offset r -> hasBytes r 1 = true ->
  exists b, readByte r = (Ok (Some b), set_offset (_offset r + 1) r)
            /\ byteAt (buffer r) (offset r) = Some b /\ 0 <= b < 256.
Proof.
  intros H0 Hb. rewrite (readByte_ok _ Hb).
  unfold hasBytes in Hb. apply Z.leb_le in Hb. unfold offset in *.
  destruct (byteAt_in_bounds (buffer r) (_offset r)) as (b & E & Hr); [lia|].
  exists b. rewrite E. auto.
Qed.

(** [a | (c << shift)] adds up when [a] fits below the shift. *)
Lemma lor_shiftl_disjoint a c shift :
  0 <= shift -> 0 <= a < 2 ^ shift ->
  Z.lor a (Z.shiftl c shift) = a + c * 2 ^ shift.
Proof.
  intros Hs Ha. rewrite <- Z.shiftl_mul_pow2 by exact Hs.
  assert (Hland : Z.land a (Z.shiftl c shift) = 0).
  { apply Z.bits_inj'. intros n Hn. rewrite Z.land_spec, Z.bits_0.
    destruct (Z.lt_ge_cases n shift) as [Hlt | Hge].
    - rewrite (Z.shiftl_spec_low c shift n Hlt). apply andb_false_r.
    - assert (Z.testbit a n = false) as ->; [|reflexivity].
      apply Z.testbit_false; [exact Hn|].
      rewrite Z.div_small; [reflexivity|].
      split; [lia|]. apply Z.lt_le_trans with (2 ^ shift); [lia|].
      apply Z.pow_le_mono_r; lia. }
  rewrite <- Z.lxor_lor by exact Hland.
  symmetry. apply Z.add_nocarry_lxor. exact Hland.
Qed.

Lemma ToInt32_small x : - 2 ^ 31 <= x < 2 ^ 31 -> ToInt32 x = x.
Proof.
  intros H. unfold ToInt32. rewrite Z.mod_small; lia.
Qed.

Lemma ToUint32_ToInt32 x : ToUint32 (ToInt32 x) = x mod 2 ^ 32.
Proof.
  unfold ToUint32, ToInt32.
  rewrite Zminus_mod_idemp_l. f_equal. lia.
Qed.

(** [ToInt32] changes a number by a multiple of [2 ^ 32]. *)
Lemma ToInt32_cong x : exists t, ToInt32 x = x + 2 ^ 32 * t.
Proof.
  exists (- ((x + 2 ^ 31) / 2 ^ 32)). unfold ToInt32.
  rewrite Z.mod_eq by lia. lia.
Qed.

(** One round of the loop of [readVarUInt] on the accumulator. *)
Lemma varuint_step result m shift :
  0 <= shift <= 28 -> 0 <= result < 2 ^ shift -> 0 <= m < 128 ->
  let result' := ToInt32 (Z.lor result (ToInt32 (Z.shiftl m shift))) in
  ToUint32 result' = (result + m * 2 ^ shift) mod 2 ^ 32
  /\ (shift <= 21 -> result' = result + m * 2 ^ shift).
Proof.
  intros Hs Hr Hm result'. split.
  - unfold result'. rewrite ToUint32_ToInt32.
    destruct (ToInt32_cong (Z.shiftl m shift)) as [t Ht]. rewrite Ht.
    rewrite Z.shiftl_mul_pow2 by lia.
    replace (m * 2 ^ shift + 2 ^ 32 * t)
      with ((m + 2 ^ (32 - shift) * t) * 2 ^ shift).
    + rewrite <- Z.shiftl_mul_pow2 by lia.
      rewrite lor_shiftl_disjoint by lia.
      replace (result + (m + 2 ^ (32 - shift) * t) * 2 ^ shift)
        with (result + m * 2 ^ shift + t * 2 ^ 32).
      * apply Z_mod_plus_full.
      * replace (2 ^ 32) with (2 ^ (32 - shift) * 2 ^ shift); [ring|].
        rewrite <- Z.pow_add_r by lia. f_equal. lia.
    + replace (2 ^ 32) with (2 ^ (32 - shift) * 2 ^ shift); [ring|].
      rewrite <- Z.pow_add_r by lia. f_equal. lia.
  - intros H21. unfold result'.
    assert (Hpow : 2 ^ shift * 2 ^ 7 <= 2 ^ 28).
    { rewrite <- Z.pow_add_r by lia. apply Z.pow_le_mono_r; lia. }
    assert (Hx : 0 <= m * 2 ^ shift < 2 ^ 28) by nia.
    rewrite (ToInt32_small (Z.shiftl m shift)).
    + rewrite lor_shiftl_disjoint by lia. apply ToInt32_small. lia.
    + rewrite Z.shiftl_mul_pow2 by lia. lia.
Qed.

Lemma varintRun_length cap : forall bs,
  varintRun cap bs -> (1 <= List.length bs <= cap)%nat.
Proof.
  induction cap as [|cap IH]; intros bs H.
  - destruct bs; contradiction.
  - destruct bs as [|b [|b' bs']]; cbn [varintRun] in H.
    + contradiction.
    + cbn [List.length]. lia.
    + destruct H as [_ H]. apply IH in H. cbn [List.length] in *. lia.
Qed.

Lemma base128_nonneg bs : 0 <= base128 bs.
Proof.
  induction bs as [|b bs IH]; cbn [base128]; [lia|].
  assert (0 <= Z.land b 127) by (apply Z.land_nonneg; lia). lia.
Qed.

Lemma land_127_range b : 0 <= Z.land b 127 < 128.
Proof.
  split; [apply Z.land_nonneg; lia|].
  change 127 with (Z.ones 7). rewrite Z.land_ones by lia.
  apply Z.mod_pos_bound. lia.
Qed.

(** The loop of [readVarUInt] from any round on. *)
Lemma readVarUInt_loop_value fuel : forall result shift r v r',
  shift = 35 - 7 * Z.of_nat fuel -> 0 <= shift <= 28 ->
  0 <= result < 2 ^ shift -> 0 <= offset r ->
  readVarUInt_loop fuel result shift r = (Ok v, r') ->
  exists bs,
    bytesAt (buffer r) (offset r) bs /\ varintRun fuel bs
    /\ r' = set_offset (offset r + Z.of_nat (List.length bs)) r
    /\ v = (result + 2 ^ shift * base128 bs) mod 2 ^ 32.
Proof.
  induction fuel as [|fuel IH]; intros result shift r v r' Hshift Hs Hres H0 H.
  - simpl in Hshift. lia.
  - cbn [readVarUInt_loop] in H.
    destruct (hasBytes r 1) eqn:Hb; cbn [negb] in H; [|discriminate].
    destruct (readByte_in_bounds r H0 Hb) as (b & Hread & Hat & Hrange).
    unfold bind in H. rewrite Hread in H. cbn [band] in H.
    pose proof (land_127_range b) as Hm.
    destruct (varuint_step result (Z.land b 127) shift) as [Hfinal Hnext];
      [lia | lia | lia |].
    rewrite Nat2Z.inj_succ in Hshift.
    destruct (negb (Z.land b 128 =? 0) && (shift + 7 <? 35)) eqn:Econt.
    + apply andb_true_iff in Econt. destruct Econt as [Ehigh Elt].
      apply negb_true_iff, Z.eqb_neq in Ehigh. apply Z.ltb_lt in Elt.
      rewrite Hnext in H by lia.
      apply IH in H; [| lia | lia | | unfold offset, set_offset in *; cbn [_offset]; lia].
      * destruct H as (bs & Hbs & Hrun & -> & ->).
        exists (b :: bs). cbn [bytesAt base128 List.length].
        unfold offset, set_offset in *. cbn [buffer _offset] in *.
        repeat split.
        -- exact Hat.
        -- exact Hbs.
        -- destruct bs as [|b' bs']; [destruct fuel; contradiction|].
           cbn [varintRun]. split; [exact Ehigh | exact Hrun].
        -- f_equal. lia.
        -- f_equal. rewrite Z.pow_add_r by lia. ring.
      * rewrite Z.pow_add_r by lia. nia.
    + inversion H; subst. exists [b]. cbn [bytesAt base128 List.length varintRun].
      repeat split.
      * exact Hat.
      * apply andb_false_iff in Econt. destruct Econt as [E | E].
        -- left. apply negb_false_iff, Z.eqb_eq in E. exact E.
        -- right. apply Z.ltb_ge in E. lia.
      * rewrite Hfinal. f_equal. ring.
Qed.

(** The loop of [readVarInt64] and [readVarUInt64] from any round on. *)
Lemma readVar64_loop_value e fuel : forall result shift r v r',
  shift = 70 - 7 * Z.of_nat fuel -> 0 <= shift <= 63 ->
  0 <= result < 2 ^ shift -> 0 <= offset r ->
  readVar64_loop e fuel result shift r = (Ok v, r') ->
  exists bs,
    bytesAt (buffer r) (offset r) bs /\ varintRun fuel bs
    /\ r' = set_offset (offset r + Z.of_nat (List.length bs)) r
    /\ v = result + 2 ^ shift * base128 bs.
Proof.
  induction fuel as [|fuel IH]; intros result shift r v r' Hshift Hs Hres H0 H.
  - simpl in Hshift. lia.
  - cbn [readVar64_loop] in H.
    destruct (hasBytes r 1) eqn:Hb; cbn [negb] in H; [|discriminate].
    destruct (readByte_in_bounds r H0 Hb) as (b & Hread & Hat & Hrange).
    unfold bind in H. rewrite Hread in H. cbn [band] in H.
    pose proof (land_127_range b) as Hm.
    rewrite lor_shiftl_disjoint in H by lia.
    rewrite Nat2Z.inj_succ in Hshift.
    destruct (negb (Z.land b 128 =? 0) && (shift + 7 <? 70)) eqn:Econt.
    + apply andb_true_iff in Econt. destruct Econt as [Ehigh Elt].
      apply negb_true_iff, Z.eqb_neq in Ehigh. apply Z.ltb_lt in Elt.
      apply IH in H; [| lia | lia | | unfold offset, set_offset in *; cbn [_offset]; lia].
      * destruct H as (bs & Hbs & Hrun & -> & ->).
        exists (b :: bs). cbn [bytesAt base128 List.length].
        unfold offset, set_offset in *. cbn [buffer _offset] in *.
        repeat split.
        -- exact Hat.
        -- exact Hbs.
        -- destruct bs as [|b' bs']; [destruct fuel; contradiction|].
           cbn [varintRun]. split; [exact Ehigh | exact Hrun].
        -- f_equal. lia.
        -- rewrite Z.pow_add_r by lia. ring.
      * rewrite Z.pow_add_r by lia. nia.
    + inversion H; subst. exists [b]. cbn [bytesAt base128 List.length varintRun].
      repeat split.
      * exact Hat.
      * apply andb_false_iff in Econt. destruct Econt as [E | E].
        -- left. apply negb_false_iff, Z.eqb_eq in E. exact E.
        -- right. apply Z.ltb_ge in E. lia.
      * ring.
Qed.

(** The message of the exception is all that the two 64-bit readers differ
    in. *)
Lemma readVar64_loop_message e e' fuel : forall result shift r v r',
  readVar64_loop e fuel result shift r = (Ok v, r') ->
  readVar64_loop e' fuel result shift r = (Ok v, r').
Proof.
  induction fuel as [|fuel IH]; intros result shift r v r' H.
  - exact H.
  - cbn [readVar64_loop] in *.
    destruct (negb (hasBytes r 1)); [discriminate|].
    unfold bind in *. destruct (readByte r) as [[b|err] r1]; [|discriminate].
    destruct (negb (band b 128 =? 0) && (shift + 7 <? 70)).
    + apply IH. exact H.
    + exact H.
Qed.

(** X1: [readVarUInt] on a reader with a non-negative offset, when it
    returns, has read one to five bytes: each but the last has its high
    bit set, and the last has it clear unless it is the fifth. The offset
    has moved past exactly these bytes, and the value is the number that
    their low seven bits spell, low bits first, modulo [2 ^ 32]. *)
Theorem X1_readVarUInt_value (r : BufferReader) (v : Z) (r' : BufferReader) :
  0 <= offset r ->
  readVarUInt r = (Ok v, r') ->
  exists bs,
    bytesAt (buffer r) (offset r) bs
    /\ varintRun 5 bs /\ (1 <= List.length bs <= 5)%nat
    /\ r' = set_offset (offset r + Z.of_nat (List.length bs)) r
    /\ v = base128 bs mod 2 ^ 32.
Proof.
  intros H0 H. unfold readVarUInt in H.
  apply readVarUInt_loop_value in H; [| reflexivity | lia | lia | exact H0].
  destruct H as (bs & Hbs & Hrun & Hr' & Hv).
  exists bs. repeat split; try assumption.
  - apply (varintRun_length 5 bs Hrun).
  - apply (varintRun_length 5 bs Hrun).
  - rewrite Hv. f_equal. lia.
Qed.

(** X1 on the two bytes ac 02, which spell 300, followed by one more
    byte. *)
Lemma X1_readVarUInt_value_witness :
  exists bs,
    bytesAt [xac; x02; x07] 0 bs
    /\ varintRun 5 bs /\ (1 <= List.length bs <= 5)%nat
    /\ mkReader [xac; x02; x07] 2
       = set_offset (0 + Z.of_nat (List.length bs)) (mkReader [xac; x02; x07] 0)
    /\ 300 = base128 bs mod 2 ^ 32.
Proof.
  apply (X1_readVarUInt_value (mkReader [xac; x02; x07] 0) 300
           (mkReader [xac; x02; x07] 2)).
  - unfold offset. simpl. lia.
  - reflexivity.
Defined.

(** X2: [readVarInt64] and [readVarUInt64] read the same number: when one
    of them returns on a reader with a non-negative offset, the other
    returns the same value and leaves the same reader. They have read one
    to ten bytes, the value is the number that the low seven bits of these
    bytes spell, and it is never negative. *)
Theorem X2_readVar64_value (r : BufferReader) (v : Z) (r' : BufferReader) :
  0 <= offset r ->
  readVarInt64 r = (Ok v, r') \/ readVarUInt64 r = (Ok v, r') ->
  readVarInt64 r = (Ok v, r') /\ readVarUInt64 r = (Ok v, r')
  /\ 0 <= v
  /\ exists bs,
       bytesAt (buffer r) (offset r) bs
       /\ varintRun 10 bs /\ (1 <= List.length bs <= 10)%nat
       /\ r' = set_offset (offset r + Z.of_nat (List.length bs)) r
       /\ v = base128 bs.
Proof.
  intros H0 H.
  assert (Hs : readVarInt64 r = (Ok v, r')).
  { destruct H as [H | H]; [exact H|].
    exact (readVar64_loop_message _ _ _ _ _ _ _ _ H). }
  assert (Hu : readVarUInt64 r = (Ok v, r')).
  { exact (readVar64_loop_message _ _ _ _ _ _ _ _ Hs). }
  split; [exact Hs|]. split; [exact Hu|].
  unfold readVarInt64 in Hs.
  apply readVar64_loop_value in Hs; [| reflexivity | lia | lia | exact H0].
  destruct Hs as (bs & Hbs & Hrun & Hr' & Hv).
  assert (Hvb : v = base128 bs) by (rewrite Hv; lia).
  split; [rewrite Hvb; apply base128_nonneg|].
  exists bs. repeat split; try assumption; apply (varintRun_length 10 bs Hrun).
Qed.

(** X2 on the three bytes ff ff 03, which spell 65535. *)
Lemma X2_readVar64_value_witness :
  readVarInt64 (mkReader [xff; xff; x03] 0) = (Ok 65535, mkReader [xff; xff; x03] 3)
  /\ readVarUInt64 (mkReader [xff; xff; x03] 0) = (Ok 65535, mkReader [xff; xff; x03] 3)
  /\ 0 <= 65535
  /\ exists bs,
       bytesAt [xff; xff; x03] 0 bs
       /\ varintRun 10 bs /\ (1 <= List.length bs <= 10)%nat
       /\ mkReader [xff; xff; x03] 3
          = set_offset (0 + Z.of_nat (List.length bs)) (mkReader [xff; xff; x03] 0)
       /\ 65535 = base128 bs.
Proof.
  apply (X2_readVar64_value (mkReader [xff; xff; x03] 0) 65535
           (mkReader [xff; xff; x03] 3)).
  - unfold offset. simpl. lia.
  - left. reflexivity.
Defined.

(** ** The compressed event encoding *)















(** ** The cursor stays inside its buffer *)

Lemma preserves_keepsCursor {A} (op : R A) :
  (forall r0, preserves (forwardFrom r0) op) -> keepsCursor op.
Proof.
  intros H r Hr. apply H. apply forwardFrom_refl. exact Hr.
Qed.

Lemma readAsciiString_forward r0 length :
  0 <= length -> preserves (forwardFrom r0) (readAsciiString length).
Proof.
  intros Hc r H. unfold readAsciiString.
  destruct (hasBytes r length) eqn:E; cbn [negb snd]; [|exact H].
  apply forwardFrom_set_offset; [exact H | exact Hc |].
  unfold hasBytes in E. apply Z.leb_le in E. exact E.
Qed.

Lemma subReader_forward r0 length :
  0 <= length -> preserves (forwardFrom r0) (subReader length).
Proof.
  intros Hc. unfold subReader. forward_tac. apply readBytes_forward. exact Hc.
Qed.

Lemma align_forward r0 boundary : preserves (forwardFrom r0) (align boundary).
Proof.
  intros r H. unfold align. destruct (boundary =? 0); [exact H|].
  cbv zeta. destruct (negb _); [|exact H]. apply skip_forward. exact H.
Qed.

(** X3: the methods of [BufferReader] keep the cursor inside the buffer.
    On a reader whose offset lies inside its buffer, every read, [skip]
    and [align] leaves the buffer alone and the offset inside the buffer
    and not before its old place, whether the method returns or throws;
    [readBytes], [readAsciiString] and [subReader] do so for a count that
    is not negative. A fixed-width read that returns has moved the offset
    by its width, and [peekByte] does not move it. *)
Theorem X3_cursor_stays_in_bounds :
  keepsCursor readByte /\ keepsCursor peekByte
  /\ keepsCursor readInt16LE /\ keepsCursor readUInt16LE
  /\ keepsCursor readInt32LE /\ keepsCursor readUInt32LE
  /\ keepsCursor readInt64LE /\ keepsCursor readUInt64LE
  /\ keepsCursor readVarUInt /\ keepsCursor readVarInt64
  /\ keepsCursor readVarUInt64 /\ keepsCursor readNullTerminatedUTF16
  /\ (forall count, keepsCursor (skip count))
  /\ (forall boundary, keepsCursor (align boundary))
  /\ (forall count, 0 <= count ->
        keepsCursor (readBytes count) /\ keepsCursor (readAsciiString count)
        /\ keepsCursor (subReader count))
  /\ (forall r v r',
        (readByte r = (Ok v, r') -> r' = set_offset (offset r + 1) r)
        /\ (peekByte r = (Ok v, r') -> r' = r))
  /\ (forall r v r',
        (readInt16LE r = (Ok v, r') \/ readUInt16LE r = (Ok v, r') ->
         r' = set_offset (offset r + 2) r)
        /\ (readInt32LE r = (Ok v, r') \/ readUInt32LE r = (Ok v, r') ->
            r' = set_offset (offset r + 4) r)
        /\ (readInt64LE r = (Ok v, r') \/ readUInt64LE r = (Ok v, r') ->
            r' = set_offset (offset r + 8) r)).
Proof.
  repeat apply conj;
    try (apply preserves_keepsCursor; intros r0; auto with forward; fail).
  - apply preserves_keepsCursor. intros r0. apply readFixed_forward_2.
  - apply preserves_keepsCursor. intros r0. apply readFixed_forward_2.
  - apply preserves_keepsCursor. intros r0. apply readFixed_forward_4.
  - apply preserves_keepsCursor. intros r0. apply readFixed_forward_4.
  - apply preserves_keepsCursor. intros r0. apply readFixed_forward_8.
  - apply preserves_keepsCursor. intros r0. apply readFixed_forward_8.
  - intros count. apply preserves_keepsCursor. intros r0. apply skip_forward.
  - intros boundary. apply preserves_keepsCursor. intros r0. apply align_forward.
  - intros count Hc. split; [|split]; apply preserves_keepsCursor; intros r0.
    + apply readBytes_forward. exact Hc.
    + apply readAsciiString_forward. exact Hc.
    + apply subReader_forward. exact Hc.
  - intros r v r'. split.
    + intros H. apply readByte_ok_offset in H. apply H.
    + unfold peekByte. destruct (negb _); intros H; inversion H; reflexivity.
  - intros r v r'. split; [|split]; intros [H | H];
      apply readFixed_ok_offset in H; apply H.
Qed.



(** ** Sub-readers *)

Lemma slice_in_bounds buf s n :
  0 <= s -> 0 <= n -> s + n <= buflen buf ->
  slice buf s (s + n) = firstn (Z.to_nat n) (skipn (Z.to_nat s) buf).
Proof.
  intros Hs Hn Hle. unfold slice, relIndex.
  destruct (s <? 0) eqn:E1; [apply Z.ltb_lt in E1; lia|].
  destruct (s + n <? 0) eqn:E2; [apply Z.ltb_lt in E2; lia|].
  cbv zeta. rewrite !Z.min_l by lia. f_equal. f_equal. lia.
Qed.

Lemma byteAt_window buf s n i :
  0 <= s -> 0 <= i < n ->
  byteAt (firstn (Z.to_nat n) (skipn (Z.to_nat s) buf)) i = byteAt buf (s + i).
Proof.
  intros Hs Hi. unfold byteAt.
  destruct (i <? 0) eqn:E1; [apply Z.ltb_lt in E1; lia|].
  destruct (s + i <? 0) eqn:E2; [apply Z.ltb_lt in E2; lia|].
  rewrite nth_error_firstn.
  destruct (Nat.ltb (Z.to_nat i) (Z.to_nat n)) eqn:E3;
    [|apply Nat.ltb_ge in E3; lia].
  rewrite nth_error_skipn. rewrite Z2Nat.inj_add by lia. reflexivity.
Qed.

(** X5: [subReader] with a count that is not negative and that the reader
    has, on a reader whose offset lies inside its buffer, returns a reader
    at the offset 0 of a buffer of exactly [length] bytes, which are the
    next [length] bytes of the reader, in order; the reader itself has
    moved past them. [readBytes] returns that buffer. *)
Theorem X5_subReader_window (r : BufferReader) (length : Z) :
  inBounds r -> 0 <= length -> hasBytes r length = true ->
  exists sub,
    subReader length r = (Ok sub, set_offset (offset r + length) r)
    /\ readBytes length r = (Ok (buffer sub), set_offset (offset r + length) r)
    /\ offset sub = 0 /\ remaining sub = length
    /\ forall i, 0 <= i < length ->
         byteAt (buffer sub) i = byteAt (buffer r) (offset r + i).
Proof.
  intros Hr Hn Hb. unfold inBounds in Hr.
  unfold subReader, bind, readBytes, ret. rewrite Hb. cbn [negb].
  unfold hasBytes in Hb. apply Z.leb_le in Hb.
  eexists. split; [reflexivity|]. cbn [buffer]. split; [reflexivity|].
  split; [reflexivity|]. unfold remaining, offset. cbn [buffer _offset].
  rewrite slice_in_bounds by lia. split.
  - unfold buflen. rewrite length_firstn, length_skipn.
    unfold buflen in Hb. lia.
  - intros i Hi. apply byteAt_window; lia.
Qed.

(** X5 on the two bytes after the first of four. *)
Lemma X5_subReader_window_witness :
  exists sub,
    subReader 2 (mkReader [x0a; x0b; x0c; x0d] 1)
    = (Ok sub, set_offset (offset (mkReader [x0a; x0b; x0c; x0d] 1) + 2)
                          (mkReader [x0a; x0b; x0c; x0d] 1))
    /\ readBytes 2 (mkReader [x0a; x0b; x0c; x0d] 1)
       = (Ok (buffer sub), set_offset (offset (mkReader [x0a; x0b; x0c; x0d] 1) + 2)
                                      (mkReader [x0a; x0b; x0c; x0d] 1))
    /\ offset sub = 0 /\ remaining sub = 2
    /\ forall i, 0 <= i < 2 ->
         byteAt (buffer sub) i
         = byteAt (buffer (mkReader [x0a; x0b; x0c; x0d] 1))
                  (offset (mkReader [x0a; x0b; x0c; x0d] 1) + i).
Proof.
  apply (X5_subReader_window (mkReader [x0a; x0b; x0c; x0d] 1) 2).
  - unfold inBounds, buflen. cbn [buffer _offset List.length]. lia.
  - lia.
  - reflexivity.
Defined.

(** ** Null-terminated strings *)

(** The loop of [readNullTerminatedUTF16] with enough fuel: the code units
    it adds are not zero and stand in the buffer, two bytes each, and it
    stops after a zero code unit or where fewer than two bytes are left. *)
Lemma readNullTerminatedUTF16_loop_content fuel : forall chars r s r',
  0 <= offset r -> remaining r < 2 * Z.of_nat fuel ->
  readNullTerminatedUTF16_loop fuel chars r = (Ok s, r') ->
  exists tail,
    s = chars ++ tail
    /\ Forall (fun c => c <> 0) tail
    /\ (forall i, (i < List.length tail)%nat ->
          bufReadU (buffer r) (offset r + 2 * Z.of_nat i) 2 = Ok (nth i tail 0))
    /\ buffer r' = buffer r
    /\ ((offset r' = offset r + 2 * Z.of_nat (List.length tail) + 2
         /\ bufReadU (buffer r) (offset r + 2 * Z.of_nat (List.length tail)) 2 = Ok 0)
        \/ (offset r' = offset r + 2 * Z.of_nat (List.length tail)
            /\ hasBytes r' 2 = false)).
Proof.
  induction fuel as [|fuel IH]; intros chars r s r' H0 Hfuel H.
  - cbn [readNullTerminatedUTF16_loop] in H. inversion H; subst.
    exists []. rewrite app_nil_r. repeat split; auto.
    + intros i Hi. cbn [List.length] in Hi. lia.
    + right. cbn [List.length]. split; [lia|].
      unfold hasBytes, remaining in *. apply Z.leb_gt. simpl in Hfuel. lia.
  - cbn [readNullTerminatedUTF16_loop] in H.
    destruct (hasBytes r 2) eqn:Hb.
    + destruct (readUInt16LE_ok r H0 Hb) as (code & Hread & Hcode).
      unfold bind in H. rewrite Hread in H.
      destruct (code =? 0) eqn:Ec.
      * apply Z.eqb_eq in Ec. subst code. inversion H; subst.
        exists []. rewrite app_nil_r. repeat split; auto.
        -- intros i Hi. cbn [List.length] in Hi. lia.
        -- left. cbn [List.length]. unfold offset, set_offset. cbn [_offset].
           split; [lia|]. rewrite <- Hcode. f_equal. unfold offset. lia.
      * apply Z.eqb_neq in Ec.
        apply IH in H.
        -- destruct H as (tail & -> & Hnz & Hat & Hbuf & Hstop).
           exists (code :: tail). rewrite <- app_assoc. cbn [app].
           unfold offset, set_offset in *. cbn [buffer _offset List.length] in *.
           rewrite Nat2Z.inj_succ.
           repeat split; auto.
           ++ intros [|i] Hi; cbn [nth].
              ** rewrite <- Hcode. f_equal. lia.
              ** rewrite <- (Hat i) by lia. f_equal. lia.
           ++ destruct Hstop as [[Ho Hz] | [Ho Hh]]; [left | right]; split;
                try lia; try assumption.
              rewrite <- Hz. f_equal. lia.
        -- unfold offset, set_offset in *. cbn [_offset]. lia.
        -- rewrite Nat2Z.inj_succ in Hfuel.
           unfold remaining, set_offset in *. cbn [buffer _offset]. lia.
    + inversion H; subst. exists []. rewrite app_nil_r. repeat split; auto.
      * intros i Hi. cbn [List.length] in Hi. lia.
      * right. cbn [List.length]. split; [lia | exact Hb].
Qed.

(** X6: the string that [readNullTerminatedUTF16] returns on a reader with
    a non-negative offset holds no zero code unit; its code units are the
    16-bit little-endian numbers that stand in the buffer from the offset
    on. Either a zero code unit follows them, and the offset has moved
    past it, or the offset stands behind them where fewer than two bytes
    are left. *)
Theorem X6_readNullTerminatedUTF16_content (r : BufferReader) (s : jsstring)
    (r' : BufferReader) :
  0 <= offset r ->
  readNullTerminatedUTF16 r = (Ok s, r') ->
  Forall (fun c => c <> 0) s
  /\ (forall i, (i < List.length s)%nat ->
        bufReadU (buffer r) (offset r + 2 * Z.of_nat i) 2 = Ok (nth i s 0))
  /\ buffer r' = buffer r
  /\ ((offset r' = offset r + 2 * Z.of_nat (List.length s) + 2
       /\ bufReadU (buffer r) (offset r + 2 * Z.of_nat (List.length s)) 2 = Ok 0)
      \/ (offset r' = offset r + 2 * Z.of_nat (List.length s)
          /\ hasBytes r' 2 = false)).
Proof.
  intros H0 H. unfold readNullTerminatedUTF16 in H.
  apply bind_ok_inv in H. destruct H as (chars & r1 & H & Hs).
  assert (s = chars /\ r' = r1) as [-> ->].
  { unfold fromCharCodes in Hs. destruct (fitsArguments _); [|discriminate].
    apply ret_ok_inv in Hs. exact Hs. }
  apply readNullTerminatedUTF16_loop_content in H; [| exact H0 |].
  - destruct H as (tail & -> & H). cbn [app]. exact H.
  - unfold remaining, offset, buflen in *. lia.
Qed.

(** X6 on the string [Hi] with its terminator and one more byte. *)
Lemma X6_readNullTerminatedUTF16_content_witness :
  let r := mkReader [x48; x00; x69; x00; x00; x00; x07] 0 in
  let s := lit "Hi" in
  let r' := mkReader [x48; x00; x69; x00; x00; x00; x07] 6 in
  Forall (fun c => c <> 0) s
  /\ (forall i, (i < List.length s)%nat ->
        bufReadU (buffer r) (offset r + 2 * Z.of_nat i) 2 = Ok (nth i s 0))
  /\ buffer r' = buffer r
  /\ ((offset r' = offset r + 2 * Z.of_nat (List.length s) + 2
       /\ bufReadU (buffer r) (offset r + 2 * Z.of_nat (List.length s)) 2 = Ok 0)
      \/ (offset r' = offset r + 2 * Z.of_nat (List.length s)
          /\ hasBytes r' 2 = false)).
Proof.
  intros r s r'.
  apply (X6_readNullTerminatedUTF16_content r s r').
  - unfold offset, r. cbn [_offset]. lia.
  - reflexivity.
Defined.

(** ** The end of the buffer *)









(** ** The header checks of [parse] *)

(** X7: [parse] names the header check that failed, and stops there with
    the result object it started from. A buffer of fewer than 32 bytes is
    too small, whatever it holds; a longer one without the magic misses
    the magic; with the magic, a header length that the buffer does not
    have gives the end-of-buffer error of [readAsciiString], and a header
    string without the banner is reported with the string. *)
Theorem X7_parse_header_errors (buf : list byte) :
  (buflen buf < 32 -> parse buf = rejectedWith FileTooSmall)
  /\ (32 <= buflen buf -> firstn 8 buf <> magicBytes ->
      parse buf = rejectedWith MissingMagic)
  /\ (32 <= buflen buf -> firstn 8 buf = magicBytes ->
      forall headerLength r1,
        readInt32LE (mkReader buf 8) = (Ok headerLength, r1) ->
        (hasBytes r1 headerLength = false ->
         parse buf = rejectedWith (EndOfBufferString headerLength))
        /\ (forall headerString r2,
              readAsciiString headerLength r1 = (Ok headerString, r2) ->
              startsWith headerString (lit "!FastSerialization.1") = false ->
              parse buf = rejectedWith (InvalidSerializationHeader headerString))).
Proof.
  split; [|split].
  - intros H. unfold parse, try_catch, parse_try.
    apply Z.ltb_lt in H. rewrite H. reflexivity.
  - intros H Hmagic. unfold parse, try_catch, parse_try.
    apply Z.ltb_ge in H. rewrite H.
    destruct (magicOk buf) eqn:E; [apply magicOk_iff in E; contradiction|].
    reflexivity.
  - intros H Hmagic headerLength r1 Hlen.
    apply magicOk_iff in Hmagic. apply Z.ltb_ge in H.
    unfold parse, try_catch, parse_try. rewrite H, Hmagic. cbn [negb].
    unfold bind, onReader, zoom, modify. cbn [fst snd this updThis Parser.reader
      Parser.set_reader Parser.initial].
    change (set_offset 8 (mkReader buf 0)) with (mkReader buf 8).
    rewrite Hlen. cbn [fst snd this updThis Parser.reader Parser.set_reader].
    split.
    + intros Hb. unfold readAsciiString. rewrite Hb. reflexivity.
    + intros headerString r2 Hstr Hbanner. rewrite Hstr.
      cbn [fst snd this updThis Parser.reader Parser.set_reader].
      rewrite Hbanner. reflexivity.
Qed.

(** X7 on the empty buffer and on a file with the banner
    [!SlowSerialization.1]. *)
Lemma X7_parse_header_errors_witness :
  parse [] = rejectedWith FileTooSmall
  /\ parse badBannerFile
     = rejectedWith (InvalidSerializationHeader (lit "!SlowSerialization.1")).
Proof.
  split.
  - apply (X7_parse_header_errors []). unfold buflen. cbn [List.length]. lia.
  - destruct (X7_parse_header_errors badBannerFile) as (_ & _ & H).
    apply (H ltac:(vm_compute; discriminate) eq_refl 20 (mkReader badBannerFile 12) eq_refl)
      with (r2 := mkReader badBannerFile 32); reflexivity.
Defined.

(** ** The lookup of a method by an address *)

Lemma insertByAddress_In x e l :
  e = x \/ In e l -> In e (insertByAddress x l).
Proof.
  induction l as [|y l IH]; cbn [insertByAddress].
  - intros [H|[]]. left. auto.
  - destruct (_ <? _).
    + intros [H|H]; [left; auto | right; exact H].
    + intros [H|[H|H]]; [right; apply IH; auto | left; exact H | right; apply IH; auto].
Qed.

Lemma sortByAddress_In e l : In e l -> In e (sortByAddress l).
Proof.
  unfold sortByAddress.
  assert (Hgen : forall acc, In e acc \/ In e l ->
                   In e (fold_left (fun acc x => insertByAddress x acc) l acc)).
  { induction l as [|x l IH]; intros acc H; cbn [fold_left].
    - destruct H as [H|[]]. exact H.
    - apply IH. destruct H as [H|[H|H]].
      + left. apply insertByAddress_In. auto.
      + left. apply insertByAddress_In. auto.
      + right. exact H. }
  intros H. apply Hgen. right. exact H.
Qed.

Lemma insertByAddress_sorted x l :
  StronglySorted leAddress l -> StronglySorted leAddress (insertByAddress x l).
Proof.
  induction 1 as [|y l Hs IH Hall]; cbn [insertByAddress].
  - constructor; constructor.
  - destruct (MethodAddress.address x <? MethodAddress.address y) eqn:E.
    + apply Z.ltb_lt in E. constructor; [constructor; assumption|].
      constructor; [unfold leAddress; lia|].
      eapply Forall_impl; [|exact Hall]. unfold leAddress. intros a Ha. lia.
    + apply Z.ltb_ge in E. constructor; [exact IH|].
      apply Forall_forall. intros e He.
      apply In_insertByAddress in He. destruct He as [-> | He].
      * exact E.
      * rewrite Forall_forall in Hall. apply Hall. exact He.
Qed.

Lemma sortByAddress_sorted l : StronglySorted leAddress (sortByAddress l).
Proof.
  unfold sortByAddress.
  assert (Hgen : forall acc, StronglySorted leAddress acc ->
            StronglySorted leAddress
              (fold_left (fun acc x => insertByAddress x acc) l acc)).
  { induction l as [|x l IH]; intros acc H; cbn [fold_left]; [exact H|].
    apply IH. apply insertByAddress_sorted. exact H. }
  apply Hgen. constructor.
Qed.

Lemma StronglySorted_nth_error {A} (R : A -> A -> Prop) l :
  StronglySorted R l ->
  forall i j a b, (i < j)%nat ->
    nth_error l i = Some a -> nth_error l j = Some b -> R a b.
Proof.
  induction 1 as [|x l Hs IH Hall]; intros i j a b Hij Ha Hb.
  - destruct i; discriminate.
  - destruct j as [|j]; [lia|]. cbn [nth_error] in Hb. destruct i as [|i].
    + cbn [nth_error] in Ha. inversion Ha; subst.
      rewrite Forall_forall in Hall. apply Hall. eapply nth_error_In. exact Hb.
    + cbn [nth_error] in Ha. apply (IH i j); [lia | assumption | assumption].
Qed.

(** The entry that [computeMethodProfiles] makes for a method. *)
Lemma buildMethodAddresses_entry entry methods :
  In entry (buildMethodAddresses methods) ->
  In (MethodAddress.method entry) (JSMap.values methods)
  /\ 0 < MethodInfo.methodStartAddress (MethodAddress.method entry)
  /\ entry = MethodAddress.mk
               (MethodInfo.methodStartAddress (MethodAddress.method entry))
               (MethodInfo.methodStartAddress (MethodAddress.method entry)
                + MethodInfo.methodSize (MethodAddress.method entry))
               (MethodAddress.method entry).
Proof.
  unfold buildMethodAddresses. intros H. apply In_sortByAddress in H.
  apply in_map_iff in H. destruct H as (m & <- & Hin).
  apply filter_In in Hin. destruct Hin as [Hin Hpos]. apply Z.ltb_lt in Hpos.
  cbn [MethodAddress.method]. auto.
Qed.

Lemma buildMethodAddresses_In m methods :
  In m (JSMap.values methods) -> 0 < MethodInfo.methodStartAddress m ->
  In (MethodAddress.mk (MethodInfo.methodStartAddress m)
        (MethodInfo.methodStartAddress m + MethodInfo.methodSize m) m)
     (buildMethodAddresses methods).
Proof.
  intros Hin Hpos. unfold buildMethodAddresses. apply sortByAddress_In.
  apply in_map_iff. exists m. split; [reflexivity|].
  apply filter_In. split; [exact Hin | apply Z.ltb_lt; exact Hpos].
Qed.

Lemma buildMethodAddresses_separated methods :
  methodsDisjoint methods -> separated (buildMethodAddresses methods).
Proof.
  intros Hd. split.
  - intros e He. apply buildMethodAddresses_entry in He.
    destruct He as (Hin & Hpos & ->). cbn [MethodAddress.address MethodAddress.endAddress].
    destruct (Hd _ _ Hin Hin Hpos Hpos) as [Hsize _]. lia.
  - intros i j ei ej Hij Hi Hj.
    pose proof (StronglySorted_nth_error leAddress _
                  (sortByAddress_sorted _) i j ei ej Hij Hi Hj) as Hle.
    apply nth_error_In in Hi, Hj.
    apply buildMethodAddresses_entry in Hi, Hj.
    destruct Hi as (Hini & Hposi & Hei). destruct Hj as (Hinj & Hposj & Hej).
    destruct (Hd _ _ Hini Hinj Hposi Hposj) as [_ [Heq | [H | H]]].
    + left. rewrite Hei, Hej, Heq. reflexivity.
    + right. rewrite Hei, Hej. cbn [MethodAddress.address MethodAddress.endAddress].
      exact H.
    + exfalso. destruct (Hd _ _ Hinj Hini Hposj Hposi) as [Hsize _].
      unfold leAddress in Hle. rewrite Hei, Hej in Hle.
      cbn [MethodAddress.address] in Hle. lia.
Qed.

(** The binary search finds an interval that holds the address when there
    is one between [lo] and [hi]. *)
Lemma bsearch_complete entries addr lo hi :
  separated entries ->
  forall k e, 0 <= lo -> hi < Z.of_nat (List.length entries) -> lo <= k <= hi ->
    nth_error entries (Z.to_nat k) = Some e ->
    MethodAddress.address e <= addr < MethodAddress.endAddress e ->
    exists e', bsearch entries addr lo hi = Some e'
               /\ MethodAddress.address e' <= addr < MethodAddress.endAddress e'.
Proof.
  funelim (bsearch entries addr lo hi); intros Hsep k e0 Hlo Hhi Hk Hnth Hcov.
  - lia.
  - exfalso.
    match goal with
    | H : nth_error _ _ = None |- _ => apply nth_error_None in H; rename H into Hnone
    end.
    assert (lo <= (lo + hi) / 2 <= hi)
      by (split; [apply Z.div_le_lower_bound | apply Z.div_le_upper_bound]; lia).
    lia.
  - eexists. split; [reflexivity|].
    match goal with
    | H : (_ <=? _) && (_ <? _) = true |- _ =>
        apply andb_true_iff in H; destruct H as [H1 H2];
        apply Z.leb_le in H1; apply Z.ltb_lt in H2; lia
    end.
  - match goal with
    | H : (?a <? ?b) = true |- _ => apply Z.ltb_lt in H; rename H into Hlt
    end.
    match goal with
    | H : nth_error _ _ = Some ?m |- _ =>
        lazymatch m with e0 => fail | _ => rename H into Hmid end
    end.
    assert (Hm : lo <= (lo + hi) / 2 <= hi)
      by (split; [apply Z.div_le_lower_bound | apply Z.div_le_upper_bound]; lia).
    match goal with
    | IH : separated _ -> _ |- _ => apply (IH Hsep k e0 Hlo); try assumption; try lia
    end.
    split; [lia|].
    destruct (Z.lt_ge_cases k ((lo + hi) / 2)) as [Hkm | Hkm]; [lia|]. exfalso.
    destruct (Z.eq_dec k ((lo + hi) / 2)) as [-> | Hne].
    + rewrite Hmid in Hnth. inversion Hnth; subst. lia.
    + destruct Hsep as [Hwf Hsep].
      destruct (Hsep (Z.to_nat ((lo + hi) / 2)) (Z.to_nat k) _ _ ltac:(lia) Hmid Hnth)
        as [-> | Hend]; [lia|].
      apply nth_error_In in Hmid. apply Hwf in Hmid. lia.
  - match goal with
    | H : (?a <? ?b) = false |- _ => apply Z.ltb_ge in H; rename H into Hge
    end.
    match goal with
    | H : (_ <=? _) && (_ <? _) = false |- _ =>
        apply andb_false_iff in H; rename H into Hnot
    end.
    match goal with
    | H : nth_error _ _ = Some ?m |- _ =>
        lazymatch m with e0 => fail | _ => rename H into Hmid end
    end.
    assert (Hm : lo <= (lo + hi) / 2 <= hi)
      by (split; [apply Z.div_le_lower_bound | apply Z.div_le_upper_bound]; lia).
    match goal with
    | IH : separated _ -> _ |- _ => apply (IH Hsep k e0); try assumption; try lia
    end.
    split; [|lia].
    destruct (Z.lt_ge_cases ((lo + hi) / 2) k) as [Hkm | Hkm]; [lia|]. exfalso.
    destruct (Z.eq_dec k ((lo + hi) / 2)) as [-> | Hne].
    + rewrite Hmid in Hnth. inversion Hnth; subst.
      destruct Hnot as [Hn | Hn]; [apply Z.leb_gt in Hn | apply Z.ltb_ge in Hn]; lia.
    + destruct Hsep as [Hwf Hsep].
      destruct (Hsep (Z.to_nat k) (Z.to_nat ((lo + hi) / 2)) _ _ ltac:(lia) Hnth Hmid)
        as [-> | Hend].
      * destruct Hnot as [Hn | Hn]; [apply Z.leb_gt in Hn | apply Z.ltb_ge in Hn]; lia.
      * lia.
Qed.

(** X8: a method that [findMethodByAddress] returns for an address is a
    method of the table with a start address above zero, and the address
    lies in its code, from [methodStartAddress] up to but not including
    [methodStartAddress + methodSize]. *)
Theorem X8_findMethodByAddress_sound (methods : JSMap.t Z MethodInfo.t) (addr : Z)
    (m : MethodInfo.t) :
  findMethodByAddress (buildMethodAddresses methods) addr = Some m ->
  In m (JSMap.values methods)
  /\ 0 < MethodInfo.methodStartAddress m
  /\ methodCovers m addr.
Proof.
  unfold findMethodByAddress. intros H.
  destruct (bsearch _ _ _ _) as [entry|] eqn:E; [|discriminate].
  cbn [option_map] in H. inversion H; subst.
  apply bsearch_found in E. destruct E as [Hin Hrange].
  apply buildMethodAddresses_entry in Hin. destruct Hin as (Hm & Hpos & He).
  split; [exact Hm|]. split; [exact Hpos|].
  unfold methodCovers. rewrite He in Hrange.
  cbn [MethodAddress.address MethodAddress.endAddress] in Hrange. exact Hrange.
Qed.

(** X9: when the methods of the table that have a start address have code
    and do not overlap, [findMethodByAddress] finds the method for every
    address that lies in the code of one of them. *)
Theorem X9_findMethodByAddress_complete (methods : JSMap.t Z MethodInfo.t) (addr : Z)
    (m : MethodInfo.t) :
  methodsDisjoint methods ->
  In m (JSMap.values methods) ->
  0 < MethodInfo.methodStartAddress m ->
  methodCovers m addr ->
  findMethodByAddress (buildMethodAddresses methods) addr = Some m.
Proof.
  intros Hd Hin Hpos Hcov.
  pose proof (buildMethodAddresses_In m methods Hin Hpos) as He.
  apply In_nth_error in He. destruct He as [n Hn].
  assert (Hlen : (n < List.length (buildMethodAddresses methods))%nat).
  { apply nth_error_Some. congruence. }
  destruct (bsearch_complete (buildMethodAddresses methods) addr 0
              (Z.of_nat (List.length (buildMethodAddresses methods)) - 1)
              (buildMethodAddresses_separated methods Hd)
              (Z.of_nat n) _ ltac:(lia) ltac:(lia) ltac:(lia)
              ltac:(rewrite Nat2Z.id; exact Hn) Hcov)
    as (e' & Hfound & Hrange).
  unfold findMethodByAddress. rewrite Hfound. cbn [option_map]. f_equal.
  apply bsearch_found in Hfound. destruct Hfound as [He' _].
  apply buildMethodAddresses_entry in He'. destruct He' as (Hin' & Hpos' & Hentry).
  rewrite Hentry in Hrange.
  cbn [MethodAddress.address MethodAddress.endAddress] in Hrange.
  destruct (Hd _ _ Hin' Hin Hpos' Hpos) as [_ [Heq | [H | H]]].
  - exact Heq.
  - unfold methodCovers in Hcov. lia.
  - unfold methodCovers in Hcov. lia.
Qed.

(** X8 and X9 on the table of two methods: the address 0x1010 lies in the
    code of [A.f]. *)
Lemma X8_findMethodByAddress_sound_witness :
  let m := MethodInfo.mk 1 1 4096 256 0 0 (lit "A") (lit "f") [] in
  In m (JSMap.values twoMethods)
  /\ 0 < MethodInfo.methodStartAddress m
  /\ methodCovers m 4112.
Proof.
  intros m. apply (X8_findMethodByAddress_sound twoMethods 4112 m).
  vm_compute. reflexivity.
Defined.

Lemma X9_findMethodByAddress_complete_witness :
  findMethodByAddress (buildMethodAddresses twoMethods) 4112
  = Some (MethodInfo.mk 1 1 4096 256 0 0 (lit "A") (lit "f") []).
Proof.
  apply (X9_findMethodByAddress_complete twoMethods 4112).
  - intros m1 m2 H1 H2 _ _.
    cbn [twoMethods JSMap.values map snd In] in H1, H2.
    destruct H1 as [<- | [<- | []]]; destruct H2 as [<- | [<- | []]];
      cbn [MethodInfo.methodStartAddress MethodInfo.methodSize];
      (split; [lia|]); auto; lia.
  - cbn [twoMethods JSMap.values map snd In]. auto.
  - cbn [MethodInfo.methodStartAddress]. lia.
  - unfold methodCovers. cbn [MethodInfo.methodStartAddress MethodInfo.methodSize]. lia.
Defined.

(** ** The tables of the result *)

Lemma keyedBy_set {K V} {dec : EqDec K} (key : V -> K) table k v :
  keyedBy key table -> key v = k -> keyedBy key (JSMap.set k v table).
Proof.
  intros Ht Hk k' v' H. rewrite JSMap_get_set in H.
  destruct (eq_dec k' k) as [->|Hne].
  - inversion H; subst. reflexivity.
  - apply Ht. exact H.
Qed.

Lemma keyedBy_empty {K V} {dec : EqDec K} (key : V -> K) : keyedBy key [].
Proof. intros k v H. discriminate. Qed.

Lemma addAllocation_methods typeName size timestamp stackId w :
  ParseResult.methods (result (addAllocation typeName size timestamp stackId w))
  = ParseResult.methods (result w)
  /\ ParseResult.methodsByAddress
       (result (addAllocation typeName size timestamp stackId w))
     = ParseResult.methodsByAddress (result w)
  /\ ParseResult.methodProfiles
       (result (addAllocation typeName size timestamp stackId w))
     = ParseResult.methodProfiles (result w).
Proof. unfold addAllocation. destruct (0 <? stackId); auto. Qed.

Lemma addAllocation_keyed typeName size timestamp stackId w :
  typeName <> [] -> tablesKeyed w ->
  tablesKeyed (addAllocation typeName size timestamp stackId w).
Proof.
  intros Hne (Hs & Hm & Ha & Hal & Hk & Hp). unfold tablesKeyed.
  destruct (addAllocation_methods typeName size timestamp stackId w)
    as (-> & -> & ->).
  rewrite addAllocation_this, addAllocation_allocations.
  repeat split; try assumption.
  - apply keyedBy_set; [exact Hal|].
    cbv zeta. cbn [AllocationInfo.typeName].
    match goal with
    | |- context [match ?g with Some _ => _ | None => _ end] => destruct g eqn:E
    end.
    + apply Hal. exact E.
    + reflexivity.
  - intros k info H. rewrite JSMap_get_set in H.
    destruct (eq_dec k typeName) as [->|Hne']; [exact Hne|].
    apply (Hk k info H).
Qed.

Lemma parseObjectStream_tablesKeyed w :
  tablesKeyed w -> tablesKeyed (parseObjectStream w).
Proof.
  apply (parseObjectStream_preserves tablesKeyed); try (intros; assumption).
  - intros w0 info (Hs & Hm & Ha & Hal & Hk & Hp). repeat split; try assumption.
    + apply keyedBy_set; [exact Hm | reflexivity].
    + apply keyedBy_set; [exact Ha | reflexivity].
  - intros w0 info _ _ (Hs & Hm & Ha & Hal & Hk & Hp). repeat split; try assumption.
    apply keyedBy_set; [exact Hm | reflexivity].
  - intros w0 typeName size0 timestamp stackId Hne H.
    apply addAllocation_keyed; assumption.
  - intros w0 currentId addresses (Hs & Hm & Ha & Hal & Hk & Hp).
    repeat split; try assumption.
    apply keyedBy_set; [exact Hs | reflexivity].
Qed.

Lemma setProfiles_keyed inclusiveCounts exclusiveCounts names : forall profiles,
  keyedBy MethodProfile.methodName profiles ->
  keyedBy MethodProfile.methodName
    (fold_left (setProfile inclusiveCounts exclusiveCounts) names profiles).
Proof.
  induction names as [|n names IH]; intros profiles H; cbn [fold_left]; [exact H|].
  apply IH. unfold setProfile. apply keyedBy_set; [exact H | reflexivity].
Qed.

(** X10: every table of the result of a parse is keyed by the field that
    names its entries: a stack stands under its [stackId], a method under
    its [methodId] in [methods] and under its [methodStartAddress] in
    [methodsByAddress], the allocations of a type under the [typeName] of
    the entry, and a profile under its [methodName]. No allocations are
    recorded under the empty type name. *)
Theorem X10_tables_keyed (buf : list byte) :
  keyedBy StackInfo.stackId (ParseResult.stacks (parse buf))
  /\ keyedBy MethodInfo.methodId (ParseResult.methods (parse buf))
  /\ keyedBy MethodInfo.methodStartAddress (ParseResult.methodsByAddress (parse buf))
  /\ keyedBy AllocationInfo.typeName (ParseResult.allocations (parse buf))
  /\ keyedBy MethodProfile.methodName (ParseResult.methodProfiles (parse buf))
  /\ JSMap.has [] (ParseResult.allocations (parse buf)) = false.
Proof.
  destruct (parse_cases buf) as [[e He] | (_ & _ & r & Hr)].
  - rewrite He. repeat split; try apply keyedBy_empty.
  - rewrite Hr. unfold finishParse.
    match goal with
    | |- context [parseObjectStream ?w0] =>
        assert (H : tablesKeyed (parseObjectStream w0));
        [ apply parseObjectStream_tablesKeyed;
          repeat split; try apply keyedBy_empty; intros k info Hget; discriminate
        | generalize dependent (parseObjectStream w0) ]
    end.
    clear Hr. intros w1 (Hs & Hm & Ha & Hal & Hk & Hp).
    unfold afterObjectStream, computeMethodProfiles.
    cbn [result updResult this ParseResult.stacks ParseResult.methods
         ParseResult.methodsByAddress ParseResult.allocations
         ParseResult.methodProfiles ParseResult.set_debugInfo
         ParseResult.set_methodProfiles ParseResult.set_errors
         ParseResult.set_stacks ParseResult.set_metadata].
    repeat split; try assumption.
    + apply setProfiles_keyed. rewrite Hp. apply keyedBy_empty.
    + unfold JSMap.has.
      destruct (JSMap.get [] (ParseResult.allocations (result w1))) as [info|] eqn:E;
        [|reflexivity].
      exfalso. apply (Hk [] info E). reflexivity.
Qed.

(** ** Sums over tables *)

Lemma sumOver_nil {K V} (f : V -> Z) : sumOver f (@nil (K * V)) = 0.
Proof. reflexivity. Qed.

Lemma sumOver_cons {K V} (f : V -> Z) (k : K) v m :
  sumOver f ((k, v) :: m) = f v + sumOver f m.
Proof. reflexivity. Qed.

Lemma sumOver_set {K V} {dec : EqDec K} (f : V -> Z) k v (m : JSMap.t K V) :
  sumOver f (JSMap.set k v m)
  = sumOver f m
    - match JSMap.get k m with Some old => f old | None => 0 end
    + f v.
Proof.
  induction m as [|[k0 v0] m IH]; cbn [JSMap.set JSMap.get sumOver fold_right snd].
  - lia.
  - destruct (eq_dec k k0) as [->|Hne]; cbn [sumOver fold_right snd].
    + lia.
    + fold (sumOver f (JSMap.set k v m)). fold (sumOver f m). rewrite IH. lia.
Qed.

Lemma sumOver_nonneg {K V} (f : V -> Z) (m : JSMap.t K V) :
  (forall k v, In (k, v) m -> 0 <= f v) -> 0 <= sumOver f m.
Proof.
  induction m as [|[k0 v0] m IH]; intros H; cbn [sumOver fold_right snd]; [lia|].
  fold (sumOver f m).
  assert (0 <= f v0) by (apply (H k0); left; reflexivity).
  assert (0 <= sumOver f m) by (apply IH; intros k v Hin; apply (H k); right; exact Hin).
  lia.
Qed.

Lemma getOr0_bound {K} {dec : EqDec K} (k : K) (m : JSMap.t K Z) lo :
  lo <= 0 -> (forall k' c, In (k', c) m -> lo <= c) -> lo <= getOr0 k m.
Proof.
  intros Hlo H. unfold getOr0. destruct (JSMap.get k m) as [c|] eqn:E; [|exact Hlo].
  apply (H k). apply JSMap_get_In. exact E.
Qed.

(** ** The event counters *)

Lemma countEvent_counted w metadataId :
  eventsCounted w -> eventsCounted (countEvent metadataId w).
Proof.
  intros [Hsum Hpos]. unfold eventsCounted, countEvent.
  cbn [this updThis Parser.debugInfo Parser.set_debugInfo
       DebugInfo.totalEvents DebugInfo.eventCountsByMetadataId
       DebugInfo.set_eventCountsByMetadataId DebugInfo.set_totalEvents].
  cbv zeta in Hsum, Hpos. split.
  - rewrite sumOver_set. rewrite Hsum. unfold getOr0.
    destruct (JSMap.get metadataId _); lia.
  - intros k c Hin. apply JSMap_In_set in Hin. destruct Hin as [Hin | [_ ->]].
    + apply (Hpos k c Hin).
    + pose proof (getOr0_bound metadataId
                    (DebugInfo.eventCountsByMetadataId (Parser.debugInfo (this w)))
                    0 ltac:(lia)) as Hb.
      assert (0 <= getOr0 metadataId
                     (DebugInfo.eventCountsByMetadataId (Parser.debugInfo (this w)))).
      { apply Hb. intros k' c' Hin'. specialize (Hpos k' c' Hin'). lia. }
      lia.
Qed.

Lemma parseObjectStream_eventsCounted w :
  eventsCounted w -> eventsCounted (parseObjectStream w).
Proof.
  apply (parseObjectStream_preserves eventsCounted); try (intros; assumption).
  intros w0 metadataId H. apply countEvent_counted. exact H.
Qed.

(** The roll-up of the counters by provider and event id drops the
    counters of the ids without a schema and keeps the total of the
    others. *)
Lemma buildEventCounts_bound metadata counts :
  (forall k c, In (k, c) counts -> 1 <= c) ->
  sumOver (fun c => c) (buildEventCounts metadata counts)
  <= sumOver (fun c => c) counts
  /\ forall key c, In (key, c) (buildEventCounts metadata counts) -> 1 <= c.
Proof.
  unfold buildEventCounts.
  assert (Hgen : forall (acc : JSMap.t jsstring Z),
    (forall k c, In (k, c) counts -> 1 <= c) ->
    (forall key c, In (key, c) acc -> 1 <= c) ->
    let out : JSMap.t jsstring Z :=
      fold_left
        (fun eventCounts entry =>
           match JSMap.get (fst entry) metadata with
           | Some meta =>
               let key := EventMetadata.providerName meta ++ lit ":"
                          ++ numberToString (EventMetadata.eventId meta) in
               JSMap.set key (getOr0 key eventCounts + snd entry) eventCounts
           | None => eventCounts
           end) counts acc in
    sumOver (fun c => c) out <= sumOver (fun c => c) acc + sumOver (fun c => c) counts
    /\ forall key c, In (key, c) out -> 1 <= c).
  { induction counts as [|[id n] counts IH]; intros acc Hc Hacc; cbv zeta;
      cbn [fold_left].
    - split; [|exact Hacc]. rewrite sumOver_nil. lia.
    - cbn [fst snd].
      assert (Hn : 1 <= n) by (apply (Hc id); left; reflexivity).
      assert (Hc' : forall k c, In (k, c) counts -> 1 <= c)
        by (intros k c Hin; apply (Hc k); right; exact Hin).
      rewrite sumOver_cons.
      destruct (JSMap.get id metadata) as [meta|].
      + match goal with
        | |- context [fold_left ?f counts ?acc'] =>
            destruct (IH acc' Hc') as [Hsum Hpos]
        end.
        * intros key c Hin. apply JSMap_In_set in Hin.
          destruct Hin as [Hin | [_ ->]]; [apply (Hacc key c Hin)|].
          match goal with
          | |- 1 <= getOr0 ?k acc + n =>
              pose proof (getOr0_bound k acc 0 ltac:(lia)) as Hb
          end.
          match type of Hb with
          | ?P -> _ => assert (Hp : P)
          end.
          { intros k' c' Hin'. specialize (Hacc k' c' Hin'). lia. }
          specialize (Hb Hp). lia.
        * split; [|exact Hpos].
          cbv zeta in Hsum. eapply Z.le_trans; [exact Hsum|].
          unfold jsstring. rewrite sumOver_set. unfold getOr0.
          match goal with
          | |- context [match ?g with Some _ => _ | None => _ end] => destruct g
          end; lia.
      + destruct (IH acc Hc' Hacc) as [Hsum Hpos].
        split; [|exact Hpos]. cbv zeta in Hsum.
        eapply Z.le_trans; [exact Hsum|]. lia. }
  intros Hc. specialize (Hgen [] Hc). cbv zeta in Hgen.
  destruct Hgen as [Hsum Hpos]; [intros key c []|].
  split; [|exact Hpos]. rewrite sumOver_nil in Hsum.
  eapply Z.le_trans; [exact Hsum|]. lia.
Qed.

(** X11: in the debug information of the result of a parse, the counts by
    provider and event id are at least one each, and together they are no
    more than [totalEvents]: every event is counted once in the total, and
    once under its provider and event id when its metadata id has a
    schema at the end of the parse. *)
Theorem X11_event_counts (buf : list byte) :
  let d := ParseResult.debugInfo (parse buf) in
  sumOver (fun c => c) (ResultDebugInfo.eventCounts d) <= ResultDebugInfo.totalEvents d
  /\ forall key c, In (key, c) (ResultDebugInfo.eventCounts d) -> 1 <= c.
Proof.
  destruct (parse_cases buf) as [[e He] | (_ & _ & r & Hr)].
  - rewrite He. cbn. split; [lia | intros key c []].
  - rewrite Hr. unfold finishParse.
    match goal with
    | |- context [parseObjectStream ?w0] =>
        assert (H : eventsCounted (parseObjectStream w0));
        [ apply parseObjectStream_eventsCounted; split;
          [reflexivity | intros k c []]
        | generalize dependent (parseObjectStream w0) ]
    end.
    clear Hr. intros w1 [Hsum Hpos].
    unfold afterObjectStream, computeMethodProfiles.
    cbn [result updResult this ParseResult.debugInfo ParseResult.set_debugInfo
         ResultDebugInfo.eventCounts ResultDebugInfo.totalEvents].
    cbv zeta in Hsum. rewrite Hsum.
    apply buildEventCounts_bound. exact Hpos.
Qed.

(** ** The allocation tables by stack and by type *)

Lemma addAllocation_typeStackDistribution typeName size timestamp stackId w :
  ParseResult.typeStackDistribution
    (result (addAllocation typeName size timestamp stackId w))
  = if 0 <? stackId
    then addTypeStack typeName size stackId
           (ParseResult.typeStackDistribution (result w))
    else ParseResult.typeStackDistribution (result w).
Proof. unfold addAllocation. destruct (0 <? stackId); reflexivity. Qed.

Lemma lookupTypeStack_add typeName size stackId dist t s :
  lookupTypeStack (addTypeStack typeName size stackId dist) t s
  = if eq_dec t typeName
    then if eq_dec s stackId
         then Some (bumped size (lookupTypeStack dist typeName stackId))
         else lookupTypeStack dist typeName s
    else lookupTypeStack dist t s.
Proof.
  unfold lookupTypeStack, addTypeStack. cbv zeta. rewrite JSMap_get_set.
  destruct (eq_dec t typeName) as [->|Hne]; [|reflexivity].
  destruct (JSMap.get typeName dist) as [typeStacks|].
  - destruct (JSMap.get stackId typeStacks) as [data|] eqn:E;
      rewrite JSMap_get_set; destruct (eq_dec s stackId); reflexivity.
  - cbn [JSMap.get JSMap.empty]. rewrite JSMap_get_set.
    destruct (eq_dec s stackId); reflexivity.
Qed.

Lemma lookupStackType_add typeName size stackId samples s t :
  lookupStackType (addAllocationSample typeName size stackId samples) s t
  = if eq_dec s stackId
    then if eq_dec t typeName
         then Some (bumped size (lookupStackType samples stackId typeName))
         else lookupStackType samples stackId t
    else lookupStackType samples s t.
Proof.
  unfold lookupStackType, addAllocationSample.
  destruct (JSMap.get stackId samples) as [existing|] eqn:E.
  - cbv zeta. rewrite JSMap_get_set.
    destruct (eq_dec s stackId) as [->|Hne]; [|reflexivity].
    cbn [AllocationSample.types].
    destruct (JSMap.get typeName (AllocationSample.types existing)) as [data|] eqn:Et;
      rewrite JSMap_get_set; destruct (eq_dec t typeName); reflexivity.
  - rewrite JSMap_get_set.
    destruct (eq_dec s stackId) as [->|Hne]; [|reflexivity].
    cbn [AllocationSample.types]. rewrite JSMap_get_set.
    destruct (eq_dec t typeName); reflexivity.
Qed.

Lemma addAllocation_transposed typeName size timestamp stackId w :
  transposed (result w) ->
  transposed (result (addAllocation typeName size timestamp stackId w)).
Proof.
  intros H t s. rewrite addAllocation_typeStackDistribution,
    addAllocation_allocationSamples.
  destruct (0 <? stackId); [|apply H].
  rewrite lookupTypeStack_add, lookupStackType_add.
  destruct (eq_dec t typeName) as [->|Ht]; destruct (eq_dec s stackId) as [->|Hs];
    rewrite ?H; reflexivity.
Qed.

Lemma parseObjectStream_transposed w :
  transposed (result w) -> transposed (result (parseObjectStream w)).
Proof.
  apply (parseObjectStream_preserves (fun w => transposed (result w)));
    try (intros; assumption).
  intros w0 typeName size0 timestamp stackId _ H.
  apply addAllocation_transposed. exact H.
Qed.

Lemma afterObjectStream_typeStackDistribution w1 :
  ParseResult.typeStackDistribution (result (afterObjectStream w1))
  = ParseResult.typeStackDistribution (result w1).
Proof. reflexivity. Qed.

(** X12: in the result of a parse the table of allocations by type and
    stack, [typeStackDistribution], is the table of allocations by stack
    and type, [allocationSamples], turned around: a type has an entry
    under a stack in the one exactly when the stack has an entry under
    the type in the other, and the two entries hold the same count and
    size. *)
Theorem X12_allocation_tables_transposed (buf : list byte)
    (typeName : jsstring) (stackId : Z) :
  lookupTypeStack (ParseResult.typeStackDistribution (parse buf)) typeName stackId
  = lookupStackType (ParseResult.allocationSamples (parse buf)) stackId typeName.
Proof.
  destruct (parse_cases buf) as [[e He] | (_ & _ & r & Hr)].
  - rewrite He. reflexivity.
  - rewrite Hr. unfold finishParse.
    rewrite afterObjectStream_typeStackDistribution,
      afterObjectStream_allocationSamples.
    apply parseObjectStream_transposed. intros t s. reflexivity.
Qed.

(** ** The totals of an allocation sample *)

Lemma addAllocationSample_totals typeName size stackId samples :
  sampleTotals samples ->
  sampleTotals (addAllocationSample typeName size stackId samples).
Proof.
  intros H sid sample Hget. unfold addAllocationSample in Hget.
  destruct (JSMap.get stackId samples) as [existing|] eqn:E.
  - cbv zeta in Hget. rewrite JSMap_get_set in Hget.
    destruct (eq_dec sid stackId) as [->|Hne]; [|apply (H sid sample Hget)].
    inversion Hget; subst. clear Hget.
    destruct (H stackId existing E) as [Hc Hs].
    cbn [AllocationSample.count AllocationSample.size AllocationSample.types].
    destruct (JSMap.get typeName (AllocationSample.types existing)) as [data|] eqn:Et;
      rewrite !sumOver_set, Et, Hc, Hs;
      cbn [CountSize.count CountSize.size]; split; lia.
  - rewrite JSMap_get_set in Hget.
    destruct (eq_dec sid stackId) as [->|Hne]; [|apply (H sid sample Hget)].
    inversion Hget; subst. clear Hget.
    cbn [AllocationSample.count AllocationSample.size AllocationSample.types
         JSMap.set JSMap.empty sumOver fold_right snd CountSize.count CountSize.size].
    split; lia.
Qed.

Lemma parseObjectStream_sampleTotals w :
  sampleTotals (ParseResult.allocationSamples (result w)) ->
  sampleTotals (ParseResult.allocationSamples (result (parseObjectStream w))).
Proof.
  apply (parseObjectStream_preserves
           (fun w => sampleTotals (ParseResult.allocationSamples (result w))));
    try (intros; assumption).
  intros w0 typeName size0 timestamp stackId _ H.
  rewrite addAllocation_allocationSamples.
  destruct (0 <? stackId); [apply addAllocationSample_totals|]; exact H.
Qed.

(** X13: for every stack in the allocation samples of the result of a
    parse, the count of the sample is the sum of the counts of its types,
    and the size of the sample is the sum of their sizes. *)
Theorem X13_allocation_sample_totals (buf : list byte) (stackId : Z)
    (sample : AllocationSample.t) :
  JSMap.get stackId (ParseResult.allocationSamples (parse buf)) = Some sample ->
  AllocationSample.count sample
  = sumOver CountSize.count (AllocationSample.types sample)
  /\ AllocationSample.size sample
     = sumOver CountSize.size (AllocationSample.types sample).
Proof.
  revert stackId sample.
  fold (sampleTotals (ParseResult.allocationSamples (parse buf))).
  destruct (parse_cases buf) as [[e He] | (_ & _ & r & Hr)].
  - rewrite He. intros sid sample Hget. discriminate.
  - rewrite Hr. unfold finishParse. rewrite afterObjectStream_allocationSamples.
    apply parseObjectStream_sampleTotals. intros sid sample Hget. discriminate.
Qed.

(** X13 on the allocation of 128 bytes of [MyType] on the stack 1 of the
    method-resolution trace. *)
Lemma X13_allocation_sample_totals_witness :
  let sample := AllocationSample.mk 1 128 [(lit "MyType", CountSize.mk 1 128)] in
  AllocationSample.count sample
  = sumOver CountSize.count (AllocationSample.types sample)
  /\ AllocationSample.size sample
     = sumOver CountSize.size (AllocationSample.types sample).
Proof.
  intros sample.
  apply (X13_allocation_sample_totals methodResolutionTrace 1 sample).
  vm_compute. reflexivity.
Defined.

(** The allocations with a stack are allocations. *)
Lemma addAllocation_counts typeName size timestamp stackId w :
  sumOver AllocationSample.count (ParseResult.allocationSamples (result w))
  <= sumOver AllocationInfo.count (ParseResult.allocations (result w)) ->
  sumOver AllocationSample.count
    (ParseResult.allocationSamples (result (addAllocation typeName size timestamp stackId w)))
  <= sumOver AllocationInfo.count
       (ParseResult.allocations (result (addAllocation typeName size timestamp stackId w))).
Proof.
  intros H. rewrite addAllocation_allocationSamples, addAllocation_allocations.
  rewrite sumOver_set. cbv zeta. cbn [AllocationInfo.count].
  assert (Hs : sumOver AllocationSample.count
                 (if 0 <? stackId
                  then addAllocationSample typeName size stackId
                         (ParseResult.allocationSamples (result w))
                  else ParseResult.allocationSamples (result w))
               <= sumOver AllocationSample.count
                    (ParseResult.allocationSamples (result w)) + 1).
  { destruct (0 <? stackId); [|lia]. unfold addAllocationSample.
    destruct (JSMap.get stackId _) as [existing|] eqn:E.
    - cbv zeta. rewrite sumOver_set, E. cbn [AllocationSample.count]. lia.
    - rewrite sumOver_set, E. cbn [AllocationSample.count]. lia. }
  eapply Z.le_trans; [exact Hs|].
  match goal with
  | |- context [match ?g with Some _ => _ | None => _ end] => destruct g
  end; cbn [AllocationInfo.count]; lia.
Qed.

Lemma parseObjectStream_counts w :
  sumOver AllocationSample.count (ParseResult.allocationSamples (result w))
  <= sumOver AllocationInfo.count (ParseResult.allocations (result w)) ->
  sumOver AllocationSample.count
    (ParseResult.allocationSamples (result (parseObjectStream w)))
  <= sumOver AllocationInfo.count
       (ParseResult.allocations (result (parseObjectStream w))).
Proof.
  apply (parseObjectStream_preserves
           (fun w =>
              sumOver AllocationSample.count (ParseResult.allocationSamples (result w))
              <= sumOver AllocationInfo.count (ParseResult.allocations (result w))));
    try (intros; assumption).
  intros w0 typeName size0 timestamp stackId _ H.
  apply addAllocation_counts. exact H.
Qed.

(** X14: in the result of a parse the allocation samples, which hold the
    allocations that came with a stack id above zero, count together no
    more allocations than the allocation table, which holds them all. *)
Theorem X14_sampled_allocations_bound (buf : list byte) :
  sumOver AllocationSample.count (ParseResult.allocationSamples (parse buf))
  <= sumOver AllocationInfo.count (ParseResult.allocations (parse buf)).
Proof.
  destruct (parse_cases buf) as [[e He] | (_ & _ & r & Hr)].
  - rewrite He. cbn. lia.
  - rewrite Hr. unfold finishParse.
    rewrite afterObjectStream_allocationSamples, afterObjectStream_allocations.
    apply parseObjectStream_counts. cbn. lia.
Qed.

(** ** Methods that start to be compiled *)

(** X15: [parseMethodJittingStartedEvent] never throws, leaves the parser
    alone, and never changes an entry of the method table. An entry that
    is in the table afterwards was there before, or its id was not in
    the table and it is a method without a start address, which the
    lookup by address leaves out. *)
Theorem X15_jitting_keeps_methods (payload : list byte) (w : World) :
  let w' := snd (parseMethodJittingStartedEvent payload w) in
  fst (parseMethodJittingStartedEvent payload w) = Ok tt
  /\ this w' = this w
  /\ (forall id m,
        JSMap.get id (ParseResult.methods (result w)) = Some m ->
        JSMap.get id (ParseResult.methods (result w')) = Some m)
  /\ (forall id m,
        JSMap.get id (ParseResult.methods (result w')) = Some m ->
        JSMap.get id (ParseResult.methods (result w)) = Some m
        \/ (JSMap.has id (ParseResult.methods (result w)) = false
            /\ MethodInfo.methodId m = id
            /\ MethodInfo.methodStartAddress m = 0)).
Proof.
  cbv zeta. split; [apply silent_catch_ok|]. split; [|split].
  - apply (parseMethodJittingStartedEvent_preserves (fun w' => this w' = this w));
      [|reflexivity].
    intros w0 info _ _ H. exact H.
  - intros id m Hget.
    apply (parseMethodJittingStartedEvent_preserves
             (fun w' => JSMap.get id (ParseResult.methods (result w')) = Some m));
      [|exact Hget].
    intros w0 info Hhas _ H. unfold jitMethod.
    cbn [result updResult ParseResult.methods ParseResult.set_methods].
    rewrite JSMap_get_set_other; [exact H|].
    intros ->. unfold JSMap.has in Hhas. rewrite H in Hhas. discriminate.
  - intros id.
    assert (Hinv :
      (forall m, JSMap.get id (ParseResult.methods (result w)) = Some m ->
         JSMap.get id
           (ParseResult.methods
              (result (snd (parseMethodJittingStartedEvent payload w)))) = Some m)
      /\ forall m,
           JSMap.get id
             (ParseResult.methods
                (result (snd (parseMethodJittingStartedEvent payload w)))) = Some m ->
           JSMap.get id (ParseResult.methods (result w)) = Some m
           \/ (JSMap.has id (ParseResult.methods (result w)) = false
               /\ MethodInfo.methodId m = id
               /\ MethodInfo.methodStartAddress m = 0)); [|apply Hinv].
    apply (parseMethodJittingStartedEvent_preserves
             (fun w' =>
                (forall m, JSMap.get id (ParseResult.methods (result w)) = Some m ->
                   JSMap.get id (ParseResult.methods (result w')) = Some m)
                /\ forall m,
                     JSMap.get id (ParseResult.methods (result w')) = Some m ->
                     JSMap.get id (ParseResult.methods (result w)) = Some m
                     \/ (JSMap.has id (ParseResult.methods (result w)) = false
                         /\ MethodInfo.methodId m = id
                         /\ MethodInfo.methodStartAddress m = 0)));
      [|split; [intros m H; exact H | intros m H; left; exact H]].
    intros w0 info Hhas Hstart [Hkeep Hnew]. unfold jitMethod.
    cbn [result updResult ParseResult.methods ParseResult.set_methods].
    split.
    + intros m Hm. rewrite JSMap_get_set_other; [apply Hkeep; exact Hm|].
      intros ->. unfold JSMap.has in Hhas. rewrite (Hkeep m Hm) in Hhas. discriminate.
    + intros m. rewrite JSMap_get_set.
      destruct (eq_dec id (MethodInfo.methodId info)) as [->|Hne]; [|apply Hnew].
      intros Hm. inversion Hm; subst m. right.
      split; [|split; [reflexivity | exact Hstart]].
      unfold JSMap.has in *.
      destruct (JSMap.get (MethodInfo.methodId info) (ParseResult.methods (result w)))
        as [m0|] eqn:E; [|reflexivity].
      rewrite (Hkeep m0 eq_refl) in Hhas. discriminate.
Qed.

(** X15 on an event for the method id 1, which the table of two methods
    holds as [A.f]: the entry stays. *)
Lemma X15_jitting_keeps_methods_witness :
  JSMap.get 1
    (ParseResult.methods
       (result (snd (parseMethodJittingStartedEvent jittingStartedPayload
                       (mkWorld (Parser.initial [])
                          (ParseResult.set_methods twoMethods ParseResult.initial))))))
  = Some (MethodInfo.mk 1 1 4096 256 0 0 (lit "A") (lit "f") []).
Proof.
  apply (proj1 (proj2 (proj2 (X15_jitting_keeps_methods jittingStartedPayload
           (mkWorld (Parser.initial [])
              (ParseResult.set_methods twoMethods ParseResult.initial)))))).
  reflexivity.
Defined.

(** ** Skipping to the next object *)

Lemma set_offset_same r : set_offset (_offset r + 0) r = r.
Proof. destruct r as [buf o]. unfold set_offset. cbn [buffer _offset]. f_equal. lia. Qed.

(** The loop of [skipToNextObject] with enough fuel passes over [n] bytes
    and stops in one of three ways. *)
Lemma skipToNextObject_loop_stops fuel : forall r,
  remaining r <= Z.of_nat fuel ->
  exists n,
    0 <= n
    /\ (forall i, 0 <= i < n -> passedOver (byteAt (buffer r) (offset r + i)))
    /\ ((skipToNextObject_loop fuel r = (Ok tt, set_offset (offset r + n + 1) r)
         /\ tagIs (byteAt (buffer r) (offset r + n)) SerializationTag.EndObject = true)
        \/ (skipToNextObject_loop fuel r = (Ok tt, set_offset (offset r + n) r)
            /\ tagIs (byteAt (buffer r) (offset r + n))
                     SerializationTag.BeginPrivateObject = true)
        \/ (skipToNextObject_loop fuel r = (Ok tt, set_offset (offset r + n) r)
            /\ remaining r <= n)).
Proof.
  induction fuel as [|fuel IH]; intros r Hrem.
  - exists 0. split; [lia|]. split; [intros i Hi; lia|].
    right. right. unfold offset. rewrite set_offset_same.
    split; [reflexivity | simpl in Hrem; lia].
  - cbn [skipToNextObject_loop].
    destruct (0 <? remaining r) eqn:Epos.
    2: { exists 0. split; [lia|]. split; [intros i Hi; lia|].
         right. right. unfold offset. rewrite set_offset_same.
         split; [reflexivity | apply Z.ltb_ge in Epos; lia]. }
    apply Z.ltb_lt in Epos.
    assert (Hb : hasBytes r 1 = true).
    { unfold hasBytes, remaining in *. apply Z.leb_le. lia. }
    unfold bind, peekByte. rewrite Hb. cbn [negb].
    destruct (tagIs (byteAt (buffer r) (_offset r)) SerializationTag.EndObject) eqn:Eend.
    + exists 0. split; [lia|]. split; [intros i Hi; lia|].
      left. rewrite (readByte_ok _ Hb). unfold offset.
      rewrite Z.add_0_r. split; [reflexivity | exact Eend].
    + destruct (tagIs (byteAt (buffer r) (_offset r))
                      SerializationTag.BeginPrivateObject) eqn:Ebegin.
      * exists 0. split; [lia|]. split; [intros i Hi; lia|].
        right. left. unfold offset. rewrite set_offset_same, Z.add_0_r.
        split; [reflexivity | exact Ebegin].
      * rewrite (readByte_ok _ Hb).
        destruct (IH (set_offset (_offset r + 1) r)) as (n & Hn & Hpass & Hstop).
        { rewrite Nat2Z.inj_succ in Hrem.
          unfold remaining, set_offset in *. cbn [buffer _offset]. lia. }
        exists (n + 1). split; [lia|].
        unfold offset, set_offset in *. cbn [buffer _offset] in *. split.
        -- intros i Hi. destruct (Z.eq_dec i 0) as [->|Hne].
           ++ rewrite Z.add_0_r. split; assumption.
           ++ replace (_offset r + i) with (_offset r + 1 + (i - 1)) by lia.
              apply Hpass. lia.
        -- replace (_offset r + (n + 1)) with (_offset r + 1 + n) by lia.
           unfold remaining in *. cbn [buffer _offset] in *.
           destruct Hstop as [[H1 H2] | [[H1 H2] | [H1 H2]]].
           ++ left. split; [exact H1 | exact H2].
           ++ right. left. split; [exact H1 | exact H2].
           ++ right. right. split; [exact H1 | lia].
Qed.

(** X16: [skipToNextObject] never throws and changes nothing but the
    offset of the reader. It passes over bytes that are neither
    [EndObject] nor [BeginPrivateObject] and stops in one of three ways:
    just behind the first [EndObject], just before the first
    [BeginPrivateObject], or where no byte is left. *)
Theorem X16_skipToNextObject_stops (w : World) :
  let r := Parser.reader (this w) in
  exists n,
    0 <= n
    /\ (forall i, 0 <= i < n -> passedOver (byteAt (buffer r) (offset r + i)))
    /\ ((skipToNextObject w
         = (Ok tt, updThis (Parser.set_reader (set_offset (offset r + n + 1) r)) w)
         /\ tagIs (byteAt (buffer r) (offset r + n)) SerializationTag.EndObject = true)
        \/ (skipToNextObject w
            = (Ok tt, updThis (Parser.set_reader (set_offset (offset r + n) r)) w)
            /\ tagIs (byteAt (buffer r) (offset r + n))
                     SerializationTag.BeginPrivateObject = true)
        \/ (skipToNextObject w
            = (Ok tt, updThis (Parser.set_reader (set_offset (offset r + n) r)) w)
            /\ remaining r <= n)).
Proof.
  intros r.
  destruct (skipToNextObject_loop_stops (Z.to_nat (remaining r)) r ltac:(lia))
    as (n & Hn & Hpass & Hstop).
  exists n. split; [exact Hn|]. split; [exact Hpass|].
  unfold skipToNextObject, onReader, zoom. fold r.
  destruct Hstop as [[H1 H2] | [[H1 H2] | [H1 H2]]]; rewrite H1; auto.
Qed.

(** ** The stack ids of a stack block *)

Lemma onlyStacks_refl w : onlyStacks w w.
Proof. exists (Parser.stacks (this w)). destruct w as [[] ?]. reflexivity. Qed.

Lemma setStack_onlyStacks w w' currentId addresses :
  onlyStacks w w' -> onlyStacks w (setStack currentId addresses w').
Proof.
  intros [stacks ->]. eexists. unfold setStack, updThis.
  cbn [this result Parser.set_stacks Parser.stacks Parser.reader Parser.metadata
       Parser.pointerSize Parser.processId Parser.errors Parser.typeRegistry
       Parser.nextTypeIndex Parser.debugInfo Parser.cpuSamples].
  reflexivity.
Qed.

(** The loop of [parseStackBlock] writes the stack ids from [currentId]
    on, one for each entry that is left. *)
Lemma parseStackBlock_loop_range fuel : forall count i currentId s k,
  k < currentId \/ currentId + (count - i) <= k ->
  JSMap.get k (Parser.stacks
                 (this (snd (snd (parseStackBlock_loop fuel count i currentId s)))))
  = JSMap.get k (Parser.stacks (this (snd s))).
Proof.
  induction fuel as [|fuel IH]; intros count i currentId s k Hk;
    cbn [parseStackBlock_loop]; [reflexivity|].
  destruct ((i <? count) && (4 <=? remaining (fst s))) eqn:Econd; [|reflexivity].
  apply andb_true_iff in Econd. destruct Econd as [Ei _]. apply Z.ltb_lt in Ei.
  unfold bind.
  destruct (onLocal (parseStackEntry _) s) as [[e|err] s1] eqn:E.
  2: { cbn [snd]. apply onLocal_inv in E. destruct E as [_ ->]. reflexivity. }
  apply onLocal_inv in E. destruct E as [_ Es1].
  destruct e as [|stackSize addresses];
    [unfold ret; cbn [snd]; rewrite Es1; reflexivity|].
  unfold onOuter, zoom, modify. cbn [fst snd].
  rewrite IH by lia. cbn [snd]. rewrite Es1. unfold setStack.
  cbn [this updThis Parser.stacks Parser.set_stacks].
  apply JSMap_get_set_other. lia.
Qed.

(** X17: [parseStackBlock] never throws and changes nothing but the stack
    table of the parser, and of that table only ids that the block
    declares: with the first id and the count that the block starts with,
    the entries under the ids below the first id and from the first id
    plus the count on are as they were. *)
Theorem X17_stack_block_ids (data : list byte) (w : World) :
  let w' := snd (parseStackBlock data w) in
  fst (parseStackBlock data w) = Ok tt
  /\ onlyStacks w w'
  /\ forall firstId r1 count r2 k,
       readUInt32LE (mkReader data 0) = (Ok firstId, r1) ->
       readUInt32LE r1 = (Ok count, r2) ->
       k < firstId \/ firstId + count <= k ->
       JSMap.get k (Parser.stacks (this w')) = JSMap.get k (Parser.stacks (this w)).
Proof.
  cbv zeta. split; [apply silent_catch_ok|]. split.
  - apply (parseStackBlock_preserves (onlyStacks w)); [|apply onlyStacks_refl].
    intros w0 currentId addresses H. apply setStack_onlyStacks. exact H.
  - intros firstId r1 count r2 k H1 H2 Hk.
    unfold parseStackBlock, with_local, try_catch, bind, onLocal, zoom.
    cbn [fst snd]. rewrite H1. cbn [fst snd]. rewrite H2. cbn [fst snd].
    pose proof (parseStackBlock_loop_range (S (List.length data)) count 0 firstId
                  (r2, w) k ltac:(lia)) as Hloop.
    cbn [snd] in Hloop.
    destruct (parseStackBlock_loop (S (List.length data)) count 0 firstId (r2, w))
      as [[u|e] s']; cbn [snd] in *; exact Hloop.
Qed.

(** X17 on the block of the counterexample to C6, which declares one stack
    with the id 1: the ids 0 and 2 stay free. *)
Lemma X17_stack_block_ids_witness :
  let data := [x01; x00; x00; x00;  x01; x00; x00; x00;  x0c; x00; x00; x00;
               x00; x10; x00; x00; x00; x00; x00; x00;  x00; x20; x00; x00] in
  let w := mkWorld (Parser.initial []) ParseResult.initial in
  JSMap.get 0 (Parser.stacks (this (snd (parseStackBlock data w))))
  = JSMap.get 0 (Parser.stacks (this w))
  /\ JSMap.get 2 (Parser.stacks (this (snd (parseStackBlock data w))))
     = JSMap.get 2 (Parser.stacks (this w)).
Proof.
  intros data w.
  destruct (X17_stack_block_ids data w) as (_ & _ & H).
  split.
  - apply (H 1 (mkReader data 4) 1 (mkReader data 8) 0); [reflexivity | reflexivity | lia].
  - apply (H 1 (mkReader data 4) 1 (mkReader data 8) 2); [reflexivity | reflexivity | lia].
Defined.

(** ** The helpers of the editor provider *)

Lemma flat_map_flat_map {A B C} (f : A -> list B) (g : B -> list C) l :
  flat_map g (flat_map f l) = flat_map (fun x => flat_map g (f x)) l.
Proof.
  induction l as [|x l IH]; cbn [flat_map]; [reflexivity|].
  rewrite flat_map_app, IH. reflexivity.
Qed.

Lemma escapeHtml_char c :
  escapeHtml [c] = escapeChar c.
Proof.
  unfold escapeHtml, escapeChar, replaceAll. cbn [flat_map]. rewrite !app_nil_r.
  destruct (c =? 38); [reflexivity|]. cbn [flat_map]. rewrite !app_nil_r.
  destruct (c =? 60); [reflexivity|]. cbn [flat_map]. rewrite !app_nil_r.
  destruct (c =? 62); [reflexivity|]. cbn [flat_map]. rewrite !app_nil_r.
  destruct (c =? 34); [reflexivity|]. cbn [flat_map]. rewrite !app_nil_r.
  destruct (c =? 39); reflexivity.
Qed.

Lemma escapeHtml_flat_map text : escapeHtml text = flat_map escapeChar text.
Proof.
  unfold escapeHtml, replaceAll. rewrite !flat_map_flat_map.
  apply flat_map_ext. intros c.
  pose proof (escapeHtml_char c) as H. unfold escapeHtml, replaceAll in H.
  rewrite !flat_map_flat_map in H. cbn [flat_map] in H.
  rewrite app_nil_r in H. exact H.
Qed.

Lemma escapeChar_safe c : Forall (fun x => ~ markupChar x) (escapeChar c).
Proof.
  unfold escapeChar, markupChar.
  destruct (c =? 38); [repeat constructor; cbn; lia|].
  destruct (c =? 60) eqn:E60; [repeat constructor; cbn; lia|].
  destruct (c =? 62) eqn:E62; [repeat constructor; cbn; lia|].
  destruct (c =? 34) eqn:E34; [repeat constructor; cbn; lia|].
  destruct (c =? 39) eqn:E39; [repeat constructor; cbn; lia|].
  apply Z.eqb_neq in E60, E62, E34, E39. repeat constructor. lia.
Qed.

(** X18: [escapeHtml] works like one pass over the text that puts an
    entity in the place of each ampersand, angle bracket and quote and
    leaves every other character: the ampersands of the entities are not
    escaped again by the later [replace] calls. Its result holds no angle
    bracket and no quote, is at least as long as the text, and is the text
    itself when the text holds none of the five characters. *)
Theorem X18_escapeHtml_safe (text : jsstring) :
  escapeHtml text = flat_map escapeChar text
  /\ Forall (fun c => ~ markupChar c) (escapeHtml text)
  /\ (List.length text <= List.length (escapeHtml text))%nat
  /\ (Forall (fun c => c <> 38 /\ ~ markupChar c) text -> escapeHtml text = text).
Proof.
  split; [apply escapeHtml_flat_map|]. rewrite escapeHtml_flat_map.
  split; [|split].
  - induction text as [|c text IH]; cbn [flat_map]; [constructor|].
    apply Forall_app. split; [apply escapeChar_safe | exact IH].
  - induction text as [|c text IH]; cbn [flat_map]; [lia|].
    rewrite length_app. cbn [List.length].
    assert (1 <= List.length (escapeChar c))%nat; [|lia].
    unfold escapeChar.
    repeat match goal with
           | |- context [if ?b then _ else _] => destruct b
           end; cbn; lia.
  - induction 1 as [|c text [H38 Hm] _ IH]; cbn [flat_map]; [reflexivity|].
    rewrite IH. unfold escapeChar, markupChar in *.
    destruct (c =? 38) eqn:E38; [apply Z.eqb_eq in E38; lia|].
    destruct (c =? 60) eqn:E60; [apply Z.eqb_eq in E60; lia|].
    destruct (c =? 62) eqn:E62; [apply Z.eqb_eq in E62; lia|].
    destruct (c =? 34) eqn:E34; [apply Z.eqb_eq in E34; lia|].
    destruct (c =? 39) eqn:E39; [apply Z.eqb_eq in E39; lia|].
    reflexivity.
Qed.

(** X18 on a type name with angle brackets. *)
Lemma X18_escapeHtml_safe_witness :
  escapeHtml (lit "List<T>&Co") = lit "List&lt;T&gt;&amp;Co"
  /\ escapeHtml (lit "System.String") = lit "System.String".
Proof.
  split; [reflexivity|].
  apply (proj2 (proj2 (proj2 (X18_escapeHtml_safe (lit "System.String"))))).
  unfold markupChar. repeat constructor; cbn; lia.
Defined.

(** ** The hash of the web view *)

Lemma ToInt32_shift x t : ToInt32 (x + 2 ^ 32 * t) = ToInt32 x.
Proof.
  unfold ToInt32. f_equal.
  replace (x + 2 ^ 32 * t + 2 ^ 31) with (x + 2 ^ 31 + t * 2 ^ 32) by ring.
  apply Z_mod_plus_full.
Qed.

Lemma ToInt32_range x : - 2 ^ 31 <= ToInt32 x < 2 ^ 31.
Proof.
  unfold ToInt32. pose proof (Z.mod_pos_bound (x + 2 ^ 31) (2 ^ 32)). lia.
Qed.

Lemma hashCode_step hash p c :
  hash = ToInt32 p ->
  ToInt32 (ToInt32 (Z.shiftl hash 5) - hash + c) = ToInt32 (31 * p + c).
Proof.
  intros ->. rewrite Z.shiftl_mul_pow2 by lia.
  destruct (ToInt32_cong p) as [t0 H0].
  destruct (ToInt32_cong (ToInt32 p * 2 ^ 5)) as [t1 H1].
  rewrite H1, H0.
  replace ((p + 2 ^ 32 * t0) * 2 ^ 5 + 2 ^ 32 * t1 - (p + 2 ^ 32 * t0) + c)
    with (31 * p + c + 2 ^ 32 * (31 * t0 + t1)) by ring.
  apply ToInt32_shift.
Qed.

(** X19: [hashCode] is the polynomial in 31 of the code units of the
    string, cut to a signed number of 32 bits. *)
Theorem X19_hashCode_polynomial (str : jsstring) :
  hashCode str = ToInt32 (polynomial31 str)
  /\ - 2 ^ 31 <= hashCode str < 2 ^ 31.
Proof.
  assert (H : hashCode str = ToInt32 (polynomial31 str)).
  { unfold hashCode, polynomial31.
    assert (Hgen : forall hash p, hash = ToInt32 p ->
              fold_left (fun hash c => ToInt32 (ToInt32 (Z.shiftl hash 5) - hash + c))
                        str hash
              = ToInt32 (fold_left (fun p c => 31 * p + c) str p)).
    { induction str as [|c str IH]; intros hash p Hh; cbn [fold_left]; [exact Hh|].
      apply IH. apply hashCode_step. exact Hh. }
    apply Hgen. reflexivity. }
  split; [exact H|]. rewrite H. apply ToInt32_range.
Qed.

(** ** The method profiles *)

Lemma JSMap_has_set {K V} {dec : EqDec K} (k k' : K) (v : V) (m : JSMap.t K V) :
  JSMap.has k (JSMap.set k' v m) = if eq_dec k k' then true else JSMap.has k m.
Proof.
  unfold JSMap.has. rewrite JSMap_get_set. destruct (eq_dec k k'); reflexivity.
Qed.

Lemma JSMap_In_get {K V} {dec : EqDec K} (k : K) (v : V) (m : JSMap.t K V) :
  In (k, v) m -> JSMap.has k m = true.
Proof.
  unfold JSMap.has.
  induction m as [|[k0 v0] m IH]; cbn [JSMap.get In]; [contradiction|].
  intros [H | H]; destruct (eq_dec k k0) as [->|Hne]; try reflexivity.
  - inversion H; subst. contradiction.
  - apply IH. exact H.
Qed.

Lemma JSMap_keys_has {K V} {dec : EqDec K} (k : K) (m : JSMap.t K V) :
  In k (JSMap.keys m) -> JSMap.has k m = true.
Proof.
  unfold JSMap.keys. intros H. apply in_map_iff in H.
  destruct H as ([k0 v] & Hk & Hin). cbn [fst] in Hk. subst k0.
  apply (JSMap_In_get k v m Hin).
Qed.

Lemma JSSet_ofList_In {K} {dec : EqDec K} (k : K) (l : list K) :
  In k (JSSet.ofList l) -> In k l.
Proof.
  unfold JSSet.ofList.
  assert (Hgen : forall s, In k (fold_left (fun s k => JSSet.add k s) l s) ->
                           In k s \/ In k l).
  { induction l as [|x l IH]; intros s H; cbn [fold_left] in H; [left; exact H|].
    destruct (IH _ H) as [H' | H']; [|right; right; exact H'].
    unfold JSSet.add in H'. destruct (JSSet.has x s); [left; exact H'|].
    apply in_app_or in H'. destruct H' as [H' | [-> | []]];
      [left; exact H' | right; left; reflexivity]. }
  intros H. destruct (Hgen _ H) as [[] | H']. exact H'.
Qed.

Lemma getOr0_has {K} {dec : EqDec K} (k : K) (m : JSMap.t K Z) :
  JSMap.has k m = true -> (forall k' v, In (k', v) m -> 1 <= v) -> 1 <= getOr0 k m.
Proof.
  unfold JSMap.has, getOr0. intros H Hm.
  destruct (JSMap.get k m) as [v|] eqn:E; [|discriminate].
  apply (Hm k). apply JSMap_get_In. exact E.
Qed.

Lemma creditFrame_sound sampleCount i name c :
  1 <= sampleCount ->
  (i = 0 -> Counts.seenMethods c = []) ->
  countsSound (Counts.inclusiveCounts c) (Counts.exclusiveCounts c) ->
  countsSound (Counts.inclusiveCounts (creditFrame sampleCount i name c))
              (Counts.exclusiveCounts (creditFrame sampleCount i name c)).
Proof.
  intros Hc Hseen (Hinc & Hexc & Hsub).
  assert (Hi0 : 0 <= getOr0 name (Counts.inclusiveCounts c)).
  { apply getOr0_bound; [lia|]. intros k v Hin. specialize (Hinc k v Hin). lia. }
  assert (He0 : 0 <= getOr0 name (Counts.exclusiveCounts c)).
  { apply getOr0_bound; [lia|]. intros k v Hin. specialize (Hexc k v Hin). lia. }
  unfold creditFrame. destruct (i =? 0) eqn:Ei.
  - apply Z.eqb_eq in Ei. rewrite (Hseen Ei).
    change (JSSet.has name []) with false.
    cbn [Counts.inclusiveCounts Counts.exclusiveCounts]. repeat split.
    + intros k v Hin. apply JSMap_In_set in Hin.
      destruct Hin as [Hin | [_ ->]]; [apply (Hinc k v Hin) | lia].
    + intros k v Hin. apply JSMap_In_set in Hin.
      destruct Hin as [Hin | [_ ->]]; [apply (Hexc k v Hin) | lia].
    + intros k. rewrite !JSMap_has_set. destruct (eq_dec k name); [reflexivity|].
      apply Hsub.
  - destruct (JSSet.has name (Counts.seenMethods c));
      cbn [Counts.inclusiveCounts Counts.exclusiveCounts]; repeat split;
      try assumption.
    + intros k v Hin. apply JSMap_In_set in Hin.
      destruct Hin as [Hin | [_ ->]]; [apply (Hinc k v Hin) | lia].
    + intros k Hk. rewrite JSMap_has_set. destruct (eq_dec k name); [reflexivity|].
      apply Hsub. exact Hk.
Qed.

Lemma creditStack_sound methodAddresses sampleCount addresses : forall i c,
  1 <= sampleCount -> 0 <= i ->
  (i = 0 -> Counts.seenMethods c = []) ->
  countsSound (Counts.inclusiveCounts c) (Counts.exclusiveCounts c) ->
  let c' := creditStack methodAddresses sampleCount i addresses c in
  countsSound (Counts.inclusiveCounts c') (Counts.exclusiveCounts c').
Proof.
  induction addresses as [|addr rest IH]; intros i c Hc Hi Hseen Hs;
    cbn [creditStack]; [exact Hs|].
  apply IH; [exact Hc | lia | intros; lia |].
  apply creditFrame_sound; assumption.
Qed.

Lemma creditSamples_sound methodAddresses stacks cpuSamples : forall counts,
  samplesPositive cpuSamples ->
  countsSound (fst counts) (snd counts) ->
  let counts' := fold_left (creditSample methodAddresses stacks) cpuSamples counts in
  countsSound (fst counts') (snd counts').
Proof.
  induction cpuSamples as [|[stackId sampleCount] rest IH]; intros counts Hpos Hs;
    cbn [fold_left]; [exact Hs|].
  apply IH.
  - intros k c Hin. apply (Hpos k c). right. exact Hin.
  - unfold creditSample.
    destruct (JSMap.get stackId stacks) as [stack|]; [|exact Hs].
    destruct (StackInfo.addresses stack) as [|a rest'] eqn:Ea; [exact Hs|].
    cbn [fst snd].
    apply (creditStack_sound methodAddresses sampleCount (a :: rest') 0
             (Counts.mk JSSet.empty (fst counts) (snd counts)));
      [|lia | reflexivity | exact Hs].
    apply (Hpos stackId sampleCount). left. reflexivity.
Qed.

Lemma setProfiles_sound inclusiveCounts exclusiveCounts names : forall profiles,
  countsSound inclusiveCounts exclusiveCounts ->
  (forall name, In name names ->
     JSMap.has name inclusiveCounts = true \/ JSMap.has name exclusiveCounts = true) ->
  (forall name p, JSMap.get name profiles = Some p -> profileSound p) ->
  forall name p,
    JSMap.get name (fold_left (setProfile inclusiveCounts exclusiveCounts) names profiles)
    = Some p ->
    profileSound p.
Proof.
  induction names as [|n names IH]; intros profiles Hs Hnames Hp; cbn [fold_left];
    [exact Hp|].
  apply IH; [exact Hs | intros name Hin; apply Hnames; right; exact Hin |].
  intros name p. unfold setProfile. rewrite JSMap_get_set.
  destruct (eq_dec name n) as [->|Hne]; [|apply Hp].
  intros H. inversion H. unfold profileSound, samplingIntervalMs.
  cbn [MethodProfile.exclusiveCount MethodProfile.inclusiveCount
       MethodProfile.inclusiveTimeMs MethodProfile.exclusiveTimeMs].
  destruct Hs as (Hinc & Hexc & Hsub).
  assert (Hhas : JSMap.has n inclusiveCounts = true).
  { destruct (Hnames n (or_introl eq_refl)) as [Hh | Hh]; [exact Hh | apply Hsub, Hh]. }
  pose proof (getOr0_has n inclusiveCounts Hhas Hinc) as Hge1.
  assert (Hge0 : 0 <= getOr0 n exclusiveCounts).
  { apply getOr0_bound; [lia|]. intros k v Hin. specialize (Hexc k v Hin). lia. }
  repeat split; lia.
Qed.

Lemma computeMethodProfiles_sound w :
  samplesPositive (Parser.cpuSamples (this w)) ->
  ParseResult.methodProfiles (result w) = [] ->
  forall name p,
    JSMap.get name (ParseResult.methodProfiles (result (computeMethodProfiles w)))
    = Some p ->
    profileSound p.
Proof.
  intros Hpos Hempty. unfold computeMethodProfiles. cbv zeta.
  cbn [result updResult ParseResult.methodProfiles ParseResult.set_methodProfiles].
  rewrite Hempty.
  apply setProfiles_sound.
  - apply creditSamples_sound; [exact Hpos|].
    split; [|split]; [intros k v [] | intros k v [] | intros k H; discriminate].
  - intros name Hin. apply JSSet_ofList_In in Hin. apply in_app_or in Hin.
    destruct Hin as [Hin | Hin]; [left | right]; apply JSMap_keys_has; exact Hin.
  - intros name p H. discriminate.
Qed.

Lemma parseObjectStream_samplesPositive w :
  samplesPositive (Parser.cpuSamples (this w)) ->
  samplesPositive (Parser.cpuSamples (this (parseObjectStream w))).
Proof.
  apply (parseObjectStream_preserves
           (fun w => samplesPositive (Parser.cpuSamples (this w))));
    try (intros; assumption).
  intros w0 stackId _ Hpos k c Hin.
  cbn [this updThis Parser.cpuSamples Parser.set_cpuSamples] in Hin.
  apply JSMap_In_set in Hin. destruct Hin as [Hin | [_ ->]].
  - apply (Hpos k c Hin).
  - assert (0 <= getOr0 stackId (Parser.cpuSamples (this w0))); [|lia].
    apply getOr0_bound; [lia|]. intros k' v Hin'. specialize (Hpos k' v Hin'). lia.
Qed.

(** X20: every profile in the result of a parse has at least one
    inclusive sample, no negative exclusive count, and an inclusive and an
    exclusive time of as many milliseconds as samples. *)
Theorem X20_profiles_sound (buf : list byte) (name : jsstring) (p : MethodProfile.t) :
  JSMap.get name (ParseResult.methodProfiles (parse buf)) = Some p ->
  1 <= MethodProfile.inclusiveCount p
  /\ 0 <= MethodProfile.exclusiveCount p
  /\ MethodProfile.inclusiveTimeMs p = MethodProfile.inclusiveCount p
  /\ MethodProfile.exclusiveTimeMs p = MethodProfile.exclusiveCount p.
Proof.
  revert name p. change (forall name p,
    JSMap.get name (ParseResult.methodProfiles (parse buf)) = Some p -> profileSound p).
  destruct (parse_cases buf) as [[e He] | (_ & _ & r & Hr)].
  - rewrite He. intros name p H. discriminate.
  - rewrite Hr. clear Hr. unfold finishParse.
    rewrite afterObjectStream_methodProfiles.
    match goal with
    | |- context [parseObjectStream ?w0] =>
        pose proof (parseObjectStream_samplesPositive w0) as Hpos;
        pose proof (parseObjectStream_tablesKeyed w0) as Hkeyed;
        generalize dependent (parseObjectStream w0)
    end.
    intros w1 Hpos Hkeyed.
    apply computeMethodProfiles_sound.
    + apply Hpos. intros k c [].
    + apply Hkeyed.
      repeat split; try apply keyedBy_empty. intros k info H. discriminate.
Qed.

(** X20 on the profile of [NS.Foo] in the method-resolution trace. *)
Lemma X20_profiles_sound_witness :
  let p := MethodProfile.mk (lit "NS.Foo") 1 1 1 1 in
  1 <= MethodProfile.inclusiveCount p
  /\ 0 <= MethodProfile.exclusiveCount p
  /\ MethodProfile.inclusiveTimeMs p = MethodProfile.inclusiveCount p
  /\ MethodProfile.exclusiveTimeMs p = MethodProfile.exclusiveCount p.
Proof.
  intros p.
  apply (X20_profiles_sound methodResolutionTrace (lit "NS.Foo") p).
  vm_compute. reflexivity.
Defined.

(** ** The shape of the flame graph *)

Lemma JSMap_keys_set {K V} {dec : EqDec K} (k : K) (v : V) (m : JSMap.t K V) :
  JSMap.keys (JSMap.set k v m)
  = if JSMap.has k m then JSMap.keys m else JSMap.keys m ++ [k].
Proof.
  unfold JSMap.keys, JSMap.has.
  induction m as [|[k0 v0] m IH]; cbn [JSMap.set JSMap.get map fst app]; [reflexivity|].
  destruct (eq_dec k k0) as [->|Hne]; cbn [map fst]; [reflexivity|].
  rewrite IH. destruct (JSMap.get k m); reflexivity.
Qed.

Lemma JSMap_has_keys {K V} {dec : EqDec K} (k : K) (m : JSMap.t K V) :
  JSMap.has k m = false -> ~ In k (JSMap.keys m).
Proof.
  intros H Hin. apply JSMap_keys_has in Hin. congruence.
Qed.

Lemma distinctKeys_set {K V} {dec : EqDec K} (k : K) (v : V) (m : JSMap.t K V) :
  distinctKeys m -> distinctKeys (JSMap.set k v m).
Proof.
  unfold distinctKeys. intros H. rewrite JSMap_keys_set.
  destruct (JSMap.has k m) eqn:E; [exact H|].
  apply NoDup_app; [exact H | repeat constructor; intros [] |].
  intros x Hx [<- | []]. apply (JSMap_has_keys k m E Hx).
Qed.

Lemma JSMap_set_absent {K V} {dec : EqDec K} (k : K) (v : V) (m : JSMap.t K V) :
  ~ In k (JSMap.keys m) -> JSMap.set k v m = m ++ [(k, v)].
Proof.
  unfold JSMap.keys.
  induction m as [|[k0 v0] m IH]; cbn [JSMap.set map fst app In]; [reflexivity|].
  intros H. destruct (eq_dec k k0) as [->|Hne]; [exfalso; apply H; left; reflexivity|].
  rewrite IH; [reflexivity|]. intros Hin. apply H. right. exact Hin.
Qed.

Lemma JSMap_get_distinct {K V} {dec : EqDec K} (k : K) (v : V) (m : JSMap.t K V) :
  distinctKeys m -> In (k, v) m -> JSMap.get k m = Some v.
Proof.
  unfold distinctKeys, JSMap.keys.
  induction m as [|[k0 v0] m IH]; cbn [JSMap.get map fst In]; [contradiction|].
  intros Hd [H | H].
  - inversion H; subst. destruct (eq_dec k k); [reflexivity | contradiction].
  - inversion Hd as [|x l Hnot Hd']; subst.
    destruct (eq_dec k k0) as [->|Hne]; [|apply IH; assumption].
    exfalso. apply Hnot. apply (in_map fst _ _ H).
Qed.

(** *** The tree holds every child under its name *)

Lemma newFlameNode_keyed nm : keyedTree (newFlameNode nm).
Proof.
  constructor; [constructor|]. intros k c [].
Qed.

Lemma insertPath_name names data current :
  name (insertPath names data current) = name current.
Proof. destruct names; reflexivity. Qed.

Lemma insertPath_size names data current :
  size (insertPath names data current) = size current.
Proof. destruct names; reflexivity. Qed.

Lemma addSample_keyed data node : keyedTree node -> keyedTree (addSample data node).
Proof.
  intros H. inversion H; subst. constructor; assumption.
Qed.

Lemma insertPath_keyed names data : forall current,
  keyedTree current -> keyedTree (insertPath names data current).
Proof.
  induction names as [|nm rest IH]; intros current H; cbn [insertPath]; [exact H|].
  cbv zeta. inversion H as [n Hd Hc]; subst.
  constructor; cbn [children].
  - apply distinctKeys_set. exact Hd.
  - intros k c Hin. apply JSMap_In_set in Hin. destruct Hin as [Hin | [-> ->]].
    + apply Hc. exact Hin.
    + rewrite insertPath_name. cbn [addSample name].
      destruct (JSMap.get nm (children current)) as [c0|] eqn:E.
      * apply JSMap_get_In in E. destruct (Hc nm c0 E) as [Hn Hk].
        split; [exact Hn|]. apply IH. apply addSample_keyed. exact Hk.
      * split; [reflexivity|]. apply IH. apply addSample_keyed.
        apply newFlameNode_keyed.
Qed.

Lemma addStackSamples_keyed methodAddresses stacks sampleData : forall root,
  keyedTree root ->
  keyedTree (fold_left (addStackSample methodAddresses stacks) sampleData root).
Proof.
  induction sampleData as [|entry rest IH]; intros root H; cbn [fold_left]; [exact H|].
  apply IH. unfold addStackSample.
  destruct (JSMap.get (fst entry) stacks) as [stack|]; [|exact H].
  destruct (StackInfo.addresses stack); [exact H|].
  apply insertPath_keyed. apply addSample_keyed. exact H.
Qed.

Lemma keyedTree_subnode n root :
  subnode n root -> keyedTree root -> keyedTree n.
Proof.
  induction 1 as [n | n k c m Hin Hsub IH]; intros H; [exact H|].
  apply IH. inversion H as [n0 Hd Hc]; subst. apply (Hc k c Hin).
Qed.

Lemma addStackSamples_name methodAddresses stacks sampleData : forall root,
  name (fold_left (addStackSample methodAddresses stacks) sampleData root) = name root.
Proof.
  induction sampleData as [|entry rest IH]; intros root; cbn [fold_left]; [reflexivity|].
  rewrite IH. unfold addStackSample.
  destruct (JSMap.get (fst entry) stacks) as [stack|]; [|reflexivity].
  destruct (StackInfo.addresses stack); [reflexivity|].
  rewrite insertPath_name. reflexivity.
Qed.

(** X21: in the tree of the flame-graph builder, of either variant and on
    any result, the root is named [root], and every node holds its children
    under distinct keys, each child under its own name: the frames of equal
    name below one node are merged into one child. *)
Theorem X21_flame_children_keyed (res : ParseResult.t) (mode : FlameMode)
    (root : FlameNode) :
  buildFlameTree res mode = Some root ->
  name root = lit "root"
  /\ forall n, subnode n root ->
       distinctKeys (children n)
       /\ forall k c, In (k, c) (children n) -> name c = k.
Proof.
  unfold buildFlameTree.
  destruct (JSMap.size (ParseResult.stacks res) =? 0); [discriminate|].
  destruct (match mode with cpu => _ | allocation => _ end); [discriminate|].
  intros H. inversion H; subst; clear H. split.
  - rewrite addStackSamples_name. reflexivity.
  - intros n Hn.
    assert (Hk : keyedTree n).
    { apply (keyedTree_subnode n _ Hn). apply addStackSamples_keyed.
      apply newFlameNode_keyed. }
    inversion Hk as [n0 Hd Hc]; subst. split; [exact Hd|].
    intros k c Hin. apply (Hc k c Hin).
Qed.

(** X21 on the tree of the method-resolution trace. *)
Lemma X21_flame_children_keyed_witness :
  name resolvedFlameTree = lit "root"
  /\ forall n, subnode n resolvedFlameTree ->
       distinctKeys (children n)
       /\ forall k c, In (k, c) (children n) -> name c = k.
Proof.
  apply (X21_flame_children_keyed (parse methodResolutionTrace) cpu).
  vm_compute. reflexivity.
Defined.

(** *** The weight of the root in the CPU variant *)

Lemma buildSampleData_cpu_fold (l : list StackInfo.t) : forall acc : JSMap.t Z SampleData.t,
  NoDup (JSMap.keys acc ++ map StackInfo.stackId (filter hasFrames l)) ->
  fold_left
    (fun sampleData stack =>
       match StackInfo.addresses stack with
       | _ :: _ => JSMap.set (StackInfo.stackId stack) (SampleData.mk 1 0 None) sampleData
       | [] => sampleData
       end) l acc
  = acc ++ map cpuEntry (filter hasFrames l).
Proof.
  induction l as [|stack l IH]; intros acc Hd; cbn [fold_left filter map].
  - rewrite app_nil_r. reflexivity.
  - unfold hasFrames at 1. cbn [filter] in Hd. unfold hasFrames at 1 in Hd.
    destruct (StackInfo.addresses stack) as [|a rest].
    + apply IH. exact Hd.
    + cbn [map] in *. rewrite JSMap_set_absent.
      * rewrite IH.
        -- rewrite <- app_assoc. reflexivity.
        -- unfold JSMap.keys in *. rewrite map_app, <- app_assoc. exact Hd.
      * apply NoDup_remove_2 in Hd. intros Hin. apply Hd.
        apply in_or_app. left. exact Hin.
Qed.

Lemma filter_keeps_distinct {V K} (keep : V -> bool) (key : V -> K) :
  forall items : list V,
    NoDup (map key items) -> NoDup (map key (filter keep items)).
Proof.
  intros items. induction items as [|v items IH]; cbn [map filter]; intros H;
    [constructor|].
  inversion H as [|y l' Hnot Hd]; subst.
  destruct (keep v); [|apply IH; exact Hd].
  cbn [map]. constructor; [|apply IH; exact Hd].
  intros Hin. apply Hnot. apply in_map_iff in Hin.
  destruct Hin as (z & Hz & Hin). apply filter_In in Hin.
  rewrite <- Hz. apply in_map. apply Hin.
Qed.

Lemma stack_ids_are_keys (stacks : JSMap.t Z StackInfo.t) :
  distinctKeys stacks -> keyedBy StackInfo.stackId stacks ->
  map StackInfo.stackId (JSMap.values stacks) = JSMap.keys stacks.
Proof.
  intros Hd Hk. unfold JSMap.values, JSMap.keys. rewrite map_map.
  apply map_ext_in. intros [k s] Hin. cbn [fst snd].
  apply (Hk k s). apply JSMap_get_distinct; assumption.
Qed.

Lemma buildSampleData_cpu res :
  distinctKeys (ParseResult.stacks res) ->
  keyedBy StackInfo.stackId (ParseResult.stacks res) ->
  buildSampleData res cpu = map cpuEntry (stacksWithFrames (ParseResult.stacks res)).
Proof.
  intros Hd Hk. unfold buildSampleData, stacksWithFrames.
  rewrite buildSampleData_cpu_fold; [reflexivity|].
  cbn [JSMap.keys JSMap.empty map app]. apply filter_keeps_distinct.
  rewrite stack_ids_are_keys; assumption.
Qed.

Lemma sumCountedWeights_cpu (stacks : JSMap.t Z StackInfo.t) (l : list StackInfo.t) :
  (forall s, In s l ->
     JSMap.get (StackInfo.stackId s) stacks = Some s /\ hasFrames s = true) ->
  sumCountedWeights stacks (map cpuEntry l) = Z.of_nat (List.length l).
Proof.
  unfold sumCountedWeights.
  induction l as [|s l IH]; intros H; cbn [map fold_right List.length]; [reflexivity|].
  rewrite IH; [|intros s' Hin; apply H; right; exact Hin].
  destruct (H s (or_introl eq_refl)) as [Hget Hf].
  unfold countedWeight, cpuEntry. cbn [fst snd]. rewrite Hget.
  unfold hasFrames in Hf. destruct (StackInfo.addresses s); [discriminate|].
  cbn [SampleData.count]. lia.
Qed.

Lemma addStackSamples_size methodAddresses stacks sampleData : forall root,
  (forall k d, In (k, d) sampleData -> SampleData.size d = 0) ->
  size (fold_left (addStackSample methodAddresses stacks) sampleData root) = size root.
Proof.
  induction sampleData as [|[k d] rest IH]; intros root H; cbn [fold_left];
    [reflexivity|].
  rewrite IH; [|intros k' d' Hin; apply (H k' d'); right; exact Hin].
  unfold addStackSample. cbn [fst snd].
  destruct (JSMap.get k stacks) as [stack|]; [|reflexivity].
  destruct (StackInfo.addresses stack); [reflexivity|].
  rewrite insertPath_size. cbn [addSample size].
  rewrite (H k d (or_introl eq_refl)). lia.
Qed.

Lemma buildFlameTree_size res mode root :
  (forall k d, In (k, d) (buildSampleData res mode) -> SampleData.size d = 0) ->
  buildFlameTree res mode = Some root ->
  size root = 0.
Proof.
  intros Hz. unfold buildFlameTree.
  destruct (JSMap.size (ParseResult.stacks res) =? 0); [discriminate|].
  destruct (match mode with cpu => _ | allocation => _ end); [discriminate|].
  intros H. inversion H; subst; clear H.
  rewrite addStackSamples_size; [reflexivity | exact Hz].
Qed.

Lemma afterObjectStream_stacks w1 :
  ParseResult.stacks (result (afterObjectStream w1)) = Parser.stacks (this w1).
Proof. reflexivity. Qed.

Lemma parseObjectStream_stacks_distinct w :
  distinctKeys (Parser.stacks (this w)) ->
  distinctKeys (Parser.stacks (this (parseObjectStream w))).
Proof.
  apply (parseObjectStream_preserves (fun w => distinctKeys (Parser.stacks (this w))));
    try (intros; assumption).
  intros w0 currentId addresses H. apply distinctKeys_set. exact H.
Qed.

Lemma parse_stacks_table buf :
  distinctKeys (ParseResult.stacks (parse buf))
  /\ keyedBy StackInfo.stackId (ParseResult.stacks (parse buf)).
Proof.
  destruct (parse_cases buf) as [[e He] | (_ & _ & r & Hr)].
  - rewrite He. split; [constructor | apply keyedBy_empty].
  - rewrite Hr. clear Hr. unfold finishParse. rewrite afterObjectStream_stacks.
    match goal with
    | |- context [parseObjectStream ?w0] =>
        pose proof (parseObjectStream_stacks_distinct w0) as Hd;
        pose proof (parseObjectStream_tablesKeyed w0) as Hk;
        generalize dependent (parseObjectStream w0)
    end.
    intros w1 Hd Hk. split.
    + apply Hd. constructor.
    + apply Hk. repeat split; try apply keyedBy_empty. intros k info H. discriminate.
Qed.

(** X22: the CPU flame graph of a parse weighs every stack once. Its root
    has as many samples as the result has stacks with at least one address,
    however often the profiler sampled each of them, and no size. *)
Theorem X22_cpu_flame_root (buf : list byte) (root : FlameNode) :
  buildFlameTree (parse buf) cpu = Some root ->
  samples root
  = Z.of_nat (List.length (stacksWithFrames (ParseResult.stacks (parse buf))))
  /\ size root = 0.
Proof.
  intros H. destruct (parse_stacks_table buf) as [Hd Hk].
  pose proof (buildSampleData_cpu (parse buf) Hd Hk) as Hdata.
  split.
  - destruct (buildFlameTree_weights (parse buf) cpu root
                (parse_allocationCountsNonneg buf) H) as [_ Hs].
    rewrite Hs, Hdata. apply sumCountedWeights_cpu.
    intros s Hin. unfold stacksWithFrames in Hin. apply filter_In in Hin.
    destruct Hin as [Hin Hf]. split; [|exact Hf].
    unfold JSMap.values in Hin. apply in_map_iff in Hin.
    destruct Hin as ([k s'] & Hs' & Hin). cbn [snd] in Hs'. subst s'.
    pose proof (JSMap_get_distinct k s _ Hd Hin) as Hget.
    rewrite (Hk k s Hget). exact Hget.
  - apply (buildFlameTree_size (parse buf) cpu root); [|exact H].
    rewrite Hdata. intros k d Hin. apply in_map_iff in Hin.
    destruct Hin as (s & Hs & _). inversion Hs. reflexivity.
Qed.

(** X22 on the method-resolution trace, which has one stack. *)
Lemma X22_cpu_flame_root_witness :
  samples resolvedFlameTree = 1 /\ size resolvedFlameTree = 0.
Proof.
  apply (X22_cpu_flame_root methodResolutionTrace resolvedFlameTree).
  vm_compute. reflexivity.
Defined.

(** ** The exclusive counts add up to the samples *)

Lemma JSSet_ofList_spec {K} {dec : EqDec K} (l : list K) :
  NoDup (JSSet.ofList l) /\ forall k, In k l -> In k (JSSet.ofList l).
Proof.
  unfold JSSet.ofList.
  assert (Hgen : forall s, NoDup s ->
            NoDup (fold_left (fun s k => JSSet.add k s) l s)
            /\ forall k, In k s \/ In k l ->
                         In k (fold_left (fun s k => JSSet.add k s) l s)).
  { induction l as [|x l IH]; intros s Hs; cbn [fold_left].
    - split; [exact Hs|]. intros k [H | []]. exact H.
    - destruct (IH (JSSet.add x s) (JSSet_add_NoDup x s Hs)) as [Hd Hin].
      split; [exact Hd|]. intros k [H | [<- | H]]; apply Hin.
      + left. apply JSSet_add_In. left. exact H.
      + left. apply JSSet_add_In. right. reflexivity.
      + right. exact H. }
  destruct (Hgen [] (NoDup_nil K)) as [Hd Hin]. split; [exact Hd|].
  intros k H. apply Hin. right. exact H.
Qed.

Lemma creditFrame_exclusive_sum sampleCount i name c :
  sumOver id (Counts.exclusiveCounts (creditFrame sampleCount i name c))
  = sumOver id (Counts.exclusiveCounts c) + (if i =? 0 then sampleCount else 0).
Proof.
  unfold creditFrame.
  assert (Hexc :
    sumOver id (if i =? 0
                then JSMap.set name (getOr0 name (Counts.exclusiveCounts c) + sampleCount)
                       (Counts.exclusiveCounts c)
                else Counts.exclusiveCounts c)
    = sumOver id (Counts.exclusiveCounts c) + (if i =? 0 then sampleCount else 0)).
  { destruct (i =? 0); [|lia]. rewrite sumOver_set. unfold getOr0, id.
    destruct (JSMap.get name (Counts.exclusiveCounts c)); lia. }
  destruct (JSSet.has name (Counts.seenMethods c)); cbn [Counts.exclusiveCounts];
    exact Hexc.
Qed.

Lemma creditFrame_distinct sampleCount i name c :
  distinctKeys (Counts.inclusiveCounts c) /\ distinctKeys (Counts.exclusiveCounts c) ->
  distinctKeys (Counts.inclusiveCounts (creditFrame sampleCount i name c))
  /\ distinctKeys (Counts.exclusiveCounts (creditFrame sampleCount i name c)).
Proof.
  intros [Hi He]. unfold creditFrame.
  destruct (JSSet.has name (Counts.seenMethods c));
    cbn [Counts.inclusiveCounts Counts.exclusiveCounts];
    (split; [|destruct (i =? 0)]); try assumption; apply distinctKeys_set; assumption.
Qed.

Lemma creditStack_exclusive_sum methodAddresses sampleCount addresses : forall i c,
  0 <= i ->
  sumOver id (Counts.exclusiveCounts
                (creditStack methodAddresses sampleCount i addresses c))
  = sumOver id (Counts.exclusiveCounts c)
    + (if i =? 0 then match addresses with [] => 0 | _ :: _ => sampleCount end else 0).
Proof.
  induction addresses as [|addr rest IH]; intros i c Hi; cbn [creditStack].
  - destruct (i =? 0); lia.
  - rewrite IH by lia. rewrite creditFrame_exclusive_sum.
    destruct (i + 1 =? 0) eqn:E; [apply Z.eqb_eq in E; lia|]. lia.
Qed.

Lemma creditStack_distinct methodAddresses sampleCount addresses : forall i c,
  distinctKeys (Counts.inclusiveCounts c) /\ distinctKeys (Counts.exclusiveCounts c) ->
  let c' := creditStack methodAddresses sampleCount i addresses c in
  distinctKeys (Counts.inclusiveCounts c') /\ distinctKeys (Counts.exclusiveCounts c').
Proof.
  induction addresses as [|addr rest IH]; intros i c H; cbn [creditStack]; [exact H|].
  apply IH. apply creditFrame_distinct. exact H.
Qed.

Lemma creditSamples_exclusive_sum methodAddresses stacks cpuSamples : forall counts,
  sumOver id (snd (fold_left (creditSample methodAddresses stacks) cpuSamples counts))
  = sumOver id (snd counts) + creditedSamples stacks cpuSamples.
Proof.
  induction cpuSamples as [|[stackId sampleCount] rest IH]; intros counts;
    cbn [fold_left creditedSamples fold_right fst snd];
    [symmetry; apply Z.add_0_r|].
  fold (creditedSamples stacks rest). rewrite IH. unfold creditSample, hasFrames.
  destruct (JSMap.get stackId stacks) as [stack|]; [|reflexivity].
  destruct (StackInfo.addresses stack) as [|a l]; [reflexivity|].
  cbn [snd]. rewrite creditStack_exclusive_sum by lia. cbn [Counts.exclusiveCounts].
  rewrite Z.eqb_refl. symmetry. apply Z.add_assoc.
Qed.

Lemma creditSamples_distinct methodAddresses stacks cpuSamples : forall counts,
  distinctKeys (fst counts) /\ distinctKeys (snd counts) ->
  let counts' := fold_left (creditSample methodAddresses stacks) cpuSamples counts in
  distinctKeys (fst counts') /\ distinctKeys (snd counts').
Proof.
  induction cpuSamples as [|[stackId sampleCount] rest IH]; intros counts H;
    cbn [fold_left]; [exact H|].
  apply IH. unfold creditSample.
  destruct (JSMap.get stackId stacks) as [stack|]; [|exact H].
  destruct (StackInfo.addresses stack) as [|a l]; [exact H|].
  cbn [fst snd].
  apply (creditStack_distinct methodAddresses sampleCount (a :: l) 0
           (Counts.mk JSSet.empty (fst counts) (snd counts))). exact H.
Qed.

(** The profiles of distinct names that the table does not hold yet are
    appended in the order of the names. *)
Lemma setProfiles_fresh inclusiveCounts exclusiveCounts names : forall profiles,
  NoDup (JSMap.keys profiles ++ names) ->
  fold_left (setProfile inclusiveCounts exclusiveCounts) names profiles
  = profiles ++ map (profileOf inclusiveCounts exclusiveCounts) names.
Proof.
  induction names as [|n names IH]; intros profiles Hd; cbn [fold_left map].
  - rewrite app_nil_r. reflexivity.
  - unfold setProfile at 2. cbv zeta. rewrite JSMap_set_absent.
    + rewrite IH.
      * rewrite <- app_assoc. reflexivity.
      * unfold JSMap.keys in *. rewrite map_app, <- app_assoc. exact Hd.
    + apply NoDup_remove_2 in Hd. intros Hin. apply Hd.
      apply in_or_app. left. exact Hin.
Qed.

Lemma sumOver_profiles inclusiveCounts exclusiveCounts names :
  sumOver MethodProfile.exclusiveCount
          (map (profileOf inclusiveCounts exclusiveCounts) names)
  = sumAt exclusiveCounts names.
Proof.
  unfold sumOver, sumAt.
  induction names as [|n names IH]; cbn [map fold_right]; [reflexivity|].
  rewrite IH. reflexivity.
Qed.

Lemma sumAt_absent (counts : JSMap.t jsstring Z) k v names :
  ~ In k names -> sumAt ((k, v) :: counts) names = sumAt counts names.
Proof.
  unfold sumAt. induction names as [|n names IH]; intros H; cbn [fold_right];
    [reflexivity|].
  rewrite IH by (intros Hin; apply H; right; exact Hin).
  unfold getOr0. cbn [JSMap.get].
  destruct (eq_dec n k) as [->|Hne]; [exfalso; apply H; left; reflexivity|].
  reflexivity.
Qed.

Lemma sumAt_head (counts : JSMap.t jsstring Z) k v names :
  NoDup names -> In k names -> getOr0 k counts = 0 ->
  sumAt ((k, v) :: counts) names = v + sumAt counts names.
Proof.
  intros Hd Hin H0. induction names as [|n names IH]; [contradiction|].
  inversion Hd as [|x l Hnot Hd']; subst.
  unfold sumAt. cbn [fold_right]. fold (sumAt ((k, v) :: counts) names).
  fold (sumAt counts names).
  destruct (eq_dec n k) as [->|Hne].
  - rewrite sumAt_absent by exact Hnot. rewrite H0.
    unfold getOr0. cbn [JSMap.get]. destruct (eq_dec k k); [lia | contradiction].
  - destruct Hin as [-> | Hin]; [contradiction|].
    rewrite IH by assumption.
    unfold getOr0 at 1. cbn [JSMap.get].
    destruct (eq_dec n k); [contradiction|]. fold (getOr0 n counts). lia.
Qed.

(** Over distinct names that cover the keys of a table, the counts of the
    names add up to the counts of the table. *)
Lemma sumAt_cover (counts : JSMap.t jsstring Z) names :
  NoDup names -> distinctKeys counts ->
  (forall k, In k (JSMap.keys counts) -> In k names) ->
  sumAt counts names = sumOver id counts.
Proof.
  intros Hd. induction counts as [|[k v] counts IH]; intros Hk Hcover.
  - unfold sumAt. clear. induction names as [|n names IH]; cbn [fold_right];
      [reflexivity|]. rewrite IH. reflexivity.
  - unfold distinctKeys in Hk. cbn [JSMap.keys map fst] in Hk.
    inversion Hk as [|x l Hnot Hk']; subst.
    rewrite sumAt_head.
    + rewrite sumOver_cons. rewrite IH; [reflexivity | exact Hk' |].
      intros k' Hin. apply Hcover. right. exact Hin.
    + exact Hd.
    + apply Hcover. left. reflexivity.
    + unfold getOr0. destruct (JSMap.get k counts) as [v'|] eqn:E; [|reflexivity].
      exfalso. apply Hnot. apply JSMap_get_In in E. apply (in_map fst _ _ E).
Qed.

(** X23: the exclusive counts of the profiles that [computeMethodProfiles]
    puts into an empty profile table add up to the samples of the stacks it
    walks, those whose stack id has a stack with at least one address: every
    such sample is the exclusive sample of exactly one name. *)
Theorem X23_exclusive_counts_total (w : World) :
  ParseResult.methodProfiles (result w) = [] ->
  sumOver MethodProfile.exclusiveCount
          (ParseResult.methodProfiles (result (computeMethodProfiles w)))
  = creditedSamples (Parser.stacks (this w)) (Parser.cpuSamples (this w)).
Proof.
  intros Hempty. unfold computeMethodProfiles. cbv zeta.
  cbn [result updResult ParseResult.methodProfiles ParseResult.set_methodProfiles].
  rewrite Hempty.
  set (counts := fold_left _ (Parser.cpuSamples (this w)) (JSMap.empty, JSMap.empty)).
  destruct (JSSet_ofList_spec (JSMap.keys (fst counts) ++ JSMap.keys (snd counts)))
    as [Hd Hin].
  rewrite setProfiles_fresh by exact Hd.
  cbn [app]. rewrite sumOver_profiles.
  assert (Hdist : distinctKeys (fst counts) /\ distinctKeys (snd counts)).
  { apply creditSamples_distinct. split; constructor. }
  rewrite sumAt_cover.
  - unfold counts. rewrite creditSamples_exclusive_sum. reflexivity.
  - exact Hd.
  - apply Hdist.
  - intros k Hk. apply Hin. apply in_or_app. right. exact Hk.
Qed.

(** X23 on a parser with three samples on a stack of two frames, five on a
    stack without frames and four on a stack id without a stack. *)
Lemma X23_exclusive_counts_total_witness :
  sumOver MethodProfile.exclusiveCount
          (ParseResult.methodProfiles (result (computeMethodProfiles sampledWorld)))
  = 3.
Proof.
  rewrite (X23_exclusive_counts_total sampledWorld); reflexivity.
Defined.

(** ** The trace block *)

Lemma readSigned_at {A} (width : Z) (data : list byte) (off : Z) (w : World)
    (k : Z -> LW A) :
  0 <= off -> off + width <= buflen data ->
  bind (onLocal (readFixed width bufReadS)) k (mkReader data off, w)
  = k (signedAt data off width) (mkReader data (off + width), w).
Proof.
  intros H0 H1. unfold bind, onLocal, zoom, readFixed, hasBytes, bufReadS, bufReadU.
  cbn [fst snd buffer _offset].
  destruct (off + width <=? buflen data) eqn:E1; [|apply Z.leb_gt in E1; lia].
  destruct (off <? 0) eqn:E2; [apply Z.ltb_lt in E2; lia|].
  destruct (buflen data <? off + width) eqn:E3; [apply Z.ltb_lt in E3; lia|].
  reflexivity.
Qed.

Lemma readSigned_short {A} (width : Z) (data : list byte) (off : Z) (w : World)
    (k : Z -> LW A) :
  buflen data < off + width ->
  bind (onLocal (readFixed width bufReadS)) k (mkReader data off, w)
  = (Throw (EndOfBuffer off), (mkReader data off, w)).
Proof.
  intros H1. unfold bind, onLocal, zoom, readFixed, hasBytes.
  cbn [fst snd buffer _offset].
  destruct (off + width <=? buflen data) eqn:E1; [apply Z.leb_le in E1; lia|].
  reflexivity.
Qed.

Lemma outer_modify {L A} (f : World -> World) (l : L) (w : World)
    (k : unit -> M (L * World) A) :
  bind (onOuter (modify f)) k (l, w) = k tt (l, f w).
Proof. reflexivity. Qed.

Lemma parseTraceBlob_full data w :
  48 <= buflen data ->
  parseTraceBlob data w
  = (Ok (traceInfoAt data),
     updThis (Parser.set_processId (signedAt data 36 4))
       (updThis (Parser.set_pointerSize (signedAt data 32 4)) w)).
Proof.
  intros H. unfold parseTraceBlob, with_local, readInt16LE, readInt32LE, readInt64LE.
  rewrite (readSigned_at 2 data 0) by lia.
  rewrite (readSigned_at 2 data 2) by lia.
  rewrite (readSigned_at 2 data 4) by lia.
  rewrite (readSigned_at 2 data 6) by lia.
  rewrite (readSigned_at 2 data 8) by lia.
  rewrite (readSigned_at 2 data 10) by lia.
  rewrite (readSigned_at 2 data 12) by lia.
  rewrite (readSigned_at 2 data 14) by lia.
  cbv zeta.
  rewrite (readSigned_at 8 data 16) by lia.
  rewrite (readSigned_at 8 data 24) by lia.
  rewrite (readSigned_at 4 data 32) by lia.
  rewrite outer_modify.
  rewrite (readSigned_at 4 data 36) by lia.
  rewrite outer_modify.
  rewrite (readSigned_at 4 data 40) by lia.
  rewrite (readSigned_at 4 data 44) by lia.
  reflexivity.
Qed.

Ltac read_or_stop data width off :=
  destruct (Z_lt_le_dec (buflen data) (off + width));
  [ rewrite (readSigned_short width data off) by assumption;
    exists off; split; reflexivity
  | rewrite (readSigned_at width data off) by lia ].

Lemma parseTraceBlob_short data w :
  buflen data < 48 ->
  exists off,
    fst (parseTraceBlob data w) = Throw (EndOfBuffer off)
    /\ result (snd (parseTraceBlob data w)) = result w.
Proof.
  intros H. unfold parseTraceBlob, with_local, readInt16LE, readInt32LE, readInt64LE.
  read_or_stop data 2 0. read_or_stop data 2 2. read_or_stop data 2 4.
  read_or_stop data 2 6. read_or_stop data 2 8. read_or_stop data 2 10.
  read_or_stop data 2 12. read_or_stop data 2 14. cbv zeta.
  read_or_stop data 8 16. read_or_stop data 8 24. read_or_stop data 4 32.
  rewrite outer_modify. read_or_stop data 4 36.
  rewrite outer_modify. read_or_stop data 4 40.
  read_or_stop data 4 44. lia.
Qed.

(** X24: a trace block of at least 48 bytes yields the trace information
    that its first 48 bytes spell out, in signed little-endian numbers: the
    date in eight numbers of two bytes, of which the third, the day of the
    week, is dropped and the second is the month, counted from one; then
    the ticks and the tick frequency in eight bytes each; then the pointer
    size, the process id, the number of processors and the sampling rate in
    four bytes each. The parser takes over the pointer size and the process
    id, and nothing else changes. A shorter block makes [parseTraceBlob]
    throw at the offset where the bytes run out, and leaves the result as
    it was. *)
Theorem X24_parseTraceBlob_layout (data : list byte) (w : World) :
  (48 <= buflen data ->
   parseTraceBlob data w
   = (Ok (traceInfoAt data),
      updThis (Parser.set_processId (TraceInfo.processId (traceInfoAt data)))
        (updThis (Parser.set_pointerSize (TraceInfo.pointerSize (traceInfoAt data))) w)))
  /\ (buflen data < 48 ->
      exists off,
        fst (parseTraceBlob data w) = Throw (EndOfBuffer off)
        /\ result (snd (parseTraceBlob data w)) = result w).
Proof.
  split; [apply parseTraceBlob_full | apply parseTraceBlob_short].
Qed.

(** X24 on a block of 48 bytes. *)
Lemma X24_parseTraceBlob_layout_witness :
  fst (parseTraceBlob traceBlock sampledWorld)
  = Ok (TraceInfo.mk (mkDateUTC 2026 10 3 12 30 45 500) 1000 10000000 8 4660 4 1).
Proof.
  rewrite (proj1 (X24_parseTraceBlob_layout traceBlock sampledWorld));
    [reflexivity | vm_compute; discriminate].
Defined.

(** ** The stack ids of the allocation tables *)

Lemma bumped_count size old :
  (forall data, old = Some data -> 1 <= CountSize.count data) ->
  1 <= CountSize.count (bumped size old).
Proof.
  intros H. destruct old as [data|]; cbn [bumped CountSize.count]; [|lia].
  specialize (H data eq_refl). lia.
Qed.

Lemma addAllocation_sampledOnStacks typeName size timestamp stackId w :
  typeName <> [] ->
  sampledOnStacks (result w) ->
  sampledOnStacks (result (addAllocation typeName size timestamp stackId w)).
Proof.
  intros Hne (Hsample & Hst & Hts). unfold sampledOnStacks.
  rewrite addAllocation_typeStackDistribution, addAllocation_allocationSamples.
  destruct (0 <? stackId) eqn:Epos; [|exact (conj Hsample (conj Hst Hts))].
  apply Z.ltb_lt in Epos. split; [|split].
  - intros s sample Hget. unfold addAllocationSample in Hget.
    destruct (JSMap.get stackId (ParseResult.allocationSamples (result w)))
      as [existing|] eqn:E; cbv zeta in Hget; rewrite JSMap_get_set in Hget;
      (destruct (eq_dec s stackId) as [->|Hs]; [|apply (Hsample s sample Hget)]);
      inversion Hget; subst; clear Hget; cbn [AllocationSample.count];
      (split; [exact Epos|]); [|lia].
    destruct (Hsample stackId existing E). lia.
  - intros s t data. rewrite lookupStackType_add.
    destruct (eq_dec s stackId) as [->|Hs]; [|apply Hst].
    destruct (eq_dec t typeName) as [->|Ht]; [|apply Hst].
    intros H. inversion H; subst; clear H.
    repeat split; [exact Epos | exact Hne |].
    apply bumped_count. intros data Hold. apply (Hst _ _ _ Hold).
  - intros t s data. rewrite lookupTypeStack_add.
    destruct (eq_dec t typeName) as [->|Ht]; [|apply Hts].
    destruct (eq_dec s stackId) as [->|Hs]; [|apply Hts].
    intros H. inversion H; subst; clear H.
    repeat split; [exact Epos | exact Hne |].
    apply bumped_count. intros data Hold. apply (Hts _ _ _ Hold).
Qed.

Lemma parseObjectStream_sampledOnStacks w :
  sampledOnStacks (result w) -> sampledOnStacks (result (parseObjectStream w)).
Proof.
  apply (parseObjectStream_preserves (fun w => sampledOnStacks (result w)));
    try (intros; assumption).
  intros w0 typeName size0 timestamp stackId Hne H.
  apply addAllocation_sampledOnStacks; assumption.
Qed.

Lemma sampledOnStacks_afterObjectStream w1 :
  sampledOnStacks (result w1) -> sampledOnStacks (result (afterObjectStream w1)).
Proof.
  unfold sampledOnStacks.
  rewrite afterObjectStream_typeStackDistribution, afterObjectStream_allocationSamples.
  exact (fun H => H).
Qed.

(** X25: the allocation tables by stack of the result of a parse hold no
    allocation without a stack: every stack id in [allocationSamples] and
    under every type of [typeStackDistribution] is positive, no type name
    in them is empty, and every count in them is at least one. *)
Theorem X25_sampled_allocations_have_stacks (buf : list byte) :
  (forall stackId sample,
     JSMap.get stackId (ParseResult.allocationSamples (parse buf)) = Some sample ->
     0 < stackId /\ 1 <= AllocationSample.count sample)
  /\ (forall stackId typeName data,
        lookupStackType (ParseResult.allocationSamples (parse buf)) stackId typeName
        = Some data ->
        0 < stackId /\ typeName <> [] /\ 1 <= CountSize.count data)
  /\ (forall typeName stackId data,
        lookupTypeStack (ParseResult.typeStackDistribution (parse buf)) typeName stackId
        = Some data ->
        0 < stackId /\ typeName <> [] /\ 1 <= CountSize.count data).
Proof.
  change (sampledOnStacks (parse buf)).
  destruct (parse_cases buf) as [[e He] | (_ & _ & r & Hr)].
  - rewrite He. repeat split; discriminate.
  - rewrite Hr. unfold finishParse. apply sampledOnStacks_afterObjectStream.
    apply parseObjectStream_sampledOnStacks. repeat split; discriminate.
Qed.

(** ** The providers of the debug information *)

Lemma parseObjectStream_providersListed w :
  providersListed w -> providersListed (parseObjectStream w).
Proof.
  apply (parseObjectStream_preserves providersListed); try (intros; assumption).
  - intros w0 providerName [Hd Hin]. split.
    + apply JSSet_add_NoDup. exact Hd.
    + intros metadataId meta Hget. apply JSSet_add_In. left.
      apply (Hin metadataId meta Hget).
  - intros w0 metadata Hp [Hd Hin]. split; [exact Hd|].
    intros metadataId meta Hget.
    cbn [setMetadata this updThis Parser.metadata Parser.set_metadata] in Hget.
    rewrite JSMap_get_set in Hget.
    destruct (eq_dec metadataId (EventMetadata.metadataId metadata)) as [->|Hne].
    + inversion Hget; subst. exact Hp.
    + apply (Hin metadataId meta Hget).
Qed.

(** X26: the debug information of the result of a parse lists every
    provider once, and lists the provider of every schema of the metadata
    table. *)
Theorem X26_providers_listed (buf : list byte) :
  let d := ParseResult.debugInfo (parse buf) in
  NoDup (ResultDebugInfo.providers d)
  /\ forall metadataId meta,
       JSMap.get metadataId (ParseResult.metadata (parse buf)) = Some meta ->
       In (EventMetadata.providerName meta) (ResultDebugInfo.providers d).
Proof.
  destruct (parse_cases buf) as [[e He] | (_ & _ & r & Hr)].
  - rewrite He. cbn. split; [constructor | intros metadataId meta H; discriminate].
  - rewrite Hr. unfold finishParse.
    match goal with
    | |- context [parseObjectStream ?w0] =>
        assert (H : providersListed (parseObjectStream w0));
        [ apply parseObjectStream_providersListed; split;
          [constructor | intros metadataId meta Hget; discriminate]
        | generalize dependent (parseObjectStream w0) ]
    end.
    clear Hr. intros w1 [Hd Hin].
    unfold afterObjectStream, computeMethodProfiles.
    cbn [result updResult this ParseResult.debugInfo ParseResult.set_debugInfo
         ParseResult.metadata ParseResult.set_methodProfiles ParseResult.set_errors
         ParseResult.set_stacks ParseResult.set_metadata ResultDebugInfo.providers].
    split; [exact Hd | exact Hin].
Qed.

(** ** The recovery after an unknown type *)

Lemma skipBlob_ok r :
  inBounds r -> exists r', skipBlob r = (Ok tt, r') /\ forwardFrom r r'.
Proof.
  intros Hb. unfold skipBlob, inBounds, forwardFrom, remaining in *.
  destruct (4 <=? buflen (buffer r) - _offset r) eqn:E4.
  - apply Z.leb_le in E4.
    unfold bind, readInt32LE, readFixed, hasBytes, bufReadS, bufReadU.
    replace (_offset r + 4 <=? buflen (buffer r)) with true
      by (symmetry; apply Z.leb_le; lia).
    replace (_offset r <? 0) with false by (symmetry; apply Z.ltb_ge; lia).
    replace (buflen (buffer r) <? _offset r + 4) with false
      by (symmetry; apply Z.ltb_ge; lia).
    cbn [negb orb].
    match goal with
    | |- context [if ?c then _ else _] => destruct c eqn:Ec
    end.
    + unfold skip. apply andb_prop in Ec. destruct Ec as [Ec _]. rewrite Ec.
      eexists. split; [reflexivity|]. unfold set_offset. cbn [buffer _offset].
      split; [reflexivity | lia].
    + eexists. split; [reflexivity|]. unfold set_offset. cbn [buffer _offset].
      split; [reflexivity | lia].
  - exists r. split; [reflexivity|]. split; [reflexivity | lia].
Qed.

Lemma skipToEndObject_loop_ok fuel : forall depth r,
  inBounds r ->
  exists r', skipToEndObject_loop fuel depth r = (Ok tt, r') /\ forwardFrom r r'.
Proof.
  induction fuel as [|fuel IH]; intros depth r Hb.
  - exists r. split; [reflexivity|]. unfold inBounds, forwardFrom in *.
    split; [reflexivity | lia].
  - cbn [skipToEndObject_loop].
    destruct ((0 <? remaining r) && (0 <? depth)) eqn:Eg.
    + apply andb_prop in Eg. destruct Eg as [Erem _]. apply Z.ltb_lt in Erem.
      unfold bind at 1. unfold readByte, hasBytes.
      unfold remaining, inBounds in *.
      replace (_offset r + 1 <=? buflen (buffer r)) with true
        by (symmetry; apply Z.leb_le; lia).
      cbn [negb].
      set (r1 := set_offset (_offset r + 1) r).
      assert (Hb1 : inBounds r1).
      { unfold inBounds, r1, set_offset. cbn [buffer _offset]. lia. }
      assert (Hstep : forall d, exists r',
                skipToEndObject_loop fuel d r1 = (Ok tt, r') /\ forwardFrom r r').
      { intros d. destruct (IH d r1 Hb1) as (r' & Hr & Hf). exists r'.
        split; [exact Hr|]. unfold forwardFrom, r1, set_offset in *.
        cbn [buffer _offset] in *. destruct Hf as [Hf1 Hf2]. split; [exact Hf1 | lia]. }
      destruct (tagIs _ SerializationTag.EndObject); [apply Hstep|].
      destruct (tagIs _ SerializationTag.BeginPrivateObject
                || tagIs _ SerializationTag.BeginObject); [apply Hstep|].
      destruct (tagIs _ SerializationTag.Blob); [|apply Hstep].
      unfold bind. destruct (skipBlob_ok r1 Hb1) as (r2 & Hr2 & Hf2). rewrite Hr2.
      assert (Hb2 : inBounds r2).
      { unfold inBounds, forwardFrom in *. destruct Hf2 as [_ Hf2]. lia. }
      destruct (IH depth r2 Hb2) as (r' & Hr & Hf). exists r'.
      split; [exact Hr|]. unfold forwardFrom, r1, set_offset in *.
      cbn [buffer _offset] in *. destruct Hf as [Hf1 Hf3]. destruct Hf2 as [Hf4 Hf5].
      split; [congruence | lia].
    + exists r. split; [reflexivity|]. unfold inBounds, forwardFrom in *.
      split; [reflexivity | lia].
Qed.

(** X27: with its reader inside the buffer, [skipToEndObject] never
    throws: every read of it is guarded by a test of the bytes that are
    left. It changes nothing but the reader, which keeps its buffer and
    moves forward without leaving it. *)
Theorem X27_skipToEndObject_recovers (w : World) :
  inBounds (Parser.reader (this w)) ->
  exists r',
    skipToEndObject w = (Ok tt, updThis (Parser.set_reader r') w)
    /\ forwardFrom (Parser.reader (this w)) r'.
Proof.
  intros Hb. unfold skipToEndObject, onReader, zoom.
  destruct (skipToEndObject_loop_ok
              (Z.to_nat (remaining (Parser.reader (this w)))) 1
              (Parser.reader (this w)) Hb) as (r' & Hr & Hf).
  exists r'. rewrite Hr. split; [reflexivity | exact Hf].
Qed.

(** X27 on a reader in front of a nested object. *)
Lemma X27_skipToEndObject_recovers_witness :
  exists r',
    skipToEndObject nestedObjectWorld
    = (Ok tt, updThis (Parser.set_reader r') nestedObjectWorld)
    /\ forwardFrom (Parser.reader (this nestedObjectWorld)) r'.
Proof.
  apply (X27_skipToEndObject_recovers nestedObjectWorld).
  vm_compute. split; discriminate.
Defined.

(** ** The dispatch of an event *)

Lemma handlersKeep_refl w : handlersKeep w w.
Proof. repeat split. Qed.

(** The handlers that [processEvent] calls after it has counted the event
    keep what [handlersKeep] names. *)
Lemma processEvent_handlers_keep metadataId threadId timestamp stackId payload w :
  handlersKeep (countEvent metadataId w)
    (snd (processEvent metadataId threadId timestamp stackId payload w)).
Proof.
  assert (Halloc : forall w0 p t s,
            preserves (handlersKeep w0) (parseAllocationEvent p t s)).
  { intros w0. apply parseAllocationEvent_preserves.
    intros w1 typeName size0 ts sid _ H. exact H. }
  assert (Hload : forall w0 p,
            preserves (handlersKeep w0) (parseMethodLoadVerboseEvent p)).
  { intros w0. apply parseMethodLoadVerboseEvent_preserves. intros w1 info H. exact H. }
  assert (Hjit : forall w0 p,
            preserves (handlersKeep w0) (parseMethodJittingStartedEvent p)).
  { intros w0. apply parseMethodJittingStartedEvent_preserves.
    intros w1 info _ _ H. exact H. }
  assert (Hcpu : forall w0 s t, preserves (handlersKeep w0) (processCpuSample s t)).
  { intros w0. apply processCpuSample_preserves. intros w1 sid _ H. exact H. }
  unfold processEvent. unfold bind at 1. unfold modify at 1.
  fold (countEvent metadataId w).
  match goal with
  | |- handlersKeep ?w1 (snd (?m ?w1)) =>
      refine ((_ : preserves (handlersKeep w1) m) w1 (handlersKeep_refl w1))
  end.
  preserves_tac. apply preserves_modify. intros w1 H. exact H.
Qed.

(** X28: [processEvent] never throws and counts every event once: the
    total of the events and the count under the metadata id of the event
    grow by one, whatever the event is. Its handlers leave the schemas, the
    stacks, the reader and the error list of the parser alone, and an
    event whose metadata id has no schema changes nothing but the two
    counts. *)
Theorem X28_processEvent_counts (metadataId threadId timestamp stackId : Z)
    (payload : list byte) (w : World) :
  let w' := snd (processEvent metadataId threadId timestamp stackId payload w) in
  let d := Parser.debugInfo (this w) in
  let d' := Parser.debugInfo (this w') in
  fst (processEvent metadataId threadId timestamp stackId payload w) = Ok tt
  /\ DebugInfo.totalEvents d' = DebugInfo.totalEvents d + 1
  /\ DebugInfo.eventCountsByMetadataId d'
     = JSMap.set metadataId (getOr0 metadataId (DebugInfo.eventCountsByMetadataId d) + 1)
                 (DebugInfo.eventCountsByMetadataId d)
  /\ Parser.metadata (this w') = Parser.metadata (this w)
  /\ Parser.stacks (this w') = Parser.stacks (this w)
  /\ Parser.reader (this w') = Parser.reader (this w)
  /\ Parser.errors (this w') = Parser.errors (this w)
  /\ (JSMap.get metadataId (Parser.metadata (this w)) = None ->
      w' = countEvent metadataId w).
Proof.
  cbv zeta. split; [apply processEvent_neverThrows|].
  destruct (processEvent_handlers_keep metadataId threadId timestamp stackId payload w)
    as (H1 & H2 & H3 & H4 & H5 & H6).
  rewrite H1, H2, H3, H4, H5, H6.
  repeat split.
  intros Hnone. unfold processEvent, bind, modify, gets. cbn [fst snd].
  fold (countEvent metadataId w).
  change (Parser.metadata (this (countEvent metadataId w)))
    with (Parser.metadata (this w)).
  rewrite Hnone. reflexivity.
Qed.
